(** * AlphaBlokus: the Blokus rules engine and the prior-guided tree search

    A shallow embedding of [game_engine/pieces.py], [game_engine/board.py],
    [game_engine/rules.py], [game_engine/scoring.py], [rl_agents/mcts.py],
    [rl_agents/policy_wrapper.py], [training/replay_buffer.py],
    [training/evaluator.py] and [training/self_play.py], followed by the
    properties of the written specification that were checked against them
    and by further properties of the code.

    Conventions.
    - Python integers are [Z]; a Python float is the rational [Q] it
      denotes.  The search is modelled in exact arithmetic; module
      [Float32] has [decode_policy] and [expand_node] once more with the
      roundings of single precision explicit.
    - A Python [set] is a [gset]; where the program iterates over a set the
      model iterates over [elements], one of the orders Python may use.
    - A Python [list] is a [list]; indexing follows Python: a negative index
      counts from the end and an index out of range raises [IndexError].
    - A Python [dict] whose iteration order matters is an association list
      in insertion order.
    - A function that can raise returns a [result]. *)

From Stdlib Require Import ZArith QArith Qabs Qround Qpower Lia Lqa.
From stdpp Require Import base decidable list gmap.

Local Open Scope Z_scope.

(** ** Exceptions *)

Inductive exn : Set :=
| KeyError
| IndexError
| ValueError
| AttributeError
| TypeError
| OutOfFuel.   (* not a Python exception: a [while] loop of the model was cut off *)

Inductive result (A : Type) : Type :=
| Ok (a : A)
| Raise (e : exn).
Arguments Ok {A} a.
Arguments Raise {A} e.

#[export] Instance exn_eq_dec : EqDecision exn.
Proof. solve_decision. Defined.

#[export] Instance result_eq_dec {A} `{EqDecision A} : EqDecision (result A).
Proof. solve_decision. Defined.

#[export] Instance result_ret : MRet result := λ A a, Ok a.

#[export] Instance result_bind : MBind result :=
  λ A B f m, match m with Ok a => f a | Raise e => Raise e end.

Definition is_ok {A} (m : result A) : Prop :=
  match m with Ok _ => True | Raise _ => False end.

(** A [for] loop whose body may raise. *)
Fixpoint foldlM {A B} (f : B → A → result B) (b : B) (l : list A) : result B :=
  match l with
  | [] => Ok b
  | x :: xs => b' ← f b x; foldlM f b' xs
  end.

(** ** Python lists *)

(** The position a Python index denotes in a sequence of length [n]. *)
Definition py_index (n : nat) (i : Z) : result nat :=
  if bool_decide (0 ≤ i < Z.of_nat n) then Ok (Z.to_nat i)
  else if bool_decide (- Z.of_nat n ≤ i < 0) then Ok (Z.to_nat (i + Z.of_nat n))
  else Raise IndexError.

(** [l[i]] *)
Definition py_getitem {A} (l : list A) (i : Z) : result A :=
  k ← py_index (length l) i;
  match l !! k with
  | Some x => Ok x
  | None => Raise IndexError
  end.

(** [l[i] = x] *)
Definition py_setitem {A} (l : list A) (i : Z) (x : A) : result (list A) :=
  k ← py_index (length l) i;
  Ok (<[k := x]> l).

(** [min(...)] and [max(...)] of a generator; both raise on an empty one. *)
Definition py_min (l : list Z) : result Z :=
  match l with
  | [] => Raise ValueError
  | x :: xs => Ok (foldl Z.min x xs)
  end.

Definition py_max (l : list Z) : result Z :=
  match l with
  | [] => Raise ValueError
  | x :: xs => Ok (foldl Z.max x xs)
  end.

(** [s.remove(x)] on a set. *)
Definition set_remove (x : Z) (s : gset Z) : result (gset Z) :=
  if bool_decide (x ∈ s) then Ok (s ∖ {[ x ]}) else Raise KeyError.

(** ** pieces.py *)

Definition cell : Type := Z * Z.

Definition normalize_shape (shape : gset cell) : result (gset cell) :=
  min_r ← py_min (fst <$> elements shape);
  min_c ← py_min (snd <$> elements shape);
  let shifted : gset cell := set_map (λ p : cell, (p.1 - min_r, p.2 - min_c)) shape in
  mret shifted.

Definition rotate_90 (shape : gset cell) : result (gset cell) :=
  let rotated : gset cell := set_map (λ p : cell, (p.2, - p.1)) shape in
  normalize_shape rotated.

Definition flip_horizontal (shape : gset cell) : result (gset cell) :=
  let flipped : gset cell := set_map (λ p : cell, (p.1, - p.2)) shape in
  normalize_shape flipped.

(** The body of [for _ in range(4)], run [n] times. *)
Fixpoint orientation_loop (n : nat) (current : gset cell)
    (orientations : gset (gset cell)) : result (gset (gset cell)) :=
  match n with
  | O => mret orientations
  | S n' =>
      current ← rotate_90 current;
      let orientations := orientations ∪ {[ current ]} in
      flipped ← flip_horizontal current;
      let orientations := orientations ∪ {[ flipped ]} in
      orientation_loop n' current orientations
  end.

Definition get_all_orientations (shape : gset cell) : result (list (gset cell)) :=
  current ← normalize_shape shape;
  orientations ← orientation_loop 4 current ∅;
  mret (elements orientations).

Definition shape_of (cells : list cell) : gset cell := list_to_set cells.

Definition ALL_SHAPES : list (gset cell) :=
  [ shape_of [(0,0)];
    shape_of [(0,0);(0,1)];
    shape_of [(0,0);(0,1);(0,2)];
    shape_of [(0,0);(1,0);(1,1)];
    shape_of [(0,0);(0,1);(0,2);(1,1)];
    shape_of [(0,0);(1,0);(2,0);(2,1)];
    shape_of [(0,1);(0,2);(1,0);(1,1)];
    shape_of [(0,0);(0,1);(1,0);(1,1)];
    shape_of [(0,0);(0,1);(0,2);(0,3)];
    shape_of [(0,1);(1,0);(1,1);(1,2);(2,0)];
    shape_of [(0,0);(0,1);(0,2);(0,3);(0,4)];
    shape_of [(0,0);(1,0);(2,0);(3,0);(3,1)];
    shape_of [(0,0);(0,1);(1,0);(1,1);(2,0)];
    shape_of [(0,0);(1,0);(2,0);(3,0);(3,1)];
    shape_of [(0,0);(0,1);(0,2);(1,1);(2,1)];
    shape_of [(0,0);(0,2);(1,0);(1,1);(1,2)];
    shape_of [(0,0);(1,0);(2,0);(3,0);(3,1)];
    shape_of [(0,2);(1,1);(1,2);(2,0);(2,1)];
    shape_of [(0,1);(1,0);(1,1);(1,2);(2,1)];
    shape_of [(0,0);(1,0);(2,0);(3,0);(2,1)];
    shape_of [(0,0);(0,1);(1,1);(1,2);(2,2)] ].

(** ** board.py *)

Definition NUM_PLAYERS : Z := 4.
Definition BOARD_SIZE : Z := 20.

Record BoardState : Type := mkBoardState {
  board_grid : list (list (option Z));
  pieces_remaining : list (gset Z);
  current_player : Z;
  moves_made : list Z;
  consecutive_passes : Z
}.

(** [BoardState()] *)
Definition BoardState_init : BoardState :=
  {| board_grid :=
       replicate (Z.to_nat BOARD_SIZE) (replicate (Z.to_nat BOARD_SIZE) None);
     pieces_remaining :=
       replicate (Z.to_nat NUM_PLAYERS) (list_to_set (seqZ 0 21));
     current_player := 0;
     moves_made := replicate (Z.to_nat NUM_PLAYERS) 0;
     consecutive_passes := 0 |}.

(** ** rules.py *)

Definition Move : Type := Z * Z * Z * gset cell.

Definition CORNER_POSITIONS : list cell :=
  [ (0, 0); (0, BOARD_SIZE - 1); (BOARD_SIZE - 1, 0);
    (BOARD_SIZE - 1, BOARD_SIZE - 1) ].

(** [0 <= rr < BOARD_SIZE and 0 <= cc < BOARD_SIZE] *)
Definition on_board (rr cc : Z) : bool :=
  bool_decide (0 ≤ rr < BOARD_SIZE) && bool_decide (0 ≤ cc < BOARD_SIZE).

(** [grid[rr][cc]] *)
Definition grid_get (grid : list (list (option Z))) (rr cc : Z) : result (option Z) :=
  row ← py_getitem grid rr;
  py_getitem row cc.

(** The first loop of [check_legal_move]: [None] stands for its
    [return False], [Some placed_squares] for running to the end. *)
Fixpoint gather_squares (grid : list (list (option Z))) (row_off col_off : Z)
    (coords : list cell) (placed_squares : list cell) : result (option (list cell)) :=
  match coords with
  | [] => mret (Some placed_squares)
  | (r, c) :: coords' =>
      let rr := r + row_off in
      let cc := c + col_off in
      if negb (on_board rr cc) then mret None
      else
        v ← grid_get grid rr cc;
        if bool_decide (v ≠ None) then mret None
        else gather_squares grid row_off col_off coords' (placed_squares ++ [(rr, cc)])
  end.

Definition edge_neighbors : list cell := [(0,1); (0,-1); (1,0); (-1,0)].
Definition corner_neighbors : list cell := [(1,1); (1,-1); (-1,1); (-1,-1)].

(** [0 <= nr < BOARD_SIZE and 0 <= nc < BOARD_SIZE and grid[nr][nc] == color] *)
Definition same_color_at (grid : list (list (option Z))) (color nr nc : Z) : result bool :=
  if on_board nr nc then
    v ← grid_get grid nr nc;
    mret (bool_decide (v = Some color))
  else mret false.

(** The inner loop over [edge_neighbors]: [true] when it hits [return False]. *)
Fixpoint edge_scan (grid : list (list (option Z))) (color rr cc : Z)
    (dirs : list cell) : result bool :=
  match dirs with
  | [] => mret false
  | (dr, dc) :: dirs' =>
      hit ← same_color_at grid color (rr + dr) (cc + dc);
      if hit : bool then mret true else edge_scan grid color rr cc dirs'
  end.

(** The inner loop over [corner_neighbors], threading [corner_contact]. *)
Fixpoint corner_scan (grid : list (list (option Z))) (color rr cc : Z)
    (dirs : list cell) (corner_contact : bool) : result bool :=
  match dirs with
  | [] => mret corner_contact
  | (dr, dc) :: dirs' =>
      hit ← same_color_at grid color (rr + dr) (cc + dc);
      corner_scan grid color rr cc dirs' (if hit : bool then true else corner_contact)
  end.

(** The loop over [placed_squares]: [None] stands for its [return False],
    [Some corner_contact] for running to the end. *)
Fixpoint adjacency_scan (grid : list (list (option Z))) (color : Z)
    (placed_squares : list cell) (corner_contact : bool) : result (option bool) :=
  match placed_squares with
  | [] => mret (Some corner_contact)
  | (rr, cc) :: rest =>
      edge ← edge_scan grid color rr cc edge_neighbors;
      if edge : bool then mret None
      else
        corner_contact ← corner_scan grid color rr cc corner_neighbors corner_contact;
        adjacency_scan grid color rest corner_contact
  end.

Definition check_legal_move (state : BoardState) (move : Move) : result bool :=
  let '(piece_id, row_off, col_off, shape_coords) := move in
  let color := current_player state in
  remaining ← py_getitem (pieces_remaining state) color;
  if bool_decide (piece_id ∉ remaining) then mret false
  else
    gathered ← gather_squares (board_grid state) row_off col_off (elements shape_coords) [];
    match gathered with
    | None => mret false
    | Some placed_squares =>
        made ← py_getitem (moves_made state) color;
        if bool_decide (made = 0) then
          corner ← py_getitem CORNER_POSITIONS color;
          if bool_decide (corner ∉ placed_squares) then mret false
          else mret true
        else
          scanned ← adjacency_scan (board_grid state) color placed_squares false;
          match scanned with
          | None => mret false
          | Some corner_contact => if negb corner_contact then mret false else mret true
          end
    end.

(** [range(n)] *)
Definition py_range (n : Z) : list Z := seqZ 0 n.

Definition get_legal_moves (state : BoardState) : result (list Move) :=
  let color := current_player state in
  available_pieces ← py_getitem (pieces_remaining state) color;
  foldlM (λ legal_moves piece_id,
    shape ← py_getitem ALL_SHAPES piece_id;
    orientations ← get_all_orientations shape;
    foldlM (λ legal_moves orientation,
      max_r ← py_max (fst <$> elements orientation);
      max_c ← py_max (snd <$> elements orientation);
      foldlM (λ legal_moves row_off,
        foldlM (λ legal_moves col_off,
          let move_candidate : Move := (piece_id, row_off, col_off, orientation) in
          legal ← check_legal_move state move_candidate;
          if legal : bool then mret (legal_moves ++ [move_candidate])
          else mret legal_moves)
        legal_moves (py_range (BOARD_SIZE - max_c)))
      legal_moves (py_range (BOARD_SIZE - max_r)))
    legal_moves orientations)
  [] (elements available_pieces).

(** [grid[rr][cc] = color] *)
Definition grid_set (grid : list (list (option Z))) (rr cc color : Z)
    : result (list (list (option Z))) :=
  row ← py_getitem grid rr;
  row' ← py_setitem row cc (Some color);
  py_setitem grid rr row'.

(** The body of [for (r, c) in shape_coords] in [apply_move]. *)
Definition mark_square (row_off col_off color : Z) (grid : list (list (option Z)))
    (p : cell) : result (list (list (option Z))) :=
  grid_set grid (p.1 + row_off) (p.2 + col_off) color.

(** [apply_move] on the value a state holds; the object-level account, with
    [clone] and the in-place updates, is in module [Heap] below. *)
Definition apply_move (state : BoardState) (move : option Move) : result BoardState :=
  let color := current_player state in
  new_state ←
    match move with
    | None =>
        mret {| board_grid := board_grid state;
                pieces_remaining := pieces_remaining state;
                current_player := current_player state;
                moves_made := moves_made state;
                consecutive_passes := consecutive_passes state + 1 |}
    | Some (piece_id, row_off, col_off, shape_coords) =>
        remaining ← py_getitem (pieces_remaining state) color;
        remaining' ← set_remove piece_id remaining;
        pieces' ← py_setitem (pieces_remaining state) color remaining';
        grid' ← foldlM (mark_square row_off col_off color)
                 (board_grid state) (elements shape_coords);
        made ← py_getitem (moves_made state) color;
        moves' ← py_setitem (moves_made state) color (made + 1);
        mret {| board_grid := grid';
                pieces_remaining := pieces';
                current_player := current_player state;
                moves_made := moves';
                consecutive_passes := 0 |}
    end;
  mret {| board_grid := board_grid new_state;
          pieces_remaining := pieces_remaining new_state;
          current_player := (color + 1) `mod` 4;
          moves_made := moves_made new_state;
          consecutive_passes := consecutive_passes new_state |}.

(** The loop [for color in range(4)] of [is_terminal]: [false] when it hits
    [return False]. *)
Fixpoint all_hands_empty (pieces : list (gset Z)) (colors : list Z) : result bool :=
  match colors with
  | [] => mret true
  | color :: colors' =>
      remaining ← py_getitem pieces color;
      if bool_decide (0 < Z.of_nat (size remaining)) then mret false
      else all_hands_empty pieces colors'
  end.

Definition is_terminal (state : BoardState) : result bool :=
  if bool_decide (consecutive_passes state >= 4) then mret true
  else all_hands_empty (pieces_remaining state) (py_range 4).

(** ** scoring.py *)

Definition compute_final_scores (state : BoardState) : result (list Z) :=
  foldlM (λ scores color,
    remaining ← py_getitem (pieces_remaining state) color;
    leftover_squares ←
      foldlM (λ leftover_squares pid,
        shape ← py_getitem ALL_SHAPES pid;
        mret (leftover_squares + Z.of_nat (size shape)))
      0 (elements remaining);
    py_setitem scores color (- leftover_squares))
  [0; 0; 0; 0] (py_range 4).


(** ** board.py and rules.py on objects

    [BoardState.clone] and [apply_move] work on mutable objects: a state
    refers to a list of row lists, a list of sets and a list of counters, and
    [apply_move] updates the objects of the clone in place.  This module
    keeps a store of objects so that sharing between a state and its clone
    would show. *)
Module Heap.

Notation loc := nat (only parsing).

Inductive obj : Type :=
| ORow (cells : list (option Z))     (* one row of [board_grid] *)
| OGrid (rows : list loc)            (* [board_grid]: a list of rows *)
| OSet (elems : gset Z)              (* one set of piece ids *)
| OSets (sets : list loc)            (* [pieces_remaining]: a list of sets *)
| OInts (xs : list Z)                (* [moves_made] *)
| OBoard (grid pieces : loc) (player : Z) (moves : loc) (passes : Z).

Notation heap := (list obj) (only parsing).

(** A computation on the store; an exception leaves the store as it was
    when it was raised. *)
Definition M (A : Type) : Type := heap → result A * heap.

#[export] Instance M_ret : MRet M := λ A a h, (Ok a, h).

#[export] Instance M_bind : MBind M :=
  λ A B f m h,
    match m h with
    | (Ok a, h') => f a h'
    | (Raise e, h') => (Raise e, h')
    end.

Definition lift {A} (r : result A) : M A := λ h, (r, h).

Definition alloc (o : obj) : M loc := λ h, (Ok (length h), h ++ [o]).

Definition load (l : loc) : M obj :=
  λ h, match h !! l with
       | Some o => (Ok o, h)
       | None => (Raise TypeError, h)
       end.

Definition store (l : loc) (o : obj) : M unit := λ h, (Ok tt, <[l := o]> h).

Definition load_row (l : loc) : M (list (option Z)) :=
  o ← load l; match o with ORow cells => mret cells | _ => lift (Raise TypeError) end.

Definition load_grid (l : loc) : M (list loc) :=
  o ← load l; match o with OGrid rows => mret rows | _ => lift (Raise TypeError) end.

Definition load_set (l : loc) : M (gset Z) :=
  o ← load l; match o with OSet elems => mret elems | _ => lift (Raise TypeError) end.

Definition load_sets (l : loc) : M (list loc) :=
  o ← load l; match o with OSets sets => mret sets | _ => lift (Raise TypeError) end.

Definition load_ints (l : loc) : M (list Z) :=
  o ← load l; match o with OInts xs => mret xs | _ => lift (Raise TypeError) end.

(** The attributes of a [BoardState] object. *)
Definition load_board (l : loc) : M (loc * loc * Z * loc * Z) :=
  o ← load l;
  match o with
  | OBoard grid pieces player moves passes => mret (grid, pieces, player, moves, passes)
  | _ => lift (Raise AttributeError)
  end.

Fixpoint alloc_all (os : list obj) : M (list loc) :=
  match os with
  | [] => mret []
  | o :: os' => l ← alloc o; ls ← alloc_all os'; mret (l :: ls)
  end.

(** [BoardState()] *)
Definition BoardState_new : M loc :=
  rows ← alloc_all (replicate (Z.to_nat BOARD_SIZE)
                      (ORow (replicate (Z.to_nat BOARD_SIZE) None)));
  grid ← alloc (OGrid rows);
  sets ← alloc_all (replicate (Z.to_nat NUM_PLAYERS) (OSet (list_to_set (seqZ 0 21))));
  pieces ← alloc (OSets sets);
  moves ← alloc (OInts (replicate (Z.to_nat NUM_PLAYERS) 0));
  alloc (OBoard grid pieces 0 moves 0).

(** [copy.deepcopy] of a list of rows: a row met twice is copied once
    ([memo] maps the rows already copied to their copies). *)
Fixpoint deepcopy_rows (rows : list loc) (memo : list (loc * loc)) : M (list loc) :=
  match rows with
  | [] => mret []
  | r :: rows' =>
      match list_find (λ e, e.1 = r) memo with
      | Some (_, (_, r')) =>
          rest ← deepcopy_rows rows' memo;
          mret (r' :: rest)
      | None =>
          cells ← load_row r;
          r' ← alloc (ORow cells);
          rest ← deepcopy_rows rows' ((r, r') :: memo);
          mret (r' :: rest)
      end
  end.

(** [[s.copy() for s in sets]] *)
Fixpoint copy_sets (sets : list loc) : M (list loc) :=
  match sets with
  | [] => mret []
  | s :: sets' =>
      elems ← load_set s;
      s' ← alloc (OSet elems);
      rest ← copy_sets sets';
      mret (s' :: rest)
  end.

Definition clone (self : loc) : M loc :=
  new_state ← BoardState_new;
  '(grid, pieces, player, moves, passes) ← load_board self;
  '(_, pieces0, player0, moves0, passes0) ← load_board new_state;
  rows ← load_grid grid;
  rows' ← deepcopy_rows rows [];
  grid' ← alloc (OGrid rows');
  store new_state (OBoard grid' pieces0 player0 moves0 passes0);;
  sets ← load_sets pieces;
  sets' ← copy_sets sets;
  pieces' ← alloc (OSets sets');
  store new_state (OBoard grid' pieces' player0 moves0 passes0);;
  store new_state (OBoard grid' pieces' player moves0 passes0);;
  xs ← load_ints moves;
  moves' ← alloc (OInts xs);
  store new_state (OBoard grid' pieces' player moves' passes0);;
  store new_state (OBoard grid' pieces' player moves' passes);;
  mret new_state.

(** [new_state.board_grid[rr][cc] = color] *)
Definition set_cell (new_state : loc) (rr cc color : Z) : M unit :=
  '(grid, _, _, _, _) ← load_board new_state;
  rows ← load_grid grid;
  row ← lift (py_getitem rows rr);
  cells ← load_row row;
  cells' ← lift (py_setitem cells cc (Some color));
  store row (ORow cells').

Fixpoint set_cells (new_state : loc) (row_off col_off color : Z)
    (coords : list cell) : M unit :=
  match coords with
  | [] => mret tt
  | (r, c) :: coords' =>
      set_cell new_state (r + row_off) (c + col_off) color;;
      set_cells new_state row_off col_off color coords'
  end.

Definition apply_move (state : loc) (move : option Move) : M loc :=
  new_state ← clone state;
  '(_, _, color, _, _) ← load_board new_state;
  match move with
  | None =>
      '(grid, pieces, player, moves, passes) ← load_board new_state;
      store new_state (OBoard grid pieces player moves (passes + 1))
  | Some (piece_id, row_off, col_off, shape_coords) =>
      '(_, pieces, _, _, _) ← load_board new_state;
      sets ← load_sets pieces;
      s ← lift (py_getitem sets color);
      remaining ← load_set s;
      remaining' ← lift (set_remove piece_id remaining);
      store s (OSet remaining');;
      set_cells new_state row_off col_off color (elements shape_coords);;
      '(_, _, _, moves, _) ← load_board new_state;
      xs ← load_ints moves;
      made ← lift (py_getitem xs color);
      xs' ← lift (py_setitem xs color (made + 1));
      store moves (OInts xs');;
      '(grid, pieces, player, moves, _) ← load_board new_state;
      store new_state (OBoard grid pieces player moves 0)
  end;;
  '(grid, pieces, _, moves, passes) ← load_board new_state;
  store new_state (OBoard grid pieces ((color + 1) `mod` 4) moves passes);;
  mret new_state.

(** The value a state object holds, read through its references. *)
Definition read_row (h : heap) (l : loc) : option (list (option Z)) :=
  match h !! l with Some (ORow cells) => Some cells | _ => None end.

Definition read_set (h : heap) (l : loc) : option (gset Z) :=
  match h !! l with Some (OSet elems) => Some elems | _ => None end.

Definition snapshot (h : heap) (l : loc) : option BoardState :=
  match h !! l with
  | Some (OBoard grid pieces player moves passes) =>
      match h !! grid, h !! pieces, h !! moves with
      | Some (OGrid rows), Some (OSets sets), Some (OInts xs) =>
          g ← mapM (read_row h) rows;
          p ← mapM (read_set h) sets;
          Some {| board_grid := g; pieces_remaining := p; current_player := player;
                  moves_made := xs; consecutive_passes := passes |}
      | _, _, _ => None
      end
  | _ => None
  end.

(** *** Assertions on the store *)

(** Outcome-indexed assertion: [Q] on a result, [R] on an exception. *)
Definition wp {A} (m : M A) (h : heap) (Q : A → heap → Prop) (R : heap → Prop) : Prop :=
  match m h with (Ok a, h') => Q a h' | (Raise _, h') => R h' end.

(** A state object at [l] all of whose parts were created at or after
    position [n] of the store. *)
Definition fresh (n : nat) (h : heap) (l : loc) : Prop :=
  ∃ g p cp m cn rows sets,
    (n ≤ l)%nat ∧ h !! l = Some (OBoard g p cp m cn) ∧
    h !! g = Some (OGrid rows) ∧ Forall (λ r, n ≤ r)%nat rows ∧
    h !! p = Some (OSets sets) ∧ Forall (λ s, n ≤ s)%nat sets ∧
    (n ≤ m)%nat.

(** An update that changes no reference. *)
Definition same_refs (o o' : obj) : Prop :=
  match o, o' with
  | ORow _, ORow _ | OSet _, OSet _ | OInts _, OInts _ => True
  | OBoard g p _ m _, OBoard g' p' _ m' _ => g = g' ∧ p = p' ∧ m = m'
  | _, _ => False
  end.

(** After [clone]: the store has only grown past [h0], and the clone at [l']
    is made of objects that [h0] does not have. *)
Definition inv (h0 : heap) (l' : loc) (h : heap) : Prop :=
  h0 `prefix_of` h ∧ fresh (length h0) h l'.

(** What a computation does on a store, exception included. *)
Definition runs {A} (m : M A) (h : heap) (Q : result A → heap → Prop) : Prop :=
  Q (m h).1 (m h).2.

(** The object at [l] is a state whose parts are the objects [g], [p], [m],
    [rows] and [sets] and hold the given values; no row and no set occurs
    twice. *)
Record holds_at (h : heap) (l g p m : loc) (rows sets : list loc)
    (grid : list (list (option Z))) (pieces : list (gset Z)) (cp : Z) (xs : list Z)
    (cn : Z) : Prop := {
  at_board : h !! l = Some (OBoard g p cp m cn);
  at_grid : h !! g = Some (OGrid rows);
  at_rows : Forall2 (λ r cells, h !! r = Some (ORow cells)) rows grid;
  at_pieces : h !! p = Some (OSets sets);
  at_sets : Forall2 (λ s elems, h !! s = Some (OSet elems)) sets pieces;
  at_moves : h !! m = Some (OInts xs);
  at_rows_NoDup : NoDup rows;
  at_sets_NoDup : NoDup sets
}.

(** The state object at [l] holds the value [v]. *)
Definition holds (h : heap) (l : loc) (v : BoardState) : Prop :=
  ∃ g p m rows sets,
    holds_at h l g p m rows sets (board_grid v) (pieces_remaining v) (current_player v)
      (moves_made v) (consecutive_passes v).

(** Every object but the one at [l] is kept. *)
Definition keeps (l : loc) (h h' : heap) : Prop :=
  ∀ x o, x ≠ l → h !! x = Some o → h' !! x = Some o.

End Heap.


(** ** Python dicts, in insertion order *)

Fixpoint dict_get {K V} `{EqDecision K} (d : list (K * V)) (k : K) : option V :=
  match d with
  | [] => None
  | (k', v) :: d' => if decide (k' = k) then Some v else dict_get d' k
  end.

(** [d[k] = v] *)
Fixpoint dict_set {K V} `{EqDecision K} (d : list (K * V)) (k : K) (v : V) : list (K * V) :=
  match d with
  | [] => [(k, v)]
  | (k', v') :: d' => if decide (k' = k) then (k, v) :: d' else (k', v') :: dict_set d' k v
  end.

(** [d.setdefault(k, []).append(x)] *)
Definition dict_append {K V} `{EqDecision K} (d : list (K * list V)) (k : K) (x : V)
    : list (K * list V) :=
  match dict_get d k with
  | Some xs => dict_set d k (xs ++ [x])
  | None => dict_set d k [x]
  end.

(** [enumerate(l)] *)
Definition enumerate {A} (l : list A) : list (Z * A) :=
  zip (seqZ 0 (Z.of_nat (length l))) l.

(** ** Rationals standing for floats *)

Local Open Scope Q_scope.

Definition Qltb (a b : Q) : bool := negb (Qle_bool b a).

Definition Qsum (l : list Q) : Q := foldr Qplus 0 l.
#[global] Arguments Qsum : simpl never.

(** [max] of a non-empty array. *)
Definition Qmax_list (l : list Q) : result Q :=
  match l with
  | [] => Raise ValueError
  | x :: xs => Ok (foldl (λ m y, if Qltb m y then y else m) x xs)
  end.

(** [np.argmax]: the first position holding the maximum. *)
Fixpoint argmax_from (l : list Q) (i best_i : nat) (best : Q) : nat :=
  match l with
  | [] => best_i
  | x :: xs => if Qltb best x then argmax_from xs (S i) i x else argmax_from xs (S i) best_i best
  end.

Definition argmax (l : list Q) : result nat :=
  match l with
  | [] => Raise ValueError
  | x :: xs => Ok (argmax_from xs 1 0 x)
  end.

Local Close Scope Q_scope.

(** ** policy_wrapper.py *)

(** The keys of the dictionary [decode_policy] returns: a piece id or ['pass']. *)
Inductive policy_key : Set :=
| KPiece (pid : Z)
| KPass.

#[export] Instance policy_key_eq_dec : EqDecision policy_key.
Proof. solve_decision. Defined.

Section policy.
(** [np.exp] *)
Variable np_exp : Q → Q.

(** [mask[pid] = True] for every legal piece id. *)
Definition mark_legal (mask : list bool) (legal_piece_ids : gset Z) : result (list bool) :=
  foldlM (λ mask pid, py_setitem mask pid true) mask (elements legal_piece_ids).

Definition decode_policy (policy_logits : list Q) (legal_piece_ids : gset Z)
    (temperature : Q) : result (list (policy_key * Q)) :=
  let logits_np := policy_logits in
  let mask := replicate (length logits_np) false in
  mask ← mark_legal mask legal_piece_ids;
  let pass_index := 21 in
  mask ← py_setitem mask pass_index true;
  if bool_decide (size legal_piece_ids = 0%nat) then mret [(KPass, 1%Q)]
  else
    let masked_logits :=
      zip_with (λ (m : bool) x, if m then x else (- (1000000000))%Q) mask logits_np in
    probs ←
      (if Qltb (1 # 100000000) temperature then
         let scaled_logits := (λ x, x / temperature)%Q <$> masked_logits in
         top ← Qmax_list scaled_logits;
         let exps := (λ x, np_exp (x - top))%Q <$> scaled_logits in
         mret ((λ e, e / Qsum exps)%Q <$> exps)
       else
         k ← argmax masked_logits;
         mret (<[k := 1%Q]> (replicate (length masked_logits) 0%Q)));
    out_dict ←
      foldlM (λ out_dict i,
        if bool_decide (i ∈ legal_piece_ids) then
          p ← py_getitem probs i;
          mret (dict_set out_dict (KPiece i) p)
        else mret out_dict)
      [] (py_range 21);
    p ← py_getitem probs pass_index;
    mret (dict_set out_dict KPass p).
End policy.

(** ** mcts.py *)

(** The keys of [children] and [priors]: [(pid, idx)] or [('pass', 0)]. *)
Inductive action_key : Set :=
| Place (pid idx : Z)
| PassKey.

#[export] Instance action_key_eq_dec : EqDecision action_key.
Proof. solve_decision. Defined.

(** A node object.  Nodes live in a store (a list, a node's reference being
    its position); [parent] and the values of [children] are references.
    [last_action_key] is the attribute [expand_node] adds to the children it
    creates; a node made by [MCTSNode(state)] alone does not have it. *)
Record MCTSNode : Type := mkNode {
  state : BoardState;
  parent : option nat;
  children : list (action_key * nat);
  visit_count : Z;
  total_value : Q;
  priors : list (action_key * Q);
  expanded : bool;
  last_action_key : option action_key
}.

(** [MCTSNode(state, parent)] *)
Definition MCTSNode_new (st : BoardState) (par : option nat) : MCTSNode :=
  {| state := st; parent := par; children := []; visit_count := 0;
     total_value := 0%Q; priors := []; expanded := false; last_action_key := None |}.

Definition mean_value (n : MCTSNode) : Q :=
  if bool_decide (visit_count n = 0) then 0%Q
  else (total_value n / inject_Z (visit_count n))%Q.

(** A float that may be [float('inf')]. *)
Inductive score : Type :=
| Fin (q : Q)
| PosInf.

(** [a > b] *)
Definition score_gt (a b : score) : bool :=
  match a, b with
  | Fin x, Fin y => Qltb y x
  | PosInf, Fin _ => true
  | _, PosInf => false
  end.

(** Attribute access on a node reference; on a missing object it raises. *)
Definition get_node (t : list MCTSNode) (i : nat) : result MCTSNode :=
  match t !! i with
  | Some n => Ok n
  | None => Raise AttributeError
  end.

Definition update_node (t : list MCTSNode) (i : nat) (f : MCTSNode → MCTSNode)
    : result (list MCTSNode) :=
  n ← get_node t i;
  Ok (<[i := f n]> t).

(** The network applied to [encode_state(state)]: its policy logits and its
    value.  The encoding and the forward pass are functions of the state. *)
Definition Model : Type := BoardState → list Q * Q.

Section search.
Variable np_exp : Q → Q.
(** [math.sqrt] of a visit count. *)
Variable math_sqrt : Z → Q.

Definition ucb_score (par child : MCTSNode) (c_puct : Q) : result score :=
  if bool_decide (visit_count child = 0) then Ok PosInf
  else
    key ← match last_action_key child with
          | Some k => Ok k
          | None => Raise AttributeError
          end;
    Ok (Fin (mean_value child
             + c_puct * default 0%Q (dict_get (priors child) key)
               * math_sqrt (visit_count par) / inject_Z (1 + visit_count child))%Q).

(** The [for action_key, child in node.children.items()] loop of the
    selection, threading [best_score], [best_action] and [best_child]. *)
Definition best_child_step (t : list MCTSNode) (node : MCTSNode) (c_puct : Q)
    (best : score * option action_key * option nat) (item : action_key * nat)
    : result (score * option action_key * option nat) :=
  let '(best_score, best_action, best_child) := best in
  let '(action_key, child) := item in
  child_node ← get_node t child;
  sc ← ucb_score node child_node c_puct;
  if score_gt sc best_score then mret (sc, Some action_key, Some child)
  else mret (best_score, best_action, best_child).

(** The [while node.expanded and len(node.children) > 0] loop. *)
Fixpoint select_loop (fuel : nat) (t : list MCTSNode) (node : option nat) (c_puct : Q)
    : result nat :=
  match fuel with
  | O => Raise OutOfFuel
  | S fuel' =>
      match node with
      | None => Raise AttributeError
      | Some i =>
          n ← get_node t i;
          if expanded n && bool_decide (0 < length (children n))%nat then
            '(_, _, best_child) ←
              foldlM (best_child_step t n c_puct)
                (Fin (- (999999))%Q, None, None) (children n);
            select_loop fuel' t best_child c_puct
          else mret i
      end
  end.

(** The children [expand_node] creates for one piece: one per placement. *)
Definition add_child (st : BoardState) (node : nat) (key : action_key)
    (move : option Move) (prior : Q) (t : list MCTSNode) : result (list MCTSNode) :=
  child_state ← apply_move st move;
  let child_node :=
    {| state := child_state; parent := Some node; children := []; visit_count := 0;
       total_value := 0%Q; priors := []; expanded := false;
       last_action_key := Some key |} in
  let child := length t in
  let t := t ++ [child_node] in
  update_node t node (λ n,
    {| state := state n; parent := parent n;
       children := dict_set (children n) key child;
       visit_count := visit_count n; total_value := total_value n;
       priors := dict_set (priors n) key prior;
       expanded := expanded n; last_action_key := last_action_key n |}).

Definition set_expanded (n : MCTSNode) : MCTSNode :=
  {| state := state n; parent := parent n; children := children n;
     visit_count := visit_count n; total_value := total_value n;
     priors := priors n; expanded := true; last_action_key := last_action_key n |}.

(** The body of [for pid in legal_piece_ids]. *)
Definition expand_piece (st : BoardState) (node : nat)
    (piece_policy : list (policy_key * Q)) (moves_by_piece : list (Z * list Move))
    (t : list MCTSNode) (pid : Z) : result (list MCTSNode) :=
  let pprob := default 0%Q (dict_get piece_policy (KPiece pid)) in
  match dict_get moves_by_piece pid with
  | None => mret t
  | Some placements =>
      if bool_decide (length placements = 0%nat) then mret t
      else
        let split_prob := (pprob / inject_Z (Z.of_nat (length placements)))%Q in
        foldlM (λ t (item : Z * Move),
          add_child st node (Place pid item.1) (Some item.2) split_prob t)
        t (enumerate placements)
  end.

Definition expand_node (t : list MCTSNode) (node : nat) (model : Model)
    : result (list MCTSNode) :=
  n ← get_node t node;
  let st := state n in
  terminal ← is_terminal st;
  if terminal : bool then update_node t node set_expanded
  else
    let '(policy_logits, _) := model st in
    legal_moves ← get_legal_moves st;
    legal_piece_ids ← py_getitem (pieces_remaining st) (current_player st);
    piece_policy ← decode_policy np_exp policy_logits legal_piece_ids 1;
    let moves_by_piece :=
      foldl (λ d (mv : Move), dict_append d mv.1.1.1 mv) [] legal_moves in
    let pass_prob := default 0%Q (dict_get piece_policy KPass) in
    t ← foldlM (expand_piece st node piece_policy moves_by_piece)
         t (elements legal_piece_ids);
    t ← (if Qltb 0 pass_prob then add_child st node PassKey None pass_prob t
         else mret t);
    update_node t node set_expanded.

Definition evaluate_node (t : list MCTSNode) (node : nat) (model : Model) : result Q :=
  n ← get_node t node;
  let st := state n in
  terminal ← is_terminal st;
  if terminal : bool then
    final_scores ← compute_final_scores st;
    sc ← py_getitem final_scores (current_player st);
    mret (inject_Z sc / 100)%Q
  else
    let '(_, value) := model st in
    mret value.

Definition visit (value : Q) (n : MCTSNode) : MCTSNode :=
  {| state := state n; parent := parent n; children := children n;
     visit_count := visit_count n + 1; total_value := (total_value n + value)%Q;
     priors := priors n; expanded := expanded n; last_action_key := last_action_key n |}.

(** The [while cur is not None] loop of [backup_value]. *)
Fixpoint backup_loop (fuel : nat) (t : list MCTSNode) (cur : option nat) (value : Q)
    : result (list MCTSNode) :=
  match cur with
  | None => mret t
  | Some i =>
      match fuel with
      | O => Raise OutOfFuel
      | S fuel' =>
          n ← get_node t i;
          backup_loop fuel' (<[i := visit value n]> t) (parent n) value
      end
  end.

(** A chain of parents without a cycle is no longer than the store. *)
Definition backup_value (t : list MCTSNode) (node : nat) (value : Q)
    : result (list MCTSNode) :=
  backup_loop (length t) t (Some node) value.

(** One pass of the [for _ in range(n_simulations)] loop. *)
Definition simulate (t : list MCTSNode) (root : nat) (model : Model) (c_puct : Q)
    : result (list MCTSNode) :=
  node ← select_loop (length t) t (Some root) c_puct;
  n ← get_node t node;
  t ← (if expanded n then mret t
       else
         terminal ← is_terminal (state n);
         if terminal : bool then mret t else expand_node t node model);
  value ← evaluate_node t node model;
  backup_value t node value.

Fixpoint simulations (k : nat) (t : list MCTSNode) (root : nat) (model : Model)
    (c_puct : Q) : result (list MCTSNode) :=
  match k with
  | O => mret t
  | S k' =>
      t ← simulate t root model c_puct;
      simulations k' t root model c_puct
  end.

Definition mcts_search (t : list MCTSNode) (root : nat) (model : Model)
    (n_simulations : Z) (c_puct : Q) : result (list MCTSNode) :=
  simulations (Z.to_nat n_simulations) t root model c_puct.
End search.

(** ** Predicates of the specification: geometry *)

Definition normalized (o : gset cell) : Prop :=
  py_min (fst <$> elements o) = Ok 0 ∧ py_min (snd <$> elements o) = Ok 0.

Definition maps_into (g : gset cell → result (gset cell)) (os : list (gset cell))
    (o : gset cell) : Prop :=
  match g o with Ok o' => o' ∈ os | Raise _ => False end.

Definition orientations_closed (shape : gset cell) : Prop :=
  match get_all_orientations shape with
  | Ok os =>
      (1 ≤ length os ≤ 8)%nat ∧ NoDup os ∧
      Forall (λ o, normalized o ∧ maps_into rotate_90 os o ∧ maps_into flip_horizontal os o) os
  | Raise _ => False
  end.

#[export] Instance normalized_dec o : Decision (normalized o).
Proof. unfold normalized. apply _. Defined.
#[export] Instance maps_into_dec g os o : Decision (maps_into g os o).
Proof. unfold maps_into. destruct (g o); apply _. Defined.
#[export] Instance orientations_closed_dec shape : Decision (orientations_closed shape).
Proof. unfold orientations_closed. destruct (get_all_orientations shape); apply _. Defined.

(** ** Predicates of the specification: states and placements *)

Definition wf_grid (grid : list (list (option Z))) : Prop :=
  length grid = Z.to_nat BOARD_SIZE ∧
  Forall (λ row, length row = Z.to_nat BOARD_SIZE) grid.

Definition wf_state (s : BoardState) : Prop :=
  wf_grid (board_grid s) ∧
  length (pieces_remaining s) = Z.to_nat NUM_PLAYERS ∧
  length (moves_made s) = Z.to_nat NUM_PLAYERS ∧
  0 ≤ current_player s < NUM_PLAYERS ∧
  Forall (λ remaining : gset Z, ∀ pid, pid ∈ remaining → 0 ≤ pid < 21)
    (pieces_remaining s).

(** The cells a move covers on the board. *)
Definition placed_cells (row_off col_off : Z) (shape_coords : gset cell) : list cell :=
  (λ p : cell, (p.1 + row_off, p.2 + col_off)) <$> elements shape_coords.

(** What cell [(r, c)] of a grid holds, for a cell of the board. *)
Definition owner (grid : list (list (option Z))) (r c : Z) : option Z :=
  row ← grid !! Z.to_nat r; mjoin (row !! Z.to_nat c).

Definition owns (grid : list (list (option Z))) (color : Z) (r c : Z) : bool :=
  on_board r c && bool_decide (owner grid r c = Some color).

Definition touches (grid : list (list (option Z))) (color : Z) (dirs : list cell)
    (placed : list cell) : Prop :=
  ∃ p d, p ∈ placed ∧ d ∈ dirs ∧ owns grid color (p.1 + d.1) (p.2 + d.2) = true.

Definition touchb grid color dirs (p : cell) : bool :=
  existsb (λ d : cell, owns grid color (p.1 + d.1) (p.2 + d.2)) dirs.

Definition index_ok (p : cell) : Prop :=
  - BOARD_SIZE ≤ p.1 < BOARD_SIZE ∧ - BOARD_SIZE ≤ p.2 < BOARD_SIZE.

#[export] Instance index_ok_dec p : Decision (index_ok p).
Proof. unfold index_ok. apply _. Defined.

(** ** Predicates of the specification: the search tree *)

Definition nonneg (l : list Q) : Prop := Forall (λ x, 0 <= x)%Q l.

Definition at_index (l : list Q) (i : Z) : Q := default 0%Q (l !! Z.to_nat i).

Definition squares_of (pid : Z) : Z :=
  Z.of_nat (size (default ∅ (ALL_SHAPES !! Z.to_nat pid))).

Definition Zsum (l : list Z) : Z := foldr Z.add 0 l.

Definition child_refs (n : MCTSNode) : list nat := snd <$> children n.

Record node_ok (n : MCTSNode) : Prop := {
  ok_state : wf_state (state n);
  ok_visits : 0 ≤ visit_count n;
  ok_value : (- inject_Z (visit_count n) <= total_value n)%Q;
  ok_priors : nonneg (snd <$> priors n);
  ok_refs : NoDup (child_refs n)
}.

(** Every node is sound, was created after its parent, and each of its
    children is a later node that points back to it. *)
Definition wf_tree (t : list MCTSNode) : Prop :=
  ∀ i n, t !! i = Some n →
    node_ok n ∧
    (∀ p, parent n = Some p → (p < i)%nat) ∧
    (∀ c, c ∈ child_refs n →
       (i < c)%nat ∧
       ∃ cn, t !! c = Some cn ∧ parent cn = Some i ∧ is_Some (last_action_key cn)).

(** [x] is reached from [a] by following [children] one or more times. *)
Inductive under (t : list MCTSNode) (a : nat) : nat → Prop :=
| under_child x n : t !! a = Some n → x ∈ child_refs n → under t a x
| under_step p x np : under t a p → t !! p = Some np → x ∈ child_refs np → under t a x.

Definition visits_at (t : list MCTSNode) (c : nat) : Z :=
  default 0 (visit_count <$> t !! c).

(** The sum of the visit counts of the children of node [i]. *)
Definition children_visits (t : list MCTSNode) (i : nat) : Z :=
  match t !! i with
  | Some n => Zsum (visits_at t <$> child_refs n)
  | None => 0
  end.

Definition piece_of (mv : Move) : Z := mv.1.1.1.

Definition prior_mass (t : list MCTSNode) (x : nat) : Q :=
  match t !! x with
  | Some n => Qsum (snd <$> priors n)
  | None => 0%Q
  end.

Definition new_child (x : nat) (k : MCTSNode) : Prop :=
  parent k = Some x ∧ children k = [] ∧ visit_count k = 0 ∧ total_value k = 0%Q ∧
  priors k = [] ∧ expanded k = false ∧ is_Some (last_action_key k) ∧ wf_state (state k).

(** [t'] is [t] after children were added under node [x]. *)
Definition grows (t : list MCTSNode) (x : nat) (t' : list MCTSNode) : Prop :=
  (length t ≤ length t')%nat ∧
  (∀ i, i ≠ x → (i < length t)%nat → t' !! i = t !! i) ∧
  (∃ n n', t !! x = Some n ∧ t' !! x = Some n' ∧
     state n' = state n ∧ parent n' = parent n ∧ visit_count n' = visit_count n ∧
     total_value n' = total_value n ∧ last_action_key n' = last_action_key n ∧
     nonneg (snd <$> priors n') ∧ NoDup (child_refs n') ∧
     (∀ c, c ∈ child_refs n → (c < length t)%nat) ∧
     (∀ c, c ∈ child_refs n' → c ∈ child_refs n ∨ (length t ≤ c < length t')%nat)) ∧
  (∀ i k, (length t ≤ i)%nat → t' !! i = Some k → new_child x k).

(** The prior a piece hands to its children: its decoded probability when
    it has a placement among [legal_moves], nothing otherwise. *)
Definition has_placement (legal_moves : list Move) (pid : Z) : bool :=
  existsb (λ mv : Move, bool_decide (mv.1.1.1 = pid)) legal_moves.

Definition decoded (piece_policy : list (policy_key * Q)) (k : policy_key) : Q :=
  default 0%Q (dict_get piece_policy k).

Definition moves_by_piece_of (legal_moves : list Move) : list (Z * list Move) :=
  foldl (λ d (mv : Move), dict_append d mv.1.1.1 mv) [] legal_moves.

Definition same_links (n n' : MCTSNode) : Prop :=
  state n' = state n ∧ parent n' = parent n ∧ children n' = children n ∧
  priors n' = priors n ∧ expanded n' = expanded n ∧
  last_action_key n' = last_action_key n.

(** What the search has done to a root after [k] simulations. *)
Definition searched (t : list MCTSNode) (root : nat) (k : Z) : Prop :=
  wf_tree t ∧
  ∃ r, t !! root = Some r ∧ parent r = None ∧ is_terminal (state r) = Ok false ∧
       visit_count r = k ∧
       if expanded r then children r = [] ∨ children_visits t root = k - 1
       else children r = [] ∧ k = 0.

(** ** Positions and networks of the examples *)

(** Stand-ins for [math.sqrt] and [np.exp] in the examples: the square root
    to fifteen decimal places (exact on squares), and a rational function
    that is positive, is 1 at 0 and increases. *)
Definition sqrt_approx (n : Z) : Q :=
  (inject_Z (Z.sqrt (n * 10 ^ 30)) / inject_Z (10 ^ 15))%Q.

Definition exp_approx (x : Q) : Q :=
  (if Qle_bool 0 x then 1 + x + x * x / 2 else 1 / (1 - x + x * x / 2))%Q.

(** A network that gives every action the same logit and every state the
    value 0. *)
Definition uniform_model : Model := λ _, (replicate 22 0%Q, 0%Q).

(** A network that prefers piece 0. *)
Definition piece0_model : Model := λ _, (1%Q :: replicate 21 0%Q, 0%Q).

(** A position in which the player to move holds one last piece, the single
    square, and nobody else holds any. *)
Definition last_piece_state : BoardState :=
  {| board_grid := board_grid BoardState_init;
     pieces_remaining := [ {[ 0 ]}; ∅; ∅; ∅ ];
     current_player := 0;
     moves_made := [0; 0; 0; 0];
     consecutive_passes := 0 |}.

Definition run_moves (s : BoardState) (moves : list (option Move)) : result BoardState :=
  foldlM apply_move s moves.

(** The position after color 0 placed the single square on its corner and
    the three others passed. *)
Definition second_round_state : BoardState :=
  match run_moves BoardState_init [Some (0, 0, 0, {[ (0, 0) ]}); None; None; None] with
  | Ok s => s
  | Raise _ => BoardState_init
  end.

(** The position after color 0 placed the single square on its corner. *)
Definition after_first_move : BoardState :=
  match run_moves BoardState_init [Some (0, 0, 0, {[ (0, 0) ]})] with
  | Ok s => s
  | Raise _ => BoardState_init
  end.

(** The score of the specification: the prior is the one stored at the
    parent for the child's action. *)
Definition spec_score (math_sqrt : Z → Q) (par child : MCTSNode) (c_puct : Q)
    : option score :=
  key ← last_action_key child;
  prior ← dict_get (priors par) key;
  if bool_decide (visit_count child = 0) then Some PosInf
  else Some (Fin (mean_value child
                  + c_puct * prior * math_sqrt (visit_count par)
                    / inject_Z (1 + visit_count child))%Q).

Definition root_report (r : result (list MCTSNode)) : option (nat * Z * Z) :=
  match r with
  | Ok t =>
      match t !! 0%nat with
      | Some r => Some (length (children r), visit_count r, children_visits t 0)
      | None => None
      end
  | Raise _ => None
  end.

Definition expansion_report (st : BoardState) (model : Model) (pid : Z)
    : option (Q * bool * Q) :=
  match expand_node exp_approx [MCTSNode_new st None] 0 model,
        get_legal_moves st,
        py_getitem (pieces_remaining st) (current_player st) with
  | Ok t', Ok legal_moves, Ok legal_piece_ids =>
      match decode_policy exp_approx (model st).1 legal_piece_ids 1 with
      | Ok piece_policy =>
          Some (Qred (prior_mass t' 0), has_placement legal_moves pid,
                Qred (decoded piece_policy (KPiece pid)))
      | Raise _ => None
      end
  | _, _, _ => None
  end.

(** ** Shapes up to translation *)

(** A shape moved by [d]. *)
Definition translate (d : cell) (s : gset cell) : gset cell :=
  set_map (λ p : cell, (p.1 + d.1, p.2 + d.2)) s.

(** [rotate_90] and [flip_horizontal] applied one after the other, from the
    left of the list to the right. *)
Inductive turn : Set :=
| Rot
| Flip.

Definition turn_shape (g : turn) (s : gset cell) : result (gset cell) :=
  match g with Rot => rotate_90 s | Flip => flip_horizontal s end.

Definition turns_shape (gs : list turn) (s : gset cell) : result (gset cell) :=
  foldlM (λ s g, turn_shape g s) s gs.

(** What the two generators do to one cell, before the shape is normalized
    again. *)
Definition apply_turn (g : turn) (p : cell) : cell :=
  match g with Rot => (p.2, - p.1) | Flip => (p.1, - p.2) end.

Definition act (w : list turn) (p : cell) : cell := foldl (λ p g, apply_turn g p) p w.

Definition img (w : list turn) (s : gset cell) : gset cell := set_map (act w) s.

(** The normal form of a shape that is not empty. *)
Definition canon (s : gset cell) : gset cell :=
  match normalize_shape s with Ok s' => s' | Raise _ => ∅ end.

(** ** Games *)

(** The pieces still in the four hands, and a bound on the turns a game can
    still take: a placement takes a piece out of a hand, a pass brings the
    fourth pass in a row nearer. *)
Definition pieces_left (s : BoardState) : Z :=
  Zsum ((λ hand : gset Z, Z.of_nat (size hand)) <$> pieces_remaining s).

Definition turns_left (s : BoardState) : Z :=
  4 * pieces_left s + (4 - consecutive_passes s).

(** What a player may do on a turn: pass, or make a placement that
    [check_legal_move] accepts. *)
Definition turn_ok (s : BoardState) (move : option Move) : Prop :=
  match move with
  | None => True
  | Some mv => check_legal_move s mv = Ok true
  end.

(** A game played from [s]: while the state is not terminal the player to
    move takes a turn and [apply_move] gives the next state. *)
Inductive played : BoardState → list (option Move) → BoardState → Prop :=
| played_nil s : played s [] s
| played_cons s move s1 moves s' :
    is_terminal s = Ok false → turn_ok s move → apply_move s move = Ok s1 →
    played s1 moves s' → played s (move :: moves) s'.

(** ** What [expand_node] adds to the tree *)

(** One child to be: its key, its move ([None] for the pass), its prior and
    its state. *)
Record expansion : Type := mkExpansion {
  exp_key : action_key;
  exp_move : option Move;
  exp_prior : Q;
  exp_state : BoardState
}.

(** [MCTSNode(child_state, parent=node)] with its [last_action_key]. *)
Definition child_node (x : nat) (a : expansion) : MCTSNode :=
  {| state := exp_state a; parent := Some x; children := []; visit_count := 0;
     total_value := 0%Q; priors := []; expanded := false;
     last_action_key := Some (exp_key a) |}.

(** The node after [node.children[key] = child] and [node.priors[key] =
    prior] for each child in turn, the children being stored from position
    [base] on. *)
Fixpoint link_children (n : MCTSNode) (base : nat) (acts : list expansion) : MCTSNode :=
  match acts with
  | [] => n
  | a :: acts =>
      link_children
        {| state := state n; parent := parent n;
           children := dict_set (children n) (exp_key a) base;
           visit_count := visit_count n; total_value := total_value n;
           priors := dict_set (priors n) (exp_key a) (exp_prior a);
           expanded := expanded n; last_action_key := last_action_key n |}
        (S base) acts
  end.

Definition next_state (st : BoardState) (move : option Move) : BoardState :=
  match apply_move st move with Ok s => s | Raise _ => st end.

(** The children of one piece, one per placement, in the order of
    [legal_moves]; they share the probability of the piece. *)
Definition piece_expansions (st : BoardState) (pol : list (policy_key * Q))
    (legal_moves : list Move) (pid : Z) : list expansion :=
  let placements := filter (λ mv : Move, mv.1.1.1 = pid) legal_moves in
  let split_prob :=
    (decoded pol (KPiece pid) / inject_Z (Z.of_nat (length placements)))%Q in
  (λ item : Z * Move,
     mkExpansion (Place pid item.1) (Some item.2) split_prob (next_state st (Some item.2)))
    <$> enumerate placements.

Definition pass_expansion (st : BoardState) (pol : list (policy_key * Q)) : list expansion :=
  if Qltb 0 (decoded pol KPass)
  then [mkExpansion PassKey None (decoded pol KPass) (next_state st None)]
  else [].

Definition expansions (st : BoardState) (pol : list (policy_key * Q))
    (legal_moves : list Move) (hand : gset Z) : list expansion :=
  (elements hand ≫= piece_expansions st pol legal_moves) ++ pass_expansion st pol.

(** The tree [t0] once the children [acts] were added under its node [x],
    which was [n0]. *)
Definition add_children (t0 : list MCTSNode) (x : nat) (n0 : MCTSNode)
    (acts : list expansion) : list MCTSNode :=
  <[x := link_children n0 (length t0) acts]> (t0 ++ (child_node x <$> acts)).

(** ** The path from a node to the root *)



(** ** The generators of the orientations, by their formulas *)

(** The least row and the least column of [o] are both 0. *)
Definition least_row_col_zero (o : gset cell) : Prop :=
  (∃ p : cell, p ∈ o ∧ p.1 = 0) ∧ (∃ p : cell, p ∈ o ∧ p.2 = 0) ∧
  ∀ p : cell, p ∈ o → 0 ≤ p.1 ∧ 0 ≤ p.2.

(** [o'] is [s] moved so that its least row and column are 0. *)
Definition normal_form_of (s o' : gset cell) : Prop :=
  (∃ d : cell, ∀ p : cell, p ∈ o' ↔ (p.1 - d.1, p.2 - d.2) ∈ s) ∧ least_row_col_zero o'.

(** A quarter turn clockwise, [(r, c) -> (c, -r)], then the normal form. *)
Definition quarter_turn_of (o o' : gset cell) : Prop :=
  ∃ s : gset cell,
    (∀ q : cell, q ∈ s ↔ ∃ r c, (r, c) ∈ o ∧ q = (c, - r)) ∧ normal_form_of s o'.

(** The mirror image, [(r, c) -> (r, -c)], then the normal form. *)
Definition mirror_image_of (o o' : gset cell) : Prop :=
  ∃ s : gset cell,
    (∀ q : cell, q ∈ s ↔ ∃ r c, (r, c) ∈ o ∧ q = (r, - c)) ∧ normal_form_of s o'.

(** ** Contact between a placement and the cells of a color *)

(** Two cells share an edge: they are neighbours in the 4-neighbourhood. *)
Definition edge_adjacent (p q : cell) : Prop :=
  Z.abs (p.1 - q.1) + Z.abs (p.2 - q.2) = 1.

(** Two cells touch at a corner: they are diagonal neighbours. *)
Definition diagonally_adjacent (p q : cell) : Prop :=
  Z.abs (p.1 - q.1) = 1 ∧ Z.abs (p.2 - q.2) = 1.

(** Cell [q] of the 20 x 20 board holds [color]. *)
Definition owned_by (grid : list (list (option Z))) (color : Z) (q : cell) : Prop :=
  0 ≤ q.1 < 20 ∧ 0 ≤ q.2 < 20 ∧ owner grid q.1 q.2 = Some color.

Definition edge_contact (grid : list (list (option Z))) (color : Z)
    (placed : list cell) : Prop :=
  ∃ p q : cell, p ∈ placed ∧ owned_by grid color q ∧ edge_adjacent p q.

Definition corner_contact (grid : list (list (option Z))) (color : Z)
    (placed : list cell) : Prop :=
  ∃ p q : cell, p ∈ placed ∧ owned_by grid color q ∧ diagonally_adjacent p q.

(** ** Indices as [list.__setitem__] reads them *)

(** The cell of the board that the pair of indices [p] addresses: an index
    in [-20, 0) counts from the end. *)
Definition wrapped (p : cell) : cell := (p.1 `mod` 20, p.2 `mod` 20).

(** ** Single precision

    The network returns float32 logits, and [decode_policy] works on
    float32 arrays throughout: every array operation rounds its result.
    Module [Float32] has [decode_policy] and [expand_node] once more, with
    those roundings explicit:
    - [fl] rounds the result of an elementwise operation of two float32
      numbers;
    - [np_exp] is [np.exp] on a float32 number, its own rounding included;
    - [np_sum] is [np.sum] of a float32 array, whatever the order in which
      NumPy adds;
    - [fl_div] rounds [pprob / len(placements)], a float32 scalar divided
      by a Python integer: to single precision under NumPy 2, to double
      precision before.
    A float32 or float64 number is the rational it denotes; logits are
    finite.  With nothing rounded the module is the model above
    ([Float32.expand_node np_exp (λ q, q) Qsum (λ q, q)] is [expand_node
    np_exp], by computation). *)

Module Float32.
Section arithmetic.
Variable np_exp : Q → Q.
Variable fl : Q → Q.
Variable np_sum : list Q → Q.
Variable fl_div : Q → Q.

Definition decode_policy (policy_logits : list Q) (legal_piece_ids : gset Z)
  (temperature : Q) : result (list (policy_key * Q)) :=
let logits_np := policy_logits in
let mask := replicate (length logits_np) false in
mask ← mark_legal mask legal_piece_ids;
let pass_index := 21 in
mask ← py_setitem mask pass_index true;
if bool_decide (size legal_piece_ids = 0%nat) then mret [(KPass, 1%Q)]
else
  let masked_logits :=
    zip_with (λ (m : bool) x, if m then x else (- (1000000000))%Q) mask logits_np in
  probs ←
    (if Qltb (1 # 100000000) temperature then
       let scaled_logits := (λ x, fl (x / temperature))%Q <$> masked_logits in
       top ← Qmax_list scaled_logits;
       let exps := (λ x, np_exp (fl (x - top)))%Q <$> scaled_logits in
       mret ((λ e, fl (e / np_sum exps))%Q <$> exps)
     else
       k ← argmax masked_logits;
       mret (<[k := 1%Q]> (replicate (length masked_logits) 0%Q)));
  out_dict ←
    foldlM (λ out_dict i,
      if bool_decide (i ∈ legal_piece_ids) then
        p ← py_getitem probs i;
        mret (dict_set out_dict (KPiece i) p)
      else mret out_dict)
    [] (py_range 21);
  p ← py_getitem probs pass_index;
  mret (dict_set out_dict KPass p).

(** The body of [for pid in legal_piece_ids]. *)
Definition expand_piece (st : BoardState) (node : nat)
  (piece_policy : list (policy_key * Q)) (moves_by_piece : list (Z * list Move))
  (t : list MCTSNode) (pid : Z) : result (list MCTSNode) :=
let pprob := default 0%Q (dict_get piece_policy (KPiece pid)) in
match dict_get moves_by_piece pid with
| None => mret t
| Some placements =>
    if bool_decide (length placements = 0%nat) then mret t
    else
      let split_prob := fl_div (pprob / inject_Z (Z.of_nat (length placements)))%Q in
      foldlM (λ t (item : Z * Move),
        add_child st node (Place pid item.1) (Some item.2) split_prob t)
      t (enumerate placements)
end.

Definition expand_node (t : list MCTSNode) (node : nat) (model : Model)
  : result (list MCTSNode) :=
n ← get_node t node;
let st := state n in
terminal ← is_terminal st;
if terminal : bool then update_node t node set_expanded
else
  let '(policy_logits, _) := model st in
  legal_moves ← get_legal_moves st;
  legal_piece_ids ← py_getitem (pieces_remaining st) (current_player st);
  piece_policy ← decode_policy policy_logits legal_piece_ids 1;
  let moves_by_piece :=
    foldl (λ d (mv : Move), dict_append d mv.1.1.1 mv) [] legal_moves in
  let pass_prob := default 0%Q (dict_get piece_policy KPass) in
  t ← foldlM (expand_piece st node piece_policy moves_by_piece)
       t (elements legal_piece_ids);
  t ← (if Qltb 0 pass_prob then add_child st node PassKey None pass_prob t
       else mret t);
  update_node t node set_expanded.
End arithmetic.
End Float32.

(** *** Rounding to binary32 *)

(** [round(x)], ties to the even integer. *)
Definition round_half_even (x : Q) : Z :=
  let f := Qfloor x in
  match (x - inject_Z f ?= 1 # 2)%Q with
  | Lt => f
  | Gt => f + 1
  | Eq => if Z.even f then f else f + 1
  end.

(** For [x > 0], the exponent [k] with [2 ^ k <= x < 2 ^ (k + 1)]. *)
Definition ilog2 (x : Q) : Z :=
  let k := Z.log2 (Qnum x) - Z.log2 (Z.pos (Qden x)) in
  if Qle_bool (2 ^ k) x then k else k - 1.

(** The binary32 number nearest to [x], ties to the even significand: 24
    significant bits, the least exponent that of the subnormal numbers.
    The largest exponent is not modelled: [|x| < 2 ^ 128]. *)
Definition round_f32 (x : Q) : Q :=
  if Qeq_bool x 0 then 0%Q
  else
    let e := Z.max (ilog2 (Qabs x) - 23) (- 149) in
    Qred (inject_Z (round_half_even (x / 2 ^ e)) * 2 ^ e).

(** A float32 sum, added from left to right. *)
Definition sum_f32 (l : list Q) : Q := foldl (λ acc x, round_f32 (acc + x)) 0%Q l.

(** A stand-in for [np.exp] on float32: 1 at 0, and 0 below -104, where
    [np.exp] underflows to 0. *)
Definition exp_f32 (x : Q) : Q :=
  if Qle_bool (- (104)) x then round_f32 (exp_approx x) else 0%Q.

(** *** What the rounding may add *)

(** [fl] rounds a number that is not negative to one that is not negative,
    and raises it by no more than the relative error [u] and the absolute
    error [eta]. *)
Definition rounds_within (u eta : Q) (fl : Q → Q) : Prop :=
  ∀ x, (0 <= x → 0 <= fl x ∧ fl x <= (1 + u) * x + eta)%Q.

(** [np_sum] of 22 numbers that are not negative loses no more than the
    share [g] of their sum. *)
Definition sums_within (g : Q) (np_sum : list Q → Q) : Prop :=
  ∀ l, length l = 22%nat → nonneg l → ((1 - g) * Qsum l <= np_sum l)%Q.

(** The decoded probability of the pieces of the hand that have no legal
    placement. *)
Definition dropped_mass (legal_moves : list Move) (legal_piece_ids : gset Z)
    (piece_policy : list (policy_key * Q)) : Q :=
  Qsum (decoded piece_policy <$>
          (KPiece <$> filter (λ pid, has_placement legal_moves pid = false)
                        (elements legal_piece_ids))).

(** A position in which the player to move holds the single square and the
    domino, and nobody else holds any piece. *)
Definition two_piece_state : BoardState :=
  {| board_grid := board_grid BoardState_init;
     pieces_remaining := [ {[ 0; 1 ]}; ∅; ∅; ∅ ];
     current_player := 0;
     moves_made := [0; 0; 0; 0];
     consecutive_passes := 0 |}.

(** A position in which everybody has passed in turn: the game is over. *)
Definition four_passes_state : BoardState :=
  {| board_grid := board_grid BoardState_init;
     pieces_remaining := pieces_remaining BoardState_init;
     current_player := 0;
     moves_made := [0; 0; 0; 0];
     consecutive_passes := 4 |}.



(** ** training/replay_buffer.py *)

Record ReplayBuffer (A : Type) : Type := mkReplayBuffer {
  max_size : Z;
  buffer : list A
}.
Arguments mkReplayBuffer {A} _ _.
Arguments max_size {A} _.
Arguments buffer {A} _.

(** [ReplayBuffer(max_size)] *)
Definition ReplayBuffer_new {A} (max_size : Z) : ReplayBuffer A :=
  mkReplayBuffer max_size [].




(** ** rl_agents/policy_wrapper.py: encode_state *)

(** [a[k, r, c] = x] on an array of three axes. *)
Definition array3_set (a : list (list (list Q))) (k r c : Z) (x : Q)
    : result (list (list (list Q))) :=
  plane ← py_getitem a k;
  row ← py_getitem plane r;
  row' ← py_setitem row c x;
  plane' ← py_setitem plane r row';
  py_setitem a k plane'.

(** The two tensors, each with its leading axis of length 1 ([unsqueeze(0)]);
    the entries are the floats 0.0 and 1.0. *)
Definition encode_state (board_state : BoardState)
    : result (list (list (list (list Q))) * list (list Q)) :=
  let current_player := current_player board_state in
  let board_channels :=
    replicate 5 (replicate (Z.to_nat BOARD_SIZE) (replicate (Z.to_nat BOARD_SIZE) 0%Q)) in
  board_channels ←
    foldlM (λ board_channels r,
      foldlM (λ board_channels c,
        occupant ← grid_get (board_grid board_state) r c;
        match occupant with
        | Some o => array3_set board_channels o r c 1%Q
        | None => mret board_channels
        end)
      board_channels (py_range BOARD_SIZE))
    board_channels (py_range BOARD_SIZE);
  board_channels ←
    foldlM (λ board_channels r,
      foldlM (λ board_channels c,
        occupant ← grid_get (board_grid board_state) r c;
        if bool_decide (occupant = Some current_player)
        then array3_set board_channels 4 r c 1%Q
        else mret board_channels)
      board_channels (py_range BOARD_SIZE))
    board_channels (py_range BOARD_SIZE);
  let piece_vec := replicate 21 0%Q in
  hand ← py_getitem (pieces_remaining board_state) current_player;
  piece_vec ← foldlM (λ piece_vec p_id, py_setitem piece_vec p_id 1%Q)
                piece_vec (elements hand);
  mret ([board_channels], [piece_vec]).

(** The entry [a[k, r, c]] of an array, for indices that are not negative. *)
Definition array3_get (a : list (list (list Q))) (k r c : Z) : option Q :=
  plane ← a !! Z.to_nat k; row ← plane !! Z.to_nat r; row !! Z.to_nat c.

(** Every cell of the grid is empty or holds one of the four colors. *)
Definition colors_ok (grid : list (list (option Z))) : Prop :=
  ∀ r c o, owner grid r c = Some o → 0 ≤ o < NUM_PLAYERS.

(** The array [a] has the shape [5, 20, 20] and its entries are those of
    [f]. *)
Definition array3_is (a : list (list (list Q))) (f : Z → Z → Z → Q) : Prop :=
  length a = 5%nat ∧
  Forall (λ plane : list (list Q),
            length plane = Z.to_nat BOARD_SIZE ∧
            Forall (λ row : list Q, length row = Z.to_nat BOARD_SIZE) plane) a ∧
  ∀ k r c, 0 ≤ k < 5 → 0 ≤ r < BOARD_SIZE → 0 ≤ c < BOARD_SIZE →
    array3_get a k r c = Some (f k r c).

(** ** Exceptions of the training code *)

(** Besides the exceptions of the engine and of the search, the training
    code can divide by zero and can read a local variable that was never
    assigned. *)
Inductive error : Set :=
| Builtin (e : exn)
| ZeroDivisionError
| UnboundLocalError.

Inductive outcome (A : Type) : Type :=
| Done (a : A)
| Failed (e : error).
Arguments Done {A} a.
Arguments Failed {A} e.

#[export] Instance outcome_ret : MRet outcome := λ A a, Done a.

#[export] Instance outcome_bind : MBind outcome :=
  λ A B f m, match m with Done a => f a | Failed e => Failed e end.

Definition lift_result {A} (r : result A) : outcome A :=
  match r with Ok a => Done a | Raise e => Failed (Builtin e) end.

(** A [for] loop whose body may fail. *)
Fixpoint foldlO {A B} (f : B → A → outcome B) (b : B) (l : list A) : outcome B :=
  match l with
  | [] => Done b
  | x :: xs => b' ← f b x; foldlO f b' xs
  end.

(** [a / b] on integers, which gives a float. *)
Definition py_div (a b : Z) : outcome Q :=
  if bool_decide (b = 0) then Failed ZeroDivisionError
  else Done (inject_Z a / inject_Z b)%Q.

(** ** training/evaluator.py *)

Section evaluator.
Variable np_exp : Q → Q.
Variable math_sqrt : Z → Q.

(** The loop [for ak, child in root.children.items()] that looks for the
    most visited child, threading [best_child], [best_visits] and
    [chosen_action]. *)
Definition most_visited_step (t : list MCTSNode)
    (best : option nat * Z * option action_key) (item : action_key * nat)
    : result (option nat * Z * option action_key) :=
  let '(best_child, best_visits, chosen_action) := best in
  let '(ak, child) := item in
  child_node ← get_node t child;
  if bool_decide (visit_count child_node > best_visits)
  then mret (Some child, visit_count child_node, Some ak)
  else mret (best_child, best_visits, chosen_action).

(** The body of [while not is_terminal(st)]: a search of 30 simulations
    from a new root, then the state of the most visited child, or a pass
    when the root has no child. *)
Definition evaluator_turn (model : Model) (st : BoardState) : result BoardState :=
  t ← mcts_search np_exp math_sqrt [MCTSNode_new st None] 0 model 30 1;
  root ← get_node t 0;
  '(best_child, _, _) ← foldlM (most_visited_step t) (None, -1, None) (children root);
  match best_child with
  | None => apply_move st None
  | Some child => child_node ← get_node t child; mret (state child_node)
  end.

(** The [while not is_terminal(st)] loop. *)
Fixpoint evaluator_game (fuel : nat) (model : Model) (st : BoardState)
    : result BoardState :=
  terminal ← is_terminal st;
  if terminal : bool then mret st
  else
    match fuel with
    | O => Raise OutOfFuel
    | S fuel' =>
        st' ← evaluator_turn model st;
        evaluator_game fuel' model st'
    end.

(** [fuel] bounds the turns of each game. *)
Definition evaluate_vs_random (fuel : nat) (model : Model) (n_games : Z) : outcome Q :=
  total_score_sum ←
    lift_result
      (foldlM (λ total_score_sum (_ : Z),
         st ← evaluator_game fuel model BoardState_init;
         final_scores ← compute_final_scores st;
         score ← py_getitem final_scores 0;
         mret (total_score_sum + inject_Z score)%Q)
       0%Q (py_range n_games));
  if bool_decide (n_games = 0) then Failed ZeroDivisionError
  else Done (total_score_sum / inject_Z n_games)%Q.
End evaluator.

(** Every child holds the state that the state of its parent becomes by a
    pass or by a legal placement. *)
Definition successors (t : list MCTSNode) : Prop :=
  ∀ i n c, t !! i = Some n → c ∈ child_refs n →
    ∃ cn move, t !! c = Some cn ∧ turn_ok (state n) move ∧
               apply_move (state n) move = Ok (state cn).

(** ** training/self_play.py *)

(** [root.parent = None] *)
Definition clear_parent (n : MCTSNode) : MCTSNode :=
  {| state := state n; parent := None; children := children n;
     visit_count := visit_count n; total_value := total_value n;
     priors := priors n; expanded := expanded n; last_action_key := last_action_key n |}.

(** The key under which the visits of a child are counted: [action_key[0]],
    a piece id or ['pass']. *)
Definition visits_key (ak : action_key) : policy_key :=
  match ak with Place pid _ => KPiece pid | PassKey => KPass end.

(** The loop [for action_key, child in root.children.items()] that fills
    [visits] and adds up [total_visits]. *)
Definition count_visits_step (t : list MCTSNode) (acc : list (policy_key * Z) * Z)
    (item : action_key * nat) : result (list (policy_key * Z) * Z) :=
  let '(visits, total_visits) := acc in
  let '(action_key, child) := item in
  child_node ← get_node t child;
  let vcount := visit_count child_node in
  let total_visits := total_visits + vcount in
  let key := visits_key action_key in
  mret (dict_set visits key (default 0 (dict_get visits key) + vcount), total_visits).

(** The 22 entries of [pi]. *)
Definition policy_target (visits : list (policy_key * Z)) (total_visits : Z)
    : outcome (list Q) :=
  pi ← foldlO (λ pi pid,
         match dict_get visits (KPiece pid) with
         | Some v => q ← py_div v total_visits; lift_result (py_setitem pi pid q)
         | None => mret pi
         end)
       (replicate 22 0%Q) (py_range 21);
  match dict_get visits KPass with
  | Some v => q ← py_div v total_visits; lift_result (py_setitem pi 21 q)
  | None => mret pi
  end.

(** From the children of the root to [pi]. *)
Definition visit_policy (t : list MCTSNode) (root : MCTSNode) : outcome (list Q) :=
  '(visits, total_visits) ←
    lift_result (foldlM (count_visits_step t) ([], 0) (children root));
  policy_target visits total_visits.

(** [ak[0] == piece_id] for a key that is not the pass. *)
Definition is_piece_key (piece_id : Z) (ak : action_key) : bool :=
  match ak with Place pid _ => bool_decide (pid = piece_id) | PassKey => false end.

(** [max(valid_children, key=lambda x: x[1].visit_count)]: the first of the
    children with the most visits. *)
Fixpoint max_by_visits (t : list MCTSNode) (best : action_key * nat) (best_visits : Z)
    (items : list (action_key * nat)) : result (action_key * nat) :=
  match items with
  | [] => Ok best
  | item :: rest =>
      n ← get_node t item.2;
      if bool_decide (visit_count n > best_visits)
      then max_by_visits t item (visit_count n) rest
      else max_by_visits t best best_visits rest
  end.

Definition py_max_by_visits (t : list MCTSNode) (items : list (action_key * nat))
    : result (action_key * nat) :=
  match items with
  | [] => Raise ValueError
  | item :: rest => n ← get_node t item.2; max_by_visits t item (visit_count n) rest
  end.

Definition board_tensor : Type := list (list (list (list Q))).
Definition piece_tensor : Type := list (list Q).

(** The variables of [run_self_play_game] that live across turns; the local
    [best_child] is not bound before its first assignment. *)
Record self_play : Type := mkSelfPlay {
  sp_tree : list MCTSNode;
  sp_root : nat;
  sp_st : BoardState;
  sp_trajectory : list (board_tensor * piece_tensor * list Q * Z);
  sp_best_child : option (action_key * nat);
  sp_draws : nat
}.

Section self_play.
Variable np_exp : Q → Q.
Variable math_sqrt : Z → Q.
(** [random.choices(range(22), weights=pi, k=1)[0]] at the draw with the
    given number: an index, or the exception the library raises. *)
Variable random_choices : nat → list Q → result Z.

(** The body of [while not is_terminal(st)]. *)
Definition self_play_turn (model : Model) (n_mcts_sim : Z) (s : self_play)
    : outcome self_play :=
  t ← lift_result
        (mcts_search np_exp math_sqrt (sp_tree s) (sp_root s) model n_mcts_sim 1);
  root ← lift_result (get_node t (sp_root s));
  pi ← visit_policy t root;
  '(board_t, piece_t) ← lift_result (encode_state (sp_st s));
  let trajectory :=
    sp_trajectory s ++ [(board_t, piece_t, pi, current_player (sp_st s))] in
  action_index ← lift_result (random_choices (sp_draws s) pi);
  let draws := S (sp_draws s) in
  if bool_decide (action_index = 21) then
    st ← lift_result (apply_move (sp_st s) None);
    match dict_get (children root) PassKey with
    | Some child =>
        t ← lift_result (update_node t child clear_parent);
        mret (mkSelfPlay t child st trajectory (sp_best_child s) draws)
    | None =>
        mret (mkSelfPlay (t ++ [MCTSNode_new st None]) (length t) st trajectory
                (sp_best_child s) draws)
    end
  else
    let valid_children :=
      foldl (λ valid_children (item : action_key * nat),
               if is_piece_key action_index item.1 then valid_children ++ [item]
               else valid_children)
        [] (children root) in
    best_child ←
      (if bool_decide (length valid_children = 0%nat) then mret (sp_best_child s)
       else best ← lift_result (py_max_by_visits t valid_children); mret (Some best));
    match best_child with
    | None => Failed UnboundLocalError
    | Some (ak_best, next_node) =>
        n ← lift_result (get_node t next_node);
        t ← lift_result (update_node t next_node clear_parent);
        mret (mkSelfPlay t next_node (state n) trajectory best_child draws)
    end.

Fixpoint self_play_loop (fuel : nat) (model : Model) (n_mcts_sim : Z) (s : self_play)
    : outcome self_play :=
  terminal ← lift_result (is_terminal (sp_st s));
  if terminal : bool then mret s
  else
    match fuel with
    | O => Failed (Builtin OutOfFuel)
    | S fuel' =>
        s' ← self_play_turn model n_mcts_sim s;
        self_play_loop fuel' model n_mcts_sim s'
    end.

(** The samples of one game, and the number of draws made when it ends;
    [fuel] bounds the turns. *)
Definition run_self_play_game (fuel : nat) (model : Model) (n_mcts_sim : Z)
    (draws : nat) : outcome (list (board_tensor * piece_tensor * list Q * Q) * nat) :=
  let st := BoardState_init in
  s ← self_play_loop fuel model n_mcts_sim
        (mkSelfPlay [MCTSNode_new st None] 0 st [] None draws);
  final_scores ← lift_result (compute_final_scores (sp_st s));
  samples ←
    lift_result
      (foldlM (λ samples (item : board_tensor * piece_tensor * list Q * Z),
         let '(board_t, piece_t, pi, pl_color) := item in
         value_target ← py_getitem final_scores pl_color;
         mret (samples ++ [(board_t, piece_t, pi, inject_Z value_target)]))
       [] (sp_trajectory s));
  mret (samples, sp_draws s).

Definition generate_self_play_data (fuel : nat) (model : Model) (n_games n_mcts_sim : Z)
    : outcome (list (board_tensor * piece_tensor * list Q * Q)) :=
  '(all_data, _) ←
    foldlO (λ (acc : list (board_tensor * piece_tensor * list Q * Q) * nat) (_ : Z),
              let '(all_data, draws) := acc in
              '(game_samples, draws) ← run_self_play_game fuel model n_mcts_sim draws;
              mret (all_data ++ game_samples, draws))
      ([], 0%nat) (py_range n_games);
  mret all_data.
End self_play.

(** * Properties *)

(** ** Geometry *)

Lemma all_shapes_closed : Forall orientations_closed ALL_SHAPES.
Proof. apply (bool_decide_unpack _). vm_compute. exact I. Qed.

Lemma all_shapes_normalized : Forall normalized ALL_SHAPES.
Proof. apply (bool_decide_unpack _). vm_compute. exact I. Qed.

(** ** The rules *)

Lemma py_index_nonneg n i :
  0 ≤ i < Z.of_nat n → py_index n i = Ok (Z.to_nat i).
Proof. intros H. unfold py_index. rewrite bool_decide_true; done. Qed.

Lemma py_getitem_nonneg {A} (l : list A) i x :
  0 ≤ i → l !! Z.to_nat i = Some x → py_getitem l i = Ok x.
Proof.
  intros Hi Hl. unfold py_getitem.
  rewrite py_index_nonneg; [simpl; by rewrite Hl|].
  apply lookup_lt_Some in Hl. lia.
Qed.

Lemma py_getitem_lookup {A} (l : list A) i :
  0 ≤ i < Z.of_nat (length l) → ∃ x, l !! Z.to_nat i = Some x ∧ py_getitem l i = Ok x.
Proof.
  intros Hi. destruct (lookup_lt_is_Some_2 l (Z.to_nat i)) as [x Hx]; [lia|].
  exists x. split; [done|]. apply py_getitem_nonneg; [lia|done].
Qed.

Lemma py_getitem_elem_of {A} (l : list A) i x : py_getitem l i = Ok x → x ∈ l.
Proof.
  unfold py_getitem. destruct (py_index (length l) i) as [k|]; [|done].
  simpl. destruct (l !! k) eqn:E; [|done]. intros [= ->].
  by eapply list_elem_of_lookup_2.
Qed.

Lemma on_board_spec r c :
  on_board r c = true ↔ 0 ≤ r < BOARD_SIZE ∧ 0 ≤ c < BOARD_SIZE.
Proof.
  unfold on_board. rewrite andb_true_iff, !bool_decide_eq_true. done.
Qed.

Lemma grid_get_owner grid r c :
  wf_grid grid → on_board r c = true →
  ∃ v, grid_get grid r c = Ok v ∧ owner grid r c = v.
Proof.
  intros [Hlen Hrows] [Hr Hc]%on_board_spec. unfold grid_get, owner.
  destruct (py_getitem_lookup grid r) as (row & Hrow & ->); [lia|].
  rewrite Hrow. simpl.
  assert (length row = Z.to_nat BOARD_SIZE) as Hrl.
  { eapply Forall_forall in Hrows; [done|]. by eapply list_elem_of_lookup_2. }
  destruct (py_getitem_lookup row c) as (v & Hv & ->); [lia|].
  exists v. rewrite Hv. done.
Qed.

Lemma same_color_at_owns grid color r c :
  wf_grid grid → same_color_at grid color r c = Ok (owns grid color r c).
Proof.
  intros Hg. unfold same_color_at, owns.
  destruct (on_board r c) eqn:Hb; [|done].
  destruct (grid_get_owner grid r c Hg Hb) as (v & -> & ->). done.
Qed.

Lemma edge_scan_spec grid color rr cc dirs :
  wf_grid grid →
  edge_scan grid color rr cc dirs = Ok (touchb grid color dirs (rr, cc)).
Proof.
  intros Hg. induction dirs as [|[dr dc] dirs IH]; [done|].
  simpl. rewrite same_color_at_owns by done. simpl.
  destruct (owns grid color (rr + dr) (cc + dc)); done.
Qed.

Lemma corner_scan_spec grid color rr cc dirs acc :
  wf_grid grid →
  corner_scan grid color rr cc dirs acc
  = Ok (acc || touchb grid color dirs (rr, cc)).
Proof.
  intros Hg. revert acc. induction dirs as [|[dr dc] dirs IH]; intros acc.
  { simpl. by rewrite orb_false_r. }
  simpl. rewrite same_color_at_owns by done. simpl. rewrite IH.
  destruct (owns grid color (rr + dr) (cc + dc)), acc; done.
Qed.

Lemma adjacency_scan_spec grid color placed acc :
  wf_grid grid →
  adjacency_scan grid color placed acc
  = Ok (if existsb (touchb grid color edge_neighbors) placed then None
        else Some (acc || existsb (touchb grid color corner_neighbors) placed)).
Proof.
  intros Hg. revert acc. induction placed as [|[rr cc] placed IH]; intros acc.
  { simpl. by rewrite orb_false_r. }
  cbn [adjacency_scan existsb]. rewrite edge_scan_spec by done.
  cbn [mbind result_bind].
  destruct (touchb grid color edge_neighbors (rr, cc)) eqn:He; [done|].
  rewrite corner_scan_spec by done. cbn [mbind result_bind orb]. rewrite IH.
  destruct (existsb (touchb grid color edge_neighbors) placed); [done|].
  by rewrite orb_assoc.
Qed.

Lemma existsb_touchb grid color dirs placed :
  existsb (touchb grid color dirs) placed = true ↔ touches grid color dirs placed.
Proof.
  rewrite existsb_exists. unfold touches, touchb. split.
  - intros (p & Hp & (d & Hd & Ho)%existsb_exists).
    exists p, d. by rewrite !list_elem_of_In.
  - intros (p & d & Hp & Hd & Ho). exists p. rewrite <- list_elem_of_In.
    split; [done|]. apply existsb_exists. exists d. by rewrite <- list_elem_of_In.
Qed.

Lemma gather_squares_free grid row_off col_off coords acc :
  (∀ p : cell, p ∈ coords →
     on_board (p.1 + row_off) (p.2 + col_off) = true ∧
     grid_get grid (p.1 + row_off) (p.2 + col_off) = Ok None) →
  gather_squares grid row_off col_off coords acc
  = Ok (Some (acc ++ ((λ p : cell, (p.1 + row_off, p.2 + col_off)) <$> coords))).
Proof.
  revert acc. induction coords as [|[r c] coords IH]; intros acc Hall.
  { simpl. by rewrite app_nil_r. }
  destruct (Hall (r, c)) as [Hb Hg]; [left|]. simpl in Hb, Hg.
  simpl. rewrite Hb, Hg. simpl. rewrite IH.
  - by rewrite <- app_assoc.
  - intros p Hp. apply Hall. by right.
Qed.

Lemma all_hands_empty_spec pieces colors :
  (∀ color, color ∈ colors → 0 ≤ color < Z.of_nat (length pieces)) →
  ∃ b, all_hands_empty pieces colors = Ok b ∧
    (b = true ↔ ∀ color, color ∈ colors → pieces !! Z.to_nat color = Some ∅).
Proof.
  induction colors as [|color colors IH]; intros Hr.
  { exists true. split; [done|]. split; [|done]. intros _ c Hc. by apply elem_of_nil in Hc. }
  destruct (py_getitem_lookup pieces color) as (rem & Hl & Hg); [apply Hr; by left|].
  destruct IH as (b & Hb & Hiff); [intros c Hc; apply Hr; by right|].
  cbn [all_hands_empty]. rewrite Hg. cbn [mbind result_bind].
  destruct (decide (rem = ∅)) as [->|Hne].
  - rewrite bool_decide_false by (rewrite size_empty; lia).
    exists b. split; [done|]. rewrite Hiff. split.
    + intros Hall c [->|Hc]%elem_of_cons; [done|by apply Hall].
    + intros Hall c Hc. apply Hall. by right.
  - rewrite bool_decide_true.
    2:{ assert (size rem ≠ 0%nat) by (by rewrite size_empty_iff, leibniz_equiv_iff). lia. }
    exists false. split; [done|]. split; [done|]. intros Hall.
    specialize (Hall color ltac:(left)). congruence.
Qed.

Lemma is_terminal_spec s :
  length (pieces_remaining s) = Z.to_nat NUM_PLAYERS →
  ∃ b, is_terminal s = Ok b ∧
    (b = true ↔
       4 ≤ consecutive_passes s ∨
       ∀ color, 0 ≤ color < NUM_PLAYERS → pieces_remaining s !! Z.to_nat color = Some ∅).
Proof.
  intros Hlen. unfold is_terminal. case_bool_decide as Hp.
  { exists true. split; [done|]. split; [intros _; left; lia|done]. }
  destruct (all_hands_empty_spec (pieces_remaining s) (py_range 4)) as (b & -> & Hb).
  { intros c Hc. unfold py_range in Hc. apply elem_of_seqZ in Hc. rewrite Hlen.
    unfold NUM_PLAYERS. lia. }
  exists b. split; [done|]. rewrite Hb. split.
  - intros Hall. right. intros c Hc. apply Hall. unfold py_range.
    apply elem_of_seqZ. unfold NUM_PLAYERS in Hc. lia.
  - intros [Hge|Hall]; [lia|]. intros c Hc. apply Hall.
    unfold py_range in Hc. apply elem_of_seqZ in Hc. unfold NUM_PLAYERS. lia.
Qed.

(** *** apply_move *)

Lemma py_index_ok n i :
  - Z.of_nat n ≤ i < Z.of_nat n → ∃ k, py_index n i = Ok k ∧ (k < n)%nat.
Proof.
  intros Hi. unfold py_index. case_bool_decide.
  - eexists. split; [done|]. lia.
  - rewrite bool_decide_true by lia. eexists. split; [done|]. lia.
Qed.

Lemma py_index_raise n i :
  ¬ (- Z.of_nat n ≤ i < Z.of_nat n) → py_index n i = Raise IndexError.
Proof.
  intros Hi. unfold py_index. rewrite !bool_decide_false by lia. done.
Qed.

Lemma py_getitem_ok {A} (l : list A) i :
  - Z.of_nat (length l) ≤ i < Z.of_nat (length l) →
  ∃ k x, py_index (length l) i = Ok k ∧ l !! k = Some x ∧ py_getitem l i = Ok x.
Proof.
  intros Hi. destruct (py_index_ok _ _ Hi) as (k & Hk & Hlt).
  destruct (lookup_lt_is_Some_2 l k Hlt) as [x Hx].
  exists k, x. unfold py_getitem. rewrite Hk. simpl. by rewrite Hx.
Qed.

Lemma py_getitem_raise {A} (l : list A) i :
  ¬ (- Z.of_nat (length l) ≤ i < Z.of_nat (length l)) → py_getitem l i = Raise IndexError.
Proof. intros Hi. unfold py_getitem. by rewrite py_index_raise. Qed.

Lemma py_setitem_ok {A} (l : list A) i x :
  - Z.of_nat (length l) ≤ i < Z.of_nat (length l) →
  ∃ k, py_index (length l) i = Ok k ∧ (k < length l)%nat ∧ py_setitem l i x = Ok (<[k := x]> l).
Proof.
  intros Hi. destruct (py_index_ok _ _ Hi) as (k & Hk & Hlt).
  exists k. unfold py_setitem. rewrite Hk. done.
Qed.

Lemma grid_set_ok grid rr cc color :
  wf_grid grid → index_ok (rr, cc) →
  ∃ grid', grid_set grid rr cc color = Ok grid' ∧ wf_grid grid'.
Proof.
  intros [Hlen Hrows] [Hr Hc]. simpl in Hr, Hc. unfold grid_set.
  destruct (py_getitem_ok grid rr) as (k & row & Hk & Hrow & ->); [lia|].
  cbn [mbind result_bind].
  assert (length row = Z.to_nat BOARD_SIZE) as Hrl.
  { eapply Forall_forall in Hrows; [done|]. by eapply list_elem_of_lookup_2. }
  destruct (py_setitem_ok row cc (Some color)) as (j & Hj & Hjl & ->); [lia|].
  cbn [mbind result_bind]. unfold py_setitem. rewrite Hk. cbn [mbind result_bind].
  eexists. split; [done|]. split.
  - by rewrite length_insert.
  - apply Forall_insert; [done|]. by rewrite length_insert.
Qed.

Lemma grid_set_raise grid rr cc color :
  wf_grid grid → ¬ index_ok (rr, cc) → grid_set grid rr cc color = Raise IndexError.
Proof.
  intros [Hlen Hrows] Hn. unfold grid_set, index_ok in *. simpl in Hn.
  destruct (decide (- BOARD_SIZE ≤ rr < BOARD_SIZE)) as [Hr|Hr].
  - destruct (py_getitem_ok grid rr) as (k & row & Hk & Hrow & ->); [lia|].
    cbn [mbind result_bind].
    assert (length row = Z.to_nat BOARD_SIZE) as Hrl.
    { eapply Forall_forall in Hrows; [done|]. by eapply list_elem_of_lookup_2. }
    unfold py_setitem. unfold BOARD_SIZE in *. rewrite (py_index_raise (length row)) by lia. done.
  - unfold BOARD_SIZE in *. rewrite py_getitem_raise; [done|]. lia.
Qed.

Lemma mark_square_eq row_off col_off color grid (p : cell) :
  mark_square row_off col_off color grid p
  = grid_set grid (p.1 + row_off) (p.2 + col_off) color.
Proof. done. Qed.

Lemma mark_all_ok row_off col_off color coords grid :
  wf_grid grid →
  (∀ p : cell, p ∈ coords → index_ok (p.1 + row_off, p.2 + col_off)) →
  ∃ grid', foldlM (mark_square row_off col_off color) grid coords = Ok grid' ∧ wf_grid grid'.
Proof.
  revert grid. induction coords as [|p coords IH]; intros grid Hg Hall.
  { exists grid. done. }
  destruct (grid_set_ok grid (p.1 + row_off) (p.2 + col_off) color Hg) as (g1 & H1 & Hg1).
  { apply Hall. by left. }
  cbn [foldlM]. rewrite mark_square_eq, H1. cbn [mbind result_bind].
  apply IH; [done|]. intros q Hq. apply Hall. by right.
Qed.

Lemma mark_all_raise row_off col_off color coords grid :
  wf_grid grid →
  (∃ p : cell, p ∈ coords ∧ ¬ index_ok (p.1 + row_off, p.2 + col_off)) →
  foldlM (mark_square row_off col_off color) grid coords = Raise IndexError.
Proof.
  revert grid. induction coords as [|p coords IH]; intros grid Hg (q & Hq & Hn).
  { by apply elem_of_nil in Hq. }
  cbn [foldlM]. rewrite mark_square_eq.
  destruct (decide (index_ok (p.1 + row_off, p.2 + col_off))) as [Hp|Hp].
  - destruct (grid_set_ok grid _ _ color Hg Hp) as (g1 & -> & Hg1).
    cbn [mbind result_bind]. apply IH; [done|].
    apply elem_of_cons in Hq as [->|Hq]; [done|]. by exists q.
  - by rewrite grid_set_raise.
Qed.

Lemma wf_state_remaining s :
  wf_state s →
  ∃ remaining,
    pieces_remaining s !! Z.to_nat (current_player s) = Some remaining ∧
    py_getitem (pieces_remaining s) (current_player s) = Ok remaining ∧
    ∀ pid, pid ∈ remaining → 0 ≤ pid < 21.
Proof.
  intros (_ & Hp & _ & Hc & Hr). unfold NUM_PLAYERS in *.
  destruct (py_getitem_lookup (pieces_remaining s) (current_player s))
    as (rem & Hl & Hg); [lia|].
  exists rem. split; [done|]. split; [done|].
  eapply Forall_forall in Hr; [apply Hr|]. by eapply list_elem_of_lookup_2.
Qed.

Lemma wf_state_made s :
  wf_state s →
  ∃ made, moves_made s !! Z.to_nat (current_player s) = Some made ∧
          py_getitem (moves_made s) (current_player s) = Ok made.
Proof.
  intros (_ & _ & Hm & Hc & _). unfold NUM_PLAYERS in *.
  apply py_getitem_lookup. lia.
Qed.

Lemma apply_move_pass s :
  apply_move s None
  = Ok {| board_grid := board_grid s;
          pieces_remaining := pieces_remaining s;
          current_player := (current_player s + 1) `mod` 4;
          moves_made := moves_made s;
          consecutive_passes := consecutive_passes s + 1 |}.
Proof. done. Qed.

Lemma apply_move_pass_wf s s' :
  wf_state s → apply_move s None = Ok s' → wf_state s'.
Proof.
  intros (Hg & Hp & Hm & Hc & Hr). rewrite apply_move_pass. intros [= <-].
  unfold wf_state. simpl. split_and!; try done; apply Z.mod_pos_bound; done.
Qed.

Lemma apply_move_place s piece_id row_off col_off shape_coords remaining :
  wf_state s →
  py_getitem (pieces_remaining s) (current_player s) = Ok remaining →
  let move : Move := (piece_id, row_off, col_off, shape_coords) in
  let placed := placed_cells row_off col_off shape_coords in
  (piece_id ∉ remaining → apply_move s (Some move) = Raise KeyError) ∧
  (piece_id ∈ remaining → Exists (λ p, ¬ index_ok p) placed →
     apply_move s (Some move) = Raise IndexError) ∧
  (piece_id ∈ remaining → Forall index_ok placed →
     ∃ s', apply_move s (Some move) = Ok s' ∧ wf_state s').
Proof.
  intros Hwf Hrem move placed.
  destruct (wf_state_remaining s Hwf) as (rem & Hl & Hg & Hrange).
  rewrite Hg in Hrem. injection Hrem as ->.
  destruct (wf_state_made s Hwf) as (made & Hml & Hmg).
  destruct Hwf as (Hgrid & Hp & Hm & Hc & Hr). unfold NUM_PLAYERS in *.
  unfold apply_move, move. rewrite Hg. cbn [mbind result_bind].
  unfold set_remove. split; [|split].
  - intros Hn. by rewrite bool_decide_false.
  - intros Hin Hex. rewrite bool_decide_true by done. cbn [mbind result_bind].
    destruct (py_setitem_ok (pieces_remaining s) (current_player s) (remaining ∖ {[piece_id]}))
      as (k & Hk & Hkl & ->); [lia|].
    cbn [mbind result_bind]. rewrite mark_all_raise; [done|done|].
    apply Exists_exists in Hex as (q & Hq & Hn). unfold placed, placed_cells in Hq.
    apply list_elem_of_fmap in Hq as (p & -> & Hp'). by exists p.
  - intros Hin Hall. rewrite bool_decide_true by done. cbn [mbind result_bind].
    destruct (py_setitem_ok (pieces_remaining s) (current_player s) (remaining ∖ {[piece_id]}))
      as (k & Hk & Hkl & ->); [lia|].
    cbn [mbind result_bind].
    destruct (mark_all_ok row_off col_off (current_player s) (elements shape_coords)
                (board_grid s) Hgrid) as (g' & -> & Hg').
    { intros p Hp'. eapply Forall_forall in Hall; [apply Hall|].
      unfold placed, placed_cells. apply list_elem_of_fmap. by exists p. }
    cbn [mbind result_bind]. rewrite Hmg. cbn [mbind result_bind].
    destruct (py_setitem_ok (moves_made s) (current_player s) (made + 1))
      as (j & Hj & Hjl & ->); [lia|].
    cbn [mbind result_bind mret result_ret]. eexists. split; [done|].
    unfold wf_state. simpl. rewrite !length_insert.
    split_and!; try done; try (apply Z.mod_pos_bound; done).
    apply Forall_insert; [done|]. intros pid [Hpid _]%elem_of_difference. by apply Hrange.
Qed.

Lemma foldlM_inv {A B} (P : B → Prop) (f : B → A → result B) (l : list A) (b : B) :
  P b →
  (∀ b x, x ∈ l → P b → ∃ b', f b x = Ok b' ∧ P b') →
  ∃ b', foldlM f b l = Ok b' ∧ P b'.
Proof.
  revert b. induction l as [|x l IH]; intros b Hb Hstep.
  { exists b. done. }
  destruct (Hstep b x) as (b1 & Hf & Hb1); [by left|done|].
  cbn [foldlM]. rewrite Hf. cbn [mbind result_bind].
  apply IH; [done|]. intros b2 y Hy. apply Hstep. by right.
Qed.

Lemma gather_squares_total grid row_off col_off coords acc :
  wf_grid grid →
  ∃ r, gather_squares grid row_off col_off coords acc = Ok r ∧
    ∀ placed, r = Some placed →
      ∀ p : cell, p ∈ coords → on_board (p.1 + row_off) (p.2 + col_off) = true.
Proof.
  intros Hg. revert acc. induction coords as [|[r c] coords IH]; intros acc.
  { eexists. split; [done|]. intros ? _ p Hp. by apply elem_of_nil in Hp. }
  cbn [gather_squares]. destruct (on_board (r + row_off) (c + col_off)) eqn:Hb.
  2:{ eexists. split; [done|]. done. }
  cbn [negb]. destruct (grid_get_owner grid _ _ Hg Hb) as (v & -> & _).
  cbn [mbind result_bind]. case_bool_decide.
  { eexists. split; [done|]. done. }
  destruct (IH (acc ++ [(r + row_off, c + col_off)])) as (res & -> & Hres).
  exists res. split; [done|]. intros placed -> p [->|Hp]%elem_of_cons; [done|].
  by eapply Hres.
Qed.

Lemma check_legal_move_total s move :
  wf_state s →
  ∃ b, check_legal_move s move = Ok b ∧
    (b = true →
       (∃ remaining, py_getitem (pieces_remaining s) (current_player s) = Ok remaining ∧
                     move.1.1.1 ∈ remaining) ∧
       ∀ p : cell, p ∈ move.2 → on_board (p.1 + move.1.1.2) (p.2 + move.1.2) = true).
Proof.
  intros Hwf. destruct move as [[[piece_id row_off] col_off] shape_coords].
  destruct (wf_state_remaining s Hwf) as (rem & _ & Hrem & _).
  destruct (wf_state_made s Hwf) as (made & _ & Hmade).
  pose proof Hwf as (Hg & _ & _ & Hc & _).
  unfold check_legal_move. rewrite Hrem. cbn [mbind result_bind].
  case_bool_decide as Hin.
  { eexists. split; [done|]. done. }
  destruct (gather_squares_total (board_grid s) row_off col_off (elements shape_coords) [] Hg)
    as (res & -> & Hres).
  cbn [mbind result_bind]. destruct res as [placed|].
  2:{ eexists. split; [done|]. done. }
  assert (∀ p : cell, p ∈ shape_coords → on_board (p.1 + row_off) (p.2 + col_off) = true)
    as Hon.
  { intros p Hp. eapply Hres; [done|]. by apply elem_of_elements. }
  rewrite Hmade. cbn [mbind result_bind]. case_bool_decide.
  - destruct (py_getitem_lookup CORNER_POSITIONS (current_player s)) as (corner & _ & ->).
    { unfold NUM_PLAYERS in Hc. simpl. lia. }
    cbn [mbind result_bind]. case_bool_decide.
    + eexists. split; [done|]. done.
    + eexists. split; [done|]. intros _. split; [|done]. by exists rem.
  - rewrite adjacency_scan_spec by done. cbn [mbind result_bind].
    destruct (existsb _ placed).
    + eexists. split; [done|]. done.
    + destruct (existsb _ placed); cbn [orb negb].
      * eexists. split; [done|]. intros _. split; [|done]. by exists rem.
      * eexists. split; [done|]. done.
Qed.

(** A legal placement can be applied, and the outcome is a well-formed state. *)
Lemma apply_move_legal s move :
  wf_state s → check_legal_move s move = Ok true →
  ∃ s', apply_move s (Some move) = Ok s' ∧ wf_state s'.
Proof.
  intros Hwf Hlegal. destruct (check_legal_move_total s move Hwf) as (b & Hb & Hprop).
  rewrite Hlegal in Hb. injection Hb as <-.
  destruct Hprop as [(rem & Hrem & Hin) Hon]; [done|].
  destruct move as [[[piece_id row_off] col_off] shape_coords]. simpl in *.
  destruct (apply_move_place s piece_id row_off col_off shape_coords rem Hwf Hrem)
    as (_ & _ & Hok).
  apply Hok; [done|]. unfold placed_cells. apply Forall_fmap, Forall_forall.
  intros p Hp%elem_of_elements. specialize (Hon p Hp).
  apply on_board_spec in Hon. unfold index_ok, BOARD_SIZE in *. simpl. lia.
Qed.

Lemma orientations_of_shape pid shape :
  py_getitem ALL_SHAPES pid = Ok shape →
  ∃ os, get_all_orientations shape = Ok os ∧ Forall normalized os.
Proof.
  intros Hs%py_getitem_elem_of.
  pose proof all_shapes_closed as Hall.
  eapply Forall_forall in Hall; [|done]. unfold orientations_closed in Hall.
  destruct (get_all_orientations shape) as [os|]; [|done].
  exists os. split; [done|]. destruct Hall as (_ & _ & Hall).
  eapply Forall_impl; [done|]. by intros o (? & _).
Qed.

Lemma normalized_py_max o :
  normalized o →
  ∃ max_r max_c, py_max (fst <$> elements o) = Ok max_r ∧
                 py_max (snd <$> elements o) = Ok max_c.
Proof.
  intros [Hr Hc]. destruct (elements o) as [|p l]; [done|].
  simpl. eauto.
Qed.

Lemma get_legal_moves_total s :
  wf_state s →
  ∃ legal_moves, get_legal_moves s = Ok legal_moves ∧
    Forall (λ mv, check_legal_move s mv = Ok true) legal_moves.
Proof.
  intros Hwf. destruct (wf_state_remaining s Hwf) as (rem & _ & Hrem & Hrange).
  unfold get_legal_moves. rewrite Hrem. cbn [mbind result_bind].
  apply foldlM_inv; [done|]. intros moves1 pid Hpid%elem_of_elements H1.
  destruct (py_getitem_lookup ALL_SHAPES pid) as (shape & _ & Hshape).
  { specialize (Hrange pid Hpid). simpl. lia. }
  rewrite Hshape. cbn [mbind result_bind].
  destruct (orientations_of_shape pid shape Hshape) as (os & -> & Hos).
  cbn [mbind result_bind].
  apply foldlM_inv; [done|]. intros moves2 o Ho H2.
  eapply Forall_forall in Hos; [|done].
  destruct (normalized_py_max o Hos) as (max_r & max_c & -> & ->).
  cbn [mbind result_bind].
  apply foldlM_inv; [done|]. intros moves3 row_off _ H3.
  apply foldlM_inv; [done|]. intros moves4 col_off _ H4.
  destruct (check_legal_move_total s (pid, row_off, col_off, o) Hwf) as (b & Hb & _).
  rewrite Hb. cbn [mbind result_bind]. destruct b.
  - eexists. split; [done|]. apply Forall_app. split; [done|]. by constructor.
  - eexists. split; [done|]. done.
Qed.

(** ** States as objects *)

Module HeapFacts.
Local Notation value_apply_move := apply_move (only parsing).
Import Heap.

Lemma wp_bind {A B} (m : M A) (f : A → M B) h Q R :
  wp m h (λ a h', wp (f a) h' Q R) R → wp (m ≫= f) h Q R.
Proof. unfold wp, mbind, M_bind. by destruct (m h) as [[a|e] h']. Qed.

Lemma wp_mono {A} (m : M A) h (Q Q' : A → heap → Prop) (R R' : heap → Prop) :
  wp m h Q' R' → (∀ a h', Q' a h' → Q a h') → (∀ h', R' h' → R h') → wp m h Q R.
Proof. unfold wp. destruct (m h) as [[a|e] h']; auto. Qed.

Lemma wp_ret {A} (a : A) h (Q : A → heap → Prop) R : Q a h → wp (mret a) h Q R.
Proof. done. Qed.

Lemma wp_lift {A} (r : result A) h (Q : A → heap → Prop) (R : heap → Prop) :
  match r with Ok a => Q a h | Raise _ => R h end → wp (lift r) h Q R.
Proof. unfold wp, lift. by destruct r. Qed.

Lemma wp_alloc o h (Q : loc → heap → Prop) R :
  Q (length h) (h ++ [o]) → wp (alloc o) h Q R.
Proof. done. Qed.

Lemma wp_store l o h (Q : unit → heap → Prop) R :
  Q tt (<[l := o]> h) → wp (store l o) h Q R.
Proof. done. Qed.

Lemma wp_load l h (Q : obj → heap → Prop) (R : heap → Prop) :
  R h → (∀ o, h !! l = Some o → Q o h) → wp (load l) h Q R.
Proof. intros HR HQ. unfold wp, load. destruct (h !! l); auto. Qed.

Ltac wp_typed_load :=
  intros HR HQ; apply wp_bind, wp_load; [done|];
  intros [] Hl; try (by apply wp_lift); apply wp_ret; by apply HQ.

Lemma wp_load_row l h (Q : list (option Z) → heap → Prop) (R : heap → Prop) :
  R h → (∀ cells, h !! l = Some (ORow cells) → Q cells h) → wp (load_row l) h Q R.
Proof. wp_typed_load. Qed.

Lemma wp_load_grid l h (Q : list loc → heap → Prop) (R : heap → Prop) :
  R h → (∀ rows, h !! l = Some (OGrid rows) → Q rows h) → wp (load_grid l) h Q R.
Proof. wp_typed_load. Qed.

Lemma wp_load_set l h (Q : gset Z → heap → Prop) (R : heap → Prop) :
  R h → (∀ elems, h !! l = Some (OSet elems) → Q elems h) → wp (load_set l) h Q R.
Proof. wp_typed_load. Qed.

Lemma wp_load_sets l h (Q : list loc → heap → Prop) (R : heap → Prop) :
  R h → (∀ sets, h !! l = Some (OSets sets) → Q sets h) → wp (load_sets l) h Q R.
Proof. wp_typed_load. Qed.

Lemma wp_load_ints l h (Q : list Z → heap → Prop) (R : heap → Prop) :
  R h → (∀ xs, h !! l = Some (OInts xs) → Q xs h) → wp (load_ints l) h Q R.
Proof. wp_typed_load. Qed.

Lemma wp_load_board l h (Q : loc * loc * Z * loc * Z → heap → Prop) (R : heap → Prop) :
  R h →
  (∀ g p cp m cn, h !! l = Some (OBoard g p cp m cn) → Q (g, p, cp, m, cn) h) →
  wp (load_board l) h Q R.
Proof. wp_typed_load. Qed.

(** Heap extension. *)
Lemma prefix_snoc (h0 h : heap) o : h0 `prefix_of` h → h0 `prefix_of` h ++ [o].
Proof. intros H. by apply prefix_app_r. Qed.

Lemma prefix_insert (h0 h : heap) l o :
  h0 `prefix_of` h → (length h0 ≤ l)%nat → h0 `prefix_of` <[l := o]> h.
Proof.
  intros [k ->] Hl. exists (<[l - length h0 := o]> k)%nat.
  by rewrite insert_app_r_alt.
Qed.

Lemma prefix_lookup (h0 h : heap) l o :
  h0 `prefix_of` h → h0 !! l = Some o → h !! l = Some o.
Proof. intros Hp Hl. by eapply prefix_lookup_Some. Qed.

Lemma alloc_all_spec os h (Q : list loc → heap → Prop) R :
  (∀ ls h', h `prefix_of` h' → Forall (λ l, length h ≤ l)%nat ls → Q ls h') →
  wp (alloc_all os) h Q R.
Proof.
  revert h Q. induction os as [|o os IH]; intros h Q HQ.
  { apply wp_ret. by apply HQ. }
  cbn [alloc_all]. apply wp_bind, wp_alloc, wp_bind, IH.
  intros ls h' Hp Hls. apply wp_ret, HQ.
  - etrans; [|done]. by apply prefix_app_r.
  - constructor; [done|]. eapply Forall_impl; [done|].
    intros l Hl. simpl in Hl. rewrite length_app in Hl. lia.
Qed.

Lemma BoardState_new_spec h (Q : loc → heap → Prop) R :
  (∀ l h' g p m, h `prefix_of` h' → (length h ≤ l)%nat →
     h' !! l = Some (OBoard g p 0 m 0) → Q l h') →
  wp BoardState_new h Q R.
Proof.
  intros HQ. unfold BoardState_new.
  apply wp_bind, alloc_all_spec. intros rows h1 Hp1 _.
  apply wp_bind, wp_alloc, wp_bind, alloc_all_spec. intros sets h2 Hp2 _.
  apply wp_bind, wp_alloc, wp_bind, wp_alloc, wp_alloc.
  eapply HQ.
  - do 3 apply prefix_snoc. etrans; [|done]. apply prefix_snoc. done.
  - rewrite !length_app. simpl. apply prefix_length in Hp1, Hp2.
    rewrite length_app in Hp2. lia.
  - apply list_lookup_middle. done.
Qed.

Lemma deepcopy_rows_spec n rows memo h (Q : list loc → heap → Prop) (R : heap → Prop) :
  (n ≤ length h)%nat →
  Forall (λ e : loc * loc, n ≤ e.2)%nat memo →
  (∀ h', h `prefix_of` h' → R h') →
  (∀ rows' h', h `prefix_of` h' → Forall (λ r, n ≤ r)%nat rows' → Q rows' h') →
  wp (deepcopy_rows rows memo) h Q R.
Proof.
  revert memo h Q. induction rows as [|r rows IH]; intros memo h Q Hn Hmemo HR HQ.
  { apply wp_ret. by apply HQ. }
  cbn [deepcopy_rows]. destruct (list_find _ memo) as [[i [r0 r']]|] eqn:Hfind.
  - apply list_find_Some in Hfind as (Hi & _ & _).
    assert (n ≤ r')%nat as Hr'.
    { eapply Forall_forall in Hmemo; [|by eapply list_elem_of_lookup_2]. done. }
    apply wp_bind, IH; [done|done|done|].
    intros rows' h' Hp Hrows'. apply wp_ret, HQ; [done|]. by constructor.
  - apply wp_bind, wp_load_row; [by apply HR|]. intros cells _.
    apply wp_bind, wp_alloc, wp_bind, IH.
    + rewrite length_app. lia.
    + constructor; [done|done].
    + intros h' Hp. apply HR. etrans; [|done]. by apply prefix_app_r.
    + intros rows' h' Hp Hrows'. apply wp_ret, HQ.
      * etrans; [|done]. by apply prefix_app_r.
      * by constructor.
Qed.

Lemma copy_sets_spec sets h (Q : list loc → heap → Prop) (R : heap → Prop) :
  (∀ h', h `prefix_of` h' → R h') →
  (∀ sets' h', h `prefix_of` h' → Forall (λ s, length h ≤ s)%nat sets' → Q sets' h') →
  wp (copy_sets sets) h Q R.
Proof.
  revert h Q. induction sets as [|s sets IH]; intros h Q HR HQ.
  { apply wp_ret. by apply HQ. }
  cbn [copy_sets]. apply wp_bind, wp_load_set; [by apply HR|]. intros elems _.
  apply wp_bind, wp_alloc, wp_bind, IH.
  - intros h' Hp. apply HR. etrans; [|done]. by apply prefix_app_r.
  - intros sets' h' Hp Hs. apply wp_ret, HQ.
    + etrans; [|done]. by apply prefix_app_r.
    + constructor; [done|]. eapply Forall_impl; [done|].
      intros l Hl. simpl in Hl. rewrite length_app in Hl. lia.
Qed.

Lemma fresh_store n h l' l o o' :
  fresh n h l' → h !! l = Some o → same_refs o o' → fresh n (<[l := o']> h) l'.
Proof.
  intros (g & p & cp & m & cn & rows & sets & Hn & Hl' & Hg & Hrows & Hp & Hsets & Hm) Hl Hs.
  assert (l < length h)%nat as Hlt by (by eapply lookup_lt_Some).
  assert (l ≠ g) as Hlg by (intros ->; rewrite Hg in Hl; injection Hl as <-; by destruct o').
  assert (l ≠ p) as Hlp by (intros ->; rewrite Hp in Hl; injection Hl as <-; by destruct o').
  destruct (decide (l = l')) as [->|Hne].
  - rewrite Hl' in Hl. injection Hl as <-. destruct o'; try done.
    destruct Hs as (<- & <- & <-).
    exists g, p, player, m, passes, rows, sets.
    rewrite list_lookup_insert_eq by done. rewrite !list_lookup_insert_ne by done. done.
  - exists g, p, cp, m, cn, rows, sets. rewrite !list_lookup_insert_ne by done. done.
Qed.

Ltac heap_len :=
  repeat first [rewrite length_insert | rewrite length_app]; simpl.

Lemma clone_spec h self (Q : loc → heap → Prop) (R : heap → Prop) :
  (∀ h', h `prefix_of` h' → R h') →
  (∀ l h', h `prefix_of` h' → fresh (length h) h' l → Q l h') →
  wp (clone self) h Q R.
Proof.
  intros HR HQ. unfold clone.
  apply wp_bind, BoardState_new_spec. intros l h1 g0 p0 m0 Hp1 Hl Hl1.
  apply wp_bind, wp_load_board; [by apply HR|]. intros g p cp m cn Hself.
  apply wp_bind, wp_load_board; [by apply HR|]. intros g0' p0' cp0 m0' cn0 Hl1'.
  rewrite Hl1 in Hl1'. injection Hl1' as <- <- <- <- <-.
  apply wp_bind, wp_load_grid; [by apply HR|]. intros rows Hrows.
  assert (length h ≤ length h1)%nat as Hlen1 by (by apply prefix_length).
  apply wp_bind, (deepcopy_rows_spec (length h)); [done|done|..].
  { intros h' Hp. apply HR. by etrans. }
  intros rows' h2 Hp2 Hrows'.
  assert (length h1 ≤ length h2)%nat as Hlen2 by (by apply prefix_length).
  assert (l < length h1)%nat as Hlt by (by eapply lookup_lt_Some).
  apply wp_bind, wp_alloc, wp_bind, wp_store.
  set (h3 := <[l := OBoard (length h2) p0 0 m0 0]> (h2 ++ [OGrid rows'])).
  assert (h `prefix_of` h3) as Hp3.
  { apply prefix_insert; [|done]. apply prefix_snoc. by etrans. }
  assert (length h3 = S (length h2)) as Hlen3.
  { unfold h3. rewrite length_insert, length_app. simpl. lia. }
  assert (h3 !! length h2 = Some (OGrid rows')) as Hg3.
  { unfold h3. rewrite list_lookup_insert_ne by lia. by apply list_lookup_middle. }
  apply wp_bind, wp_load_sets; [by apply HR|]. intros sets Hsets.
  apply wp_bind, copy_sets_spec.
  { intros h' Hp. apply HR. by etrans. }
  intros sets' h4 Hp4 Hsets'.
  assert (length h3 ≤ length h4)%nat as Hlen4 by (by apply prefix_length).
  apply wp_bind, wp_alloc, wp_bind, wp_store, wp_bind, wp_store.
  apply wp_bind, wp_load_ints.
  { apply HR. do 2 (apply prefix_insert; [|done]). apply prefix_snoc. by etrans. }
  intros xs Hxs.
  apply wp_bind, wp_alloc, wp_bind, wp_store, wp_bind, wp_store, wp_ret.
  apply HQ.
  - do 2 (apply prefix_insert; [|done]). apply prefix_snoc.
    do 2 (apply prefix_insert; [|done]). apply prefix_snoc. by etrans.
  - exists (length h2), (length h4), cp,
      (length (<[l:=OBoard (length h2) (length h4) cp m0 0]>
                (<[l:=OBoard (length h2) (length h4) 0 m0 0]> (h4 ++ [OSets sets'])))),
      cn, rows', sets'.
    heap_len.
    split; [done|]. split.
    { rewrite list_lookup_insert_eq; [done|]. heap_len. lia. }
    split.
    { rewrite !list_lookup_insert_ne by lia. rewrite lookup_app_l by (heap_len; lia).
      rewrite !list_lookup_insert_ne by lia. rewrite lookup_app_l by lia.
      by eapply prefix_lookup. }
    split; [done|]. split.
    { rewrite !list_lookup_insert_ne by lia. rewrite lookup_app_l by (heap_len; lia).
      rewrite !list_lookup_insert_ne by lia. by apply list_lookup_middle. }
    split; [|lia].
    eapply Forall_impl; [done|]. intros s Hs. simpl in Hs. lia.
Qed.

Lemma inv_store h0 l' h l o o' :
  inv h0 l' h → (length h0 ≤ l)%nat → h !! l = Some o → same_refs o o' → inv h0 l' (<[l := o']> h).
Proof.
  intros [Hp Hf] Hl Ho Hs. split; [by apply prefix_insert|by eapply fresh_store].
Qed.

Lemma set_cell_spec h0 l' rr cc color h (Q : unit → heap → Prop) (R : heap → Prop) :
  inv h0 l' h →
  (∀ h', h0 `prefix_of` h' → R h') →
  (∀ h', inv h0 l' h' → Q tt h') →
  wp (set_cell l' rr cc color) h Q R.
Proof.
  intros Hinv HR HQ. pose proof Hinv as [Hp Hf].
  destruct Hf as (g & p & cp & m & cn & rows & sets & Hn & Hl' & Hg & Hrows & _).
  unfold set_cell.
  apply wp_bind, wp_load_board; [by apply HR|]. intros g1 p1 cp1 m1 cn1 Hl1.
  rewrite Hl' in Hl1. injection Hl1 as <- <- <- <- <-.
  apply wp_bind, wp_load_grid; [by apply HR|]. intros rows1 Hg1.
  rewrite Hg in Hg1. injection Hg1 as <-.
  apply wp_bind, wp_lift. destruct (py_getitem rows rr) as [row|] eqn:Hrow; [|by apply HR].
  apply py_getitem_elem_of in Hrow.
  apply wp_bind, wp_load_row; [by apply HR|]. intros cells Hcells.
  apply wp_bind, wp_lift. destruct (py_setitem cells cc (Some color)) as [cells'|];
    [|by apply HR].
  apply wp_store, HQ. eapply inv_store; [done| |done|done].
  eapply Forall_forall in Hrows; [|done]. done.
Qed.

Lemma set_cells_spec h0 l' row_off col_off color coords h (Q : unit → heap → Prop)
    (R : heap → Prop) :
  inv h0 l' h →
  (∀ h', h0 `prefix_of` h' → R h') →
  (∀ h', inv h0 l' h' → Q tt h') →
  wp (set_cells l' row_off col_off color coords) h Q R.
Proof.
  revert h. induction coords as [|[r c] coords IH]; intros h Hinv HR HQ.
  { apply wp_ret. by apply HQ. }
  cbn [set_cells]. apply wp_bind, (set_cell_spec h0 l'); [done|done|].
  intros h' Hinv'. by apply IH.
Qed.

Lemma apply_move_spec h state move (Q : loc → heap → Prop) (R : heap → Prop) :
  (∀ h', h `prefix_of` h' → R h') →
  (∀ l h', h `prefix_of` h' → (length h ≤ l)%nat → Q l h') →
  wp (apply_move state move) h Q R.
Proof.
  intros HR HQ. unfold apply_move.
  apply wp_bind, clone_spec; [done|]. intros l h1 Hp1 Hf1.
  assert (inv h l h1) as Hinv by done. clear Hp1 Hf1.
  assert (∀ hx, inv h l hx → R hx) as HRi by (intros hx [? _]; by apply HR).
  apply wp_bind, wp_load_board; [by apply HRi|]. intros g p color m cn Hl.
  apply wp_bind.
  apply (wp_mono _ _ _ (λ _ hx, inv h l hx) _ (λ hx, h `prefix_of` hx)); [| |done].
  - destruct move as [[[[piece_id row_off] col_off] shape_coords]|].
    + apply wp_bind, wp_load_board; [by apply Hinv|]. intros g1 p1 cp1 m1 cn1 Hl1.
      rewrite Hl in Hl1. injection Hl1 as <- <- <- <- <-.
      pose proof Hinv as [Hp Hf].
      destruct Hf as (g' & p' & cp' & m' & cn' & rows & sets & Hn & Hl' & Hg & Hrows &
                      Hps & Hsets & Hm).
      rewrite Hl in Hl'. injection Hl' as <- <- <- <- <-.
      apply wp_bind, wp_load_sets; [done|]. intros sets1 Hs1.
      rewrite Hps in Hs1. injection Hs1 as <-.
      apply wp_bind, wp_lift.
      destruct (py_getitem sets color) as [s|] eqn:Hs; [|done].
      apply py_getitem_elem_of in Hs.
      apply wp_bind, wp_load_set; [done|]. intros remaining Hrem.
      apply wp_bind, wp_lift.
      destruct (set_remove piece_id remaining) as [remaining'|]; [|done].
      apply wp_bind, wp_store.
      assert (inv h l (<[s := OSet remaining']> h1)) as Hinv2.
      { eapply inv_store; [done| |done|done].
        eapply Forall_forall in Hsets; [|done]. done. }
      apply wp_bind, (set_cells_spec h l); [done|done|]. intros h2 Hinv3.
      apply wp_bind, wp_load_board; [by apply Hinv3|]. intros g2 p2 cp2 m2 cn2 Hl2.
      apply wp_bind, wp_load_ints; [by apply Hinv3|]. intros xs Hxs.
      apply wp_bind, wp_lift. destruct (py_getitem xs color) as [made|]; [|by apply Hinv3].
      apply wp_bind, wp_lift.
      destruct (py_setitem xs color (made + 1)) as [xs'|]; [|by apply Hinv3].
      apply wp_bind, wp_store.
      assert (inv h l (<[m2 := OInts xs']> h2)) as Hinv4.
      { eapply inv_store; [done| |done|done].
        destruct Hinv3 as [_ (? & ? & ? & mz & ? & ? & ? & ? & Hlz & _ & _ & _ & _ & Hmz)].
        rewrite Hl2 in Hlz. by injection Hlz as <- <- <- <- <-. }
      apply wp_bind, wp_load_board; [by apply Hinv4|]. intros g3 p3 cp3 m3 cn3 Hl3.
      apply wp_store. eapply inv_store; [done| |done|done].
      by destruct Hinv4 as [_ (? & ? & ? & ? & ? & ? & ? & ? & _)].
    + apply wp_bind, wp_load_board; [by apply Hinv|]. intros g1 p1 cp1 m1 cn1 Hl1.
      apply wp_store. eapply inv_store; [done| |done|done].
      by destruct Hinv as [_ (? & ? & ? & ? & ? & ? & ? & ? & _)].
  - intros _ h2 Hinv2.
    apply wp_bind, wp_load_board; [by apply HRi|]. intros g2 p2 cp2 m2 cn2 Hl2.
    apply wp_bind, wp_store, wp_ret.
    assert (length h ≤ l)%nat as Hn by (by destruct Hinv2 as [_ (? & ? & ? & ? & ? & ? & ? & ? & _)]).
    apply HQ; [|done]. apply prefix_insert; [|done]. by destruct Hinv2.
Qed.

Lemma mapM_read_row_prefix (h h' : heap) rows g :
  h `prefix_of` h' → mapM (read_row h) rows = Some g → mapM (read_row h') rows = Some g.
Proof.
  intros Hp. rewrite !mapM_Some. intros HF. eapply Forall2_impl; [done|].
  intros r cells. unfold read_row. destruct (h !! r) as [o|] eqn:E; [|done].
  by rewrite (prefix_lookup _ _ _ _ Hp E).
Qed.

Lemma mapM_read_set_prefix (h h' : heap) sets p :
  h `prefix_of` h' → mapM (read_set h) sets = Some p → mapM (read_set h') sets = Some p.
Proof.
  intros Hp. rewrite !mapM_Some. intros HF. eapply Forall2_impl; [done|].
  intros r cells. unfold read_set. destruct (h !! r) as [o|] eqn:E; [|done].
  by rewrite (prefix_lookup _ _ _ _ Hp E).
Qed.

Lemma snapshot_prefix (h h' : heap) l v :
  h `prefix_of` h' → snapshot h l = Some v → snapshot h' l = Some v.
Proof.
  intros Hp. unfold snapshot.
  destruct (h !! l) as [[| | | | |g p cp m cn]|] eqn:El; try done.
  rewrite (prefix_lookup _ _ _ _ Hp El).
  destruct (h !! g) as [[|rows| | | |]|] eqn:Eg; try done.
  rewrite (prefix_lookup _ _ _ _ Hp Eg).
  destruct (h !! p) as [[| | |sets | |]|] eqn:Ep; try done.
  rewrite (prefix_lookup _ _ _ _ Hp Ep).
  destruct (h !! m) as [[| | | |xs|]|] eqn:Em; try done.
  rewrite (prefix_lookup _ _ _ _ Hp Em).
  destruct (mapM (read_row h) rows) as [gv|] eqn:Eg'; [|done].
  rewrite (mapM_read_row_prefix _ _ _ _ Hp Eg').
  destruct (mapM (read_set h) sets) as [pv|] eqn:Ep'; [|done].
  rewrite (mapM_read_set_prefix _ _ _ _ Hp Ep'). done.
Qed.

(** Whatever the state object and the move, and whether the call returns or
    raises, every object that existed before the call is unchanged. *)
Lemma apply_move_frame h state move v :
  snapshot h state = Some v →
  let '(r, h') := apply_move state move h in
  snapshot h' state = Some v ∧
  (∀ l o, h !! l = Some o → h' !! l = Some o) ∧
  match r with Ok new_state => (length h ≤ new_state)%nat | Raise _ => True end.
Proof.
  intros Hv.
  pose proof (apply_move_spec h state move
    (λ l h', h `prefix_of` h' ∧ (length h ≤ l)%nat) (λ h', h `prefix_of` h')) as Hwp.
  unfold wp in Hwp. destruct (apply_move state move h) as [[l|e] h'].
  - destruct Hwp as [Hp Hl]; [done|done|]. split; [by eapply snapshot_prefix|].
    split; [|done]. intros ? ?. by apply prefix_lookup.
  - specialize (Hwp ltac:(done) ltac:(done)). split; [by eapply snapshot_prefix|].
    split; [|done]. intros ? ?. by apply prefix_lookup.
Qed.

Lemma runs_eq {A} (m : M A) h r h' (Q : result A → heap → Prop) :
  m h = (r, h') → Q r h' → runs m h Q.
Proof. unfold runs. by intros ->. Qed.

Lemma eq_of_runs {A} (m : M A) h x : runs m h (λ r h', (r, h') = x) → m h = x.
Proof. unfold runs. by destruct (m h). Qed.

Lemma runs_mono {A} (m : M A) h (Q Q' : result A → heap → Prop) :
  runs m h Q' → (∀ r h', Q' r h' → Q r h') → runs m h Q.
Proof. unfold runs. auto. Qed.

Lemma runs_bind {A B} (m : M A) (f : A → M B) h (Q : result B → heap → Prop) :
  runs m h (λ r h', match r with Ok a => runs (f a) h' Q | Raise e => Q (Raise e) h' end) →
  runs (m ≫= f) h Q.
Proof. unfold runs, mbind, M_bind. by destruct (m h) as [[a|e] h']. Qed.

Lemma step_eq {A B} (m : M A) (f : A → M B) h a h' (Q : result B → heap → Prop) :
  m h = (Ok a, h') → runs (f a) h' Q → runs (m ≫= f) h Q.
Proof. intros Hm HQ. apply runs_bind. by eapply runs_eq. Qed.

Lemma step_raise {A B} (m : M A) (f : A → M B) h e h' (Q : result B → heap → Prop) :
  m h = (Raise e, h') → Q (Raise e) h' → runs (m ≫= f) h Q.
Proof. intros Hm HQ. apply runs_bind. by eapply runs_eq. Qed.

Lemma runs_ret {A} (a : A) h (Q : result A → heap → Prop) : Q (Ok a) h → runs (mret a) h Q.
Proof. done. Qed.

Lemma runs_wp {A} (m : M A) h (Q : A → heap → Prop) :
  wp m h Q (λ _, False) → runs m h (λ r h', ∃ a, r = Ok a ∧ Q a h').
Proof. unfold wp, runs. destruct (m h) as [[a|e] h']; [by exists a|done]. Qed.

Lemma load_row_eq h l cells : h !! l = Some (ORow cells) → load_row l h = (Ok cells, h).
Proof. intros Hl. unfold load_row, load, mbind, M_bind. by rewrite Hl. Qed.

Lemma load_grid_eq h l rows : h !! l = Some (OGrid rows) → load_grid l h = (Ok rows, h).
Proof. intros Hl. unfold load_grid, load, mbind, M_bind. by rewrite Hl. Qed.

Lemma load_set_eq h l elems : h !! l = Some (OSet elems) → load_set l h = (Ok elems, h).
Proof. intros Hl. unfold load_set, load, mbind, M_bind. by rewrite Hl. Qed.

Lemma load_sets_eq h l sets : h !! l = Some (OSets sets) → load_sets l h = (Ok sets, h).
Proof. intros Hl. unfold load_sets, load, mbind, M_bind. by rewrite Hl. Qed.

Lemma load_ints_eq h l xs : h !! l = Some (OInts xs) → load_ints l h = (Ok xs, h).
Proof. intros Hl. unfold load_ints, load, mbind, M_bind. by rewrite Hl. Qed.

Lemma load_board_eq h l g p cp m cn :
  h !! l = Some (OBoard g p cp m cn) → load_board l h = (Ok (g, p, cp, m, cn), h).
Proof. intros Hl. unfold load_board, load, mbind, M_bind. by rewrite Hl. Qed.

Lemma keeps_refl l h : keeps l h h.
Proof. by intros x o _ H. Qed.

Lemma keeps_app_r l h h' k : keeps l h h' → keeps l h (h' ++ k).
Proof. intros H x o Hx Ho. apply lookup_app_l_Some. by apply H. Qed.

Lemma keeps_insert_r l h h' o : keeps l h h' → keeps l h (<[l := o]> h').
Proof. intros H x o' Hx Ho. rewrite list_lookup_insert_ne by done. by apply H. Qed.

Lemma keeps_prefix l h h' : h `prefix_of` h' → keeps l h h'.
Proof. intros Hp x o _ Ho. by eapply prefix_lookup. Qed.

Lemma keeps_trans l h1 h2 h3 : keeps l h1 h2 → keeps l h2 h3 → keeps l h1 h3.
Proof. intros H12 H23 x o Hx Ho. apply H23; [done|]. by apply H12. Qed.

Lemma alloc_all_eq os h :
  alloc_all os h = (Ok (seq (length h) (length os)), h ++ os).
Proof.
  revert h. induction os as [|o os IH]; intros h.
  { simpl. by rewrite app_nil_r. }
  cbn [alloc_all]. apply eq_of_runs.
  eapply step_eq; [done|]. eapply step_eq; [apply IH|]. apply runs_ret.
  rewrite length_app, Nat.add_1_r, <- app_assoc. done.
Qed.

Lemma deepcopy_rows_eq rows memo h grid :
  Forall2 (λ r cells, h !! r = Some (ORow cells)) rows grid →
  NoDup rows → Forall (λ r, r ∉ memo.*1) rows →
  deepcopy_rows rows memo h = (Ok (seq (length h) (length rows)), h ++ (ORow <$> grid)).
Proof.
  intros Hrows. revert memo h Hrows.
  induction rows as [|r rows IH] in grid |- *; intros memo h Hrows Hnd Hmemo.
  { apply Forall2_nil_inv_l in Hrows as ->. simpl. by rewrite app_nil_r. }
  apply Forall2_cons_inv_l in Hrows as (cells & grid' & Hr & Hrows & ->).
  apply NoDup_cons in Hnd as [Hr' Hnd]. apply Forall_cons in Hmemo as [Hm Hmemo].
  cbn [deepcopy_rows].
  assert (list_find (λ e : loc * loc, e.1 = r) memo = None) as ->.
  { apply list_find_None, Forall_forall. intros [a b] Hab Heq. simpl in Heq. subst a.
    apply Hm, list_elem_of_fmap. by exists (r, b). }
  apply eq_of_runs.
  eapply step_eq; [by apply load_row_eq|]. eapply step_eq; [done|].
  eapply step_eq.
  { apply (IH grid').
    - eapply Forall2_impl; [done|]. intros x y Hx. by apply lookup_app_l_Some.
    - done.
    - apply Forall_forall. intros x Hx. rewrite fmap_cons, not_elem_of_cons. split.
      + intros ->. done.
      + eapply Forall_forall in Hmemo; done. }
  apply runs_ret. rewrite length_app, Nat.add_1_r, <- app_assoc. done.
Qed.

Lemma copy_sets_eq sets h pieces :
  Forall2 (λ s elems, h !! s = Some (OSet elems)) sets pieces →
  copy_sets sets h = (Ok (seq (length h) (length sets)), h ++ (OSet <$> pieces)).
Proof.
  intros Hsets. revert h Hsets.
  induction sets as [|s sets IH] in pieces |- *; intros h Hsets.
  { apply Forall2_nil_inv_l in Hsets as ->. simpl. by rewrite app_nil_r. }
  apply Forall2_cons_inv_l in Hsets as (elems & pieces' & Hs & Hsets & ->).
  cbn [copy_sets]. apply eq_of_runs.
  eapply step_eq; [by apply load_set_eq|]. eapply step_eq; [done|].
  eapply step_eq.
  { apply (IH pieces'). eapply Forall2_impl; [done|].
    intros x y Hx. by apply lookup_app_l_Some. }
  apply runs_ret. rewrite length_app, Nat.add_1_r, <- app_assoc. done.
Qed.

(** The copies of [n] objects laid out from position [length h] on. *)
Lemma Forall2_seq_fmap {A} (f : A → obj) (h : heap) (xs : list A) n :
  n = length xs →
  Forall2 (λ l x, (length h ≤ l)%nat ∧ (h ++ (f <$> xs)) !! l = Some (f x))
    (seq (length h) n) xs.
Proof.
  intros ->. apply Forall2_same_length_lookup. split; [by rewrite length_seq|].
  intros i l x Hl Hx. apply lookup_seq in Hl as [-> _]. split; [lia|].
  rewrite lookup_app_r by lia. replace (length h + i - length h)%nat with i by lia.
  by rewrite list_lookup_fmap, Hx.
Qed.

Lemma keeps_old l h h' x o :
  keeps l h h' → (length h ≤ l)%nat → h !! x = Some o → h' !! x = Some o.
Proof.
  intros K Hl Hx. apply K; [|done]. apply lookup_lt_Some in Hx. lia.
Qed.

Ltac step_with lem := cbn beta iota zeta; eapply step_eq; [lem|].
Ltac step_pure := cbn beta iota zeta; eapply step_eq; [reflexivity|].
Ltac keeps_tac :=
  first [apply keeps_refl | apply keeps_insert_r; keeps_tac | apply keeps_app_r; keeps_tac].

Lemma clone_holds h self g p m rows sets grid pieces cp xs cn :
  holds_at h self g p m rows sets grid pieces cp xs cn →
  runs (clone self) h (λ r h',
    ∃ l g' p' m' rows' sets',
      r = Ok l ∧ (length h ≤ l)%nat ∧ h `prefix_of` h' ∧
      holds_at h' l g' p' m' rows' sets' grid pieces cp xs cn).
Proof.
  intros [Hb Hg Hrows Hp Hsets Hm Hnd1 Hnd2]. unfold clone.
  apply runs_bind. eapply runs_mono.
  { apply runs_wp.
    apply (BoardState_new_spec h (λ l h', ∃ g p m, h `prefix_of` h' ∧ (length h ≤ l)%nat ∧
             h' !! l = Some (OBoard g p 0 m 0))).
    intros. eauto 10. }
  intros r h1 (l & -> & g0 & p0 & m0 & Hp1 & Hl & Hl1).
  assert (l < length h1)%nat as Hlt by (by eapply lookup_lt_Some).
  assert (length h ≤ length h1)%nat as Hlen1 by (by apply prefix_length).
  step_with ltac:(apply load_board_eq; by eapply prefix_lookup).
  step_with ltac:(by apply load_board_eq).
  step_with ltac:(apply load_grid_eq; by eapply prefix_lookup).
  step_with ltac:(apply (deepcopy_rows_eq _ _ _ grid)).
  { eapply Forall2_impl; [done|]. intros x y Hx. by eapply prefix_lookup. }
  { done. }
  { apply Forall_forall. intros x _. apply not_elem_of_nil. }
  set (rows' := seq (length h1) (length rows)).
  set (h2 := h1 ++ (ORow <$> grid)).
  step_pure. step_pure.
  set (h3 := <[l := OBoard (length h2) p0 0 m0 0]> (h2 ++ [OGrid rows'])).
  assert (keeps l h1 h2) as K12 by (unfold h2; keeps_tac).
  assert (keeps l h2 h3) as K23 by (unfold h3; keeps_tac).
  assert (keeps l h h1) as K01 by (by apply keeps_prefix).
  assert (keeps l h h3) as K03 by (by do 2 (eapply keeps_trans; [|done])).
  step_with ltac:(apply load_sets_eq; by eapply keeps_old).
  step_with ltac:(apply (copy_sets_eq _ _ pieces)).
  { eapply Forall2_impl; [done|]. intros x y Hx. by eapply keeps_old. }
  set (sets' := seq (length h3) (length sets)).
  set (h4 := h3 ++ (OSet <$> pieces)).
  step_pure. step_pure. step_pure.
  set (h5 := <[l := OBoard (length h2) (length h4) cp m0 0]>
               (<[l := OBoard (length h2) (length h4) 0 m0 0]> (h4 ++ [OSets sets']))).
  assert (keeps l h3 h4) as K34 by (unfold h4; keeps_tac).
  assert (keeps l h4 h5) as K45 by (unfold h5; keeps_tac).
  assert (keeps l h h5) as K05 by (by do 2 (eapply keeps_trans; [|done])).
  step_with ltac:(apply load_ints_eq; by eapply keeps_old).
  step_pure. step_pure. step_pure.
  set (h6 := <[l := OBoard (length h2) (length h4) cp (length h5) cn]>
               (<[l := OBoard (length h2) (length h4) cp (length h5) 0]> (h5 ++ [OInts xs]))).
  assert (keeps l h5 h6) as K56 by (unfold h6; keeps_tac).
  assert (length h1 ≤ length h2 ∧ length h2 < length h3 ∧ length h3 ≤ length h4 ∧
          length h4 < length h5 ∧ length h5 < length h6)%nat as Hlens.
  { unfold h6, h5, h4, h3, h2.
    repeat first [rewrite length_insert | rewrite length_app | rewrite length_fmap].
    simpl. lia. }
  apply runs_ret. exists l, (length h2), (length h4), (length h5), rows', sets'.
  split; [done|]. split; [done|]. split.
  { unfold h6, h5, h4, h3, h2.
    repeat first [apply prefix_insert; [|done] | apply prefix_app_r]. done. }
  constructor.
  - unfold h6. apply list_lookup_insert_eq. rewrite length_insert, length_app. lia.
  - apply K56, K45, K34; [lia..|].
    unfold h3. rewrite list_lookup_insert_ne by lia. by apply list_lookup_middle.
  - eapply Forall2_impl; [apply (Forall2_seq_fmap ORow h1 grid)|].
    { by apply Forall2_length in Hrows. }
    intros x y [Hx Hy]. simpl. apply K56, K45, K34, K23; [lia..|done].
  - apply K56; [lia|].
    unfold h5. rewrite !list_lookup_insert_ne by lia. by apply list_lookup_middle.
  - eapply Forall2_impl; [apply (Forall2_seq_fmap OSet h3 pieces)|].
    { by apply Forall2_length in Hsets. }
    intros x y [Hx Hy]. simpl. apply K56, K45; [lia..|done].
  - unfold h6. rewrite !list_lookup_insert_ne by lia. by apply list_lookup_middle.
  - apply NoDup_seq.
  - apply NoDup_seq.
Qed.

Lemma lookup_store_other (h : heap) x y o o' :
  h !! y = Some o' → x ≠ y → <[x := o]> h !! y = Some o'.
Proof. intros Hy Hne. by rewrite list_lookup_insert_ne. Qed.

Ltac other := apply lookup_store_other; [done | intros ->; congruence].

Lemma Forall2_store {A} (f : A → obj) (h : heap) ls vs k l v :
  Forall2 (λ l x, h !! l = Some (f x)) ls vs → NoDup ls → ls !! k = Some l →
  Forall2 (λ l' x, <[l := f v]> h !! l' = Some (f x)) ls (<[k := v]> vs).
Proof.
  intros Hall Hnd Hk. pose proof (Forall2_length _ _ _ Hall) as Hlen.
  destruct (Forall2_lookup_l _ _ _ _ _ Hall Hk) as (v0 & Hv0 & Hl).
  apply Forall2_same_length_lookup. split; [by rewrite length_insert|].
  intros i x y Hx Hy. destruct (decide (i = k)) as [->|Hne].
  - rewrite list_lookup_insert_eq in Hy by (by eapply lookup_lt_Some).
    simplify_eq. apply list_lookup_insert_eq. by eapply lookup_lt_Some.
  - rewrite list_lookup_insert_ne in Hy by done.
    rewrite list_lookup_insert_ne; [exact (Forall2_lookup_lr _ _ _ _ _ _ Hall Hx Hy)|].
    intros ->. apply Hne. by eapply NoDup_lookup.
Qed.

Lemma holds_at_store_board h l g p m rows sets grid pieces cp xs cn cp' cn' :
  holds_at h l g p m rows sets grid pieces cp xs cn →
  holds_at (<[l := OBoard g p cp' m cn']> h) l g p m rows sets grid pieces cp' xs cn'.
Proof.
  intros [Hb Hg Hrows Hp Hsets Hm Hnd1 Hnd2]. constructor; [|other| |other| |other|done|done].
  - apply list_lookup_insert_eq. by eapply lookup_lt_Some.
  - eapply Forall2_impl; [done|]. intros r c Hr. simpl. other.
  - eapply Forall2_impl; [done|]. intros r c Hr. simpl. other.
Qed.

Lemma holds_at_store_ints h l g p m rows sets grid pieces cp xs cn xs' :
  holds_at h l g p m rows sets grid pieces cp xs cn →
  holds_at (<[m := OInts xs']> h) l g p m rows sets grid pieces cp xs' cn.
Proof.
  intros [Hb Hg Hrows Hp Hsets Hm Hnd1 Hnd2]. constructor; [other|other| |other| | |done|done].
  - eapply Forall2_impl; [done|]. intros r c Hr. simpl. other.
  - eapply Forall2_impl; [done|]. intros r c Hr. simpl. other.
  - apply list_lookup_insert_eq. by eapply lookup_lt_Some.
Qed.

Lemma holds_at_store_set h l g p m rows sets grid pieces cp xs cn k s elems :
  holds_at h l g p m rows sets grid pieces cp xs cn → sets !! k = Some s →
  holds_at (<[s := OSet elems]> h) l g p m rows sets grid (<[k := elems]> pieces) cp xs cn.
Proof.
  intros [Hb Hg Hrows Hp Hsets Hm Hnd1 Hnd2] Hk.
  destruct (Forall2_lookup_l _ _ _ _ _ Hsets Hk) as (e0 & _ & Hs).
  constructor; [other|other| |other| |other|done|done].
  - eapply Forall2_impl; [done|]. intros r c Hr. simpl. other.
  - by apply (Forall2_store OSet).
Qed.

Lemma holds_at_store_row h l g p m rows sets grid pieces cp xs cn k r cells :
  holds_at h l g p m rows sets grid pieces cp xs cn → rows !! k = Some r →
  holds_at (<[r := ORow cells]> h) l g p m rows sets (<[k := cells]> grid) pieces cp xs cn.
Proof.
  intros [Hb Hg Hrows Hp Hsets Hm Hnd1 Hnd2] Hk.
  destruct (Forall2_lookup_l _ _ _ _ _ Hrows Hk) as (c0 & _ & Hr).
  constructor; [other|other| |other| |other|done|done].
  - by apply (Forall2_store ORow).
  - eapply Forall2_impl; [done|]. intros s c Hs. simpl. other.
Qed.

(** Indexing two lists of the same length. *)
Lemma py_getitem_Forall2 {A B} (P : A → B → Prop) (l : list A) (k : list B) i :
  Forall2 P l k →
  match py_getitem k i with
  | Ok y => ∃ n x, py_index (length k) i = Ok n ∧ l !! n = Some x ∧ k !! n = Some y ∧
                   py_getitem l i = Ok x ∧ P x y
  | Raise e => py_getitem l i = Raise e
  end.
Proof.
  intros H. pose proof (Forall2_length _ _ _ H) as Hlen. unfold py_getitem.
  rewrite Hlen. destruct (py_index (length k) i) as [n|e]; [|done].
  cbn [mbind result_bind]. destruct (k !! n) as [y|] eqn:Hy.
  - destruct (Forall2_lookup_r _ _ _ _ _ H Hy) as (x & Hx & HP).
    exists n, x. by rewrite Hx.
  - apply lookup_ge_None in Hy. rewrite <- Hlen in Hy. apply lookup_ge_None in Hy.
    by rewrite Hy.
Qed.

Lemma set_cell_run h l g p m rows sets grid pieces cp xs cn rr cc color :
  holds_at h l g p m rows sets grid pieces cp xs cn →
  runs (set_cell l rr cc color) h (λ r h',
    match grid_set grid rr cc color with
    | Ok grid' => r = Ok tt ∧ holds_at h' l g p m rows sets grid' pieces cp xs cn
    | Raise e => r = Raise e
    end).
Proof.
  intros H. pose proof H as [Hb Hg Hrows Hp Hsets Hm Hnd1 Hnd2]. unfold set_cell, grid_set.
  step_with ltac:(by apply load_board_eq). step_with ltac:(by apply load_grid_eq).
  pose proof (py_getitem_Forall2 _ rows grid rr Hrows) as Hget.
  destruct (py_getitem grid rr) as [cells|e].
  - destruct Hget as (n & r & Hn & Hr & Hcells & Hgetr & Hrc).
    cbn [mbind result_bind].
    step_with ltac:(unfold lift; by rewrite Hgetr).
    step_with ltac:(by apply load_row_eq).
    destruct (py_setitem cells cc (Some color)) as [cells'|e].
    + step_pure. eapply runs_eq; [reflexivity|].
      cbn [mbind result_bind]. unfold py_setitem. rewrite Hn. cbn [mbind result_bind].
      split; [done|]. by apply holds_at_store_row.
    + eapply step_raise; [reflexivity|]. done.
  - cbn beta iota zeta. eapply step_raise; [unfold lift; by rewrite Hget|]. done.
Qed.

Lemma set_cells_run l g p m rows sets pieces cp xs cn row_off col_off color coords :
  ∀ h grid,
  holds_at h l g p m rows sets grid pieces cp xs cn →
  runs (set_cells l row_off col_off color coords) h (λ r h',
    match foldlM (mark_square row_off col_off color) grid coords with
    | Ok grid' => r = Ok tt ∧ holds_at h' l g p m rows sets grid' pieces cp xs cn
    | Raise e => r = Raise e
    end).
Proof.
  induction coords as [|[r c] coords IH]; intros h grid H.
  { by apply runs_ret. }
  cbn [set_cells foldlM]. apply runs_bind. eapply runs_mono; [by apply set_cell_run|].
  intros res h' Hres. rewrite mark_square_eq. cbn [fst snd].
  destruct (grid_set grid (r + row_off) (c + col_off) color) as [grid'|e].
  - destruct Hres as [-> H']. cbn [mbind result_bind]. by apply IH.
  - by subst res.
Qed.

Lemma py_setitem_index {A} (l : list A) i n x :
  py_index (length l) i = Ok n → py_setitem l i x = Ok (<[n := x]> l).
Proof. intros Hn. unfold py_setitem. by rewrite Hn. Qed.

Lemma holds_snapshot h l v : holds h l v → snapshot h l = Some v.
Proof.
  intros (g & p & m & rows & sets & [Hb Hg Hrows Hp Hsets Hm _ _]).
  unfold snapshot. rewrite Hb, Hg, Hp, Hm.
  assert (mapM (read_row h) rows = Some (board_grid v)) as ->.
  { apply mapM_Some. eapply Forall2_impl; [done|].
    intros r c Hr. unfold read_row. by rewrite Hr. }
  assert (mapM (read_set h) sets = Some (pieces_remaining v)) as ->.
  { apply mapM_Some. eapply Forall2_impl; [done|].
    intros r c Hr. unfold read_set. by rewrite Hr. }
  by destruct v.
Qed.

Ltac load_board_from H :=
  step_with ltac:(eapply load_board_eq; exact (at_board _ _ _ _ _ _ _ _ _ _ _ _ H)).

(** [apply_move] on objects computes what [apply_move] on values computes:
    it returns when the other does, a fresh object that holds the value
    returned, and raises the same exception when the other raises. *)
Theorem apply_move_refines h state move v :
  holds h state v →
  runs (apply_move state move) h (λ r h',
    match value_apply_move v move with
    | Ok v' => ∃ l, r = Ok l ∧ (length h ≤ l)%nat ∧ holds h' l v'
    | Raise e => r = Raise e
    end).
Proof.
  intros (g0 & p0 & m0 & rows0 & sets0 & H0). unfold apply_move.
  apply runs_bind. eapply runs_mono; [by eapply clone_holds|].
  intros res h1 (l & g & p & m & rows & sets & -> & Hl & Hp1 & H).
  load_board_from H. apply runs_bind.
  destruct move as [[[[piece_id row_off] col_off] shape_coords]|].
  - unfold value_apply_move.
    load_board_from H. step_with ltac:(eapply load_sets_eq; exact (at_pieces _ _ _ _ _ _ _ _ _ _ _ _ H)).
    pose proof (py_getitem_Forall2 _ sets (pieces_remaining v) (current_player v)
                  (at_sets _ _ _ _ _ _ _ _ _ _ _ _ H)) as Hget.
    destruct (py_getitem (pieces_remaining v) (current_player v)) as [remaining|e];
      [|cbn beta iota zeta; eapply step_raise; [unfold lift; by rewrite Hget|]; done].
    destruct Hget as (n & s & Hn & Hs & Hrem & Hgets & Hsrem).
    cbn [mbind result_bind].
    step_with ltac:(unfold lift; by rewrite Hgets).
    step_with ltac:(by apply load_set_eq).
    destruct (set_remove piece_id remaining) as [remaining'|e];
      [|cbn beta iota zeta; eapply step_raise; [reflexivity|]; done].
    cbn [mbind result_bind]. step_pure. step_pure.
    rewrite (py_setitem_index _ _ _ _ Hn). cbn [mbind result_bind].
    pose proof (holds_at_store_set _ _ _ _ _ _ _ _ _ _ _ _ _ _ remaining' H Hs) as H2.
    cbn beta iota zeta. apply runs_bind.
    eapply runs_mono; [by apply (set_cells_run _ _ _ _ _ _ _ _ _ _ _ _ _ _ _ _ H2)|].
    intros res h2 Hres.
    destruct (foldlM (mark_square row_off col_off (current_player v)) (board_grid v)
                (elements shape_coords)) as [grid'|e]; [|by subst res].
    destruct Hres as [-> H3]. cbn [mbind result_bind].
    load_board_from H3. step_with ltac:(eapply load_ints_eq; exact (at_moves _ _ _ _ _ _ _ _ _ _ _ _ H3)).
    destruct (py_getitem (moves_made v) (current_player v)) as [made|e];
      [|cbn beta iota zeta; eapply step_raise; [reflexivity|]; done].
    cbn [mbind result_bind]. step_pure.
    destruct (py_setitem (moves_made v) (current_player v) (made + 1)) as [xs'|e];
      [|cbn beta iota zeta; eapply step_raise; [reflexivity|]; done].
    cbn [mbind result_bind]. step_pure. step_pure.
    pose proof (holds_at_store_ints _ _ _ _ _ _ _ _ _ _ _ _ xs' H3) as H4.
    load_board_from H4. cbn beta iota zeta. eapply runs_eq; [reflexivity|].
    pose proof (holds_at_store_board _ _ _ _ _ _ _ _ _ _ _ _ (current_player v) 0 H4) as H5.
    load_board_from H5. step_pure. apply runs_ret.
    exists l. split; [done|]. split; [done|].
    exists g, p, m, rows, sets. eapply holds_at_store_board. exact H5.
  - unfold value_apply_move. cbn [mbind result_bind mret result_ret].
    load_board_from H. cbn beta iota zeta. eapply runs_eq; [reflexivity|].
    pose proof (holds_at_store_board _ _ _ _ _ _ _ _ _ _ _ _ (current_player v)
                  (consecutive_passes v + 1) H) as H5.
    load_board_from H5. step_pure. apply runs_ret.
    exists l. split; [done|]. split; [done|].
    exists g, p, m, rows, sets. eapply holds_at_store_board. exact H5.
Qed.

Lemma holds_frame h h' l v :
  (∀ x o, h !! x = Some o → h' !! x = Some o) → holds h l v → holds h' l v.
Proof.
  intros Hf (g & p & m & rows & sets & [Hb Hg Hrows Hp Hsets Hm Hnd1 Hnd2]).
  exists g, p, m, rows, sets. constructor; try done; try (by apply Hf).
  - eapply Forall2_impl; [done|]. intros r c Hr. by apply Hf.
  - eapply Forall2_impl; [done|]. intros r c Hr. by apply Hf.
Qed.

(** [BoardState()] makes an object that holds the initial state. *)
Lemma BoardState_new_holds h :
  runs BoardState_new h (λ r h',
    ∃ l, r = Ok l ∧ (length h ≤ l)%nat ∧ holds h' l BoardState_init).
Proof.
  unfold BoardState_new.
  step_with ltac:(apply alloc_all_eq). step_pure.
  step_with ltac:(apply alloc_all_eq). step_pure. step_pure.
  eapply runs_eq; [reflexivity|].
  rewrite !length_replicate.
  set (row := replicate (Z.to_nat BOARD_SIZE) (None : option Z)).
  set (hand := (list_to_set (seqZ 0 21) : gset Z)).
  set (h1 := h ++ replicate (Z.to_nat BOARD_SIZE) (ORow row)).
  set (h2 := h1 ++ [OGrid (seq (length h) (Z.to_nat BOARD_SIZE))]).
  set (h3 := h2 ++ replicate (Z.to_nat NUM_PLAYERS) (OSet hand)).
  set (h4 := h3 ++ [OSets (seq (length h2) (Z.to_nat NUM_PLAYERS))]).
  set (h5 := h4 ++ [OInts (replicate (Z.to_nat NUM_PLAYERS) 0)]).
  exists (length h5). split; [done|]. split.
  { unfold h5, h4, h3, h2, h1. rewrite !length_app. lia. }
  exists (length h1), (length h3), (length h4),
    (seq (length h) (Z.to_nat BOARD_SIZE)), (seq (length h2) (Z.to_nat NUM_PLAYERS)).
  constructor; cbn [BoardState_init board_grid pieces_remaining current_player moves_made
                    consecutive_passes].
  - by apply list_lookup_middle.
  - do 4 apply lookup_app_l_Some. by apply list_lookup_middle.
  - eapply Forall2_impl.
    { apply (Forall2_seq_fmap ORow h (replicate (Z.to_nat BOARD_SIZE) row)).
      by rewrite length_replicate. }
    intros r c [_ Hr]. simpl. do 5 apply lookup_app_l_Some.
    by rewrite fmap_replicate in Hr.
  - do 2 apply lookup_app_l_Some. by apply list_lookup_middle.
  - eapply Forall2_impl.
    { apply (Forall2_seq_fmap OSet h2 (replicate (Z.to_nat NUM_PLAYERS) hand)).
      by rewrite length_replicate. }
    intros r c [_ Hr]. simpl. do 3 apply lookup_app_l_Some.
    by rewrite fmap_replicate in Hr.
  - apply lookup_app_l_Some. by apply list_lookup_middle.
  - apply NoDup_seq.
  - apply NoDup_seq.
Qed.

(** C8: [apply_move] leaves the state it is given as it was.  Whatever the
    move, and whether the call returns or raises, every object that existed
    before the call is unchanged, so the input state holds the value it
    held.  The call returns exactly when [apply_move] on values does (C3
    says when that is), and what it returns is an object created by the
    call that holds the new value. *)
Theorem apply_move_keeps_input h state move v :
  holds h state v →
  let '(r, h') := apply_move state move h in
  holds h' state v ∧
  (∀ l o, h !! l = Some o → h' !! l = Some o) ∧
  match value_apply_move v move with
  | Ok v' =>
      ∃ new_state, r = Ok new_state ∧ (length h ≤ new_state)%nat ∧ holds h' new_state v'
  | Raise e => r = Raise e
  end.
Proof.
  intros H. pose proof (apply_move_frame h state move v (holds_snapshot _ _ _ H)) as Hframe.
  pose proof (apply_move_refines h state move v H) as Hrun. unfold runs in Hrun.
  destruct (apply_move state move h) as [r h']. destruct Hframe as (_ & Hframe & _).
  split; [by eapply holds_frame|]. split; [done|]. exact Hrun.
Qed.

End HeapFacts.

(** ** Sums of rationals *)

Lemma Qsum_nil : Qsum [] = 0%Q.
Proof. done. Qed.

Lemma Qsum_cons x l : Qsum (x :: l) = (x + Qsum l)%Q.
Proof. done. Qed.

Lemma Qsum_app l1 l2 : (Qsum (l1 ++ l2) == Qsum l1 + Qsum l2)%Q.
Proof.
  induction l1 as [|x l1 IH]; simpl; rewrite ?Qsum_nil, ?Qsum_cons; [ring|].
  rewrite IH. ring.
Qed.

Lemma Qsum_nonneg l : nonneg l → (0 <= Qsum l)%Q.
Proof. induction 1 as [|x l Hx _ IH]; rewrite ?Qsum_nil, ?Qsum_cons; lra. Qed.

Lemma Qsum_fmap_le {A} (f g : A → Q) (l : list A) :
  (∀ x, x ∈ l → (f x <= g x)%Q) → (Qsum (f <$> l) <= Qsum (g <$> l))%Q.
Proof.
  induction l as [|x l IH]; intros H; [simpl; rewrite Qsum_nil; lra|].
  rewrite !fmap_cons, !Qsum_cons.
  pose proof (H x ltac:(left)). pose proof (IH (λ y Hy, H y ltac:(by right))). lra.
Qed.

Lemma Qsum_replicate n x : (Qsum (replicate n x) == inject_Z (Z.of_nat n) * x)%Q.
Proof.
  induction n as [|n IH]; [simpl; rewrite Qsum_nil; ring|].
  cbn [replicate]. rewrite Qsum_cons, IH.
  rewrite Nat2Z.inj_succ. unfold Z.succ. rewrite inject_Z_plus. ring.
Qed.

Lemma Qsum_scale (l : list Q) (s : Q) :
  (Qsum ((λ e, e / s) <$> l) == Qsum l / s)%Q.
Proof.
  induction l as [|x l IH]; simpl; rewrite ?Qsum_nil, ?Qsum_cons.
  - unfold Qdiv. ring.
  - rewrite IH. unfold Qdiv. ring.
Qed.

(** Dividing non-negative numbers by their sum gives a sub-distribution. *)
Lemma normalize_le_1 (l : list Q) :
  nonneg l → (Qsum ((λ e, e / Qsum l) <$> l) <= 1)%Q.
Proof.
  intros Hl. rewrite Qsum_scale. pose proof (Qsum_nonneg l Hl) as H0.
  destruct (Qeq_dec (Qsum l) 0) as [Hz|Hnz].
  - rewrite Hz. unfold Qdiv. change (/ 0)%Q with 0%Q. lra.
  - setoid_replace (Qsum l / Qsum l)%Q with 1%Q using relation Qeq by (by field). lra.
Qed.

Lemma normalize_nonneg (l : list Q) :
  nonneg l → nonneg ((λ e, e / Qsum l)%Q <$> l).
Proof.
  intros Hl. pose proof (Qsum_nonneg l Hl) as H0.
  apply Forall_fmap. eapply Forall_impl; [exact Hl|]. intros x Hx. simpl.
  destruct (Qeq_dec (Qsum l) 0) as [Hz|Hnz].
  - rewrite Hz. unfold Qdiv. change (/ 0)%Q with 0%Q. simpl in Hx. lra.
  - assert (0 < Qsum l)%Q as Hpos.
    { apply Qle_lt_or_eq in H0 as [?|Heq]; [done|]. by symmetry in Heq. }
    simpl in Hx. apply Qle_shift_div_l; [done|]. lra.
Qed.

(** ** Dictionaries *)

Section dict.
Context {K : Type} `{EqDecision K}.

Lemma dict_set_elem_of {V} (d : list (K * V)) k v kv :
  kv ∈ dict_set d k v → kv ∈ d ∨ kv = (k, v).
Proof.
  induction d as [|[k' v'] d IH]; simpl.
  - intros ->%list_elem_of_singleton. by right.
  - case_decide as Hk.
    + intros [->|H]%elem_of_cons; [by right|]. left. by right.
    + intros [->|H]%elem_of_cons; [left; by left|].
      destruct (IH H) as [?|?]; [left; by right|by right].
Qed.

Lemma dict_set_values_elem_of {V} (d : list (K * V)) k v x :
  x ∈ (snd <$> dict_set d k v) → x ∈ (snd <$> d) ∨ x = v.
Proof.
  intros ([k' v'] & -> & H)%list_elem_of_fmap.
  apply dict_set_elem_of in H as [H|[= -> ->]]; [|by right].
  left. apply list_elem_of_fmap. by exists (k', v').
Qed.

Lemma dict_set_NoDup {V} (d : list (K * V)) k v :
  NoDup (snd <$> d) → v ∉ (snd <$> d) → NoDup (snd <$> dict_set d k v).
Proof.
  induction d as [|[k' v'] d IH]; simpl; intros Hnd Hv.
  - apply NoDup_singleton.
  - apply NoDup_cons in Hnd as [Hv' Hnd]. apply not_elem_of_cons in Hv as [Hne Hv].
    case_decide as Hk; simpl.
    + apply NoDup_cons. done.
    + apply NoDup_cons. split; [|by apply IH].
      intros [H | ->]%dict_set_values_elem_of; done.
Qed.

Lemma dict_set_not_nil {V} (d : list (K * V)) k v : dict_set d k v ≠ [].
Proof. destruct d as [|[k' v'] d]; simpl; [done|]. by case_decide. Qed.

Lemma dict_set_nonneg (d : list (K * Q)) k v :
  nonneg (snd <$> d) → (0 <= v)%Q → nonneg (snd <$> dict_set d k v).
Proof.
  intros Hd Hv. apply Forall_forall. intros x [H | ->]%dict_set_values_elem_of; [|done].
  eapply Forall_forall in Hd; done.
Qed.

Lemma dict_set_sum_le (d : list (K * Q)) k v :
  nonneg (snd <$> d) → (Qsum (snd <$> dict_set d k v) <= Qsum (snd <$> d) + v)%Q.
Proof.
  induction d as [|[k' v'] d IH]; csimpl; intros Hd.
  - rewrite Qsum_cons, !Qsum_nil. lra.
  - apply Forall_cons in Hd as [Hv' Hd]. csimpl in Hv'. case_decide; csimpl.
    + rewrite !Qsum_cons. lra.
    + rewrite !Qsum_cons. specialize (IH Hd). lra.
Qed.

(** Looking up distinct keys never collects more than the whole dictionary holds. *)
Lemma dict_get_sum_le (d : list (K * Q)) (ks : list K) :
  NoDup ks → nonneg (snd <$> d) →
  (Qsum ((λ k, default 0%Q (dict_get d k)) <$> ks) <= Qsum (snd <$> d))%Q.
Proof.
  revert ks. induction d as [|[k0 v0] d IH]; intros ks Hks Hd.
  { csimpl. rewrite Qsum_nil. induction ks as [|k ks IHk]; csimpl;
      rewrite ?Qsum_nil, ?Qsum_cons; [lra|].
    apply NoDup_cons in Hks as [_ Hks]. specialize (IHk Hks). csimpl. lra. }
  apply Forall_cons in Hd as [Hv0 Hd]. csimpl in Hv0.
  assert (∀ ks, NoDup ks → k0 ∉ ks →
            (Qsum ((λ k, default 0%Q (dict_get ((k0, v0) :: d) k)) <$> ks)
             <= Qsum (snd <$> d))%Q) as Hout.
  { intros ks' Hnd Hnin. eapply Qle_trans; [|apply (IH ks' Hnd Hd)].
    apply Qsum_fmap_le. intros k Hk. csimpl. case_decide as E; [|lra].
    subst. done. }
  destruct (decide (k0 ∈ ks)) as [Hin|Hnin].
  - apply list_elem_of_split in Hin as (l1 & l2 & ->).
    apply NoDup_app in Hks as (Hl1 & Hdis & Hl2).
    apply NoDup_cons in Hl2 as [Hk2 Hl2].
    rewrite fmap_app, Qsum_app. csimpl. rewrite decide_True by done. csimpl.
    rewrite !Qsum_cons.
    assert (NoDup (l1 ++ l2)) as Hnd.
    { apply NoDup_app. split; [done|]. split; [|done].
      intros x Hx Hx2. eapply Hdis; [done|]. by right. }
    assert (k0 ∉ l1 ++ l2) as Hn12.
    { intros [H|H]%elem_of_app; [|done]. eapply Hdis; [done|]. by left. }
    specialize (Hout (l1 ++ l2) Hnd Hn12). rewrite fmap_app, Qsum_app in Hout.
    csimpl in Hout. lra.
  - specialize (Hout ks Hks Hnin). csimpl. rewrite Qsum_cons. csimpl in Hout. lra.
Qed.
End dict.

(** ** decode_policy *)

Lemma Qsum_at_index (l : list Q) :
  (Qsum (at_index l <$> seqZ 0 (Z.of_nat (length l))) == Qsum l)%Q.
Proof.
  induction l as [|x l IH] using rev_ind; [done|].
  rewrite length_app. simpl. rewrite Nat2Z.inj_add. simpl.
  rewrite seqZ_app by lia. rewrite fmap_app, !Qsum_app.
  assert (∀ m, seqZ m 1 = [m]) as -> by (intros m; unfold seqZ; simpl; f_equal; lia).
  rewrite fmap_cons, fmap_nil, !Qsum_cons, !Qsum_nil.
  unfold at_index at 2. rewrite Z.add_0_l, Nat2Z.id.
  rewrite list_lookup_middle by done. simpl.
  rewrite <- IH. apply Qplus_comp; [|reflexivity].
  assert (at_index (l ++ [x]) <$> seqZ 0 (Z.of_nat (length l))
          = at_index l <$> seqZ 0 (Z.of_nat (length l))) as ->; [|reflexivity].
  apply list_fmap_ext. intros i z Hz. apply lookup_seqZ in Hz as [-> Hi].
  unfold at_index. rewrite lookup_app_l by lia. done.
Qed.

Section policy_facts.
Variable np_exp : Q → Q.
Hypothesis np_exp_nonneg : ∀ x, (0 <= np_exp x)%Q.

Lemma mark_legal_ok mask (legal : gset Z) :
  length mask = 22%nat → (∀ pid, pid ∈ legal → 0 ≤ pid < 21) →
  ∃ mask', mark_legal mask legal = Ok mask' ∧ length mask' = 22%nat.
Proof.
  intros Hlen Hlegal. unfold mark_legal.
  apply (foldlM_inv (λ m, length m = 22%nat)); [done|].
  intros m pid Hpid%elem_of_elements Hm.
  destruct (py_setitem_ok m pid true) as (k & _ & _ & ->).
  { specialize (Hlegal pid Hpid). lia. }
  eexists. split; [done|]. by rewrite length_insert.
Qed.

Lemma out_dict_fold (probs : list Q) (legal : gset Z) (idxs : list Z)
    (out : list (policy_key * Q)) :
  (∀ i, i ∈ idxs → 0 ≤ i < Z.of_nat (length probs)) →
  nonneg probs → nonneg (snd <$> out) →
  ∃ out',
    foldlM (λ out_dict i,
      if bool_decide (i ∈ legal) then
        p ← py_getitem probs i; mret (dict_set out_dict (KPiece i) p)
      else mret out_dict) out idxs = Ok out' ∧
    nonneg (snd <$> out') ∧
    (Qsum (snd <$> out') <= Qsum (snd <$> out) + Qsum (at_index probs <$> idxs))%Q.
Proof.
  intros Hidx Hprobs. revert out. induction idxs as [|i idxs IH]; intros out Hout.
  { exists out. split; [done|]. split; [done|]. simpl. rewrite Qsum_nil. lra. }
  assert (∀ j, j ∈ idxs → 0 ≤ j < Z.of_nat (length probs)) as Hidx'.
  { intros j Hj. apply Hidx. by right. }
  destruct (py_getitem_lookup probs i) as (p & Hp & Hget); [apply Hidx; by left|].
  assert (0 <= p)%Q as Hp0.
  { eapply Forall_forall in Hprobs; [exact Hprobs|]. by eapply list_elem_of_lookup_2. }
  assert (at_index probs i = p) as Hat by (unfold at_index; by rewrite Hp).
  cbn [foldlM]. rewrite fmap_cons, Qsum_cons, Hat. case_bool_decide.
  - rewrite Hget. cbn [mbind result_bind mret result_ret].
    destruct (IH Hidx' (dict_set out (KPiece i) p)) as (out' & -> & Hnn & Hsum).
    { by apply dict_set_nonneg. }
    exists out'. split; [done|]. split; [done|].
    pose proof (dict_set_sum_le out (KPiece i) p Hout). lra.
  - cbn [mbind result_bind mret result_ret].
    destruct (IH Hidx' out Hout) as (out' & -> & Hnn & Hsum).
    exists out'. split; [done|]. split; [done|]. lra.
Qed.

Lemma decode_policy_ok (policy_logits : list Q) (legal : gset Z) :
  length policy_logits = 22%nat →
  (∀ pid, pid ∈ legal → 0 ≤ pid < 21) →
  ∃ pol, decode_policy np_exp policy_logits legal 1 = Ok pol ∧
    nonneg (snd <$> pol) ∧ (Qsum (snd <$> pol) <= 1)%Q.
Proof using np_exp_nonneg.
  intros Hlen Hlegal. unfold decode_policy.
  destruct (mark_legal_ok (replicate (length policy_logits) false) legal)
    as (mask1 & -> & Hm1); [by rewrite length_replicate|done|].
  cbn [mbind result_bind].
  destruct (py_setitem_ok mask1 21 true) as (k & _ & _ & ->); [lia|].
  cbn [mbind result_bind]. case_bool_decide.
  { eexists. split; [done|]. split.
    - repeat constructor. done.
    - simpl. rewrite Qsum_cons, Qsum_nil. lra. }
  change (Qltb (1 # 100000000) 1) with true. cbv iota.
  set (masked := zip_with _ (<[k := true]> mask1) policy_logits).
  assert (length masked = 22%nat) as Hlm.
  { unfold masked. rewrite length_zip_with, length_insert. lia. }
  set (scaled := (λ x, x / 1)%Q <$> masked).
  assert (length scaled = 22%nat) as Hls by (unfold scaled; by rewrite length_fmap).
  assert (∃ top, Qmax_list scaled = Ok top) as (top & ->).
  { destruct scaled; [done|]. simpl. eauto. }
  cbn [mbind result_bind mret result_ret].
  set (exps := (λ x, np_exp (x - top))%Q <$> scaled).
  assert (nonneg exps) as Hexps.
  { unfold exps. apply Forall_fmap, Forall_forall. intros x _. apply np_exp_nonneg. }
  set (probs := (λ e, e / Qsum exps)%Q <$> exps).
  assert (length probs = 22%nat) as Hlp.
  { unfold probs, exps. by rewrite !length_fmap. }
  assert (nonneg probs) as Hprobs by (by apply normalize_nonneg).
  assert (Qsum probs <= 1)%Q as Hsum by (by apply normalize_le_1).
  destruct (out_dict_fold probs legal (py_range 21) []) as (out & -> & Hout & Hosum).
  { intros i Hi. unfold py_range in Hi. apply elem_of_seqZ in Hi. lia. }
  { done. }
  { constructor. }
  cbn [mbind result_bind].
  destruct (py_getitem_lookup probs 21) as (p & Hp & ->); [lia|].
  cbn [mbind result_bind mret result_ret].
  assert (0 <= p)%Q as Hp0.
  { eapply Forall_forall in Hprobs; [exact Hprobs|]. by eapply list_elem_of_lookup_2. }
  eexists. split; [done|]. split; [by apply dict_set_nonneg|].
  pose proof (dict_set_sum_le out KPass p Hout) as Hle.
  pose proof (Qsum_at_index probs) as Hall. rewrite Hlp in Hall.
  assert (seqZ 0 (Z.of_nat 22) = py_range 21 ++ [21]) as Hsplit by reflexivity.
  rewrite Hsplit, fmap_app, Qsum_app, fmap_cons, fmap_nil, Qsum_cons, Qsum_nil in Hall.
  assert (at_index probs 21 = p) as Hat by (unfold at_index; by rewrite Hp).
  rewrite Hat in Hall. rewrite fmap_nil, Qsum_nil in Hosum. lra.
Qed.
End policy_facts.

(** ** Final scores *)

Lemma Zsum_cons x l : Zsum (x :: l) = x + Zsum l.
Proof. done. Qed.

Lemma Zsum_submseteq (f : Z → Z) (l1 l2 : list Z) :
  (∀ x, 0 ≤ f x) → l1 ⊆+ l2 → Zsum (f <$> l1) ≤ Zsum (f <$> l2).
Proof.
  intros Hf. induction 1 as [|x l1 l2 _ IH|x y l|x l1 l2 _ IH|l1 l2 l3 _ IH1 _ IH2];
    rewrite ?fmap_cons, ?Zsum_cons in *; try lia.
  specialize (Hf x). lia.
Qed.

Lemma leftover_fold (l : list Z) (acc : Z) :
  (∀ pid, pid ∈ l → 0 ≤ pid < 21) →
  foldlM (λ leftover_squares pid,
            shape ← py_getitem ALL_SHAPES pid;
            mret (leftover_squares + Z.of_nat (size shape))) acc l
  = Ok (acc + Zsum (squares_of <$> l)).
Proof.
  revert acc. induction l as [|pid l IH]; intros acc Hl.
  { simpl. f_equal. unfold Zsum. simpl. lia. }
  destruct (py_getitem_lookup ALL_SHAPES pid) as (shape & Hs & Hg).
  { specialize (Hl pid ltac:(left)). simpl. lia. }
  cbn [foldlM]. rewrite Hg. cbn [mbind result_bind mret result_ret].
  rewrite IH by (intros p Hp; apply Hl; by right).
  assert (squares_of pid = Z.of_nat (size shape)) as Hsq.
  { unfold squares_of. by rewrite Hs. }
  f_equal. rewrite fmap_cons, Zsum_cons, Hsq. lia.
Qed.

Lemma leftover_bound (remaining : gset Z) :
  (∀ pid, pid ∈ remaining → 0 ≤ pid < 21) →
  0 ≤ Zsum (squares_of <$> elements remaining) ≤ 89.
Proof.
  intros Hr. split.
  - induction (elements remaining) as [|x l IH]; [done|].
    rewrite fmap_cons, Zsum_cons. assert (0 ≤ squares_of x) by (unfold squares_of; lia). lia.
  - etrans; [apply (Zsum_submseteq squares_of _ (seqZ 0 21))|].
    + intros x. unfold squares_of. lia.
    + apply NoDup_submseteq; [apply NoDup_elements|].
      intros x Hx%elem_of_elements. apply elem_of_seqZ. specialize (Hr x Hx). lia.
    + by vm_compute.
Qed.

Lemma compute_final_scores_ok s :
  wf_state s →
  ∃ scores, compute_final_scores s = Ok scores ∧ length scores = 4%nat ∧
    Forall (λ x, -89 ≤ x ≤ 0) scores.
Proof.
  intros (_ & Hp & _ & _ & Hr). unfold compute_final_scores.
  apply (foldlM_inv (λ sc, length sc = 4%nat ∧ Forall (λ x, -89 ≤ x ≤ 0) sc)).
  { split; [done|]. repeat constructor; lia. }
  intros scores color Hc [Hlen Hall]. unfold py_range in Hc. apply elem_of_seqZ in Hc.
  destruct (py_getitem_lookup (pieces_remaining s) color) as (rem & Hl & ->).
  { rewrite Hp. unfold NUM_PLAYERS. lia. }
  cbn [mbind result_bind].
  assert (∀ pid, pid ∈ rem → 0 ≤ pid < 21) as Hrem.
  { eapply Forall_forall in Hr; [exact Hr|]. by eapply list_elem_of_lookup_2. }
  rewrite leftover_fold by (intros pid Hpid%elem_of_elements; by apply Hrem).
  cbn [mbind result_bind].
  destruct (py_setitem_ok scores color (- (0 + Zsum (squares_of <$> elements rem))))
    as (k & _ & _ & ->); [lia|].
  eexists. split; [done|]. rewrite length_insert. split; [done|].
  apply Forall_insert; [done|]. pose proof (leftover_bound rem Hrem). lia.
Qed.

(** ** Well-formed search trees *)

Lemma under_lt t a x : wf_tree t → under t a x → (a < x)%nat.
Proof.
  intros Hwf. induction 1 as [x n Ha Hx|p x np _ IH Hp Hx].
  - destruct (Hwf a n Ha) as (_ & _ & Hc). by destruct (Hc x Hx).
  - destruct (Hwf p np Hp) as (_ & _ & Hc). destruct (Hc x Hx). lia.
Qed.

Lemma under_lookup t a x : wf_tree t → under t a x → is_Some (t !! x).
Proof.
  intros Hwf. destruct 1 as [x n Ha Hx|p x np _ Hp Hx].
  - destruct (Hwf a n Ha) as (_ & _ & Hc). destruct (Hc x Hx) as (_ & cn & -> & _). eauto.
  - destruct (Hwf p np Hp) as (_ & _ & Hc). destruct (Hc x Hx) as (_ & cn & -> & _). eauto.
Qed.

Lemma under_cons t a c x n :
  t !! a = Some n → c ∈ child_refs n → under t c x → under t a x.
Proof.
  intros Ha Hc. induction 1 as [y nc Hc' Hy|p y np _ IHu Hp Hy].
  - eapply under_step; [by eapply under_child|done|done].
  - eapply under_step; [apply IHu|done|done].
Qed.

(** The path to [x] only looks at nodes before [x]. *)
Lemma under_preserved t t' a x :
  wf_tree t → under t a x →
  (∀ i n, (i < x)%nat → t !! i = Some n →
     ∃ n', t' !! i = Some n' ∧ child_refs n' = child_refs n) →
  under t' a x.
Proof.
  intros Hwf. induction 1 as [x n Ha Hx|p x np Hu IH Hp Hx]; intros Hsame.
  - assert (a < x)%nat as Hlt.
    { destruct (Hwf a n Ha) as (_ & _ & Hc). by destruct (Hc x Hx). }
    destruct (Hsame a n Hlt Ha) as (n' & Ha' & Hrefs).
    eapply under_child; [done|]. by rewrite Hrefs.
  - assert (p < x)%nat as Hlt.
    { destruct (Hwf p np Hp) as (_ & _ & Hc). by destruct (Hc x Hx). }
    destruct (Hsame p np Hlt Hp) as (n' & Hp' & Hrefs).
    eapply under_step; [|done|by rewrite Hrefs].
    apply IH. intros i n Hi. apply Hsame. lia.
Qed.

Section search_facts.
Variable np_exp : Q → Q.
Variable math_sqrt : Z → Q.
Hypothesis math_sqrt_nonneg : ∀ n, (0 <= math_sqrt n)%Q.

Lemma Qltb_true a b : (a < b)%Q → Qltb a b = true.
Proof.
  intros H. unfold Qltb. destruct (Qle_bool b a) eqn:E; [|done].
  apply Qle_bool_iff in E. lra.
Qed.

Lemma mean_value_bound n :
  node_ok n → visit_count n ≠ 0 → (-1 <= mean_value n)%Q.
Proof.
  intros [_ Hv Hval _ _] Hne. unfold mean_value. rewrite bool_decide_false by done.
  assert (0 < inject_Z (visit_count n))%Q as Hpos.
  { rewrite <- (Zlt_Qlt 0). lia. }
  apply Qle_shift_div_l; [done|]. lra.
Qed.

Lemma dict_get_nonneg {K} `{EqDecision K} (d : list (K * Q)) k :
  nonneg (snd <$> d) → (0 <= default 0 (dict_get d k))%Q.
Proof.
  induction d as [|[k' v] d IH]; csimpl; intros Hd; [lra|].
  apply Forall_cons in Hd as [Hv Hd]. case_decide; [done|by apply IH].
Qed.

Lemma ucb_score_ok par child c_puct :
  node_ok child → is_Some (last_action_key child) → (0 <= c_puct)%Q →
  ∃ sc, ucb_score math_sqrt par child c_puct = Ok sc ∧
        score_gt sc (Fin (- (999999))) = true.
Proof using math_sqrt_nonneg.
  intros Hok [key Hkey] Hc. unfold ucb_score. case_bool_decide as Hv.
  { eexists. split; [done|]. done. }
  rewrite Hkey. cbn [mbind result_bind]. eexists. split; [done|].
  cbn [score_gt]. apply Qltb_true.
  pose proof (mean_value_bound child Hok Hv) as Hm.
  pose proof (dict_get_nonneg (priors child) key (ok_priors _ Hok)) as Hp.
  pose proof (math_sqrt_nonneg (visit_count par)) as Hs.
  pose proof (ok_visits _ Hok) as Hvis.
  assert (0 < inject_Z (1 + visit_count child))%Q as Hden.
  { rewrite <- (Zlt_Qlt 0). lia. }
  set (pr := default 0%Q (dict_get (priors child) key)) in *.
  assert (0 <= c_puct * pr * math_sqrt (visit_count par) / inject_Z (1 + visit_count child))%Q
    as Hexp.
  { apply Qle_shift_div_l; [done|]. rewrite Qmult_0_l.
    apply Qmult_le_0_compat; [|done]. by apply Qmult_le_0_compat. }
  lra.
Qed.

(** The loop that picks the best child always ends on one of the children. *)
Lemma best_child_found t n c_puct items best :
  wf_tree t → (0 <= c_puct)%Q →
  (∀ c, c ∈ (snd <$> items) → ∃ cn, t !! c = Some cn ∧ is_Some (last_action_key cn)) →
  (best.2 = None ∧ best.1.1 = Fin (- (999999)) ∨
   ∃ c, best.2 = Some c ∧ c ∈ child_refs n) →
  (∀ c, c ∈ (snd <$> items) → c ∈ child_refs n) →
  ∃ best', foldlM (best_child_step math_sqrt t n c_puct) best items = Ok best' ∧
    (items = [] ∧ best' = best ∨ ∃ c, best'.2 = Some c ∧ c ∈ child_refs n).
Proof using math_sqrt_nonneg.
  intros Hwf Hc. revert best. induction items as [|[key c] items IH];
    intros best Hitems Hbest Hsub.
  { exists best. split; [done|]. by left. }
  destruct (Hitems c ltac:(left)) as (cn & Hcn & Hkey).
  destruct (Hwf c cn Hcn) as (Hok & _).
  destruct (ucb_score_ok n cn c_puct Hok Hkey Hc) as (sc & Hsc & Hgt).
  destruct best as [[bs ba] bc]. cbn [foldlM best_child_step].
  unfold get_node. rewrite Hcn. cbn [mbind result_bind]. rewrite Hsc.
  cbn [mbind result_bind].
  assert (c ∈ child_refs n) as Hcin by (apply Hsub; left).
  assert (∀ c', c' ∈ (snd <$> items) →
            ∃ cn', t !! c' = Some cn' ∧ is_Some (last_action_key cn')) as Hitems'.
  { intros c' Hc'. apply Hitems. by right. }
  assert (∀ c', c' ∈ (snd <$> items) → c' ∈ child_refs n) as Hsub'.
  { intros c' Hc'. apply Hsub. by right. }
  destruct (score_gt sc bs) eqn:Hcmp; cbn [mret result_ret mbind result_bind].
  - destruct (IH (sc, Some key, Some c)) as (best' & -> & Hb'); [done| |done|].
    { right. by exists c. }
    exists best'. split; [done|]. right.
    destruct Hb' as [[_ ->]|Hb']; [by exists c|done].
  - destruct Hbest as [[Hnone Hinit]|(c0 & Hc0 & Hc0in)]; simpl in *.
    { subst. by rewrite Hgt in Hcmp. }
    destruct (IH (bs, ba, bc)) as (best' & -> & Hb'); [done| |done|].
    { right. by exists c0. }
    exists best'. split; [done|]. right.
    destruct Hb' as [[_ ->]|Hb']; [by exists c0|done].
Qed.

Lemma select_loop_ok fuel t i ni c_puct :
  wf_tree t → (0 <= c_puct)%Q → t !! i = Some ni →
  (length t ≤ fuel + i)%nat →
  ∃ x nx, select_loop math_sqrt fuel t (Some i) c_puct = Ok x ∧
    t !! x = Some nx ∧
    (expanded nx = false ∨ children nx = []) ∧
    (x = i ∨ under t i x) ∧
    (x = i → expanded ni = false ∨ children ni = []).
Proof using math_sqrt_nonneg.
  intros Hwf Hc. revert i ni. induction fuel as [|fuel IH]; intros i ni Hi Hfuel.
  { apply lookup_lt_Some in Hi. lia. }
  cbn [select_loop]. unfold get_node. rewrite Hi. cbn [mbind result_bind].
  destruct (expanded ni) eqn:Hexp; cbn [andb].
  2:{ exists i, ni. split; [done|]. split; [done|]. split; [by left|].
      split; [by left|]. intros _. by left. }
  case_bool_decide as Hlen.
  2:{ exists i, ni. split; [done|]. split; [done|].
      assert (children ni = []) as Hnil by (destruct (children ni); [done|simpl in Hlen; lia]).
      split; [by right|]. split; [by left|]. intros _. by right. }
  destruct (Hwf i ni Hi) as (_ & _ & Hkids).
  destruct (best_child_found t ni c_puct (children ni) (Fin (- (999999)), None, None))
    as ([[bs ba] bc] & -> & Hbest); [done|done| | |done|].
  { intros c Hcin. destruct (Hkids c Hcin) as (_ & cn & ? & _ & ?). eauto. }
  { left. done. }
  cbn [mbind result_bind].
  destruct Hbest as [[Hnil _]|(c & Hbc & Hcin)].
  { rewrite Hnil in Hlen. simpl in Hlen. lia. }
  simpl in Hbc. subst bc.
  destruct (Hkids c Hcin) as (Hlt & cn & Hcn & _).
  destruct (IH c cn Hcn) as (x & nx & -> & Hx & Hleaf & Hpath & _); [lia|].
  exists x, nx. split; [done|]. split; [done|]. split; [done|]. split.
  - right. destruct Hpath as [->|Hu].
    + by eapply under_child.
    + by eapply under_cons.
  - intros ->. destruct Hpath as [->|Hu]; [lia|].
    apply (under_lt _ _ _ Hwf) in Hu. lia.
Qed.
End search_facts.

Lemma dict_get_set {K V} `{EqDecision K} (d : list (K * V)) k v k' :
  dict_get (dict_set d k v) k' = if decide (k = k') then Some v else dict_get d k'.
Proof.
  induction d as [|[k0 v0] d IH]; simpl.
  - by repeat case_decide.
  - repeat (case_decide; simpl; subst); try done; try congruence;
      rewrite IH; by rewrite ?decide_True, ?decide_False by done.
Qed.

(** What [moves_by_piece] holds for a key are placements of that piece, at
    least one, all taken from the list it was built from. *)
Lemma moves_by_piece_spec (P : Move → Prop) (moves : list Move) d :
  (∀ k v, dict_get d k = Some v → v ≠ [] ∧ Forall (λ mv, P mv ∧ piece_of mv = k) v) →
  Forall P moves →
  ∀ k v, dict_get (foldl (λ d (mv : Move), dict_append d mv.1.1.1 mv) d moves) k = Some v →
    v ≠ [] ∧ Forall (λ mv, P mv ∧ piece_of mv = k) v.
Proof.
  revert d. induction moves as [|mv moves IH]; intros d Hd Hmoves; [done|].
  apply Forall_cons in Hmoves as [Hmv Hmoves]. cbn [foldl]. apply IH; [|done].
  intros k v. unfold dict_append.
  destruct (dict_get d mv.1.1.1) as [xs|] eqn:Hget; rewrite dict_get_set;
    case_decide as Hk; try apply Hd.
  - intros [= <-]. destruct (Hd _ _ Hget) as [_ Hxs]. split; [by destruct xs|].
    apply Forall_app. split; [by subst|]. constructor; [|done]. by subst.
  - intros [= <-]. split; [done|]. by repeat constructor.
Qed.

Lemma moves_by_piece_none (moves : list Move) d k :
  dict_get d k = None → (∀ mv, mv ∈ moves → piece_of mv ≠ k) →
  dict_get (foldl (λ d (mv : Move), dict_append d mv.1.1.1 mv) d moves) k = None.
Proof.
  revert d. induction moves as [|mv moves IH]; intros d Hd Hmoves; [done|].
  cbn [foldl]. apply IH; [|intros mv' Hmv'; apply Hmoves; by right].
  specialize (Hmoves mv ltac:(left)). unfold piece_of in Hmoves. unfold dict_append.
  destruct (dict_get d mv.1.1.1); rewrite dict_get_set; by rewrite decide_False.
Qed.

(** ** Expansion *)

Lemma grows_refl t x n :
  t !! x = Some n → nonneg (snd <$> priors n) → NoDup (child_refs n) →
  (∀ c, c ∈ child_refs n → (c < length t)%nat) → grows t x t.
Proof.
  intros Hx Hp Hnd Hb. split; [done|]. split; [done|]. split.
  - exists n, n. split_and!; try done. intros c Hc. by left.
  - intros i k Hi Hk. apply lookup_lt_Some in Hk. lia.
Qed.

Lemma add_child_grows st x key move prior t0 t :
  grows t0 x t → wf_state st → (0 <= prior)%Q →
  match move with Some mv => check_legal_move st mv = Ok true | None => True end →
  ∃ t', add_child st x key move prior t = Ok t' ∧ grows t0 x t' ∧
        (prior_mass t' x <= prior_mass t x + prior)%Q.
Proof.
  intros (Hlen & Hold & (n0 & n & Hx0 & Hx & Hst & Hpar & Hvis & Htot & Hkey & Hpri & Hnd &
          Hb0 & Hrefs) & Hnew) Hwf Hprior Hmove.
  assert (∃ cs, apply_move st move = Ok cs ∧ wf_state cs) as (cs & Hcs & Hwfcs).
  { destruct move as [mv|]; [by apply apply_move_legal|].
    eexists. split; [done|]. by eapply apply_move_pass_wf. }
  unfold add_child. rewrite Hcs. cbn [mbind result_bind]. unfold update_node, get_node.
  assert (x < length t)%nat as Hxlt by (by eapply lookup_lt_Some).
  rewrite lookup_app_l by done. rewrite Hx. cbn [mbind result_bind].
  eexists. split; [done|]. split; [split; [|split; [|split]]|].
  - rewrite length_insert, length_app. simpl. lia.
  - intros i Hi Hilt. rewrite list_lookup_insert_ne by done.
    rewrite lookup_app_l by lia. by apply Hold.
  - eexists n0, _. split; [done|]. split.
    { apply list_lookup_insert_eq. rewrite length_app. lia. }
    simpl. split_and!; try done.
    + by apply dict_set_nonneg.
    + unfold child_refs. simpl. apply dict_set_NoDup; try done.
      intros Hin. destruct (Hrefs _ Hin) as [H|H]; [|lia].
      specialize (Hb0 _ H). lia.
    + intros c. unfold child_refs at 1. simpl.
      intros [H | ->]%dict_set_values_elem_of.
      * destruct (Hrefs _ H) as [?|?]; [by left|right].
        rewrite length_insert, length_app. simpl. lia.
      * right. rewrite length_insert, length_app. simpl. lia.
  - intros i k Hi Hk. assert (i ≠ x) as Hne by (apply lookup_lt_Some in Hx0; lia).
    rewrite list_lookup_insert_ne in Hk by done.
    destruct (decide (i < length t)%nat) as [Hlt|Hge].
    + rewrite lookup_app_l in Hk by done. by eapply Hnew.
    + assert (i = length t) as ->.
      { apply lookup_lt_Some in Hk. rewrite length_app in Hk. simpl in Hk. lia. }
      rewrite list_lookup_middle in Hk by done. injection Hk as <-.
      unfold new_child. simpl. split_and!; done.
  - unfold prior_mass. rewrite Hx.
    rewrite list_lookup_insert_eq by (rewrite length_app; lia). simpl.
    by apply dict_set_sum_le.
Qed.

Lemma enumerate_snd {A} (l : list A) : (enumerate l).*2 = l.
Proof. unfold enumerate. apply snd_zip. by rewrite length_seqZ, Nat2Z.id. Qed.

Lemma enumerate_length {A} (l : list A) : length (enumerate l) = length l.
Proof. rewrite <- (enumerate_snd l) at 2. by rewrite length_fmap. Qed.

(** The children of one piece: the inner loop over [enumerate(placements)]. *)
Lemma placements_fold st x pid split (items : list (Z * Move)) t0 t :
  grows t0 x t → wf_state st → (0 <= split)%Q →
  Forall (λ item, check_legal_move st item.2 = Ok true) items →
  ∃ t', foldlM (λ t (item : Z * Move),
                  add_child st x (Place pid item.1) (Some item.2) split t) t items = Ok t' ∧
        grows t0 x t' ∧
        (prior_mass t' x <= prior_mass t x + inject_Z (Z.of_nat (length items)) * split)%Q.
Proof.
  intros Hg Hwf Hs. revert t Hg. induction items as [|item items IH]; intros t Hg Hitems.
  { exists t. split; [done|]. split; [done|]. change (inject_Z (Z.of_nat (length (@nil (Z * Move))))) with 0%Q. lra. }
  apply Forall_cons in Hitems as [Hitem Hitems].
  destruct (add_child_grows st x (Place pid item.1) (Some item.2) split t0 t Hg Hwf Hs Hitem)
    as (t1 & H1 & Hg1 & Hm1).
  cbn [foldlM]. rewrite H1. cbn [mbind result_bind].
  destruct (IH t1 Hg1 Hitems) as (t' & -> & Hg' & Hm').
  exists t'. split; [done|]. split; [done|].
  cbn [length]. rewrite Nat2Z.inj_succ. unfold Z.succ. rewrite inject_Z_plus.
  change (inject_Z 1) with 1%Q. lra.
Qed.

Lemma moves_by_piece_legal st legal_moves pid placements :
  Forall (λ mv, check_legal_move st mv = Ok true) legal_moves →
  dict_get (moves_by_piece_of legal_moves) pid = Some placements →
  placements ≠ [] ∧ Forall (λ mv, check_legal_move st mv = Ok true) placements ∧
  has_placement legal_moves pid = true.
Proof.
  intros Hlegal Hget.
  destruct (moves_by_piece_spec (λ mv, check_legal_move st mv = Ok true ∧ mv ∈ legal_moves)
              legal_moves [] ltac:(done)) with (k := pid) (v := placements)
    as [Hne Hall]; [|done|].
  { apply Forall_forall. intros mv Hmv. split; [|done].
    eapply Forall_forall in Hlegal; done. }
  split; [done|]. split.
  - eapply Forall_impl; [done|]. by intros mv [[? _] _].
  - destruct placements as [|mv ?]; [done|]. apply Forall_cons in Hall as [[[_ Hin] Hp] _].
    unfold has_placement. apply existsb_exists. exists mv.
    split; [by apply list_elem_of_In|]. by apply bool_decide_eq_true.
Qed.

#[export] Instance KPiece_inj : Inj (=) (=) KPiece.
Proof. by intros ?? [= ->]. Qed.

Section expansion_facts.
Variable np_exp : Q → Q.
Hypothesis np_exp_nonneg : ∀ x, (0 <= np_exp x)%Q.

Lemma expand_piece_grows st x pol legal_moves t0 t pid :
  grows t0 x t → wf_state st → nonneg (snd <$> pol) →
  Forall (λ mv, check_legal_move st mv = Ok true) legal_moves →
  ∃ t', expand_piece st x pol (moves_by_piece_of legal_moves) t pid = Ok t' ∧
    grows t0 x t' ∧
    (prior_mass t' x <= prior_mass t x +
       (if has_placement legal_moves pid then decoded pol (KPiece pid) else 0))%Q.
Proof.
  intros Hg Hwf Hpol Hlegal. unfold expand_piece.
  destruct (dict_get (moves_by_piece_of legal_moves) pid) as [placements|] eqn:Hget.
  2:{ exists t. split; [done|]. split; [done|].
      pose proof (dict_get_nonneg pol (KPiece pid) Hpol). unfold decoded.
      destruct (has_placement legal_moves pid); lra. }
  destruct (moves_by_piece_legal st legal_moves pid placements Hlegal Hget)
    as (Hne & Hall & ->).
  rewrite bool_decide_false by (by destruct placements).
  pose proof (dict_get_nonneg pol (KPiece pid) Hpol) as Hp. fold (decoded pol (KPiece pid)) in *.
  assert (0 < inject_Z (Z.of_nat (length placements)))%Q as Hk.
  { rewrite <- (Zlt_Qlt 0). destruct placements; [done|]. simpl. lia. }
  set (split := (decoded pol (KPiece pid) / inject_Z (Z.of_nat (length placements)))%Q).
  assert (0 <= split)%Q as Hsplit.
  { unfold split. apply Qle_shift_div_l; [done|]. lra. }
  destruct (placements_fold st x pid split (enumerate placements) t0 t Hg Hwf Hsplit)
    as (t' & Ht' & Hg' & Hm').
  { change (Forall ((λ mv, check_legal_move st mv = Ok true) ∘ snd) (enumerate placements)).
    apply Forall_fmap. rewrite enumerate_snd. done. }
  exists t'. split; [done|]. split; [done|].
  rewrite enumerate_length in Hm'.
  assert (inject_Z (Z.of_nat (length placements)) * split == decoded pol (KPiece pid))%Q
    as Heq.
  { unfold split. field. lra. }
  rewrite Heq in Hm'. done.
Qed.

Lemma pieces_fold st x pol legal_moves pids t0 t :
  grows t0 x t → wf_state st → nonneg (snd <$> pol) →
  Forall (λ mv, check_legal_move st mv = Ok true) legal_moves →
  ∃ t', foldlM (expand_piece st x pol (moves_by_piece_of legal_moves)) t pids = Ok t' ∧
    grows t0 x t' ∧
    (prior_mass t' x <= prior_mass t x +
       Qsum (decoded pol <$> (KPiece <$> filter (λ pid, has_placement legal_moves pid = true) pids)))%Q.
Proof.
  intros Hg Hwf Hpol Hlegal. revert t Hg. induction pids as [|pid pids IH]; intros t Hg.
  { exists t. split; [done|]. split; [done|]. simpl. rewrite Qsum_nil. lra. }
  destruct (expand_piece_grows st x pol legal_moves t0 t pid Hg Hwf Hpol Hlegal)
    as (t1 & H1 & Hg1 & Hm1).
  cbn [foldlM]. rewrite H1. cbn [mbind result_bind].
  destruct (IH t1 Hg1) as (t' & -> & Hg' & Hm').
  exists t'. split; [done|]. split; [done|].
  rewrite filter_cons. destruct (has_placement legal_moves pid) eqn:Hhas.
  - rewrite decide_True by done. rewrite !fmap_cons, Qsum_cons. lra.
  - rewrite decide_False by done. lra.
Qed.

Lemma set_expanded_grows t0 x t :
  grows t0 x t →
  ∃ t', update_node t x set_expanded = Ok t' ∧ grows t0 x t' ∧
    prior_mass t' x = prior_mass t x ∧
    ∃ n', t' !! x = Some n' ∧ expanded n' = true.
Proof.
  intros (Hlen & Hold & (n0 & n & Hx0 & Hx & Hrest) & Hnew).
  assert (x < length t)%nat as Hxlt by (by eapply lookup_lt_Some).
  unfold update_node, get_node. rewrite Hx. cbn [mbind result_bind].
  eexists. split; [done|]. split; [|split].
  - split; [by rewrite length_insert|]. split; [|split].
    + intros i Hi Hilt. rewrite list_lookup_insert_ne by done. by apply Hold.
    + exists n0, (set_expanded n). split; [done|].
      split; [by apply list_lookup_insert_eq|]. rewrite length_insert. done.
    + intros i k Hi Hk. assert (i ≠ x) as Hne by (apply lookup_lt_Some in Hx0; lia).
      rewrite list_lookup_insert_ne in Hk by done. by eapply Hnew.
  - unfold prior_mass. rewrite Hx, list_lookup_insert_eq by done. done.
  - exists (set_expanded n). split; [by apply list_lookup_insert_eq|done].
Qed.

(** [expand_node] on a node that is not terminal: it returns; the tree
    grows under the node; and the priors it stores are bounded by what
    [decode_policy] gave to the pieces that have a placement and to the
    pass. *)
Lemma expand_node_grows t x n (model : Model) :
  t !! x = Some n → wf_state (state n) → nonneg (snd <$> priors n) →
  NoDup (child_refs n) → (∀ c, c ∈ child_refs n → (c < length t)%nat) →
  is_terminal (state n) = Ok false →
  length (model (state n)).1 = 22%nat →
  ∃ t' legal_moves legal_piece_ids pol,
    expand_node np_exp t x model = Ok t' ∧
    get_legal_moves (state n) = Ok legal_moves ∧
    py_getitem (pieces_remaining (state n)) (current_player (state n)) = Ok legal_piece_ids ∧
    decode_policy np_exp (model (state n)).1 legal_piece_ids 1 = Ok pol ∧
    nonneg (snd <$> pol) ∧ (Qsum (snd <$> pol) <= 1)%Q ∧
    grows t x t' ∧
    (∃ n', t' !! x = Some n' ∧ expanded n' = true) ∧
    (prior_mass t' x <= prior_mass t x +
       Qsum (decoded pol <$>
               ((KPiece <$> filter (λ pid, has_placement legal_moves pid = true)
                              (elements legal_piece_ids)) ++ [KPass])))%Q.
Proof using np_exp_nonneg.
  intros Hx Hwf Hpri Hnd Hb Hterm Hlen.
  destruct (get_legal_moves_total (state n) Hwf) as (legal_moves & Hmoves & Hlegal).
  destruct (wf_state_remaining (state n) Hwf) as (rem & _ & Hrem & Hrange).
  destruct (model (state n)) as [logits value] eqn:Hmodel. simpl in Hlen.
  destruct (decode_policy_ok np_exp np_exp_nonneg logits rem Hlen Hrange)
    as (pol & Hpol & Hnn & Hsum).
  assert (grows t x t) as Hg0.
  { by eapply grows_refl. }
  destruct (pieces_fold (state n) x pol legal_moves (elements rem) t t Hg0 Hwf Hnn Hlegal)
    as (t1 & H1 & Hg1 & Hm1).
  pose proof (dict_get_nonneg pol KPass Hnn) as Hpass. fold (decoded pol KPass) in Hpass.
  assert (∃ t2, (if Qltb 0 (decoded pol KPass)
                 then add_child (state n) x PassKey None (decoded pol KPass) t1
                 else mret t1) = Ok t2 ∧ grows t x t2 ∧
                (prior_mass t2 x <= prior_mass t1 x + decoded pol KPass)%Q)
    as (t2 & H2 & Hg2 & Hm2).
  { destruct (Qltb 0 (decoded pol KPass)).
    - by apply add_child_grows.
    - exists t1. split; [done|]. split; [done|]. lra. }
  destruct (set_expanded_grows t x t2 Hg2) as (t3 & H3 & Hg3 & Hm3 & Hexp).
  exists t3, legal_moves, rem, pol.
  split.
  { unfold expand_node, get_node. rewrite Hx. cbn [mbind result_bind].
    rewrite Hterm. cbn [mbind result_bind]. rewrite Hmodel, Hmoves.
    cbn [mbind result_bind]. rewrite Hrem. cbn [mbind result_bind]. rewrite Hpol.
    cbn [mbind result_bind]. fold (moves_by_piece_of legal_moves). rewrite H1.
    cbn [mbind result_bind]. fold (decoded pol KPass). rewrite H2.
    cbn [mbind result_bind]. done. }
  split_and!; try done.
  rewrite Hm3, fmap_app, Qsum_app, fmap_cons, fmap_nil, Qsum_cons, Qsum_nil. lra.
Qed.
End expansion_facts.

(** ** Backup *)

Lemma same_links_refl n : same_links n n.
Proof. done. Qed.

Lemma same_links_trans n1 n2 n3 : same_links n1 n2 → same_links n2 n3 → same_links n1 n3.
Proof. unfold same_links. intros (?&?&?&?&?&?) (?&?&?&?&?&?). split_and!; congruence. Qed.

Lemma node_ok_visit n v : node_ok n → (-1 <= v)%Q → node_ok (visit v n).
Proof.
  intros [Hs Hv Hval Hp Hr] Hlow. split; simpl; try done; [lia|].
  rewrite inject_Z_plus. change (inject_Z 1) with 1%Q. lra.
Qed.

Lemma wf_tree_visit t x nx v :
  wf_tree t → t !! x = Some nx → (-1 <= v)%Q → wf_tree (<[x := visit v nx]> t).
Proof.
  intros Hwf Hx Hv i n Hi.
  assert (∃ n0, t !! i = Some n0 ∧ same_links n0 n ∧ (node_ok n0 → node_ok n)) as
    (n0 & Hi0 & Hl & Hok).
  { destruct (decide (i = x)) as [->|Hne].
    - rewrite list_lookup_insert_eq in Hi by (by eapply lookup_lt_Some).
      injection Hi as <-. exists nx. split; [done|]. split; [done|].
      intros ?. by apply node_ok_visit.
    - rewrite list_lookup_insert_ne in Hi by done. exists n. done. }
  destruct (Hwf i n0 Hi0) as (Hok0 & Hpar & Hkids).
  destruct Hl as (Hst & Hp & Hc & _).
  split; [by apply Hok|]. split.
  - rewrite Hp. done.
  - unfold child_refs. rewrite Hc. intros c Hcin.
    destruct (Hkids c Hcin) as (Hlt & cn & Hcn & Hcp & Hck). split; [done|].
    destruct (decide (c = x)) as [->|Hne].
    + rewrite list_lookup_insert_eq by (by eapply lookup_lt_Some).
      rewrite Hx in Hcn. injection Hcn as <-. by exists (visit v nx).
    + rewrite list_lookup_insert_ne by done. by exists cn.
Qed.

Lemma Zsum_bump (f g : nat → Z) (x : nat) (l : list nat) :
  NoDup l → (∀ c, g c = f c + (if decide (c = x) then 1 else 0)) →
  Zsum (g <$> l) = Zsum (f <$> l) + (if decide (x ∈ l) then 1 else 0).
Proof.
  intros Hnd Hg. induction l as [|c l IH]; [done|].
  apply NoDup_cons in Hnd as [Hc Hnd]. rewrite !fmap_cons, !Zsum_cons, IH, Hg by done.
  destruct (decide (c = x)) as [->|Hne].
  - rewrite (decide_True (P := x ∈ x :: l)) by left.
    rewrite (decide_False (P := x ∈ l)) by done. lia.
  - destruct (decide (x ∈ l)) as [Hin|Hnin].
    + rewrite decide_True by (by right). lia.
    + rewrite decide_False; [lia|]. intros [->|?]%elem_of_cons; done.
Qed.

Lemma children_visits_visit t root r x nx v :
  t !! root = Some r → t !! x = Some nx → x ≠ root → NoDup (child_refs r) →
  children_visits (<[x := visit v nx]> t) root
  = children_visits t root + (if decide (x ∈ child_refs r) then 1 else 0).
Proof.
  intros Hr Hx Hne Hnd. unfold children_visits.
  rewrite list_lookup_insert_ne by done. rewrite Hr.
  apply Zsum_bump; [done|]. intros c. unfold visits_at.
  destruct (decide (c = x)) as [->|Hc].
  - rewrite list_lookup_insert_eq by (by eapply lookup_lt_Some). rewrite Hx. done.
  - rewrite list_lookup_insert_ne by done. lia.
Qed.

Lemma under_last t a x :
  under t a x → ∃ p np, (p = a ∨ under t a p) ∧ t !! p = Some np ∧ x ∈ child_refs np.
Proof.
  destruct 1 as [x n Ha Hx|p x np Hu Hp Hx].
  - exists a, n. split; [by left|done].
  - exists p, np. split; [by right|done].
Qed.

Section backup_facts.
Variable math_sqrt : Z → Q.

Lemma backup_loop_spec fuel t x root r v :
  wf_tree t → (-1 <= v)%Q → t !! root = Some r → parent r = None →
  (x = root ∨ under t root x) → (x < fuel)%nat →
  ∃ t', backup_loop fuel t (Some x) v = Ok t' ∧ wf_tree t' ∧ length t' = length t ∧
    (∀ i n, t !! i = Some n → ∃ n', t' !! i = Some n' ∧ same_links n n') ∧
    visits_at t' root = visits_at t root + 1 ∧
    children_visits t' root
    = children_visits t root + (if decide (x = root) then 0 else 1).
Proof.
  intros Hwf Hv. revert t x r Hwf. induction fuel as [|fuel IH];
    intros t x r Hwf Hr Hpar Hx Hfuel; [lia|].
  assert (∃ nx, t !! x = Some nx) as [nx Hnx].
  { destruct Hx as [->|Hu]; [by exists r|]. by apply (under_lookup _ _ _ Hwf) in Hu. }
  cbn [backup_loop]. unfold get_node. rewrite Hnx. cbn [mbind result_bind].
  set (t1 := <[x := visit v nx]> t).
  assert (wf_tree t1) as Hwf1 by (by apply wf_tree_visit).
  assert (length t1 = length t) as Hlen1 by apply length_insert.
  assert (∀ i n, t !! i = Some n → ∃ n', t1 !! i = Some n' ∧ same_links n n') as Hlinks1.
  { intros i n Hi. unfold t1. destruct (decide (i = x)) as [->|Hne].
    - rewrite list_lookup_insert_eq by (by eapply lookup_lt_Some).
      rewrite Hnx in Hi. injection Hi as <-. by exists (visit v nx).
    - rewrite list_lookup_insert_ne by done. by exists n. }
  destruct Hx as [->|Hu].
  - (* the root itself *)
    rewrite Hr in Hnx. injection Hnx as <-. rewrite Hpar. cbn [backup_loop mret result_ret].
    exists t1. split; [by destruct fuel|]. split; [done|]. split; [done|]. split; [done|].
    rewrite decide_True by done. split.
    + unfold visits_at, t1. rewrite list_lookup_insert_eq by (by eapply lookup_lt_Some).
      rewrite Hr. simpl. lia.
    + unfold children_visits, t1.
      rewrite list_lookup_insert_eq by (by eapply lookup_lt_Some). rewrite Hr.
      change (child_refs (visit v r)) with (child_refs r). rewrite Z.add_0_r.
      f_equal. apply list_fmap_ext. intros _ c Hc%list_elem_of_lookup_2.
      destruct (Hwf root r Hr) as (_ & _ & Hkids). destruct (Hkids c Hc) as [Hlt _].
      unfold visits_at. rewrite list_lookup_insert_ne by lia. done.
  - (* a node below the root *)
    pose proof (under_lt _ _ _ Hwf Hu) as Hlt.
    destruct (under_last _ _ _ Hu) as (p & np & Hp & Hnp & Hxin).
    destruct (Hwf p np Hnp) as (_ & _ & Hkids).
    destruct (Hkids x Hxin) as (Hpx & cn & Hcn & Hcp & _).
    rewrite Hnx in Hcn. injection Hcn as <-. rewrite Hcp.
    assert (t1 !! root = Some r) as Hr1.
    { unfold t1. rewrite list_lookup_insert_ne by lia. done. }
    assert (p = root ∨ under t1 root p) as Hp1.
    { destruct Hp as [->|Hup]; [by left|right].
      eapply under_preserved; [exact Hwf|done|].
      intros i n Hi Hin. exists n. split; [|done].
      unfold t1. rewrite list_lookup_insert_ne by lia. done. }
    destruct (IH t1 p r Hwf1 Hr1 Hpar Hp1) as (t' & -> & Hwf' & Hlen' & Hlinks' & Hvis' & Hsum');
      [lia|].
    exists t'. split; [done|]. split; [done|]. split; [congruence|]. split.
    { intros i n Hi. destruct (Hlinks1 i n Hi) as (n1 & Hi1 & Hl1).
      destruct (Hlinks' i n1 Hi1) as (n' & Hi' & Hl'). exists n'.
      split; [done|]. by eapply same_links_trans. }
    rewrite decide_False by lia. split.
    + rewrite Hvis'. unfold visits_at, t1. rewrite list_lookup_insert_ne by lia. done.
    + rewrite Hsum'. unfold t1.
      rewrite (children_visits_visit t root r x nx v Hr Hnx); [|lia|].
      2:{ destruct (Hwf root r Hr) as (Hok & _). apply Hok. }
      destruct Hp as [->|Hup].
      * rewrite Hr in Hnp. injection Hnp as <-.
        rewrite (decide_True (P := root = root)) by done.
        rewrite (decide_True (P := x ∈ child_refs r)) by done. lia.
      * pose proof (under_lt _ _ _ Hwf Hup) as Hrp.
        rewrite (decide_False (P := p = root)) by lia.
        rewrite (decide_False (P := x ∈ child_refs r)); [lia|]. intros Hin.
        destruct (Hwf root r Hr) as (_ & _ & Hrk).
        destruct (Hrk x Hin) as (_ & cn & Hcn & Hcp' & _).
        rewrite Hnx in Hcn. injection Hcn as <-. rewrite Hcp in Hcp'.
        injection Hcp' as ->. lia.
Qed.
End backup_facts.

Lemma wf_tree_refs_bounded t i n c :
  wf_tree t → t !! i = Some n → c ∈ child_refs n → (c < length t)%nat.
Proof.
  intros Hwf Hi Hc. destruct (Hwf i n Hi) as (_ & _ & Hk).
  destruct (Hk c Hc) as (_ & cn & Hcn & _). by eapply lookup_lt_Some.
Qed.

Lemma new_child_ok x k : new_child x k → node_ok k.
Proof.
  intros (_ & Hc & Hv & Ht & Hp & _ & _ & Hs). split; try done.
  - lia.
  - rewrite Hv, Ht. done.
  - rewrite Hp. constructor.
  - unfold child_refs. rewrite Hc. constructor.
Qed.

Lemma wf_tree_grows t x t' : wf_tree t → grows t x t' → wf_tree t'.
Proof.
  intros Hwf (Hlen & Hold & (n & n' & Hx & Hx' & Hst & Hpar & Hvis & Htot & Hkey & Hpri & Hnd &
               Hb & Hrefs) & Hnew) i m Hi.
  assert (x < length t)%nat as Hxlt by (by eapply lookup_lt_Some).
  destruct (Hwf x n Hx) as (Hokx & Hparx & Hkidsx).
  destruct (decide (length t ≤ i)%nat) as [Hge|Hlt].
  { pose proof (Hnew i m Hge Hi) as Hnc. split; [by eapply new_child_ok|].
    destruct Hnc as (Hp & Hc & _). split.
    - intros p. rewrite Hp. intros [= <-]. lia.
    - unfold child_refs. rewrite Hc. intros c Hcin. by apply elem_of_nil in Hcin. }
  destruct (decide (i = x)) as [->|Hne].
  { rewrite Hx' in Hi. injection Hi as <-. split; [|split].
    - destruct Hokx. split; try done; congruence.
    - rewrite Hpar. done.
    - intros c Hc. destruct (Hrefs c Hc) as [Hcold|Hcnew].
      + destruct (Hkidsx c Hcold) as (Hxc & cn & Hcn & Hcp & Hck). split; [done|].
        exists cn. rewrite Hold; [done|lia|by eapply lookup_lt_Some].
      + split; [lia|]. destruct (lookup_lt_is_Some_2 t' c) as [k Hk]; [lia|].
        destruct (Hnew c k) as (Hp & _ & _ & _ & _ & _ & Hkk & _); [lia|done|].
        by exists k. }
  rewrite Hold in Hi by (done || lia).
  destruct (Hwf i m Hi) as (Hok & Hparm & Hkids). split; [done|]. split; [done|].
  intros c Hc. destruct (Hkids c Hc) as (Hic & cn & Hcn & Hcp & Hck). split; [done|].
  destruct (decide (c = x)) as [->|Hcx].
  - rewrite Hx in Hcn. injection Hcn as <-. exists n'. split; [done|]. split; congruence.
  - exists cn. rewrite Hold; [done|done|by eapply lookup_lt_Some].
Qed.

Lemma Zsum_zero {A} (f : A → Z) (l : list A) :
  (∀ c, c ∈ l → f c = 0) → Zsum (f <$> l) = 0.
Proof.
  induction l as [|c l IH]; intros Hz; [done|].
  rewrite fmap_cons, Zsum_cons, IH by (intros c' Hc'; apply Hz; by right).
  rewrite Hz by left. done.
Qed.

Lemma under_has_children t a x n :
  under t a x → t !! a = Some n → children n ≠ [].
Proof.
  induction 1 as [x m Ha Hx|p x np _ IH _ _]; [|done].
  intros Ha'. rewrite Ha in Ha'. injection Ha' as ->.
  unfold child_refs in Hx. intros Hnil. rewrite Hnil in Hx. by apply elem_of_nil in Hx.
Qed.

Section simulation_facts.
Variable np_exp : Q → Q.
Variable math_sqrt : Z → Q.
Hypothesis np_exp_nonneg : ∀ x, (0 <= np_exp x)%Q.
Hypothesis math_sqrt_nonneg : ∀ n, (0 <= math_sqrt n)%Q.
Variable model : Model.
Hypothesis model_logits : ∀ st, length (model st).1 = 22%nat.
Hypothesis model_value : ∀ st, (-1 <= (model st).2)%Q.
Variable c_puct : Q.
Hypothesis c_puct_nonneg : (0 <= c_puct)%Q.

Lemma evaluate_node_ok t x n :
  t !! x = Some n → wf_state (state n) →
  ∃ v, evaluate_node t x model = Ok v ∧ (-1 <= v)%Q.
Proof using model_value.
  intros Hx Hwf. unfold evaluate_node, get_node. rewrite Hx. cbn [mbind result_bind].
  destruct (is_terminal_spec (state n)) as (b & -> & _); [apply Hwf|].
  cbn [mbind result_bind]. destruct b.
  - destruct (compute_final_scores_ok (state n) Hwf) as (scores & -> & Hlen & Hall).
    cbn [mbind result_bind].
    destruct (py_getitem_lookup scores (current_player (state n))) as (sc & Hsc & ->).
    { destruct Hwf as (_ & _ & _ & Hc & _). unfold NUM_PLAYERS in Hc. lia. }
    cbn [mbind result_bind mret result_ret]. eexists. split; [done|].
    eapply Forall_forall in Hall; [|by eapply list_elem_of_lookup_2].
    apply Qle_shift_div_l; [done|].
    assert (inject_Z (-100) <= inject_Z sc)%Q as H by (rewrite <- Zle_Qle; lia).
    change (inject_Z (-100)) with (-100)%Q in H. lra.
  - specialize (model_value (state n)). destruct (model (state n)) as [l v].
    eexists. split; [done|]. done.
Qed.

Lemma simulate_spec t root k :
  searched t root k →
  ∃ t', simulate np_exp math_sqrt t root model c_puct = Ok t' ∧ searched t' root (k + 1).
Proof using All.
  intros (Hwf & r & Hr & Hpar & Hterm & Hvis & Hcase).
  destruct (select_loop_ok math_sqrt math_sqrt_nonneg (length t) t root r c_puct)
    as (x & nx & Hsel & Hx & Hleaf & Hpath & Hroot); [done|done|done|lia|].
  unfold simulate. rewrite Hsel. cbn [mbind result_bind].
  unfold get_node at 1. rewrite Hx. cbn [mbind result_bind].
  destruct (Hwf x nx Hx) as (Hokx & _ & _).
  pose proof (ok_state _ Hokx) as Hwfx.
  (* the expansion step *)
  assert (∃ t1 r1 n1,
    (if expanded nx then mret t
     else terminal ← is_terminal (state nx);
          if terminal : bool then mret t else expand_node np_exp t x model) = Ok t1 ∧
    wf_tree t1 ∧ t1 !! root = Some r1 ∧ parent r1 = None ∧
    state r1 = state r ∧ visit_count r1 = k ∧
    t1 !! x = Some n1 ∧ state n1 = state nx ∧
    (x = root ∨ under t1 root x) ∧
    expanded r1 = true ∧
    (children r1 = [] ∨
     children_visits t1 root = k - (if decide (x = root) then 0 else 1)))
    as (t1 & r1 & n1 & -> & Hwf1 & Hr1 & Hpar1 & Hst1 & Hvis1 & Hx1 & Hstx & Hpath1 & Hexp1 & Hsum1).
  { destruct (expanded nx) eqn:Hexp.
    - (* already expanded: a node without children *)
      destruct Hleaf as [?|Hnil]; [done|].
      exists t, r, nx. split; [done|]. split_and!; try done.
      + destruct Hpath as [->|Hu]; [congruence|].
        pose proof (under_has_children _ _ _ _ Hu Hr) as Hne.
        destruct (expanded r); [done|]. by destruct Hcase.
      + destruct Hpath as [->|Hu].
        * left. congruence.
        * pose proof (under_lt _ _ _ Hwf Hu). rewrite decide_False by lia.
          pose proof (under_has_children _ _ _ _ Hu Hr) as Hne.
          destruct (expanded r); [|by destruct Hcase]. destruct Hcase; [done|by right].
    - destruct (is_terminal_spec (state nx)) as (b & Hb & _); [apply Hwfx|].
      rewrite Hb. cbn [mbind result_bind]. destruct b.
      + (* a terminal leaf: it stays unexpanded *)
        assert (x ≠ root) as Hne by (intros ->; congruence).
        destruct Hpath as [?|Hu]; [done|].
        pose proof (under_has_children _ _ _ _ Hu Hr) as Hnk.
        exists t, r, nx. split; [done|]. split_and!; try done.
        * by right.
        * destruct (expanded r); [done|]. by destruct Hcase.
        * rewrite decide_False by done.
          destruct (expanded r); [|by destruct Hcase]. destruct Hcase; [done|by right].
      + destruct (expand_node_grows np_exp np_exp_nonneg t x nx model Hx Hwfx)
          as (t1 & _ & _ & _ & -> & _ & _ & _ & _ & _ & Hg & (n1 & Hn1 & Hexp1) & _).
        { apply Hokx. }
        { apply Hokx. }
        { intros c Hc. by eapply wf_tree_refs_bounded. }
        { done. }
        { apply model_logits. }
        pose proof (wf_tree_grows t x t1 Hwf Hg) as Hwf1.
        pose proof Hg as (Hlen & Hold & (m & m' & Hm & Hm' & Hmst & Hmpar & Hmvis & _ & _ & _ &
                         _ & _ & Hmrefs) & Hnew).
        rewrite Hx in Hm. injection Hm as <-. rewrite Hn1 in Hm'. injection Hm' as <-.
        assert (x < length t)%nat as Hxlt by (by eapply lookup_lt_Some).
        destruct Hpath as [->|Hu].
        * (* the root is expanded for the first time *)
          rewrite Hr in Hx. injection Hx as <-.
          rewrite Hexp in Hcase. destruct Hcase as [Hnil ->].
          exists t1, n1, n1. split; [done|]. split_and!; try done; try congruence.
          { by left. }
          rewrite decide_True by done. right. unfold children_visits. rewrite Hn1.
          rewrite Z.sub_0_r.
          assert (∀ c, c ∈ child_refs n1 → visits_at t1 c = 0) as Hzero.
          { intros c Hc. destruct (Hmrefs c Hc) as [Hcold|Hcnew].
            - unfold child_refs in Hcold. rewrite Hnil in Hcold.
              by apply elem_of_nil in Hcold.
            - destruct (lookup_lt_is_Some_2 t1 c) as [kn Hkn]; [lia|].
              destruct (Hnew c kn) as (_ & _ & Hv & _); [lia|done|].
              unfold visits_at. rewrite Hkn. done. }
          by apply Zsum_zero.
        * (* a node below the root is expanded *)
          pose proof (under_lt _ _ _ Hwf Hu) as Hlt.
          pose proof (under_has_children _ _ _ _ Hu Hr) as Hnk.
          assert (t1 !! root = Some r) as Hr1 by (rewrite Hold; [done|lia|by eapply lookup_lt_Some]).
          exists t1, r, n1. split; [done|]. split_and!; try done.
          { right. eapply under_preserved; [exact Hwf|done|].
            intros i n Hi Hin. exists n. split; [|done].
            rewrite Hold; [done|lia|by eapply lookup_lt_Some]. }
          { destruct (expanded r); [done|]. by destruct Hcase. }
          rewrite decide_False by lia. right.
          assert (children_visits t root = k - 1) as <-.
          { destruct (expanded r); [|by destruct Hcase]. by destruct Hcase. }
          unfold children_visits. rewrite Hr1, Hr. f_equal.
          apply list_fmap_ext. intros _ c Hc%list_elem_of_lookup_2.
          pose proof (wf_tree_refs_bounded _ _ _ _ Hwf Hr Hc) as Hcb.
          unfold visits_at. destruct (decide (c = x)) as [->|Hcx].
          -- rewrite Hn1, Hx. simpl. done.
          -- rewrite Hold by done. done. }
  cbn [mbind result_bind].
  destruct (evaluate_node_ok t1 x n1 Hx1) as (v & -> & Hv).
  { rewrite Hstx. done. }
  cbn [mbind result_bind]. unfold backup_value.
  destruct (backup_loop_spec (length t1) t1 x root r1 v Hwf1 Hv Hr1 Hpar1 Hpath1)
    as (t' & -> & Hwf' & Hlen' & Hlinks' & Hvis' & Hsum').
  { by eapply lookup_lt_Some. }
  exists t'. split; [done|]. split; [done|].
  destruct (Hlinks' root r1 Hr1) as (r' & Hr' & Hst' & Hpar' & Hch' & _ & Hexp' & _).
  exists r'. split; [done|]. split; [congruence|]. split; [congruence|]. split.
  { unfold visits_at in Hvis'. rewrite Hr', Hr1 in Hvis'. simpl in Hvis'. lia. }
  rewrite Hexp', Hexp1. destruct Hsum1 as [Hnil|Hsum1]; [left; congruence|].
  right. rewrite Hsum', Hsum1. destruct (decide (x = root)); lia.
Qed.

Lemma simulations_spec n t root k :
  searched t root k →
  ∃ t', simulations np_exp math_sqrt n t root model c_puct = Ok t' ∧
        searched t' root (k + Z.of_nat n).
Proof using All.
  revert t k. induction n as [|n IH]; intros t k Hs.
  { exists t. split; [done|]. by rewrite Z.add_0_r. }
  destruct (simulate_spec t root k Hs) as (t1 & H1 & Hs1).
  cbn [simulations]. rewrite H1. cbn [mbind result_bind].
  destruct (IH t1 (k + 1) Hs1) as (t' & -> & Hs').
  exists t'. split; [done|]. by replace (k + Z.of_nat (S n)) with (k + 1 + Z.of_nat n) by lia.
Qed.

(** A fresh root, as [MCTSNode(state)] makes it. *)
Lemma searched_fresh st :
  wf_state st → is_terminal st = Ok false → searched [MCTSNode_new st None] 0 0.
Proof.
  intros Hwf Hterm. split.
  - intros i n Hi. destruct i; [|done]. injection Hi as <-. split; [|split].
    + split; simpl; try done; constructor.
    + done.
    + intros c Hc. by apply elem_of_nil in Hc.
  - exists (MCTSNode_new st None). done.
Qed.
End simulation_facts.

(** ** The examples are well formed *)

Lemma sqrt_approx_nonneg n : (0 <= sqrt_approx n)%Q.
Proof.
  unfold sqrt_approx. apply Qle_shift_div_l; [done|]. rewrite Qmult_0_l.
  rewrite <- (Zle_Qle 0). apply Z.sqrt_nonneg.
Qed.

Lemma exp_approx_nonneg x : (0 <= exp_approx x)%Q.
Proof.
  unfold exp_approx. destruct (Qle_bool 0 x) eqn:E.
  - apply Qle_bool_iff in E. unfold Qdiv. change (/ 2)%Q with (1 # 2)%Q. nra.
  - assert (x < 0)%Q as Hx.
    { apply Qnot_le_lt. intros H%Qle_bool_iff. congruence. }
    apply Qle_shift_div_l.
    + unfold Qdiv. change (/ 2)%Q with (1 # 2)%Q. nra.
    + lra.
Qed.

Lemma wf_state_init : wf_state BoardState_init.
Proof.
  unfold wf_state, wf_grid, BoardState_init.
  cbn [board_grid pieces_remaining moves_made current_player].
  split_and!; try done.
  - by apply Forall_replicate.
  - apply Forall_replicate. intros pid Hpid.
    apply elem_of_list_to_set, elem_of_seqZ in Hpid. lia.
Qed.

(** ** The statements of the specification *)

(** C9 (the code repeats a shape): the table has 21 entries, all of them
    normalized, but the entries 11, 13 and 16 are one and the same shape. *)
Theorem ALL_SHAPES_repeats_a_shape :
  length ALL_SHAPES = 21%nat ∧ Forall normalized ALL_SHAPES ∧
  py_getitem ALL_SHAPES 11 = py_getitem ALL_SHAPES 13 ∧
  py_getitem ALL_SHAPES 13 = py_getitem ALL_SHAPES 16 ∧
  ¬ NoDup ALL_SHAPES.
Proof.
  split; [done|]. split; [exact all_shapes_normalized|].
  split; [done|]. split; [done|].
  apply (bool_decide_unpack _). by vm_compute.
Qed.

(** C6: [is_terminal] answers true exactly when four passes or more were
    made in a row or all four hands are empty. *)
Theorem is_terminal_iff s :
  length (pieces_remaining s) = Z.to_nat NUM_PLAYERS →
  ∃ b, is_terminal s = Ok b ∧
    (b = true ↔
       4 ≤ consecutive_passes s ∨
       ∀ color, 0 ≤ color < NUM_PLAYERS → pieces_remaining s !! Z.to_nat color = Some ∅).
Proof. apply is_terminal_spec. Qed.

Lemma is_terminal_iff_witness :
  ∃ b, is_terminal BoardState_init = Ok b ∧
    (b = true ↔
       4 ≤ consecutive_passes BoardState_init ∨
       ∀ color, 0 ≤ color < NUM_PLAYERS →
         pieces_remaining BoardState_init !! Z.to_nat color = Some ∅).
Proof. apply is_terminal_iff. reflexivity. Defined.

(** C4: on a color's first move, with the piece in hand and the cells on
    the board and empty, [check_legal_move] accepts exactly the placements
    that cover the color's corner. *)
Theorem first_move_must_cover_corner s piece_id row_off col_off shape_coords
    remaining corner :
  py_getitem (pieces_remaining s) (current_player s) = Ok remaining →
  py_getitem (moves_made s) (current_player s) = Ok 0 →
  py_getitem CORNER_POSITIONS (current_player s) = Ok corner →
  piece_id ∈ remaining →
  (∀ p : cell, p ∈ shape_coords →
     on_board (p.1 + row_off) (p.2 + col_off) = true ∧
     grid_get (board_grid s) (p.1 + row_off) (p.2 + col_off) = Ok None) →
  check_legal_move s (piece_id, row_off, col_off, shape_coords)
  = Ok (bool_decide (corner ∈ placed_cells row_off col_off shape_coords)).
Proof.
  intros Hrem Hmade Hcorner Hin Hfree. unfold check_legal_move.
  rewrite Hrem. cbn [mbind result_bind].
  rewrite bool_decide_false by (intros Hn; by apply Hn).
  rewrite gather_squares_free by (intros p Hp; apply Hfree; by apply elem_of_elements).
  cbn [mbind result_bind app]. rewrite Hmade. cbn [mbind result_bind].
  rewrite bool_decide_true by done. rewrite Hcorner. cbn [mbind result_bind].
  fold (placed_cells row_off col_off shape_coords).
  destruct (decide (corner ∈ placed_cells row_off col_off shape_coords)) as [Hc|Hc].
  - rewrite bool_decide_false by (intros Hn; by apply Hn). by rewrite bool_decide_true.
  - rewrite bool_decide_true by done. by rewrite bool_decide_false.
Qed.

Lemma first_move_must_cover_corner_witness :
  check_legal_move BoardState_init (1, 0, 0, {[ (0, 0); (0, 1) ]})
  = Ok (bool_decide ((0, 0) ∈ placed_cells 0 0 {[ (0, 0); (0, 1) ]})).
Proof.
  apply (first_move_must_cover_corner BoardState_init 1 0 0 {[ (0, 0); (0, 1) ]}
           (list_to_set (seqZ 0 21)) (0, 0)).
  - reflexivity.
  - reflexivity.
  - reflexivity.
  - apply (bool_decide_unpack _). vm_compute. exact I.
  - intros p Hp. apply elem_of_union in Hp as [Hp|Hp];
      apply elem_of_singleton in Hp; subst p; split; reflexivity.
Defined.

Lemma overlap_report :
  (check_legal_move after_first_move (1, 0, 0, {[ (0, 0); (0, 1) ]}),
   grid_get (board_grid after_first_move) 0 0,
   match apply_move after_first_move (Some (1, 0, 0, {[ (0, 0); (0, 1) ]})) with
   | Ok s' => Some (grid_get (board_grid s') 0 0, grid_get (board_grid s') 0 1)
   | Raise _ => None
   end)
  = (Ok false, Ok (Some 0), Some (Ok (Some 1), Ok (Some 1))).
Proof. vm_compute. reflexivity. Qed.

(** After color 0 took its corner, color 1 lays a domino over that very
    cell.  The move is illegal, yet [apply_move] returns a state in which
    the cell has changed hands. *)
Lemma apply_move_accepts_overlap :
  let move : Move := (1, 0, 0, {[ (0, 0); (0, 1) ]}) in
  check_legal_move after_first_move move = Ok false ∧
  grid_get (board_grid after_first_move) 0 0 = Ok (Some 0) ∧
  ∃ s', apply_move after_first_move (Some move) = Ok s' ∧
        grid_get (board_grid s') 0 0 = Ok (Some 1).
Proof.
  pose proof overlap_report as H. cbv zeta.
  destruct (apply_move after_first_move _) as [s'|]; [|done].
  pose proof (f_equal (λ x, x.1.1) H) as H1. pose proof (f_equal (λ x, x.1.2) H) as H2.
  pose proof (f_equal snd H) as H3. cbn [fst snd] in H1, H2, H3.
  injection H3 as H3 _. split; [done|]. split; [done|]. by exists s'.
Qed.

(** C2 (as the code has it): after [N >= 1] simulations from a fresh root
    that is not terminal the search returns, the root has been visited [N]
    times, and the visit counts of its children sum to [N - 1] (to 0 if the
    expansion gave it no child): the first simulation expands the root and
    is backed up at the root alone, and every later one adds one visit to
    exactly one child. *)
Theorem mcts_search_visit_counts (np_exp : Q → Q) (math_sqrt : Z → Q) (model : Model)
    (c_puct : Q) (st : BoardState) (N : Z) :
  (∀ x, (0 <= np_exp x)%Q) → (∀ n, (0 <= math_sqrt n)%Q) →
  (∀ s, length (model s).1 = 22%nat) → (∀ s, (-1 <= (model s).2)%Q) →
  (0 <= c_puct)%Q →
  wf_state st → is_terminal st = Ok false → 1 ≤ N →
  ∃ t' r,
    mcts_search np_exp math_sqrt [MCTSNode_new st None] 0 model N c_puct = Ok t' ∧
    t' !! 0%nat = Some r ∧ visit_count r = N ∧
    children_visits t' 0 = if bool_decide (children r = []) then 0 else N - 1.
Proof.
  intros Hexp Hsqrt Hlogits Hvalue Hc Hwf Hterm HN. unfold mcts_search.
  destruct (simulations_spec np_exp math_sqrt Hexp Hsqrt model Hlogits Hvalue c_puct Hc
              (Z.to_nat N) _ 0%nat 0 (searched_fresh st Hwf Hterm))
    as (t' & -> & Hwf' & r & Hr & _ & _ & Hvis & Hcase).
  exists t', r. split; [done|]. split; [done|]. split; [lia|].
  rewrite Z2Nat.id in Hcase by lia. case_bool_decide as Hnil.
  - unfold children_visits. rewrite Hr. unfold child_refs. by rewrite Hnil.
  - destruct (expanded r); [|by destruct Hcase]. destruct Hcase; [done|lia].
Qed.

Lemma mcts_search_visit_counts_witness :
  ∃ t' r,
    mcts_search exp_approx sqrt_approx [MCTSNode_new BoardState_init None] 0
      uniform_model 50 1 = Ok t' ∧
    t' !! 0%nat = Some r ∧ visit_count r = 50 ∧
    children_visits t' 0 = if bool_decide (children r = []) then 0 else 50 - 1.
Proof.
  apply mcts_search_visit_counts.
  - apply exp_approx_nonneg.
  - apply sqrt_approx_nonneg.
  - intros s. reflexivity.
  - intros s. discriminate.
  - discriminate.
  - apply wf_state_init.
  - reflexivity.
  - lia.
Defined.

Lemma one_simulation_report :
  root_report (mcts_search exp_approx sqrt_approx [MCTSNode_new BoardState_init None] 0
                 uniform_model 1 1)
  = Some (64%nat, 1, 0).
Proof. vm_compute. reflexivity. Qed.

(** One simulation from the opening position with the uniform network: the
    root gets its 64 children and one visit; no child has been visited. *)
Lemma one_simulation_visits_no_child :
  ∃ t' r,
    mcts_search exp_approx sqrt_approx [MCTSNode_new BoardState_init None] 0
      uniform_model 1 1 = Ok t' ∧
    t' !! 0%nat = Some r ∧ length (children r) = 64%nat ∧ visit_count r = 1 ∧
    children_visits t' 0 = 0 ∧ children_visits t' 0 ≠ 1.
Proof.
  pose proof one_simulation_report as H. unfold root_report in H.
  destruct (mcts_search _ _ _ _ _ _ _) as [t'|]; [|done].
  destruct (t' !! 0%nat) as [r|] eqn:Hr; [|done].
  injection H as H1 H2 H3. exists t', r. rewrite H3. done.
Qed.

(** In the opening position no placement of the X pentomino (piece 18)
    covers the corner.  With the uniform network its share 1/22 is lost:
    the priors stored at the root sum to 21/22. *)
Example opening_expansion_drops_the_X :
  expansion_report BoardState_init uniform_model 18 = Some (21 # 22, false, 1 # 22)%Q.
Proof. vm_compute. reflexivity. Qed.

(** C1 (the code departs from its own formula): three simulations from
    [last_piece_state] with the network that prefers piece 0.  The root [r]
    has two children, [a] for the placement and [b] for the pass, each
    visited once.  The prior stored at [r] is larger for [a], so the score of
    the specification is larger for [a].  [ucb_score] looks the key up in the
    child's own [priors]: for [a], which is terminal and has none, the
    exploration term is 0; for [b] it is the prior of [b]'s own pass child.
    The selection loop takes [b]. *)
Theorem selection_reads_the_childs_own_priors :
  ∃ t r a b pa pb sa sb qa qb best_score,
    mcts_search exp_approx sqrt_approx [MCTSNode_new last_piece_state None] 0
      piece0_model 3 1 = Ok t ∧
    t !! 0%nat = Some r ∧ t !! 1%nat = Some a ∧ t !! 2%nat = Some b ∧
    children r = [(Place 0 0, 1%nat); (PassKey, 2%nat)] ∧
    visit_count a = 1 ∧ visit_count b = 1 ∧
    dict_get (priors r) (Place 0 0) = Some pa ∧
    dict_get (priors r) PassKey = Some pb ∧ (pb < pa)%Q ∧
    priors a = [] ∧ priors b = [(PassKey, 1%Q)] ∧
    spec_score sqrt_approx r a 1 = Some (Fin sa) ∧
    spec_score sqrt_approx r b 1 = Some (Fin sb) ∧ (sb < sa)%Q ∧
    ucb_score sqrt_approx r a 1 = Ok (Fin qa) ∧
    ucb_score sqrt_approx r b 1 = Ok (Fin qb) ∧ (qa == 0)%Q ∧ (qa < qb)%Q ∧
    foldlM (best_child_step sqrt_approx t r 1) (Fin (- (999999))%Q, None, None)
      (children r) = Ok (best_score, Some PassKey, Some 2%nat).
Proof.
  do 11 eexists.
  split; [vm_compute; reflexivity|].
  split; [reflexivity|]. split; [reflexivity|]. split; [reflexivity|].
  split; [reflexivity|]. split; [reflexivity|]. split; [reflexivity|].
  split; [reflexivity|]. split; [reflexivity|]. split; [by vm_compute|].
  split; [reflexivity|]. split; [reflexivity|].
  split; [vm_compute; reflexivity|]. split; [vm_compute; reflexivity|].
  split; [by vm_compute|].
  split; [vm_compute; reflexivity|]. split; [vm_compute; reflexivity|].
  split; [by vm_compute|]. split; [by vm_compute|].
  vm_compute. reflexivity.
Qed.

Lemma apply_move_keeps_input_witness :
  let '(r, h') := Heap.apply_move 27%nat (Some (0, 0, 0, {[ (0, 0) ]}))
                    (Heap.BoardState_new []).2 in
  Heap.holds h' 27%nat BoardState_init ∧
  (∀ l o, (Heap.BoardState_new []).2 !! l = Some o → h' !! l = Some o) ∧
  match apply_move BoardState_init (Some (0, 0, 0, {[ (0, 0) ]})) with
  | Ok v' =>
      ∃ new_state, r = Ok new_state ∧
        (length (Heap.BoardState_new []).2 ≤ new_state)%nat ∧ Heap.holds h' new_state v'
  | Raise e => r = Raise e
  end.
Proof.
  apply (HeapFacts.apply_move_keeps_input (Heap.BoardState_new []).2 27%nat
           (Some (0, 0, 0, {[ (0, 0) ]})) BoardState_init).
  pose proof (HeapFacts.BoardState_new_holds []) as H. unfold Heap.runs in H.
  destruct H as (l & Hl & _ & H).
  vm_compute in Hl. injection Hl as <-. exact H.
Defined.

(** * Further properties of the code: pieces, rules, scores and expansion *)

(** ** pieces.py on arbitrary shapes *)

Lemma foldl_min_spec (l : list Z) (x m : Z) :
  foldl Z.min x l = m ↔ (m = x ∨ m ∈ l) ∧ m ≤ x ∧ ∀ y, y ∈ l → m ≤ y.
Proof.
  revert x m. induction l as [|a l IH]; intros x m; simpl.
  - split.
    + intros <-. split; [by left|]. split; [lia|]. intros y Hy. by apply elem_of_nil in Hy.
    + intros ([->|H] & _ & _); [done|]. by apply elem_of_nil in H.
  - rewrite IH. split.
    + intros (Hm & Hle & Hall). split.
      { destruct Hm as [->|Hm]; [|right; by right].
        destruct (Z.min_spec x a) as [[_ ->]|[_ ->]]; [by left|right; by left]. }
      split; [lia|]. intros y [->|Hy]%elem_of_cons; [lia|by apply Hall].
    + intros (Hm & Hle & Hall). split.
      { destruct Hm as [->|[->|Hm]%elem_of_cons]; [| |by right].
        - left. specialize (Hall a ltac:(left)). lia.
        - left. lia. }
      split; [specialize (Hall a ltac:(left)); lia|].
      intros y Hy. apply Hall. by right.
Qed.

Lemma py_min_spec (l : list Z) (m : Z) :
  py_min l = Ok m ↔ m ∈ l ∧ ∀ y, y ∈ l → m ≤ y.
Proof.
  destruct l as [|x l]; simpl.
  - split; [done|]. intros [H _]. by apply elem_of_nil in H.
  - split.
    + intros [= H]. apply foldl_min_spec in H as (Hm & Hle & Hall). split.
      { destruct Hm as [->|Hm]; [by left|by right]. }
      intros y [->|Hy]%elem_of_cons; [done|by apply Hall].
    + intros [Hm Hall]. f_equal. apply foldl_min_spec. split.
      { apply elem_of_cons in Hm as [->|Hm]; [by left|by right]. }
      split; [apply Hall; by left|]. intros y Hy. apply Hall. by right.
Qed.

Lemma py_min_nil_iff (l : list Z) : py_min l = Raise ValueError ↔ l = [].
Proof. by destruct l. Qed.

Lemma py_min_total (l : list Z) : l ≠ [] → ∃ m, py_min l = Ok m.
Proof. destruct l; [done|]. simpl. eauto. Qed.

(** [min] sees the members of a list only. *)
Lemma py_min_ext (l l' : list Z) : (∀ x, x ∈ l ↔ x ∈ l') → py_min l = py_min l'.
Proof.
  intros Hext. destruct l as [|x l].
  - destruct l' as [|y l']; [done|]. exfalso.
    destruct (Hext y) as [_ H]. specialize (H ltac:(left)). by apply elem_of_nil in H.
  - destruct (py_min_total (x :: l) ltac:(done)) as [m Hm]. rewrite Hm. symmetry.
    apply py_min_spec. apply py_min_spec in Hm as [Hin Hall]. split.
    + by apply Hext.
    + intros y Hy. apply Hall. by apply Hext.
Qed.

Lemma elem_of_fst_elements (s : gset cell) (x : Z) :
  x ∈ fst <$> elements s ↔ ∃ p : cell, p ∈ s ∧ p.1 = x.
Proof.
  rewrite list_elem_of_fmap. split.
  - intros (p & -> & Hp%elem_of_elements). by exists p.
  - intros (p & Hp & <-). exists p. by rewrite elem_of_elements.
Qed.

Lemma elem_of_snd_elements (s : gset cell) (x : Z) :
  x ∈ snd <$> elements s ↔ ∃ p : cell, p ∈ s ∧ p.2 = x.
Proof.
  rewrite list_elem_of_fmap. split.
  - intros (p & -> & Hp%elem_of_elements). by exists p.
  - intros (p & Hp & <-). exists p. by rewrite elem_of_elements.
Qed.

Lemma elem_of_translate d s (p : cell) : p ∈ translate d s ↔ (p.1 - d.1, p.2 - d.2) ∈ s.
Proof.
  unfold translate. rewrite elem_of_map. split.
  - intros ([r c] & -> & Hq). simpl.
    by replace (r + d.1 - d.1) with r by lia; replace (c + d.2 - d.2) with c by lia.
  - intros Hp. eexists; split; [|done]. destruct p as [r c]. simpl. f_equal; lia.
Qed.

Lemma translate_translate d e s : translate d (translate e s) = translate (e.1 + d.1, e.2 + d.2) s.
Proof.
  apply set_eq. intros [r c]. rewrite !elem_of_translate. simpl.
  by replace (r - d.1 - e.1) with (r - (e.1 + d.1)) by lia;
     replace (c - d.2 - e.2) with (c - (e.2 + d.2)) by lia.
Qed.

Lemma translate_zero s : translate (0, 0) s = s.
Proof.
  apply set_eq. intros [r c]. rewrite elem_of_translate. simpl.
  by rewrite !Z.sub_0_r.
Qed.

Lemma size_set_map_inj (f : cell → cell) `{!Inj (=) (=) f} (s : gset cell) :
  size (set_map f s : gset cell) = size s.
Proof.
  unfold set_map. rewrite size_list_to_set.
  - by rewrite length_fmap.
  - apply NoDup_fmap; [done|]. apply NoDup_elements.
Qed.

Lemma size_translate d s : size (translate d s) = size s.
Proof.
  unfold translate. apply size_set_map_inj.
  intros [r c] [r' c'] [= H1 H2]. f_equal; lia.
Qed.

Lemma shape_cells_nonempty (s : gset cell) : s ≠ ∅ → fst <$> elements s ≠ [] ∧ snd <$> elements s ≠ [].
Proof.
  intros Hs. assert (elements s ≠ []) as He.
  { intros He. by apply elements_empty_inv, leibniz_equiv in He. }
  destruct (elements s); [done|]. done.
Qed.

Lemma normalize_shape_empty : normalize_shape ∅ = Raise ValueError.
Proof. done. Qed.

(** [normalize_shape] moves a shape so that its least row and its least
    column are 0. *)
Lemma normalize_shape_is_translate (s : gset cell) :
  s ≠ ∅ →
  ∃ min_r min_c,
    py_min (fst <$> elements s) = Ok min_r ∧ py_min (snd <$> elements s) = Ok min_c ∧
    normalize_shape s = Ok (translate (- min_r, - min_c) s).
Proof.
  intros Hs. destruct (shape_cells_nonempty s Hs) as [H1 H2].
  destruct (py_min_total _ H1) as [min_r Hr]. destruct (py_min_total _ H2) as [min_c Hc].
  exists min_r, min_c. split; [done|]. split; [done|].
  unfold normalize_shape. rewrite Hr, Hc. cbn [mbind result_bind mret result_ret].
  f_equal.
Qed.

Lemma py_min_translate_fst d s m :
  py_min (fst <$> elements s) = Ok m → py_min (fst <$> elements (translate d s)) = Ok (m + d.1).
Proof.
  rewrite !py_min_spec. intros [Hin Hall]. split.
  - apply elem_of_fst_elements in Hin as ([r c] & Hp & <-). apply elem_of_fst_elements.
    exists (r + d.1, c + d.2). split; [|done]. apply elem_of_translate. simpl.
    by replace (r + d.1 - d.1) with r by lia; replace (c + d.2 - d.2) with c by lia.
  - intros y ([r c] & Hp%elem_of_translate & <-)%elem_of_fst_elements. simpl in *.
    specialize (Hall (r - d.1)). cut (m ≤ r - d.1); [lia|]. apply Hall.
    apply elem_of_fst_elements. by eexists.
Qed.

Lemma py_min_translate_snd d s m :
  py_min (snd <$> elements s) = Ok m → py_min (snd <$> elements (translate d s)) = Ok (m + d.2).
Proof.
  rewrite !py_min_spec. intros [Hin Hall]. split.
  - apply elem_of_snd_elements in Hin as ([r c] & Hp & <-). apply elem_of_snd_elements.
    exists (r + d.1, c + d.2). split; [|done]. apply elem_of_translate. simpl.
    by replace (r + d.1 - d.1) with r by lia; replace (c + d.2 - d.2) with c by lia.
  - intros y ([r c] & Hp%elem_of_translate & <-)%elem_of_snd_elements. simpl in *.
    specialize (Hall (c - d.2)). cut (m ≤ c - d.2); [lia|]. apply Hall.
    apply elem_of_snd_elements. by eexists.
Qed.

Lemma translate_nonempty d s : s ≠ ∅ → translate d s ≠ ∅.
Proof.
  intros Hs Hd. apply Hs. apply leibniz_equiv, size_empty_inv.
  rewrite <- (size_translate d s), Hd. apply size_empty.
Qed.

(** Moving a shape does not change its normal form. *)
Lemma normalize_shape_translate d s : normalize_shape (translate d s) = normalize_shape s.
Proof.
  destruct (decide (s = ∅)) as [->|Hs].
  { unfold translate. by rewrite set_map_empty. }
  destruct (normalize_shape_is_translate s Hs) as (min_r & min_c & Hr & Hc & ->).
  destruct (normalize_shape_is_translate (translate d s) (translate_nonempty d s Hs))
    as (min_r' & min_c' & Hr' & Hc' & ->).
  rewrite (py_min_translate_fst d s _ Hr) in Hr'. rewrite (py_min_translate_snd d s _ Hc) in Hc'.
  injection Hr' as <-. injection Hc' as <-. f_equal. rewrite translate_translate. simpl.
  f_equal. f_equal; lia.
Qed.

Lemma normalized_translate_min s min_r min_c :
  py_min (fst <$> elements s) = Ok min_r → py_min (snd <$> elements s) = Ok min_c →
  normalized (translate (- min_r, - min_c) s).
Proof.
  intros Hr Hc. split.
  - rewrite (py_min_translate_fst _ _ _ Hr). simpl. f_equal. lia.
  - rewrite (py_min_translate_snd _ _ _ Hc). simpl. f_equal. lia.
Qed.

Lemma normalized_nonempty s : normalized s → s ≠ ∅.
Proof. intros [H _] ->. done. Qed.

Lemma normalize_shape_normalized s : normalized s → normalize_shape s = Ok s.
Proof.
  intros [Hr Hc]. unfold normalize_shape. rewrite Hr, Hc.
  cbn [mbind result_bind mret result_ret]. f_equal.
  change (translate (-0, -0) s = s). apply translate_zero.
Qed.

Lemma canon_eq s : s ≠ ∅ → normalize_shape s = Ok (canon s).
Proof.
  intros Hs. unfold canon.
  by destruct (normalize_shape_is_translate s Hs) as (? & ? & _ & _ & ->).
Qed.

Lemma canon_translate_of s : s ≠ ∅ → ∃ d, canon s = translate d s.
Proof.
  intros Hs. unfold canon.
  destruct (normalize_shape_is_translate s Hs) as (mr & mc & _ & _ & ->). eauto.
Qed.

Lemma canon_normalized s : s ≠ ∅ → normalized (canon s).
Proof.
  intros Hs. unfold canon.
  destruct (normalize_shape_is_translate s Hs) as (mr & mc & Hr & Hc & ->).
  by apply normalized_translate_min.
Qed.

Lemma canon_size s : s ≠ ∅ → size (canon s) = size s.
Proof.
  intros Hs. destruct (canon_translate_of s Hs) as [d ->]. apply size_translate.
Qed.

Lemma canon_nonempty s : s ≠ ∅ → canon s ≠ ∅.
Proof. intros Hs. by apply normalized_nonempty, canon_normalized. Qed.

Lemma elem_of_img w s (q : cell) : q ∈ img w s ↔ ∃ p : cell, q = act w p ∧ p ∈ s.
Proof. unfold img. apply elem_of_map. Qed.

Lemma apply_turn_inj g : Inj (=) (=) (apply_turn g).
Proof. intros [r c] [r' c'] H. destruct g; injection H as H1 H2; f_equal; lia. Qed.

Lemma act_inj w : Inj (=) (=) (act w).
Proof.
  induction w as [|g w IH] using rev_ind; [by intros p q|].
  intros p q. unfold act. rewrite !foldl_app. simpl. intros H.
  apply apply_turn_inj in H. by apply IH.
Qed.

Lemma img_size w s : size (img w s) = size s.
Proof. unfold img. apply size_set_map_inj, act_inj. Qed.

Lemma img_nonempty w s : s ≠ ∅ → img w s ≠ ∅.
Proof.
  intros Hs Hd. apply Hs. apply leibniz_equiv, size_empty_inv.
  rewrite <- (img_size w s), Hd. apply size_empty.
Qed.

Lemma img_ext w w' s : (∀ p, act w p = act w' p) → img w s = img w' s.
Proof.
  intros H. apply set_eq. intros q. rewrite !elem_of_img.
  split; intros (p & -> & Hp); exists p; by rewrite H.
Qed.

Lemma img_snoc w g s : set_map (apply_turn g) (img w s) = img (w ++ [g]) s.
Proof.
  apply set_eq. intros q. rewrite elem_of_map, elem_of_img. split.
  - intros (p' & -> & (p & -> & Hp)%elem_of_img). exists p. split; [|done].
    unfold act. by rewrite foldl_app.
  - intros (p & -> & Hp). exists (act w p). split.
    + unfold act. by rewrite foldl_app.
    + apply elem_of_img. by exists p.
Qed.

(** A generator moves with a translation. *)
Lemma turn_translate g d s :
  set_map (apply_turn g) (translate d s) = translate (apply_turn g d) (set_map (apply_turn g) s).
Proof.
  apply set_eq. intros q. rewrite elem_of_map, elem_of_translate, elem_of_map. split.
  - intros ([r c] & -> & Hp%elem_of_translate). simpl in Hp.
    exists (r - d.1, c - d.2). split; [|done]. destruct g; simpl; f_equal; lia.
  - intros ([r c] & Hq & Hp). exists (r + d.1, c + d.2). split.
    + destruct q as [qr qc]. destruct g; simpl in *; injection Hq as H1 H2; f_equal; lia.
    + apply elem_of_translate. simpl.
      by replace (r + d.1 - d.1) with r by lia; replace (c + d.2 - d.2) with c by lia.
Qed.

Lemma turn_shape_eq g s : turn_shape g s = normalize_shape (set_map (apply_turn g) s).
Proof. by destruct g. Qed.

(** Turning the normal form of [img w s] gives the normal form of the
    image under the longer word. *)
Lemma turn_shape_canon g w s :
  s ≠ ∅ → turn_shape g (canon (img w s)) = Ok (canon (img (w ++ [g]) s)).
Proof.
  intros Hs. destruct (canon_translate_of (img w s) (img_nonempty w s Hs)) as [d ->].
  rewrite turn_shape_eq, turn_translate, normalize_shape_translate, img_snoc.
  apply canon_eq. by apply img_nonempty.
Qed.

Lemma img_nil s : img [] s = s.
Proof. apply set_eq. intros q. rewrite elem_of_img. naive_solver. Qed.

Lemma turns_shape_canon w s :
  s ≠ ∅ → w ≠ [] → turns_shape w s = Ok (canon (img w s)).
Proof.
  intros Hs. induction w as [|g w IH] using rev_ind; [done|]. intros _.
  unfold turns_shape. 
  assert (∀ (l1 l2 : list turn) x,
            foldlM (λ s g, turn_shape g s) x (l1 ++ l2)
            = x' ← foldlM (λ s g, turn_shape g s) x l1; foldlM (λ s g, turn_shape g s) x' l2)
    as Happ.
  { induction l1 as [|a l1 IH1]; intros l2 x; [done|]. simpl.
    destruct (turn_shape a x); [|done]. simpl. apply IH1. }
  rewrite Happ. destruct w as [|g0 w].
  - cbn [foldlM app mbind result_bind]. rewrite turn_shape_eq.
    assert (set_map (apply_turn g) s = img [g] s) as ->.
    { pose proof (img_snoc [] g s) as H. by rewrite img_nil in H. }
    rewrite canon_eq by (by apply img_nonempty). done.
  - fold (turns_shape (g0 :: w) s). rewrite IH by done. cbn [mbind result_bind foldlM].
    rewrite turn_shape_canon by done. done.
Qed.

Lemma orientation_loop_step n w s acc :
  s ≠ ∅ →
  orientation_loop (S n) (canon (img w s)) acc
  = orientation_loop n (canon (img (w ++ [Rot]) s))
      (acc ∪ {[ canon (img (w ++ [Rot]) s) ]} ∪ {[ canon (img ((w ++ [Rot]) ++ [Flip]) s) ]}).
Proof.
  intros Hs. cbn [orientation_loop].
  rewrite (turn_shape_canon Rot w s Hs : rotate_90 _ = _). cbn [mbind result_bind].
  rewrite (turn_shape_canon Flip (w ++ [Rot]) s Hs : flip_horizontal _ = _). done.
Qed.

Lemma get_all_orientations_empty : get_all_orientations ∅ = Raise ValueError.
Proof. done. Qed.

(** The eight shapes [get_all_orientations] collects. *)
Lemma get_all_orientations_eq s :
  s ≠ ∅ →
  get_all_orientations s
  = Ok (elements (∅ ∪ {[ canon (img [Rot] s) ]} ∪ {[ canon (img [Rot; Flip] s) ]}
                    ∪ {[ canon (img [Rot; Rot] s) ]} ∪ {[ canon (img [Rot; Rot; Flip] s) ]}
                    ∪ {[ canon (img [Rot; Rot; Rot] s) ]}
                    ∪ {[ canon (img [Rot; Rot; Rot; Flip] s) ]}
                    ∪ {[ canon (img [Rot; Rot; Rot; Rot] s) ]}
                    ∪ {[ canon (img [Rot; Rot; Rot; Rot; Flip] s) ]} : gset (gset cell))).
Proof.
  intros Hs. unfold get_all_orientations. rewrite canon_eq by done.
  cbn [mbind result_bind]. rewrite <- (img_nil s) at 1.
  rewrite !orientation_loop_step by done. done.
Qed.

Ltac same_image s :=
  apply (img_ext _ _ s); intros [? ?]; cbv [act foldl app apply_turn fst snd]; f_equal; lia.

Ltac into_orbit s w :=
  first
    [ replace (img w s) with (img [Rot] s) by same_image s
    | replace (img w s) with (img [Rot; Flip] s) by same_image s
    | replace (img w s) with (img [Rot; Rot] s) by same_image s
    | replace (img w s) with (img [Rot; Rot; Flip] s) by same_image s
    | replace (img w s) with (img [Rot; Rot; Rot] s) by same_image s
    | replace (img w s) with (img [Rot; Rot; Rot; Flip] s) by same_image s
    | replace (img w s) with (img [Rot; Rot; Rot; Rot] s) by same_image s
    | replace (img w s) with (img [Rot; Rot; Rot; Rot; Flip] s) by same_image s ].

Lemma orbit_closed s g w o :
  s ≠ ∅ →
  let orbit : gset (gset cell) :=
    ∅ ∪ {[ canon (img [Rot] s) ]} ∪ {[ canon (img [Rot; Flip] s) ]}
      ∪ {[ canon (img [Rot; Rot] s) ]} ∪ {[ canon (img [Rot; Rot; Flip] s) ]}
      ∪ {[ canon (img [Rot; Rot; Rot] s) ]} ∪ {[ canon (img [Rot; Rot; Rot; Flip] s) ]}
      ∪ {[ canon (img [Rot; Rot; Rot; Rot] s) ]}
      ∪ {[ canon (img [Rot; Rot; Rot; Rot; Flip] s) ]} in
  w ∈ [[Rot]; [Rot; Flip]; [Rot; Rot]; [Rot; Rot; Flip]; [Rot; Rot; Rot];
       [Rot; Rot; Rot; Flip]; [Rot; Rot; Rot; Rot]; [Rot; Rot; Rot; Rot; Flip]] →
  o = canon (img w s) →
  ∃ o', turn_shape g o = Ok o' ∧ o' ∈ orbit.
Proof.
  intros Hs orbit Hw ->. exists (canon (img (w ++ [g]) s)).
  split; [by apply turn_shape_canon|]. unfold orbit.
  repeat (apply elem_of_cons in Hw as [->|Hw]); [..|by apply elem_of_nil in Hw];
    destruct g; cbn [app];
    match goal with |- canon (img ?w _) ∈ _ => into_orbit s w end; set_solver.
Qed.

Lemma img_full_turn s : img [Rot; Rot; Rot; Rot] s = s.
Proof. rewrite <- (img_nil s) at 2. same_image s. Qed.

Lemma img_flip_flip s : img [Flip; Flip] s = s.
Proof. rewrite <- (img_nil s) at 2. same_image s. Qed.

(** X1: [normalize_shape] raises [ValueError] on the empty shape and on no
    other; on any other shape it returns the shape moved so that its least
    row and least column are 0, with as many cells, and normalizing the
    result again changes nothing. *)
Theorem normalize_shape_normal_form (shape : gset cell) :
  match normalize_shape shape with
  | Ok shifted =>
      shape ≠ ∅ ∧ normalized shifted ∧ size shifted = size shape ∧
      (∃ d, shifted = translate d shape) ∧ normalize_shape shifted = Ok shifted
  | Raise e => shape = ∅ ∧ e = ValueError
  end.
Proof.
  destruct (decide (shape = ∅)) as [->|Hs]; [by rewrite normalize_shape_empty|].
  rewrite (canon_eq shape Hs). split; [done|].
  split; [by apply canon_normalized|]. split; [by apply canon_size|].
  split; [by apply canon_translate_of|].
  by apply normalize_shape_normalized, canon_normalized.
Qed.

(** X2: four quarter turns, and likewise two flips, bring every shape back
    to its normal form (and raise [ValueError] on the empty shape, as
    [normalize_shape] does). *)
Theorem rotate_90_four_times_flip_twice (shape : gset cell) :
  (s1 ← rotate_90 shape; s2 ← rotate_90 s1; s3 ← rotate_90 s2; rotate_90 s3)
  = normalize_shape shape ∧
  (s1 ← flip_horizontal shape; flip_horizontal s1) = normalize_shape shape.
Proof.
  destruct (decide (shape = ∅)) as [->|Hs]; [done|].
  pose proof (turns_shape_canon [Rot] shape Hs ltac:(done)) as H1.
  pose proof (turns_shape_canon [Flip] shape Hs ltac:(done)) as F1.
  unfold turns_shape in H1, F1. cbn [foldlM turn_shape] in H1, F1.
  destruct (rotate_90 shape) as [s1|] eqn:E1; [|done]. injection H1 as ->.
  destruct (flip_horizontal shape) as [f1|] eqn:E2; [|done]. injection F1 as ->.
  cbn [mbind result_bind]. split.
  - rewrite (turn_shape_canon Rot [Rot] shape Hs : rotate_90 _ = _). cbn [mbind result_bind app].
    rewrite (turn_shape_canon Rot [Rot; Rot] shape Hs : rotate_90 _ = _).
    cbn [mbind result_bind app].
    rewrite (turn_shape_canon Rot [Rot; Rot; Rot] shape Hs : rotate_90 _ = _).
    cbn [app]. by rewrite img_full_turn, canon_eq.
  - rewrite (turn_shape_canon Flip [Flip] shape Hs : flip_horizontal _ = _).
    cbn [app]. by rewrite img_flip_flip, canon_eq.
Qed.

(** X3: the orientations of any shape, not only of the 21 of the table.
    [get_all_orientations] raises [ValueError] on the empty shape only;
    otherwise it returns between 1 and 8 distinct shapes, the normal form of
    the input among them, each normalized and with as many cells as the
    input, and rotating or flipping any of them gives one of them again. *)
Theorem get_all_orientations_any_shape (shape : gset cell) :
  match get_all_orientations shape with
  | Ok os =>
      shape ≠ ∅ ∧ (1 ≤ length os ≤ 8)%nat ∧ NoDup os ∧
      (∃ o0, normalize_shape shape = Ok o0 ∧ o0 ∈ os) ∧
      ∀ o, o ∈ os →
        normalized o ∧ size o = size shape ∧
        (∃ o', rotate_90 o = Ok o' ∧ o' ∈ os) ∧
        (∃ o', flip_horizontal o = Ok o' ∧ o' ∈ os)
  | Raise e => shape = ∅ ∧ e = ValueError
  end.
Proof.
  destruct (decide (shape = ∅)) as [->|Hs]; [by rewrite get_all_orientations_empty|].
  rewrite (get_all_orientations_eq shape Hs).
  set (words := [[Rot]; [Rot; Flip]; [Rot; Rot]; [Rot; Rot; Flip]; [Rot; Rot; Rot];
                 [Rot; Rot; Rot; Flip]; [Rot; Rot; Rot; Rot]; [Rot; Rot; Rot; Rot; Flip]]).
  match goal with |- context [elements ?X] => set (orbit := X) end.
  assert (∀ o, o ∈ orbit ↔ ∃ w, w ∈ words ∧ o = canon (img w shape)) as Horbit.
  { intros o. unfold orbit, words. split.
    - intros H. rewrite !elem_of_union, !elem_of_singleton in H.
      repeat (destruct H as [H|H]); [by apply elem_of_empty in H|..];
        subst o; eexists; (split; [|done]); rewrite !elem_of_cons; auto 10.
    - intros (w & Hw & ->). repeat (apply elem_of_cons in Hw as [->|Hw]); [set_solver..|].
      by apply elem_of_nil in Hw. }
  split; [done|]. split; [split|].
  - assert (canon (img [Rot] shape) ∈ elements orbit) as Hin.
    { apply elem_of_elements, Horbit. exists [Rot]. split; [left|done]. }
    destruct (elements orbit); [by apply elem_of_nil in Hin|simpl; lia].
  - change 8%nat with (length ((λ w, canon (img w shape)) <$> words)).
    apply submseteq_length, NoDup_submseteq; [apply NoDup_elements|].
    intros o (w & Hw & ->)%elem_of_elements%Horbit. apply list_elem_of_fmap. by exists w.
  - split; [apply NoDup_elements|]. split.
    + exists (canon shape). split; [by apply canon_eq|].
      apply elem_of_elements, Horbit. exists [Rot; Rot; Rot; Rot].
      split; [unfold words; rewrite !elem_of_cons; auto 10|].
      by rewrite img_full_turn.
    + intros o Ho%elem_of_elements. pose proof Ho as (w & Hw & ->)%Horbit.
      split; [by apply canon_normalized, img_nonempty|].
      split; [by rewrite canon_size, img_size by (by apply img_nonempty)|].
      split.
      * destruct (orbit_closed shape Rot w _ Hs Hw eq_refl) as (o' & Ho' & Hin).
        exists o'. split; [done|]. by apply elem_of_elements.
      * destruct (orbit_closed shape Flip w _ Hs Hw eq_refl) as (o' & Ho' & Hin).
        exists o'. split; [done|]. by apply elem_of_elements.
Qed.

(** ** rules.py: the whole of the legality test, and the enumeration *)



Lemma foldlM_members {A B} (P : A → B → Prop) (f : list B → A → result (list B))
    (l : list A) (acc : list B) :
  (∀ acc x, x ∈ l → ∃ acc', f acc x = Ok acc' ∧ ∀ y, y ∈ acc' ↔ y ∈ acc ∨ P x y) →
  ∃ acc', foldlM f acc l = Ok acc' ∧ ∀ y, y ∈ acc' ↔ y ∈ acc ∨ ∃ x, x ∈ l ∧ P x y.
Proof.
  revert acc. induction l as [|x l IH]; intros acc Hstep.
  { exists acc. split; [done|]. intros y. split; [by left|].
    intros [?|(x & Hx & _)]; [done|]. by apply elem_of_nil in Hx. }
  destruct (Hstep acc x ltac:(left)) as (acc1 & Hf & H1).
  destruct (IH acc1) as (acc2 & Hfold & H2).
  { intros a y Hy. apply Hstep. by right. }
  exists acc2. cbn [foldlM]. rewrite Hf. cbn [mbind result_bind]. split; [done|].
  intros y. rewrite H2, H1. split.
  - intros [[?|?]|(z & Hz & ?)]; [by left|right; exists x; split; [left|done]|].
    right. exists z. split; [by right|done].
  - intros [?|(z & [->|Hz]%elem_of_cons & ?)]; [by left; left|by left; right|].
    right. by exists z.
Qed.

Lemma foldl_max_spec (l : list Z) (x m : Z) :
  foldl Z.max x l = m → (m = x ∨ m ∈ l) ∧ x ≤ m ∧ ∀ y, y ∈ l → y ≤ m.
Proof.
  revert x m. induction l as [|a l IH]; intros x m; simpl.
  - intros <-. split; [by left|]. split; [lia|]. intros y Hy. by apply elem_of_nil in Hy.
  - intros (Hm & Hle & Hall)%IH. split.
    { destruct Hm as [->|Hm]; [|right; by right].
      destruct (Z.max_spec x a) as [[_ ->]|[_ ->]]; [right; by left|by left]. }
    split; [lia|]. intros y [->|Hy]%elem_of_cons; [lia|by apply Hall].
Qed.

Lemma py_max_spec (l : list Z) (m : Z) :
  py_max l = Ok m → m ∈ l ∧ ∀ y, y ∈ l → y ≤ m.
Proof.
  destruct l as [|x l]; simpl; [done|].
  intros [= H]. apply foldl_max_spec in H as (Hm & Hle & Hall). split.
  { destruct Hm as [->|Hm]; [by left|by right]. }
  intros y [->|Hy]%elem_of_cons; [done|by apply Hall].
Qed.

(** What [get_legal_moves] lists. *)
Lemma get_legal_moves_members s :
  wf_state s →
  ∃ legal_moves, get_legal_moves s = Ok legal_moves ∧
    ∀ mv : Move, mv ∈ legal_moves ↔
      check_legal_move s mv = Ok true ∧
      ∃ shape os, py_getitem ALL_SHAPES mv.1.1.1 = Ok shape ∧
                  get_all_orientations shape = Ok os ∧ mv.2 ∈ os.
Proof.
  intros Hwf. destruct (wf_state_remaining s Hwf) as (rem & _ & Hrem & Hrange).
  unfold get_legal_moves. rewrite Hrem. cbn [mbind result_bind].
  set (P4 := λ (pid : Z) (o : gset cell) (ro co : Z) (mv : Move),
               check_legal_move s (pid, ro, co, o) = Ok true ∧ mv = (pid, ro, co, o)).
  set (P3 := λ (pid : Z) (o : gset cell) (max_c ro : Z) (mv : Move),
               ∃ co, co ∈ py_range (BOARD_SIZE - max_c) ∧ P4 pid o ro co mv).
  set (P2 := λ (pid : Z) (o : gset cell) (mv : Move),
               ∃ max_r max_c, py_max (fst <$> elements o) = Ok max_r ∧
                              py_max (snd <$> elements o) = Ok max_c ∧
                 ∃ ro, ro ∈ py_range (BOARD_SIZE - max_r) ∧ P3 pid o max_c ro mv).
  set (P1 := λ (pid : Z) (mv : Move),
               ∃ shape os, py_getitem ALL_SHAPES pid = Ok shape ∧
                           get_all_orientations shape = Ok os ∧
                 ∃ o, o ∈ os ∧ P2 pid o mv).
  destruct (foldlM_members P1
              (λ legal_moves piece_id,
                 shape ← py_getitem ALL_SHAPES piece_id;
                 orientations ← get_all_orientations shape;
                 foldlM (λ legal_moves orientation,
                   max_r ← py_max (fst <$> elements orientation);
                   max_c ← py_max (snd <$> elements orientation);
                   foldlM (λ legal_moves row_off,
                     foldlM (λ legal_moves col_off,
                       let move_candidate : Move :=
                         (piece_id, row_off, col_off, orientation) in
                       legal ← check_legal_move s move_candidate;
                       if legal : bool then mret (legal_moves ++ [move_candidate])
                       else mret legal_moves)
                     legal_moves (py_range (BOARD_SIZE - max_c)))
                   legal_moves (py_range (BOARD_SIZE - max_r)))
                 legal_moves orientations)
              (elements rem) []) as (legal_moves & Hfold & Hmem).
  { intros acc1 pid Hpid%elem_of_elements.
    destruct (py_getitem_lookup ALL_SHAPES pid) as (shape & _ & Hshape).
    { specialize (Hrange pid Hpid). simpl. lia. }
    rewrite Hshape. cbn [mbind result_bind].
    destruct (orientations_of_shape pid shape Hshape) as (os & Hos & Hnorm).
    rewrite Hos. cbn [mbind result_bind].
    destruct (foldlM_members (P2 pid)
                (λ legal_moves orientation,
                   max_r ← py_max (fst <$> elements orientation);
                   max_c ← py_max (snd <$> elements orientation);
                   foldlM (λ legal_moves row_off,
                     foldlM (λ legal_moves col_off,
                       let move_candidate : Move := (pid, row_off, col_off, orientation) in
                       legal ← check_legal_move s move_candidate;
                       if legal : bool then mret (legal_moves ++ [move_candidate])
                       else mret legal_moves)
                     legal_moves (py_range (BOARD_SIZE - max_c)))
                   legal_moves (py_range (BOARD_SIZE - max_r)))
                os acc1) as (acc1' & Hf & Hm).
    { intros acc2 o Ho. eapply Forall_forall in Hnorm; [|done].
      destruct (normalized_py_max o Hnorm) as (max_r & max_c & Hr & Hc).
      rewrite Hr, Hc. cbn [mbind result_bind].
      destruct (foldlM_members (P3 pid o max_c)
                  (λ legal_moves row_off,
                     foldlM (λ legal_moves col_off,
                       let move_candidate : Move := (pid, row_off, col_off, o) in
                       legal ← check_legal_move s move_candidate;
                       if legal : bool then mret (legal_moves ++ [move_candidate])
                       else mret legal_moves)
                     legal_moves (py_range (BOARD_SIZE - max_c)))
                  (py_range (BOARD_SIZE - max_r)) acc2) as (acc2' & Hf & Hm).
      { intros acc3 ro _.
        apply (foldlM_members (P4 pid o ro)). intros acc4 co _.
        destruct (check_legal_move_total s (pid, ro, co, o) Hwf) as (b & Hb & _).
        cbv zeta. rewrite Hb. cbn [mbind result_bind]. destruct b.
        - eexists. split; [done|]. intros y. rewrite elem_of_app, list_elem_of_singleton.
          unfold P4. split; [intros [?| ->]; [by left|by right]|].
          intros [?|[_ ->]]; [by left|by right].
        - eexists. split; [done|]. intros y. unfold P4. rewrite Hb.
          split; [by left|]. by intros [?|[? _]]. }
      exists acc2'. split; [done|]. intros y. rewrite Hm. unfold P2.
      split.
      - intros [?|(ro & Hro & H3)]; [by left|]. right. exists max_r, max_c. eauto.
      - intros [?|(mr & mc & Hr' & Hc' & ro & Hro & H3)]; [by left|]. right.
        rewrite Hr in Hr'. rewrite Hc in Hc'. injection Hr' as <-. injection Hc' as <-.
        eauto. }
    exists acc1'. split; [done|]. intros y. rewrite Hm. unfold P1.
    split.
    - intros [?|(o & Ho & H2)]; [by left|]. right. exists shape, os. eauto.
    - intros [?|(shape' & os' & Hshape' & Hos' & o & Ho & H2)]; [by left|]. right.
      rewrite Hshape in Hshape'. injection Hshape' as <-.
      rewrite Hos in Hos'. injection Hos' as <-. eauto. }
  exists legal_moves. split; [done|]. intros mv. rewrite Hmem. split.
  - intros [[]%elem_of_nil|(pid & Hpid & shape & os & Hshape & Hos & o & Ho & max_r & max_c &
                           _ & _ & ro & _ & co & _ & Hlegal & ->)].
    split; [done|]. by exists shape, os.
  - intros (Hlegal & shape & os & Hshape & Hos & Ho). right.
    destruct mv as [[[pid ro] co] o]. cbn [fst snd] in *.
    destruct (check_legal_move_total s (pid, ro, co, o) Hwf) as (b & Hb & Hprop).
    rewrite Hlegal in Hb. injection Hb as <-.
    destruct Hprop as [(rem' & Hrem' & Hin) Hon]; [done|]. cbn [fst snd] in *.
    rewrite Hrem in Hrem'. injection Hrem' as <-.
    exists pid. split; [by apply elem_of_elements|]. exists shape, os.
    split; [done|]. split; [done|]. exists o. split; [done|].
    destruct (orientations_of_shape pid shape Hshape) as (os' & Hos' & Hnorm).
    rewrite Hos in Hos'. injection Hos' as <-.
    eapply Forall_forall in Hnorm; [|done].
    destruct (normalized_py_max o Hnorm) as (max_r & max_c & Hr & Hc).
    exists max_r, max_c. split; [done|]. split; [done|].
    destruct Hnorm as [Hr0 Hc0].
    apply py_min_spec in Hr0 as [([r0 c0] & Hp0 & Hr0)%elem_of_fst_elements _].
    apply py_min_spec in Hc0 as [([r1 c1] & Hp1 & Hc1)%elem_of_snd_elements _].
    pose proof (py_max_spec _ _ Hr) as [([r2 c2] & Hp2 & Hr2)%elem_of_fst_elements _].
    pose proof (py_max_spec _ _ Hc) as [([r3 c3] & Hp3 & Hc3)%elem_of_snd_elements _].
    pose proof (Hon _ Hp0) as [H0 _]%on_board_spec.
    pose proof (Hon _ Hp1) as [_ H1]%on_board_spec.
    pose proof (Hon _ Hp2) as [H2 _]%on_board_spec.
    pose proof (Hon _ Hp3) as [_ H3]%on_board_spec.
    cbn [fst snd] in *. subst.
    exists ro. split; [unfold py_range; apply elem_of_seqZ; lia|].
    exists co. split; [unfold py_range; apply elem_of_seqZ; lia|]. done.
Qed.

(** X5: on a well-formed state [get_legal_moves] never raises, and the
    list it returns holds exactly the legal placements of the pieces in one
    of their orientations: every move listed passes [check_legal_move], and
    every placement that passes it and uses an orientation that
    [get_all_orientations] gives for its piece is listed. *)
Theorem get_legal_moves_sound_complete s :
  wf_state s →
  ∃ legal_moves, get_legal_moves s = Ok legal_moves ∧
    ∀ mv : Move, mv ∈ legal_moves ↔
      check_legal_move s mv = Ok true ∧
      ∃ shape os, py_getitem ALL_SHAPES mv.1.1.1 = Ok shape ∧
                  get_all_orientations shape = Ok os ∧ mv.2 ∈ os.
Proof. apply get_legal_moves_members. Qed.

(** *** The effect of a legal move *)

Lemma owner_insert_row grid k (row : list (option Z)) j v r c :
  grid !! k = Some row → (j < length row)%nat → 0 ≤ r → 0 ≤ c →
  owner (<[k := <[j := v]> row]> grid) r c
  = if bool_decide (Z.to_nat r = k ∧ Z.to_nat c = j) then v else owner grid r c.
Proof.
  intros Hk Hj Hr Hc. unfold owner.
  destruct (decide (Z.to_nat r = k)) as [->|Hne].
  - rewrite list_lookup_insert_eq by (by eapply lookup_lt_Some). rewrite Hk. simpl.
    destruct (decide (Z.to_nat c = j)) as [->|Hne].
    + rewrite list_lookup_insert_eq by done. simpl. by rewrite bool_decide_true.
    + rewrite list_lookup_insert_ne by done. rewrite bool_decide_false; [done|].
      by intros [_ ?].
  - rewrite list_lookup_insert_ne by done. rewrite bool_decide_false; [done|].
    by intros [? _].
Qed.

Lemma grid_set_owner grid rr cc color :
  wf_grid grid → on_board rr cc = true →
  ∃ grid', grid_set grid rr cc color = Ok grid' ∧ wf_grid grid' ∧
    ∀ r c, on_board r c = true →
      owner grid' r c = if bool_decide ((r, c) = (rr, cc)) then Some color else owner grid r c.
Proof.
  intros Hg [Hr Hc]%on_board_spec. pose proof Hg as [Hlen Hrows]. unfold grid_set.
  destruct (py_getitem_lookup grid rr) as (row & Hrow & ->); [lia|].
  cbn [mbind result_bind].
  assert (length row = Z.to_nat BOARD_SIZE) as Hrl.
  { eapply Forall_forall in Hrows; [done|]. by eapply list_elem_of_lookup_2. }
  unfold py_setitem. rewrite (py_index_nonneg (length row)) by lia.
  cbn [mbind result_bind]. rewrite py_index_nonneg by lia. cbn [mbind result_bind].
  eexists. split; [done|]. split.
  - split; [by rewrite length_insert|].
    apply Forall_insert; [done|]. by rewrite length_insert.
  - intros r c [Hr' Hc']%on_board_spec.
    rewrite (owner_insert_row grid _ row) by (done || lia).
    destruct (decide ((r, c) = (rr, cc))) as [[= -> ->]|Hne].
    + by rewrite !bool_decide_true.
    + rewrite !bool_decide_false; [done|done|]. intros [H1 H2]. apply Hne. f_equal; lia.
Qed.

Lemma mark_all_owner row_off col_off color coords grid :
  wf_grid grid →
  (∀ p : cell, p ∈ coords → on_board (p.1 + row_off) (p.2 + col_off) = true) →
  ∃ grid', foldlM (mark_square row_off col_off color) grid coords = Ok grid' ∧
    wf_grid grid' ∧
    ∀ r c, on_board r c = true →
      owner grid' r c
      = if bool_decide ((r, c) ∈ (λ p : cell, (p.1 + row_off, p.2 + col_off)) <$> coords)
        then Some color else owner grid r c.
Proof.
  revert grid. induction coords as [|p coords IH]; intros grid Hg Hall.
  { exists grid. split; [done|]. split; [done|]. intros r c _.
    rewrite bool_decide_false; [done|]. apply not_elem_of_nil. }
  destruct (grid_set_owner grid (p.1 + row_off) (p.2 + col_off) color Hg)
    as (g1 & H1 & Hg1 & Ho1); [apply Hall; by left|].
  cbn [foldlM]. rewrite mark_square_eq, H1. cbn [mbind result_bind].
  destruct (IH g1 Hg1) as (g2 & -> & Hg2 & Ho2); [intros q Hq; apply Hall; by right|].
  exists g2. split; [done|]. split; [done|]. intros r c Hrc.
  rewrite Ho2, Ho1 by done. rewrite fmap_cons.
  destruct (decide ((r, c) ∈ (λ p : cell, (p.1 + row_off, p.2 + col_off)) <$> coords)).
  - rewrite !bool_decide_true; [done|by right|done].
  - rewrite (bool_decide_false (_ ∈ _ <$> coords)) by done.
    destruct (decide ((r, c) = (p.1 + row_off, p.2 + col_off))) as [Heq|Hne].
    + rewrite !bool_decide_true; [done|rewrite Heq; by left|done].
    + rewrite !bool_decide_false; [done| |done]. by intros [?|?]%elem_of_cons.
Qed.

(** X6: what a legal move does.  On a well-formed state a placement that
    [check_legal_move] accepts is applied without an exception; the new
    state is well formed, the piece has left the mover's hand and no other
    hand has changed, the mover's count of moves is one higher, the passes
    in a row are back to 0, the turn goes to the next of the four players,
    and a cell of the board belongs to the mover if the placement covers
    it and is as it was otherwise. *)
Theorem apply_move_legal_effect s piece_id row_off col_off shape_coords :
  wf_state s →
  check_legal_move s (piece_id, row_off, col_off, shape_coords) = Ok true →
  ∃ s' remaining made,
    apply_move s (Some (piece_id, row_off, col_off, shape_coords)) = Ok s' ∧
    wf_state s' ∧
    pieces_remaining s !! Z.to_nat (current_player s) = Some remaining ∧
    piece_id ∈ remaining ∧
    moves_made s !! Z.to_nat (current_player s) = Some made ∧
    pieces_remaining s'
    = <[Z.to_nat (current_player s) := remaining ∖ {[ piece_id ]}]> (pieces_remaining s) ∧
    moves_made s' = <[Z.to_nat (current_player s) := made + 1]> (moves_made s) ∧
    current_player s' = (current_player s + 1) `mod` 4 ∧
    consecutive_passes s' = 0 ∧
    ∀ r c, on_board r c = true →
      owner (board_grid s') r c
      = if bool_decide ((r, c) ∈ placed_cells row_off col_off shape_coords)
        then Some (current_player s) else owner (board_grid s) r c.
Proof.
  intros Hwf Hlegal.
  destruct (check_legal_move_total s (piece_id, row_off, col_off, shape_coords) Hwf)
    as (b & Hb & Hprop).
  rewrite Hlegal in Hb. injection Hb as <-.
  destruct Hprop as [(rem & Hrem & Hin) Hon]; [done|]. cbn [fst snd] in *.
  destruct (wf_state_remaining s Hwf) as (rem' & Hl & Hg & Hrange).
  rewrite Hg in Hrem. injection Hrem as <-.
  destruct (wf_state_made s Hwf) as (made & Hml & Hmg).
  destruct Hwf as (Hgrid & Hp & Hm & Hc & Hr). unfold NUM_PLAYERS in *.
  unfold apply_move. rewrite Hg. cbn [mbind result_bind].
  unfold set_remove. rewrite bool_decide_true by done. cbn [mbind result_bind].
  unfold py_setitem. rewrite !py_index_nonneg by lia. cbn [mbind result_bind].
  destruct (mark_all_owner row_off col_off (current_player s) (elements shape_coords)
              (board_grid s) Hgrid) as (g' & -> & Hg' & Hown).
  { intros p Hp'. apply Hon. by apply elem_of_elements. }
  cbn [mbind result_bind]. rewrite Hmg. cbn [mbind result_bind mret result_ret].
  eexists _, rem', made. split; [done|]. split.
  { unfold wf_state. simpl. rewrite !length_insert.
    split_and!; try done; try (apply Z.mod_pos_bound; done).
    apply Forall_insert; [done|]. intros pid [Hpid _]%elem_of_difference. by apply Hrange. }
  simpl. split_and!; done.
Qed.

(** *** Games end *)

Lemma Zsum_insert {A} (f : A → Z) (l : list A) k x y :
  l !! k = Some x → Zsum (f <$> <[k := y]> l) = Zsum (f <$> l) - f x + f y.
Proof.
  revert k. induction l as [|a l IH]; intros [|k] Hk; try done.
  - injection Hk as ->. change (<[0%nat := y]> (x :: l)) with (y :: l).
    rewrite !fmap_cons, !Zsum_cons. lia.
  - change (<[S k := y]> (a :: l)) with (a :: <[k := y]> l).
    rewrite !fmap_cons, !Zsum_cons, (IH k Hk). lia.
Qed.

Lemma pieces_left_nonneg s : 0 ≤ pieces_left s.
Proof.
  unfold pieces_left. induction (pieces_remaining s) as [|h l IH]; [done|].
  rewrite fmap_cons, Zsum_cons. lia.
Qed.

Lemma is_terminal_false_passes s : is_terminal s = Ok false → consecutive_passes s < 4.
Proof.
  unfold is_terminal. case_bool_decide; [done|]. intros _. lia.
Qed.

Lemma apply_move_legal_hands s mv :
  wf_state s → check_legal_move s mv = Ok true →
  ∃ s' remaining,
    apply_move s (Some mv) = Ok s' ∧ wf_state s' ∧
    pieces_remaining s !! Z.to_nat (current_player s) = Some remaining ∧
    mv.1.1.1 ∈ remaining ∧
    pieces_remaining s'
    = <[Z.to_nat (current_player s) := remaining ∖ {[ mv.1.1.1 ]}]> (pieces_remaining s) ∧
    consecutive_passes s' = 0.
Proof.
  intros Hwf Hlegal. destruct (apply_move_legal s mv Hwf Hlegal) as (s' & Happly & Hwf').
  destruct (check_legal_move_total s mv Hwf) as (b & Hb & Hprop).
  rewrite Hlegal in Hb. injection Hb as <-.
  destruct Hprop as [(rem & Hrem & Hin) _]; [done|].
  destruct (wf_state_remaining s Hwf) as (rem' & Hl & Hg & _).
  rewrite Hg in Hrem. injection Hrem as <-.
  exists s', rem'. split; [done|]. split; [done|]. split; [done|]. split; [done|].
  destruct mv as [[[piece_id row_off] col_off] shape_coords]. cbn [fst snd] in *.
  destruct Hwf as (_ & _ & _ & Hc & _). unfold NUM_PLAYERS in *.
  unfold apply_move in Happly. rewrite Hg in Happly. cbn [mbind result_bind] in Happly.
  unfold set_remove in Happly. rewrite bool_decide_true in Happly by done.
  cbn [mbind result_bind] in Happly.
  assert (py_setitem (pieces_remaining s) (current_player s) (rem' ∖ {[piece_id]})
          = Ok (<[Z.to_nat (current_player s) := rem' ∖ {[piece_id]}]> (pieces_remaining s)))
    as Hset.
  { unfold py_setitem. rewrite py_index_nonneg by (apply lookup_lt_Some in Hl; lia). done. }
  rewrite Hset in Happly. cbn [mbind result_bind] in Happly.
  destruct (foldlM _ _ _) as [g'|]; [|done]. cbn [mbind result_bind] in Happly.
  destruct (py_getitem (moves_made s) (current_player s)) as [made|]; [|done].
  cbn [mbind result_bind] in Happly.
  destruct (py_setitem (moves_made s) (current_player s) (made + 1)) as [xs'|]; [|done].
  cbn [mbind result_bind mret result_ret] in Happly. injection Happly as <-. done.
Qed.

Lemma turns_left_step s move s' :
  wf_state s → is_terminal s = Ok false → turn_ok s move → apply_move s move = Ok s' →
  wf_state s' ∧ 0 ≤ turns_left s' < turns_left s.
Proof.
  intros Hwf Hterm Hok Happly. pose proof (is_terminal_false_passes s Hterm) as Hpass.
  destruct move as [mv|].
  - destruct (apply_move_legal_hands s mv Hwf Hok)
      as (s1 & rem & Happly1 & Hwf' & Hrem & Hin & Hpieces & Hpasses).
    rewrite Happly in Happly1. injection Happly1 as <-. split; [done|].
    pose proof (pieces_left_nonneg s') as Hnn'.
    unfold turns_left, pieces_left in *. rewrite Hpasses, Hpieces.
    rewrite Hpieces in Hnn'. rewrite (Zsum_insert _ _ _ rem) in * by done.
    assert (size rem ≠ 0)%nat as Hsize.
    { intros Hz. apply size_empty_inv in Hz. by apply Hz in Hin. }
    rewrite size_difference, size_singleton in * by (by apply singleton_subseteq_l).
    lia.
  - split; [by eapply apply_move_pass_wf|].
    rewrite apply_move_pass in Happly. injection Happly as <-.
    pose proof (pieces_left_nonneg s) as Hnn.
    unfold turns_left, pieces_left in *. simpl. lia.
Qed.

(** X7: a turn brings the end nearer.  On a well-formed state that is not
    terminal, a pass or a legal placement is applied without an exception,
    the new state is well formed, and [turns_left] (four times the pieces
    left in all hands, plus the passes still missing to four in a row)
    has gone down and is not negative. *)
Theorem turn_makes_progress s move :
  wf_state s → is_terminal s = Ok false → turn_ok s move →
  ∃ s', apply_move s move = Ok s' ∧ wf_state s' ∧ 0 ≤ turns_left s' < turns_left s.
Proof.
  intros Hwf Hterm Hok.
  assert (∃ s', apply_move s move = Ok s') as [s' Happly].
  { destruct move as [mv|].
    - destruct (apply_move_legal s mv Hwf Hok) as (s' & ? & _). by exists s'.
    - rewrite apply_move_pass. by eexists. }
  exists s'. split; [done|]. by eapply turns_left_step.
Qed.

(** X8: every game ends.  A game played from a well-formed state with at
    most four passes in a row, by passes and legal placements, has at most
    [turns_left] turns; from the opening position that is 340. *)
Theorem game_length_bound s moves s' :
  wf_state s → consecutive_passes s ≤ 4 → played s moves s' →
  wf_state s' ∧ Z.of_nat (length moves) ≤ turns_left s ∧
  (s = BoardState_init → (length moves ≤ 340)%nat).
Proof.
  intros Hwf Hpass Hplayed.
  assert (wf_state s' ∧ (moves ≠ [] → 0 ≤ turns_left s') ∧
          Z.of_nat (length moves) + turns_left s' ≤ turns_left s) as (Hwf' & Hnn & Hle).
  { clear Hpass. induction Hplayed as [s|s move s1 moves s' Hterm Hok Happly Hplayed IH].
    - split; [done|]. split; [done|]. simpl. lia.
    - destruct (turns_left_step s move s1 Hwf Hterm Hok Happly) as [Hwf1 Hlt].
      destruct (IH Hwf1) as (Hwf' & Hnn & Hle). split; [done|]. split.
      + intros _. destruct moves; [|by apply Hnn]. inversion Hplayed; subst. lia.
      + rewrite length_cons. lia. }
  split; [done|].
  assert (Z.of_nat (length moves) ≤ turns_left s) as Hbound.
  { destruct moves as [|m moves]; [|specialize (Hnn ltac:(done)); lia].
    pose proof (pieces_left_nonneg s). unfold turns_left. simpl. lia. }
  split; [done|]. intros ->.
  assert (turns_left BoardState_init = 340) as Hinit by (by vm_compute).
  rewrite Hinit in Hbound. lia.
Qed.

(** ** scoring.py *)

(** X9: on a well-formed state [compute_final_scores] returns four scores,
    and the score of a color is minus the number of squares of the pieces
    left in its hand: between -89 and 0, and 0 exactly when the hand is
    empty. *)
Theorem compute_final_scores_exact s :
  wf_state s →
  ∃ scores, compute_final_scores s = Ok scores ∧ length scores = 4%nat ∧
    ∀ color hand, 0 ≤ color < 4 →
      pieces_remaining s !! Z.to_nat color = Some hand →
      ∃ score, scores !! Z.to_nat color = Some score ∧
        score = - Zsum (squares_of <$> elements hand) ∧
        -89 ≤ score ≤ 0 ∧ (score = 0 ↔ hand = ∅).
Proof.
  intros (_ & Hp & _ & _ & Hr). unfold compute_final_scores.
  destruct (pieces_remaining s) as [|h0 [|h1 [|h2 [|h3 [|]]]]] eqn:Hpieces; try done.
  apply Forall_cons in Hr as [H0 Hr]. apply Forall_cons in Hr as [H1 Hr].
  apply Forall_cons in Hr as [H2 Hr]. apply Forall_cons in Hr as [H3 _].
  change (py_range 4) with [0; 1; 2; 3]. cbn [foldlM].
  change (py_getitem [h0; h1; h2; h3] 0) with (Ok h0).
  change (py_getitem [h0; h1; h2; h3] 1) with (Ok h1).
  change (py_getitem [h0; h1; h2; h3] 2) with (Ok h2).
  change (py_getitem [h0; h1; h2; h3] 3) with (Ok h3).
  cbn [mbind result_bind].
  rewrite !leftover_fold by (intros pid Hpid%elem_of_elements; auto).
  cbn [mbind result_bind]. rewrite !Z.add_0_l.
  eexists. split; [reflexivity|]. split; [done|].
  assert (∀ h : gset Z, (∀ pid, pid ∈ h → 0 ≤ pid < 21) →
            -89 ≤ - Zsum (squares_of <$> elements h) ≤ 0 ∧
            (- Zsum (squares_of <$> elements h) = 0 ↔ h = ∅)) as Hscore.
  { intros h Hh. pose proof (leftover_bound h Hh) as Hb. split; [lia|]. split.
    - intros Hz. apply leibniz_equiv, elements_empty_inv.
      destruct (elements h) as [|pid l] eqn:He; [done|]. exfalso.
      assert (pid ∈ h) as Hpid by (apply elem_of_elements; rewrite He; left).
      assert (1 ≤ squares_of pid).
      { specialize (Hh pid Hpid). unfold squares_of.
        assert (pid ∈ seqZ 0 21) as Hin by (apply elem_of_seqZ; lia).
        revert Hin. generalize pid. apply Forall_forall.
        apply (bool_decide_unpack _). by vm_compute. }
      assert (0 ≤ Zsum (squares_of <$> l)).
      { clear. induction l as [|q l IH]; [done|].
        rewrite fmap_cons, Zsum_cons. unfold squares_of at 1. lia. }
      rewrite fmap_cons, Zsum_cons in Hz. lia.
    - intros ->. by rewrite elements_empty. }
  intros color hand Hc Hhand.
  assert (color = 0 ∨ color = 1 ∨ color = 2 ∨ color = 3) as [-> | [-> | [-> | ->]]] by lia;
    injection Hhand as <-; eexists; (split; [reflexivity|]); (split; [done|]); auto.
Qed.

(** ** policy_wrapper.py: decode_policy *)

Lemma dict_set_fresh {K V} `{EqDecision K} (d : list (K * V)) k v :
  k ∉ d.*1 → dict_set d k v = d ++ [(k, v)].
Proof.
  induction d as [|[k' v'] d IH]; [done|]. csimpl.
  intros [Hne Hk]%not_elem_of_cons. rewrite decide_False by done. by rewrite IH.
Qed.

Lemma py_setitem_cases {A} (l : list A) i x :
  (∃ k, (k < length l)%nat ∧ py_setitem l i x = Ok (<[k := x]> l)) ∨
  py_setitem l i x = Raise IndexError.
Proof.
  unfold py_setitem, py_index. repeat case_bool_decide; cbn [mbind result_bind].
  - left. eexists. split; [|done]. lia.
  - left. eexists. split; [|done]. lia.
  - by right.
Qed.

Lemma mark_fold_length (l : list Z) (mask mask' : list bool) :
  foldlM (λ mask pid, py_setitem mask pid true) mask l = Ok mask' →
  length mask' = length mask.
Proof.
  revert mask. induction l as [|pid l IH]; intros mask; cbn [foldlM].
  - by intros [= ->].
  - destruct (py_setitem_cases mask pid true) as [(k & _ & ->)| ->];
      cbn [mbind result_bind]; [|done].
    intros H%IH. by rewrite length_insert in H.
Qed.

Lemma mark_fold_error (l : list Z) (mask : list bool) e :
  foldlM (λ mask pid, py_setitem mask pid true) mask l = Raise e → e = IndexError.
Proof.
  revert mask. induction l as [|pid l IH]; intros mask; cbn [foldlM]; [done|].
  destruct (py_setitem_cases mask pid true) as [(k & _ & ->)| ->];
    cbn [mbind result_bind]; [apply IH|]. by intros [= <-].
Qed.

Lemma Qmax_list_total (l : list Q) : l ≠ [] → ∃ top, Qmax_list l = Ok top.
Proof. destruct l; [done|]. simpl. eauto. Qed.

Lemma argmax_from_lt l i best_i best :
  (best_i < i)%nat → (argmax_from l i best_i best < i + length l)%nat.
Proof.
  revert i best_i best. induction l as [|x l IH]; intros i best_i best Hlt; simpl; [lia|].
  destruct (Qltb best x).
  - specialize (IH (S i) i x ltac:(lia)). lia.
  - specialize (IH (S i) best_i best ltac:(lia)). lia.
Qed.

Lemma argmax_lt (l : list Q) k : argmax l = Ok k → (k < length l)%nat.
Proof.
  destruct l as [|x l]; [done|]. simpl. intros [= <-].
  pose proof (argmax_from_lt l 1 0 x ltac:(lia)). lia.
Qed.

Lemma one_hot_nonneg n k : nonneg (<[k := 1%Q]> (replicate n 0%Q)).
Proof.
  apply Forall_insert; [|done]. apply Forall_replicate. done.
Qed.

Lemma one_hot_sum n k : (Qsum (<[k := 1%Q]> (replicate n 0%Q)) <= 1)%Q.
Proof.
  revert k. induction n as [|n IH]; intros k.
  { change (<[k := 1%Q]> (replicate 0 0%Q)) with (@nil Q). rewrite Qsum_nil. lra. }
  destruct k as [|k].
  - change (<[0%nat := 1%Q]> (replicate (S n) 0%Q)) with (1%Q :: replicate n 0%Q).
    rewrite Qsum_cons, Qsum_replicate. lra.
  - change (<[S k := 1%Q]> (replicate (S n) 0%Q))
      with (0%Q :: <[k := 1%Q]> (replicate n 0%Q)).
    rewrite Qsum_cons. specialize (IH k). lra.
Qed.

Section decode_policy_facts.
Variable np_exp : Q → Q.
Hypothesis np_exp_nonneg : ∀ x, (0 <= np_exp x)%Q.

(** The loop that fills [out_dict]: one entry per legal piece, in
  increasing order. *)
Lemma out_dict_exact (probs : list Q) (legal : gset Z) (idxs : list Z)
  (out : list (policy_key * Q)) :
(∀ i, i ∈ idxs → 0 ≤ i < Z.of_nat (length probs)) → NoDup idxs →
(∀ i, i ∈ idxs → KPiece i ∉ out.*1) →
foldlM (λ out_dict i,
  if bool_decide (i ∈ legal) then
    p ← py_getitem probs i; mret (dict_set out_dict (KPiece i) p)
  else mret out_dict) out idxs
= Ok (out ++ ((λ i, (KPiece i, at_index probs i)) <$> filter (λ i, i ∈ legal) idxs)).
Proof.
revert out. induction idxs as [|i idxs IH]; intros out Hidx Hnd Hfresh.
{ simpl. by rewrite app_nil_r. }
apply NoDup_cons in Hnd as [Hi Hnd].
destruct (py_getitem_lookup probs i) as (p & Hp & Hget); [apply Hidx; by left|].
assert (at_index probs i = p) as Hat by (unfold at_index; by rewrite Hp).
cbn [foldlM]. rewrite filter_cons. case_bool_decide as Hl.
- rewrite decide_True by done. rewrite Hget. cbn [mbind result_bind mret result_ret].
  rewrite dict_set_fresh by (apply Hfresh; by left).
  rewrite IH; [by rewrite fmap_cons, Hat, <- app_assoc| |done|].
  + intros j Hj. apply Hidx. by right.
  + intros j Hj. rewrite fmap_app, elem_of_app. intros [H|H].
    * by apply (Hfresh j); [right|].
    * apply list_elem_of_singleton in H. injection H as ->. done.
- rewrite decide_False by done. cbn [mbind result_bind mret result_ret].
  apply IH; [|done|].
  + intros j Hj. apply Hidx. by right.
  + intros j Hj. apply Hfresh. by right.
Qed.

(** The probabilities [decode_policy] computes before it builds the
  dictionary. *)
Lemma decode_policy_shape (policy_logits : list Q) (legal : gset Z) (temperature : Q) :
length policy_logits = 22%nat →
(∀ pid, pid ∈ legal → 0 ≤ pid < 21) → legal ≠ ∅ →
∃ probs, length probs = 22%nat ∧ nonneg probs ∧ (Qsum probs <= 1)%Q ∧
  decode_policy np_exp policy_logits legal temperature
  = Ok (((λ i, (KPiece i, at_index probs i)) <$> filter (λ i, i ∈ legal) (py_range 21))
        ++ [(KPass, at_index probs 21)]).
Proof using np_exp_nonneg.
intros Hlen Hlegal Hne. unfold decode_policy.
destruct (mark_legal_ok (replicate (length policy_logits) false) legal)
  as (mask1 & -> & Hm1); [by rewrite length_replicate|done|].
cbn [mbind result_bind].
destruct (py_setitem_ok mask1 21 true) as (k & _ & _ & ->); [lia|].
cbn [mbind result_bind]. rewrite bool_decide_false.
2:{ intros Hz. apply Hne, leibniz_equiv. by apply size_empty_inv. }
set (masked := zip_with _ (<[k := true]> mask1) policy_logits).
assert (length masked = 22%nat) as Hlm.
{ unfold masked. rewrite length_zip_with, length_insert. lia. }
assert (∃ probs, length probs = 22%nat ∧ nonneg probs ∧ (Qsum probs <= 1)%Q ∧
          (if Qltb (1 # 100000000) temperature
           then top ← Qmax_list ((λ x, x / temperature)%Q <$> masked);
                mret ((λ e, e / Qsum ((λ x, np_exp (x - top))%Q <$>
                                       ((λ x, x / temperature)%Q <$> masked)))%Q <$>
                      ((λ x, np_exp (x - top))%Q <$> ((λ x, x / temperature)%Q <$> masked)))
           else k ← argmax masked;
                mret (<[k := 1%Q]> (replicate (length masked) 0%Q)))
          = Ok probs) as (probs & Hlp & Hprobs & Hsum & ->).
{ destruct (Qltb (1 # 100000000) temperature).
  - destruct (Qmax_list_total ((λ x, x / temperature)%Q <$> masked)) as (top & ->).
    { destruct masked; done. }
    cbn [mbind result_bind mret result_ret].
    set (exps := (λ x, np_exp (x - top))%Q <$> _).
    assert (nonneg exps) as Hexps.
    { unfold exps. apply Forall_fmap, Forall_forall. intros x _. apply np_exp_nonneg. }
    eexists. split; [|split; [|split; [|done]]].
    + unfold exps. by rewrite !length_fmap.
    + by apply normalize_nonneg.
    + by apply normalize_le_1.
  - destruct (argmax masked) as [j|] eqn:Hj; [|by destruct masked].
    cbn [mbind result_bind mret result_ret].
    eexists. split; [|split; [|split; [|done]]].
    + by rewrite length_insert, length_replicate.
    + apply one_hot_nonneg.
    + apply one_hot_sum. }
cbn [mbind result_bind].
rewrite out_dict_exact.
2:{ intros i Hi. unfold py_range in Hi. apply elem_of_seqZ in Hi. lia. }
2:{ apply NoDup_seqZ. }
2:{ intros i _. apply not_elem_of_nil. }
cbn [mbind result_bind app].
destruct (py_getitem_lookup probs 21) as (p & Hp & ->); [lia|].
cbn [mbind result_bind mret result_ret].
exists probs. split; [done|]. split; [done|]. split; [done|].
rewrite dict_set_fresh.
- unfold at_index. by rewrite Hp.
- rewrite <- list_fmap_compose. intros (i & Hi & _)%list_elem_of_fmap. done.
Qed.
End decode_policy_facts.

Lemma Qsum_submseteq (l1 l2 : list Q) : nonneg l2 → l1 ⊆+ l2 → (Qsum l1 <= Qsum l2)%Q.
Proof.
  intros Hnn Hsub. induction Hsub as [|x l1 l2 _ IH|x y l|x l1 l2 _ IH|l1 l2 l3 _ IH1 Hs IH2].
  - lra.
  - apply Forall_cons in Hnn as [_ Hnn]. rewrite !Qsum_cons. specialize (IH Hnn). lra.
  - rewrite !Qsum_cons. lra.
  - apply Forall_cons in Hnn as [Hx Hnn]. rewrite Qsum_cons. specialize (IH Hnn). lra.
  - assert (nonneg l2) as Hnn2.
    { apply Forall_forall. intros x Hx. eapply Forall_forall in Hnn; [exact Hnn|].
      by eapply elem_of_submseteq. }
    specialize (IH1 Hnn2). specialize (IH2 Hnn). lra.
Qed.

Lemma Qsum_elem_le (l : list Q) x : nonneg l → x ∈ l → (x <= Qsum l)%Q.
Proof.
  intros Hnn Hx. apply (Qle_trans _ (Qsum [x])).
  - rewrite Qsum_cons, Qsum_nil. lra.
  - apply Qsum_submseteq; [done|]. by apply singleton_submseteq_l.
Qed.

Lemma at_index_nonneg (probs : list Q) i : nonneg probs → (0 <= at_index probs i)%Q.
Proof.
  intros Hnn. unfold at_index. destruct (probs !! Z.to_nat i) as [p|] eqn:Hp; simpl; [|lra].
  eapply Forall_forall in Hnn; [exact Hnn|]. by eapply list_elem_of_lookup_2.
Qed.

(** In exact arithmetic: given 22 logits and a hand of piece ids below 21, [decode_policy]
    returns, at any temperature, a dictionary whose keys are the pieces of
    the hand in increasing order followed by ['pass'], and whose values lie
    between 0 and 1 and sum to at most 1; an empty hand gives pass the
    probability 1. *)
Theorem decode_policy_distribution (np_exp : Q → Q) (policy_logits : list Q)
    (legal : gset Z) (temperature : Q) :
  (∀ x, (0 <= np_exp x)%Q) →
  length policy_logits = 22%nat →
  (∀ pid, pid ∈ legal → 0 ≤ pid < 21) →
  ∃ pol, decode_policy np_exp policy_logits legal temperature = Ok pol ∧
    pol.*1 = (KPiece <$> filter (λ i, i ∈ legal) (py_range 21)) ++ [KPass] ∧
    Forall (λ p, 0 <= p <= 1)%Q pol.*2 ∧ (Qsum pol.*2 <= 1)%Q ∧
    (legal = ∅ → pol = [(KPass, 1%Q)]).
Proof.
  intros Hexp Hlen Hlegal. destruct (decide (legal = ∅)) as [->|Hne].
  - exists [(KPass, 1%Q)]. split.
    { unfold decode_policy. rewrite Hlen. vm_compute. reflexivity. }
    split; [done|]. change ([(KPass, 1%Q)].*2) with [1%Q].
    split; [constructor; [lra|constructor]|]. split; [|done].
    rewrite Qsum_cons, Qsum_nil. lra.
  - destruct (decode_policy_shape np_exp Hexp policy_logits legal temperature Hlen Hlegal Hne)
      as (probs & Hlp & Hnn & Hsum & ->).
    eexists. split; [done|]. split.
    { rewrite fmap_app, <- !list_fmap_compose. done. }
    set (pol := _ ++ [(KPass, at_index probs 21)]).
    assert (pol.*2 = at_index probs <$> (filter (λ i, i ∈ legal) (py_range 21) ++ [21%Z]))
      as ->.
    { unfold pol. rewrite !fmap_app, <- !list_fmap_compose. done. }
    assert ((Qsum (at_index probs <$> (filter (λ i, i ∈ legal) (py_range 21) ++ [21%Z]))
             <= Qsum probs)%Q) as Hle.
    { rewrite <- (Qsum_at_index probs), Hlp. apply Qsum_submseteq.
      - apply Forall_fmap, Forall_forall. intros i _. by apply at_index_nonneg.
      - apply fmap_submseteq. change (seqZ 0 (Z.of_nat 22)) with (py_range 21 ++ [21%Z]).
        apply submseteq_app; [|done]. apply sublist_submseteq, sublist_filter. }
    split; [|split; [lra|done]].
    apply Forall_forall. intros p Hp. split.
    + apply list_elem_of_fmap in Hp as (i & -> & _). by apply at_index_nonneg.
    + assert (nonneg (at_index probs <$>
                        (filter (λ i, i ∈ legal) (py_range 21) ++ [21%Z]))) as Hnn'.
      { apply Forall_fmap, Forall_forall. intros i _. by apply at_index_nonneg. }
      pose proof (Qsum_elem_le _ p Hnn' Hp). lra.
Qed.

Lemma py_setitem_raise {A} (l : list A) i x :
  ¬ (- Z.of_nat (length l) ≤ i < Z.of_nat (length l)) → py_setitem l i x = Raise IndexError.
Proof. intros Hi. unfold py_setitem. by rewrite py_index_raise. Qed.

(** X11: with fewer than 22 logits [decode_policy] raises [IndexError],
    whatever the hand and the temperature: the mask is as long as the
    logits, and marking a piece of the hand or, at the latest, marking the
    pass entry at index 21 falls outside it. *)
Theorem decode_policy_needs_22_logits (np_exp : Q → Q) (policy_logits : list Q)
    (legal : gset Z) (temperature : Q) :
  (length policy_logits < 22)%nat →
  decode_policy np_exp policy_logits legal temperature = Raise IndexError.
Proof.
  intros Hlen. unfold decode_policy, mark_legal.
  destruct (foldlM _ _ (elements legal)) as [mask|e] eqn:Hmark.
  - apply mark_fold_length in Hmark. rewrite length_replicate in Hmark.
    cbn [mbind result_bind]. rewrite py_setitem_raise; [done|]. lia.
  - apply mark_fold_error in Hmark as ->. done.
Qed.

(** ** mcts.py: what expansion builds *)

Lemma dict_append_get {V} (d : list (Z * list V)) k x k' :
  dict_get (dict_append d k x) k'
  = if decide (k = k') then Some (default [] (dict_get d k) ++ [x]) else dict_get d k'.
Proof.
  unfold dict_append. destruct (dict_get d k) as [xs|] eqn:Hk; rewrite dict_get_set;
    by case_decide.
Qed.

(** [moves_by_piece] keeps, for each piece, its placements in the order of
    the list. *)
Lemma moves_by_piece_fold (moves : list Move) (d : list (Z * list Move)) pid :
  dict_get (foldl (λ d (mv : Move), dict_append d mv.1.1.1 mv) d moves) pid
  = match dict_get d pid, filter (λ mv : Move, mv.1.1.1 = pid) moves with
    | None, [] => None
    | o, l => Some (default [] o ++ l)
    end.
Proof.
  revert d. induction moves as [|mv moves IH]; intros d.
  { simpl. destruct (dict_get d pid); [by rewrite app_nil_r|done]. }
  cbn [foldl]. rewrite IH, dict_append_get, filter_cons.
  repeat case_decide; try congruence; subst;
    destruct (dict_get d _) as [xs|]; simpl; by rewrite <- ?app_assoc.
Qed.

Lemma moves_by_piece_filter (moves : list Move) pid :
  dict_get (moves_by_piece_of moves) pid
  = match filter (λ mv : Move, mv.1.1.1 = pid) moves with
    | [] => None
    | l => Some l
    end.
Proof.
  unfold moves_by_piece_of. rewrite moves_by_piece_fold. simpl.
  by destruct (filter _ moves).
Qed.

Lemma link_children_snoc n base acts a :
  link_children n base (acts ++ [a])
  = let m := link_children n base acts in
    {| state := state m; parent := parent m;
       children := dict_set (children m) (exp_key a) (base + length acts)%nat;
       visit_count := visit_count m; total_value := total_value m;
       priors := dict_set (priors m) (exp_key a) (exp_prior a);
       expanded := expanded m; last_action_key := last_action_key m |}.
Proof.
  revert n base. induction acts as [|b acts IH]; intros n base.
  { simpl. by rewrite Nat.add_0_r. }
  cbn [app link_children length]. rewrite IH. cbv zeta.
  by replace (S base + length acts)%nat with (base + S (length acts))%nat by lia.
Qed.

Lemma add_child_exact st x key move prior t0 n0 acts cs :
  t0 !! x = Some n0 → apply_move st move = Ok cs →
  add_child st x key move prior (add_children t0 x n0 acts)
  = Ok (add_children t0 x n0 (acts ++ [mkExpansion key move prior cs])).
Proof.
  intros Hx Hcs. assert (x < length t0)%nat as Hlt by (by eapply lookup_lt_Some).
  unfold add_child, add_children. rewrite Hcs. cbn [mbind result_bind].
  unfold update_node, get_node.
  rewrite lookup_app_l by (rewrite length_insert, length_app; lia).
  rewrite list_lookup_insert_eq by (rewrite length_app; lia).
  cbn [mbind result_bind]. f_equal.
  rewrite length_insert, length_app, length_fmap.
  rewrite <- insert_app_l by (rewrite length_app; lia).
  rewrite list_insert_insert_eq. rewrite link_children_snoc. cbv zeta.
  rewrite fmap_app, app_assoc. done.
Qed.

Lemma placements_exact st x pid sp t0 n0 (items : list (Z * Move)) acts :
  t0 !! x = Some n0 → wf_state st →
  Forall (λ item : Z * Move, check_legal_move st item.2 = Ok true) items →
  foldlM (λ t (item : Z * Move), add_child st x (Place pid item.1) (Some item.2) sp t)
    (add_children t0 x n0 acts) items
  = Ok (add_children t0 x n0
          (acts ++ ((λ item : Z * Move,
                       mkExpansion (Place pid item.1) (Some item.2) sp
                         (next_state st (Some item.2))) <$> items))).
Proof.
  intros Hx Hwf. revert acts. induction items as [|item items IH]; intros acts Hitems.
  { simpl. by rewrite app_nil_r. }
  apply Forall_cons in Hitems as [Hitem Hitems].
  destruct (apply_move_legal st item.2 Hwf Hitem) as (cs & Hcs & _).
  cbn [foldlM]. rewrite (add_child_exact _ _ _ _ _ _ _ _ cs Hx Hcs).
  cbn [mbind result_bind]. rewrite IH by done. rewrite fmap_cons.
  unfold next_state at 2. rewrite Hcs. by rewrite <- app_assoc.
Qed.

Lemma expand_piece_exact st x pol legal_moves t0 n0 acts pid :
  t0 !! x = Some n0 → wf_state st →
  Forall (λ mv, check_legal_move st mv = Ok true) legal_moves →
  expand_piece st x pol (moves_by_piece_of legal_moves) (add_children t0 x n0 acts) pid
  = Ok (add_children t0 x n0 (acts ++ piece_expansions st pol legal_moves pid)).
Proof.
  intros Hx Hwf Hlegal. unfold expand_piece, piece_expansions.
  rewrite moves_by_piece_filter.
  destruct (filter _ legal_moves) as [|mv l] eqn:Hf.
  { simpl. by rewrite app_nil_r. }
  rewrite bool_decide_false by done.
  apply placements_exact; [done..|].
  apply Forall_forall. intros item Hitem.
  assert (item.2 ∈ mv :: l) as Hin.
  { rewrite <- (enumerate_snd (mv :: l)). by apply list_elem_of_fmap_2. }
  rewrite <- Hf in Hin. apply list_elem_of_filter in Hin as [_ Hin].
  by eapply Forall_forall in Hlegal.
Qed.

Lemma pieces_exact st x pol legal_moves t0 n0 pids acts :
  t0 !! x = Some n0 → wf_state st →
  Forall (λ mv, check_legal_move st mv = Ok true) legal_moves →
  foldlM (expand_piece st x pol (moves_by_piece_of legal_moves))
    (add_children t0 x n0 acts) pids
  = Ok (add_children t0 x n0 (acts ++ (pids ≫= piece_expansions st pol legal_moves))).
Proof.
  intros Hx Hwf Hlegal. revert acts. induction pids as [|pid pids IH]; intros acts.
  { simpl. by rewrite app_nil_r. }
  cbn [foldlM]. rewrite expand_piece_exact by done. cbn [mbind result_bind].
  rewrite IH. by rewrite bind_cons, app_assoc.
Qed.

Lemma add_children_nil t0 x n0 : t0 !! x = Some n0 → add_children t0 x n0 [] = t0.
Proof.
  intros Hx. unfold add_children. simpl. rewrite app_nil_r. by apply list_insert_id.
Qed.

(** [expand_node] on a node whose game goes on, in closed form. *)
Lemma expand_node_exact np_exp t x n (model : Model) legal_moves hand pol :
  t !! x = Some n → wf_state (state n) → is_terminal (state n) = Ok false →
  get_legal_moves (state n) = Ok legal_moves →
  Forall (λ mv, check_legal_move (state n) mv = Ok true) legal_moves →
  py_getitem (pieces_remaining (state n)) (current_player (state n)) = Ok hand →
  decode_policy np_exp (model (state n)).1 hand 1 = Ok pol →
  let acts := expansions (state n) pol legal_moves hand in
  expand_node np_exp t x model
  = Ok (<[x := set_expanded (link_children n (length t) acts)]>
          (t ++ (child_node x <$> acts))).
Proof.
  intros Hx Hwf Hterm Hmoves Hlegal Hhand Hpol acts.
  assert (x < length t)%nat as Hlt by (by eapply lookup_lt_Some).
  unfold expand_node, get_node. rewrite Hx. cbn [mbind result_bind].
  rewrite Hterm. cbn [mbind result_bind].
  destruct (model (state n)) as [policy_logits value] eqn:Hmodel. simpl in Hpol.
  rewrite Hmoves, Hhand. cbn [mbind result_bind]. rewrite Hpol. cbn [mbind result_bind].
  fold (moves_by_piece_of legal_moves). fold (decoded pol KPass).
  rewrite <- (add_children_nil t x n Hx) at 1.
  rewrite pieces_exact by done. cbn [mbind result_bind]. rewrite app_nil_l.
  assert ((if Qltb 0 (decoded pol KPass)
           then add_child (state n) x PassKey None (decoded pol KPass)
                  (add_children t x n (elements hand ≫= piece_expansions (state n) pol legal_moves))
           else mret (add_children t x n (elements hand ≫= piece_expansions (state n) pol legal_moves)))
          = Ok (add_children t x n acts)) as ->.
  { unfold acts, expansions, pass_expansion. destruct (Qltb 0 (decoded pol KPass)).
    - by rewrite (add_child_exact _ _ _ _ _ _ _ _ _ Hx (apply_move_pass (state n))).
    - by rewrite app_nil_r. }
  cbn [mbind result_bind]. unfold update_node, get_node, add_children.
  rewrite list_lookup_insert_eq by (rewrite length_app; lia).
  cbn [mbind result_bind]. by rewrite list_insert_insert_eq.
Qed.

(** *** The order of the legal moves *)

Lemma foldlM_appends_all {A B} (P : B → Prop) (f : list B → A → result (list B))
    (l : list A) (acc acc' : list B) :
  (∀ acc x acc', x ∈ l → f acc x = Ok acc' → ∃ ys, acc' = acc ++ ys ∧ Forall P ys) →
  foldlM f acc l = Ok acc' → ∃ ys, acc' = acc ++ ys ∧ Forall P ys.
Proof.
  revert acc. induction l as [|x l IH]; intros acc Hstep Hfold.
  { injection Hfold as <-. exists []. by rewrite app_nil_r. }
  cbn [foldlM] in Hfold. destruct (f acc x) as [acc1|e] eqn:Hf; [|done].
  cbn [mbind result_bind] in Hfold.
  destruct (Hstep acc x acc1 ltac:(left) Hf) as (ys1 & -> & H1).
  destruct (IH (acc ++ ys1)) as (ys2 & -> & H2); [|done|].
  { intros a y a' Hy. apply Hstep. by right. }
  exists (ys1 ++ ys2). split; [by rewrite app_assoc|]. by apply Forall_app.
Qed.

Lemma foldlM_appends {A B} (Q : A → list B → Prop) (f : list B → A → result (list B))
    (l : list A) (acc acc' : list B) :
  (∀ acc x acc', x ∈ l → f acc x = Ok acc' → ∃ ys, acc' = acc ++ ys ∧ Q x ys) →
  foldlM f acc l = Ok acc' → ∃ yss, acc' = acc ++ concat yss ∧ Forall2 Q l yss.
Proof.
  revert acc. induction l as [|x l IH]; intros acc Hstep Hfold.
  { injection Hfold as <-. exists []. split; [by rewrite app_nil_r|constructor]. }
  cbn [foldlM] in Hfold. destruct (f acc x) as [acc1|e] eqn:Hf; [|done].
  cbn [mbind result_bind] in Hfold.
  destruct (Hstep acc x acc1 ltac:(left) Hf) as (ys1 & -> & H1).
  destruct (IH (acc ++ ys1)) as (yss & -> & H2); [|done|].
  { intros a y a' Hy. apply Hstep. by right. }
  exists (ys1 :: yss). split; [simpl; by rewrite app_assoc|]. by constructor.
Qed.

(** [get_legal_moves] lists the moves piece by piece, in the order in which
    the hand is iterated. *)
Lemma get_legal_moves_grouped s legal_moves hand :
  get_legal_moves s = Ok legal_moves →
  py_getitem (pieces_remaining s) (current_player s) = Ok hand →
  ∃ yss, legal_moves = concat yss ∧
    Forall2 (λ pid ys, Forall (λ mv : Move, mv.1.1.1 = pid) ys) (elements hand) yss.
Proof.
  unfold get_legal_moves. intros Hmoves Hhand. rewrite Hhand in Hmoves.
  cbn [mbind result_bind] in Hmoves.
  apply (foldlM_appends (λ pid ys, Forall (λ mv : Move, mv.1.1.1 = pid) ys)) in Hmoves
    as (yss & -> & Hyss); [by exists yss|].
  intros acc pid acc' _ Hbody.
  destruct (py_getitem ALL_SHAPES pid) as [shape|]; [|done].
  cbn [mbind result_bind] in Hbody.
  destruct (get_all_orientations shape) as [os|]; [|done].
  cbn [mbind result_bind] in Hbody.
  eapply foldlM_appends_all, Hbody. clear. intros acc o acc' _ Hbody.
  cbv beta in Hbody.
  destruct (py_max (elements o).*1) as [max_r|]; [|done].
  cbn [mbind result_bind] in Hbody.
  destruct (py_max (elements o).*2) as [max_c|]; [|done].
  cbn [mbind result_bind] in Hbody.
  eapply foldlM_appends_all, Hbody. clear. intros acc row_off acc' _ Hbody.
  eapply foldlM_appends_all, Hbody. clear. intros acc col_off acc' _ Hbody.
  cbv beta in Hbody.
  destruct (check_legal_move s (pid, row_off, col_off, o)) as [[|]|]; [| |done];
    injection Hbody as <-.
  - exists [(pid, row_off, col_off, o)]. split; [done|]. by repeat constructor.
  - exists []. split; [by rewrite app_nil_r|constructor].
Qed.

Lemma filter_none {A} (P : A → Prop) `{∀ x, Decision (P x)} (l : list A) :
  Forall (λ x, ¬ P x) l → filter P l = [].
Proof.
  induction 1 as [|x l Hx _ IH]; [done|]. by rewrite filter_cons, decide_False.
Qed.

Lemma filter_all {A} (P : A → Prop) `{∀ x, Decision (P x)} (l : list A) :
  Forall P l → filter P l = l.
Proof.
  induction 1 as [|x l Hx _ IH]; [done|]. by rewrite filter_cons, decide_True, IH.
Qed.

Lemma grouped_pieces (l : list Z) (yss : list (list Move)) (mv : Move) :
  Forall2 (λ pid ys, Forall (λ mv : Move, mv.1.1.1 = pid) ys) l yss →
  mv ∈ concat yss → mv.1.1.1 ∈ l.
Proof.
  induction 1 as [|pid ys l yss Hys _ IH]; simpl; [by intros ?%elem_of_nil|].
  intros [Hin|Hin]%elem_of_app.
  - eapply Forall_forall in Hys; [|done]. rewrite Hys. by left.
  - right. by apply IH.
Qed.

Lemma grouped_filter (l : list Z) (yss : list (list Move)) (pre : list Move) :
  NoDup l →
  Forall2 (λ pid ys, Forall (λ mv : Move, mv.1.1.1 = pid) ys) l yss →
  Forall (λ mv : Move, mv.1.1.1 ∉ l) pre →
  l ≫= (λ pid, filter (λ mv : Move, mv.1.1.1 = pid) (pre ++ concat yss)) = concat yss.
Proof.
  intros Hnd Hall. revert pre.
  induction Hall as [|pid ys l yss Hys Hall IH]; intros pre Hpre; [done|].
  apply NoDup_cons in Hnd as [Hpid Hnd]. rewrite bind_cons. cbn [concat].
  rewrite !filter_app. rewrite (filter_none _ pre), (filter_all _ ys), (filter_none _ (concat yss)).
  - rewrite app_nil_l, app_nil_r. f_equal. etrans; [|apply (IH Hnd (pre ++ ys))].
    + apply list_bind_ext; [|done]. intros p. by rewrite <- app_assoc.
    + apply Forall_app. split.
      * eapply Forall_impl; [done|]. intros mv Hmv Hin. apply Hmv. by right.
      * eapply Forall_impl; [done|]. intros mv -> . done.
  - apply Forall_forall. intros mv Hmv Heq. apply Hpid. rewrite <- Heq.
    by eapply grouped_pieces.
  - done.
  - eapply Forall_impl; [done|]. intros mv Hmv Heq. apply Hmv. rewrite Heq. by left.
Qed.

Lemma legal_moves_by_piece s legal_moves hand :
  get_legal_moves s = Ok legal_moves →
  py_getitem (pieces_remaining s) (current_player s) = Ok hand →
  elements hand ≫= (λ pid, filter (λ mv : Move, mv.1.1.1 = pid) legal_moves) = legal_moves.
Proof.
  intros Hmoves Hhand.
  destruct (get_legal_moves_grouped s legal_moves hand Hmoves Hhand) as (yss & -> & Hyss).
  apply (grouped_filter _ _ [] (NoDup_elements hand) Hyss). constructor.
Qed.

(** *** Keys, priors and states of the new children *)

Lemma enumerate_fst {A} (l : list A) : (enumerate l).*1 = seqZ 0 (Z.of_nat (length l)).
Proof. unfold enumerate. apply fst_zip. by rewrite length_seqZ, Nat2Z.id. Qed.

Lemma piece_expansions_keys st pol legal_moves pid :
  exp_key <$> piece_expansions st pol legal_moves pid
  = Place pid <$>
      seqZ 0 (Z.of_nat (length (filter (λ mv : Move, mv.1.1.1 = pid) legal_moves))).
Proof.
  unfold piece_expansions. cbv zeta. rewrite <- enumerate_fst, <- !list_fmap_compose.
  done.
Qed.

Lemma piece_expansions_moves st pol legal_moves pid :
  exp_move <$> piece_expansions st pol legal_moves pid
  = Some <$> filter (λ mv : Move, mv.1.1.1 = pid) legal_moves.
Proof.
  unfold piece_expansions. cbv zeta.
  set (placements := filter _ legal_moves).
  transitivity (Some <$> (enumerate placements).*2); [|by rewrite enumerate_snd].
  by rewrite <- !list_fmap_compose.
Qed.

Lemma fmap_bind_list {A B C} (g : B → C) (f : A → list B) (l : list A) :
  g <$> (l ≫= f) = l ≫= (λ x, g <$> f x).
Proof.
  induction l as [|x l IH]; [done|]. by rewrite !bind_cons, fmap_app, IH.
Qed.

Lemma expansions_keys_NoDup st pol legal_moves hand :
  NoDup (exp_key <$> expansions st pol legal_moves hand).
Proof.
  unfold expansions. rewrite fmap_app, fmap_bind_list. apply NoDup_app. split_and!.
  - apply NoDup_bind; [| |apply NoDup_elements].
    + intros p1 p2 k _ _. rewrite !piece_expansions_keys.
      intros (i & -> & _)%list_elem_of_fmap (j & [= -> _] & _)%list_elem_of_fmap. done.
    + intros pid _. rewrite piece_expansions_keys. apply NoDup_fmap_2; [|apply NoDup_seqZ].
      by intros ?? [= ->].
  - intros k (pid & Hk & _)%list_elem_of_bind. rewrite piece_expansions_keys in Hk.
    apply list_elem_of_fmap in Hk as (i & -> & _).
    unfold pass_expansion. destruct (Qltb _ _); simpl.
    + by intros [=]%list_elem_of_singleton.
    + by intros ?%elem_of_nil.
  - unfold pass_expansion. destruct (Qltb _ _); simpl; [|constructor].
    apply NoDup_singleton.
Qed.

Lemma expansions_moves s pol legal_moves hand :
  get_legal_moves s = Ok legal_moves →
  py_getitem (pieces_remaining s) (current_player s) = Ok hand →
  exp_move <$> expansions s pol legal_moves hand
  = (Some <$> legal_moves) ++ (if Qltb 0 (decoded pol KPass) then [None] else []).
Proof.
  intros Hmoves Hhand. unfold expansions. rewrite fmap_app, fmap_bind_list. f_equal.
  - transitivity (Some <$> (elements hand ≫=
        (λ pid, filter (λ mv : Move, mv.1.1.1 = pid) legal_moves)));
      [|by rewrite (legal_moves_by_piece s legal_moves hand Hmoves Hhand)].
    rewrite fmap_bind_list. apply list_bind_ext; [|done].
    intros pid. apply piece_expansions_moves.
  - unfold pass_expansion. by destruct (Qltb _ _).
Qed.

Lemma expansions_states s pol legal_moves hand :
  wf_state s → Forall (λ mv, check_legal_move s mv = Ok true) legal_moves →
  Forall (λ a, apply_move s (exp_move a) = Ok (exp_state a) ∧ wf_state (exp_state a))
    (expansions s pol legal_moves hand).
Proof.
  intros Hwf Hlegal. unfold expansions. apply Forall_app. split.
  - apply Forall_forall. intros a (pid & Ha & _)%list_elem_of_bind.
    unfold piece_expansions in Ha. cbv zeta in Ha.
    apply list_elem_of_fmap in Ha as (item & -> & Hitem). cbn [exp_move exp_state].
    assert (item.2 ∈ filter (λ mv : Move, mv.1.1.1 = pid) legal_moves) as Hin.
    { rewrite <- (enumerate_snd (filter _ legal_moves)). by apply list_elem_of_fmap_2. }
    apply list_elem_of_filter in Hin as [_ Hin]. eapply Forall_forall in Hlegal; [|done].
    destruct (apply_move_legal s item.2 Hwf Hlegal) as (cs & Hcs & Hwf').
    unfold next_state. by rewrite Hcs.
  - unfold pass_expansion. destruct (Qltb _ _); [|constructor].
    constructor; [|constructor]. cbn [exp_move exp_state]. split; [done|].
    by apply (apply_move_pass_wf s).
Qed.

(** The dictionaries of a node that had no child, after its children were
    linked: the keys in the order of the children, with positions counted
    from [base]. *)
Lemma link_children_fresh n base acts :
  children n = [] → priors n = [] → NoDup (exp_key <$> acts) →
  link_children n base acts
  = {| state := state n; parent := parent n;
       children := zip (exp_key <$> acts) (seq base (length acts));
       visit_count := visit_count n; total_value := total_value n;
       priors := zip (exp_key <$> acts) (exp_prior <$> acts);
       expanded := expanded n; last_action_key := last_action_key n |}.
Proof.
  intros Hc Hp. induction acts as [|a acts IH] using rev_ind; intros Hnd.
  { simpl. rewrite <- Hc, <- Hp. by destruct n. }
  rewrite fmap_app in Hnd. apply NoDup_app in Hnd as (Hnd & Hfresh & _).
  rewrite link_children_snoc, IH by done. cbv zeta. cbn [state parent children
    visit_count total_value priors expanded last_action_key].
  assert (exp_key a ∉ exp_key <$> acts) as Ha.
  { intros Hin. apply (Hfresh _ Hin). simpl. by left. }
  rewrite !dict_set_fresh.
  - rewrite length_app, Nat.add_1_r, seq_S, !fmap_app. simpl.
    rewrite !zip_with_app by (by rewrite !length_fmap, ?length_seq). done.
  - rewrite fst_zip; [done|]. by rewrite !length_fmap.
  - rewrite fst_zip; [done|]. by rewrite length_fmap, length_seq.
Qed.

(** In exact arithmetic: what [expand_node] builds on a node without children whose game
    goes on.  It appends one child for every legal move, in the order of
    [get_legal_moves], and after them a child for the pass when the pass
    has a positive probability; nothing else in the tree changes but the
    node, which becomes expanded.  The state of a child is the state of the
    node after its move; its key is the piece with the position of the move
    among the placements of the piece, and the keys are distinct; the
    children of a piece share the decoded probability of the piece in equal
    parts. *)
Theorem expand_node_children (np_exp : Q → Q) t x n (model : Model) :
  (∀ q, (0 <= np_exp q)%Q) →
  t !! x = Some n → wf_state (state n) → is_terminal (state n) = Ok false →
  length (model (state n)).1 = 22%nat → children n = [] → priors n = [] →
  ∃ legal_moves hand pol t' n',
    get_legal_moves (state n) = Ok legal_moves ∧
    py_getitem (pieces_remaining (state n)) (current_player (state n)) = Ok hand ∧
    decode_policy np_exp (model (state n)).1 hand 1 = Ok pol ∧
    expand_node np_exp t x model = Ok t' ∧
    let acts := expansions (state n) pol legal_moves hand in
    t' = <[x := n']> (t ++ (child_node x <$> acts)) ∧
    n' = {| state := state n; parent := parent n;
            children := zip (exp_key <$> acts) (seq (length t) (length acts));
            visit_count := visit_count n; total_value := total_value n;
            priors := zip (exp_key <$> acts) (exp_prior <$> acts);
            expanded := true; last_action_key := last_action_key n |} ∧
    NoDup (exp_key <$> acts) ∧
    exp_move <$> acts
    = (Some <$> legal_moves) ++ (if Qltb 0 (decoded pol KPass) then [None] else []) ∧
    Forall (λ a, apply_move (state n) (exp_move a) = Ok (exp_state a)) acts.
Proof.
  intros Hexp Hx Hwf Hterm Hlen Hc Hp.
  destruct (get_legal_moves_total (state n) Hwf) as (legal_moves & Hmoves & Hlegal).
  destruct (wf_state_remaining (state n) Hwf) as (hand & _ & Hhand & Hrange).
  destruct (decode_policy_ok np_exp Hexp (model (state n)).1 hand Hlen Hrange)
    as (pol & Hpol & _).
  exists legal_moves, hand, pol. eexists. eexists.
  split; [done|]. split; [done|]. split; [done|].
  split; [by apply (expand_node_exact np_exp t x n model legal_moves hand pol)|].
  cbv zeta. split; [done|].
  split.
  { rewrite (link_children_fresh n (length t) _ Hc Hp (expansions_keys_NoDup _ _ _ _)).
    done. }
  split; [apply expansions_keys_NoDup|].
  split; [by apply expansions_moves|].
  eapply Forall_impl; [by apply expansions_states|]. by intros a [? _].
Qed.

(** * The statements of the specification on orientations, adjacency,
    placement and priors *)

(** ** The orientations of a shape *)

Lemma normalized_least_zero (o : gset cell) : normalized o ↔ least_row_col_zero o.
Proof.
  unfold normalized, least_row_col_zero. rewrite !py_min_spec.
  rewrite elem_of_fst_elements, elem_of_snd_elements. split.
  - intros [[Hr Hrs] [Hc Hcs]]. split; [done|]. split; [done|].
    intros p Hp. split.
    + apply Hrs, elem_of_fst_elements. by exists p.
    + apply Hcs, elem_of_snd_elements. by exists p.
  - intros (Hr & Hc & Hall). split; (split; [done|]).
    + intros y (p & Hp & <-)%elem_of_fst_elements. by apply Hall.
    + intros y (p & Hp & <-)%elem_of_snd_elements. by apply Hall.
Qed.

(** What [normalize_shape] returns is the normal form of its argument. *)
Lemma normalize_shape_normal_form_of (s o' : gset cell) :
  normalize_shape s = Ok o' → normal_form_of s o'.
Proof.
  intros Hn. destruct (decide (s = ∅)) as [->|Hs]; [done|].
  destruct (normalize_shape_is_translate s Hs) as (min_r & min_c & Hr & Hc & Heq).
  rewrite Heq in Hn. injection Hn as <-. split.
  - exists (- min_r, - min_c). intros p. apply elem_of_translate.
  - apply normalized_least_zero. by apply normalized_translate_min.
Qed.

Lemma rotate_90_quarter_turn (o o' : gset cell) :
  rotate_90 o = Ok o' → quarter_turn_of o o'.
Proof.
  unfold rotate_90. intros Hn. eexists. split; [|by apply normalize_shape_normal_form_of].
  intros q. rewrite elem_of_map. split.
  - intros ([r c] & -> & Hp). by exists r, c.
  - intros (r & c & Hp & ->). by exists (r, c).
Qed.

Lemma flip_horizontal_mirror_image (o o' : gset cell) :
  flip_horizontal o = Ok o' → mirror_image_of o o'.
Proof.
  unfold flip_horizontal. intros Hn. eexists. split; [|by apply normalize_shape_normal_form_of].
  intros q. rewrite elem_of_map. split.
  - intros ([r c] & -> & Hp). by exists r, c.
  - intros (r & c & Hp & ->). by exists (r, c).
Qed.

(** A shape has one normal form. *)
Lemma normal_form_of_unique (s o1 o2 : gset cell) :
  normal_form_of s o1 → normal_form_of s o2 → o1 = o2.
Proof.
  intros [[[d1 d2] H1] (Hr1 & Hc1 & Hall1)] [[[e1 e2] H2] (Hr2 & Hc2 & Hall2)].
  simpl in *.
  assert (∀ p : cell, p ∈ o1 → (p.1 - d1 + e1, p.2 - d2 + e2) ∈ o2) as H12.
  { intros p Hp. apply H2. simpl. apply H1 in Hp.
    by replace (p.1 - d1 + e1 - e1) with (p.1 - d1) by lia;
       replace (p.2 - d2 + e2 - e2) with (p.2 - d2) by lia. }
  assert (∀ p : cell, p ∈ o2 → (p.1 - e1 + d1, p.2 - e2 + d2) ∈ o1) as H21.
  { intros p Hp. apply H1. simpl. apply H2 in Hp.
    by replace (p.1 - e1 + d1 - d1) with (p.1 - e1) by lia;
       replace (p.2 - e2 + d2 - d2) with (p.2 - e2) by lia. }
  assert (d1 = e1) as ->.
  { destruct Hr1 as (p & Hp & Hp0). destruct Hr2 as (q & Hq & Hq0).
    apply H12, Hall2 in Hp. apply H21, Hall1 in Hq. simpl in *. lia. }
  assert (d2 = e2) as ->.
  { destruct Hc1 as (p & Hp & Hp0). destruct Hc2 as (q & Hq & Hq0).
    apply H12, Hall2 in Hp. apply H21, Hall1 in Hq. simpl in *. lia. }
  apply set_eq. intros p. by rewrite H1, H2.
Qed.

Lemma quarter_turn_of_unique (o o1 o2 : gset cell) :
  quarter_turn_of o o1 → quarter_turn_of o o2 → o1 = o2.
Proof.
  intros (s1 & Hs1 & Hn1) (s2 & Hs2 & Hn2).
  assert (s1 = s2) as ->. { apply set_eq. intros q. by rewrite Hs1, Hs2. }
  by eapply normal_form_of_unique.
Qed.

Lemma mirror_image_of_unique (o o1 o2 : gset cell) :
  mirror_image_of o o1 → mirror_image_of o o2 → o1 = o2.
Proof.
  intros (s1 & Hs1 & Hn1) (s2 & Hs2 & Hn2).
  assert (s1 = s2) as ->. { apply set_eq. intros q. by rewrite Hs1, Hs2. }
  by eapply normal_form_of_unique.
Qed.

(** C7: for every shape of the table, [get_all_orientations] returns
    between 1 and 8 distinct shapes; the least row and the least column of
    each are 0; and for each of them the quarter turn [(r, c) -> (c, -r)]
    and the mirror image [(r, c) -> (r, -c)], each brought to its normal
    form, are what [rotate_90] and [flip_horizontal] return and are among
    the returned shapes again. *)
Theorem orientations_closed_under_generators shape :
  shape ∈ ALL_SHAPES →
  ∃ os, get_all_orientations shape = Ok os ∧
    (1 ≤ length os ≤ 8)%nat ∧ NoDup os ∧
    ∀ o, o ∈ os →
      least_row_col_zero o ∧
      (∃ o', quarter_turn_of o o' ∧ rotate_90 o = Ok o' ∧ o' ∈ os) ∧
      (∃ o', mirror_image_of o o' ∧ flip_horizontal o = Ok o' ∧ o' ∈ os) ∧
      (∀ o', quarter_turn_of o o' ∨ mirror_image_of o o' → o' ∈ os).
Proof.
  intros Hshape. pose proof all_shapes_closed as Hall.
  eapply Forall_forall in Hall; [|done]. unfold orientations_closed in Hall.
  destruct (get_all_orientations shape) as [os|]; [|done].
  destruct Hall as (Hlen & Hnd & Hall). exists os. split; [done|].
  split; [done|]. split; [done|]. intros o Ho.
  eapply Forall_forall in Hall; [|done]. destruct Hall as (Hn & Hr & Hf).
  split; [by apply normalized_least_zero|]. unfold maps_into in *.
  destruct (rotate_90 o) as [o1|] eqn:Hrot; [|done].
  destruct (flip_horizontal o) as [o2|] eqn:Hflip; [|done].
  pose proof (rotate_90_quarter_turn _ _ Hrot) as Hq.
  pose proof (flip_horizontal_mirror_image _ _ Hflip) as Hm.
  split; [by exists o1|]. split; [by exists o2|].
  intros o' [Ho'|Ho'].
  - by rewrite (quarter_turn_of_unique _ _ _ Ho' Hq).
  - by rewrite (mirror_image_of_unique _ _ _ Ho' Hm).
Qed.

Lemma orientations_closed_under_generators_witness :
  ∃ os, get_all_orientations (shape_of [(0,1);(1,0);(1,1);(1,2);(2,0)]) = Ok os ∧
    (1 ≤ length os ≤ 8)%nat ∧ NoDup os ∧
    ∀ o, o ∈ os →
      least_row_col_zero o ∧
      (∃ o', quarter_turn_of o o' ∧ rotate_90 o = Ok o' ∧ o' ∈ os) ∧
      (∃ o', mirror_image_of o o' ∧ flip_horizontal o = Ok o' ∧ o' ∈ os) ∧
      (∀ o', quarter_turn_of o o' ∨ mirror_image_of o o' → o' ∈ os).
Proof.
  apply orientations_closed_under_generators.
  apply (bool_decide_unpack _). vm_compute. exact I.
Defined.

(** ** Contact with the cells of a color *)

Lemma touches_edge_contact grid color placed :
  touches grid color edge_neighbors placed ↔ edge_contact grid color placed.
Proof.
  unfold touches, edge_contact, owned_by, edge_adjacent, owns. split.
  - intros ([r c] & [dr dc] & Hp & Hd & [Hb Ho%bool_decide_eq_true]%andb_true_iff).
    apply on_board_spec in Hb. unfold BOARD_SIZE in Hb. simpl in *.
    exists (r, c), (r + dr, c + dc). split; [done|]. split; [simpl; tauto|]. simpl.
    unfold edge_neighbors in Hd. repeat setoid_rewrite elem_of_cons in Hd.
    destruct Hd as [Hd|[Hd|[Hd|[Hd|Hd]]]]; [..|by apply elem_of_nil in Hd];
      injection Hd as -> ->; lia.
  - intros ([r c] & [r' c'] & Hp & (Hr & Hc & Ho) & Ha). simpl in *.
    exists (r, c), (r' - r, c' - c). split; [done|]. simpl.
    replace (r + (r' - r)) with r' by lia. replace (c + (c' - c)) with c' by lia.
    split.
    + unfold edge_neighbors. repeat setoid_rewrite elem_of_cons.
      assert ((r' - r = 0 ∧ c' - c = 1) ∨ (r' - r = 0 ∧ c' - c = -1) ∨
              (r' - r = 1 ∧ c' - c = 0) ∨ (r' - r = -1 ∧ c' - c = 0)) as H by lia.
      destruct H as [[-> ->]|[[-> ->]|[[-> ->]|[-> ->]]]]; tauto.
    + apply andb_true_iff. split.
      * apply on_board_spec. unfold BOARD_SIZE. lia.
      * by apply bool_decide_eq_true.
Qed.

Lemma touches_corner_contact grid color placed :
  touches grid color corner_neighbors placed ↔ corner_contact grid color placed.
Proof.
  unfold touches, corner_contact, owned_by, diagonally_adjacent, owns. split.
  - intros ([r c] & [dr dc] & Hp & Hd & [Hb Ho%bool_decide_eq_true]%andb_true_iff).
    apply on_board_spec in Hb. unfold BOARD_SIZE in Hb. simpl in *.
    exists (r, c), (r + dr, c + dc). split; [done|]. split; [simpl; tauto|]. simpl.
    unfold corner_neighbors in Hd. repeat setoid_rewrite elem_of_cons in Hd.
    destruct Hd as [Hd|[Hd|[Hd|[Hd|Hd]]]]; [..|by apply elem_of_nil in Hd];
      injection Hd as -> ->; lia.
  - intros ([r c] & [r' c'] & Hp & (Hr & Hc & Ho) & Ha). simpl in *.
    exists (r, c), (r' - r, c' - c). split; [done|]. simpl.
    replace (r + (r' - r)) with r' by lia. replace (c + (c' - c)) with c' by lia.
    split.
    + unfold corner_neighbors. repeat setoid_rewrite elem_of_cons.
      assert ((r' - r = 1 ∧ c' - c = 1) ∨ (r' - r = 1 ∧ c' - c = -1) ∨
              (r' - r = -1 ∧ c' - c = 1) ∨ (r' - r = -1 ∧ c' - c = -1)) as H by lia.
      destruct H as [[-> ->]|[[-> ->]|[[-> ->]|[-> ->]]]]; tauto.
    + apply andb_true_iff. split.
      * apply on_board_spec. unfold BOARD_SIZE. lia.
      * by apply bool_decide_eq_true.
Qed.

Lemma free_cell_get grid (r c : Z) :
  wf_grid grid → 0 ≤ r < 20 → 0 ≤ c < 20 → owner grid r c = None →
  on_board r c = true ∧ grid_get grid r c = Ok None.
Proof.
  intros Hg Hr Hc Ho.
  assert (on_board r c = true) as Hb by (apply on_board_spec; unfold BOARD_SIZE; lia).
  split; [done|]. destruct (grid_get_owner grid r c Hg Hb) as (v & -> & Hv).
  by rewrite <- Hv, Ho.
Qed.

(** C5: after a color's first move, with the piece in hand and every placed
    cell on the board and empty, [check_legal_move] rejects the placement
    when a placed cell shares an edge with a cell of the color, and
    otherwise accepts it exactly when a placed cell is a diagonal neighbour
    of a cell of the color. *)
Theorem later_move_adjacency_rule s piece_id row_off col_off shape_coords remaining made :
  wf_grid (board_grid s) →
  py_getitem (pieces_remaining s) (current_player s) = Ok remaining →
  py_getitem (moves_made s) (current_player s) = Ok made →
  made ≠ 0 →
  piece_id ∈ remaining →
  (∀ p : cell, p ∈ shape_coords →
     0 ≤ p.1 + row_off < 20 ∧ 0 ≤ p.2 + col_off < 20 ∧
     owner (board_grid s) (p.1 + row_off) (p.2 + col_off) = None) →
  let placed := placed_cells row_off col_off shape_coords in
  let color := current_player s in
  ∃ b, check_legal_move s (piece_id, row_off, col_off, shape_coords) = Ok b ∧
    (edge_contact (board_grid s) color placed → b = false) ∧
    (¬ edge_contact (board_grid s) color placed →
       (b = true ↔ corner_contact (board_grid s) color placed)).
Proof.
  intros Hg Hrem Hmade Hne Hin Hfree placed color. unfold check_legal_move.
  rewrite Hrem. cbn [mbind result_bind].
  rewrite bool_decide_false by (intros Hn; by apply Hn).
  rewrite gather_squares_free.
  2:{ intros p Hp. apply elem_of_elements in Hp.
      destruct (Hfree p Hp) as (Hr & Hc & Ho). by apply free_cell_get. }
  cbn [mbind result_bind app]. rewrite Hmade. cbn [mbind result_bind].
  rewrite bool_decide_false by done.
  fold (placed_cells row_off col_off shape_coords). fold placed. fold color.
  rewrite adjacency_scan_spec by done. cbn [mbind result_bind orb].
  pose proof (existsb_touchb (board_grid s) color edge_neighbors placed) as He.
  pose proof (existsb_touchb (board_grid s) color corner_neighbors placed) as Hc.
  rewrite touches_edge_contact in He. rewrite touches_corner_contact in Hc.
  destruct (existsb (touchb (board_grid s) color edge_neighbors) placed).
  - exists false. split; [done|]. split; [done|]. intros Hn. destruct Hn. by apply He.
  - destruct (existsb (touchb (board_grid s) color corner_neighbors) placed).
    + exists true. split; [done|]. split.
      * intros Ht. apply He in Ht. done.
      * intros _. split; [intros _; by apply Hc|done].
    + exists false. split; [done|]. split; [done|].
      intros _. split; [done|]. intros Ht. apply Hc in Ht. done.
Qed.

Lemma later_move_adjacency_rule_witness :
  ∃ b, check_legal_move second_round_state (1, 1, 1, {[ (0, 0); (0, 1) ]}) = Ok b ∧
    (edge_contact (board_grid second_round_state) 0
       (placed_cells 1 1 {[ (0, 0); (0, 1) ]}) → b = false) ∧
    (¬ edge_contact (board_grid second_round_state) 0
         (placed_cells 1 1 {[ (0, 0); (0, 1) ]}) →
       (b = true ↔ corner_contact (board_grid second_round_state) 0
                     (placed_cells 1 1 {[ (0, 0); (0, 1) ]}))).
Proof.
  apply (later_move_adjacency_rule second_round_state 1 1 1 {[ (0, 0); (0, 1) ]}
           (list_to_set (seqZ 1 20)) 1).
  - apply (bool_decide_unpack _). vm_compute. exact I.
  - vm_compute. reflexivity.
  - reflexivity.
  - discriminate.
  - apply (bool_decide_unpack _). vm_compute. exact I.
  - intros p Hp. apply elem_of_union in Hp as [Hp|Hp];
      apply elem_of_singleton in Hp; subst p; simpl;
      (split; [lia|]); (split; [lia|]); reflexivity.
Defined.

(** ** apply_move, exactly *)

Lemma py_index_wrapped (n : nat) (i : Z) :
  - Z.of_nat n ≤ i < Z.of_nat n → py_index n i = Ok (Z.to_nat (i `mod` Z.of_nat n)).
Proof.
  intros Hi. unfold py_index. case_bool_decide as H0.
  - by rewrite Z.mod_small.
  - rewrite bool_decide_true by lia. do 2 f_equal.
    apply Z.mod_unique with (-1); lia.
Qed.

Lemma grid_set_owner_wrapped grid rr cc color :
  wf_grid grid → index_ok (rr, cc) →
  ∃ grid', grid_set grid rr cc color = Ok grid' ∧ wf_grid grid' ∧
    ∀ r c, 0 ≤ r < 20 → 0 ≤ c < 20 →
      owner grid' r c
      = if bool_decide ((r, c) = wrapped (rr, cc)) then Some color else owner grid r c.
Proof.
  intros Hg [Hr Hc]. pose proof Hg as [Hlen Hrows]. unfold BOARD_SIZE in *.
  simpl in Hr, Hc. unfold grid_set, py_getitem, py_setitem.
  rewrite (py_index_wrapped (length grid)) by lia. cbn [mbind result_bind].
  rewrite Hlen. change (Z.of_nat (Z.to_nat 20)) with 20.
  assert (0 ≤ rr `mod` 20 < 20) as Hrm by (apply Z.mod_pos_bound; lia).
  assert (0 ≤ cc `mod` 20 < 20) as Hcm by (apply Z.mod_pos_bound; lia).
  destruct (lookup_lt_is_Some_2 grid (Z.to_nat (rr `mod` 20))) as [row Hrow]; [lia|].
  rewrite Hrow. cbn [mbind result_bind].
  assert (length row = Z.to_nat 20) as Hrl.
  { eapply Forall_forall in Hrows; [done|]. by eapply list_elem_of_lookup_2. }
  rewrite (py_index_wrapped (length row)) by lia. cbn [mbind result_bind].
  rewrite Hrl. change (Z.of_nat (Z.to_nat 20)) with 20.
  eexists. split; [done|]. split.
  - split; [by rewrite length_insert|].
    apply Forall_insert; [done|]. by rewrite length_insert.
  - intros r c Hr' Hc'.
    rewrite (owner_insert_row grid _ row) by (done || lia). unfold wrapped. simpl.
    destruct (decide ((r, c) = (rr `mod` 20, cc `mod` 20))) as [[= -> ->]|Hne].
    + by rewrite !bool_decide_true.
    + rewrite !bool_decide_false; [done|done|]. intros [H1 H2]. apply Hne. f_equal; lia.
Qed.

Lemma mark_all_owner_wrapped row_off col_off color coords grid :
  wf_grid grid →
  (∀ p : cell, p ∈ coords → index_ok (p.1 + row_off, p.2 + col_off)) →
  ∃ grid', foldlM (mark_square row_off col_off color) grid coords = Ok grid' ∧
    wf_grid grid' ∧
    ∀ r c, 0 ≤ r < 20 → 0 ≤ c < 20 →
      owner grid' r c
      = if bool_decide
             ((r, c) ∈ wrapped <$> ((λ p : cell, (p.1 + row_off, p.2 + col_off)) <$> coords))
        then Some color else owner grid r c.
Proof.
  revert grid. induction coords as [|p coords IH]; intros grid Hg Hall.
  { exists grid. split; [done|]. split; [done|]. intros r c _ _.
    rewrite bool_decide_false; [done|]. apply not_elem_of_nil. }
  destruct (grid_set_owner_wrapped grid (p.1 + row_off) (p.2 + col_off) color Hg)
    as (g1 & H1 & Hg1 & Ho1); [apply Hall; by left|].
  cbn [foldlM]. rewrite mark_square_eq, H1. cbn [mbind result_bind].
  destruct (IH g1 Hg1) as (g2 & -> & Hg2 & Ho2); [intros q Hq; apply Hall; by right|].
  exists g2. split; [done|]. split; [done|]. intros r c Hr Hc.
  rewrite Ho2, Ho1 by done. rewrite !fmap_cons.
  set (rest := wrapped <$> ((λ p : cell, (p.1 + row_off, p.2 + col_off)) <$> coords)).
  destruct (decide ((r, c) ∈ rest)).
  - rewrite !bool_decide_true; [done|by right|done].
  - rewrite (bool_decide_false (_ ∈ rest)) by done.
    destruct (decide ((r, c) = wrapped (p.1 + row_off, p.2 + col_off))) as [Heq|Hne].
    + rewrite !bool_decide_true; [done|rewrite Heq; by left|done].
    + rewrite !bool_decide_false; [done| |done]. by intros [?|?]%elem_of_cons.
Qed.

(** C3 (as the code has it): [apply_move] does not check legality.  On a
    well-formed state a placement raises [KeyError] when the piece is not in
    the hand of the player to move, raises [IndexError] when the piece is in
    hand and a cell has a row or column index outside [-20, 20), and in every
    other case returns, whether or not the move is legal, the state in which
    the piece has left the mover's hand, the mover has one move more, the
    count of passes is 0, the turn has gone to the next color, and the cells
    the indices address, an index in [-20, 0) counting from the end of the
    row or column, belong to the mover whatever they held before, every
    other cell being as it was. *)
Theorem apply_move_raises_without_checking s piece_id row_off col_off shape_coords
    remaining :
  wf_state s →
  py_getitem (pieces_remaining s) (current_player s) = Ok remaining →
  let move : Move := (piece_id, row_off, col_off, shape_coords) in
  let placed := placed_cells row_off col_off shape_coords in
  (piece_id ∉ remaining → apply_move s (Some move) = Raise KeyError) ∧
  (piece_id ∈ remaining → Exists (λ p, ¬ index_ok p) placed →
     apply_move s (Some move) = Raise IndexError) ∧
  (piece_id ∈ remaining → Forall index_ok placed →
     ∃ s' made,
       apply_move s (Some move) = Ok s' ∧ wf_state s' ∧
       moves_made s !! Z.to_nat (current_player s) = Some made ∧
       pieces_remaining s'
       = <[Z.to_nat (current_player s) := remaining ∖ {[ piece_id ]}]> (pieces_remaining s) ∧
       moves_made s' = <[Z.to_nat (current_player s) := made + 1]> (moves_made s) ∧
       current_player s' = (current_player s + 1) `mod` 4 ∧
       consecutive_passes s' = 0 ∧
       ∀ r c, 0 ≤ r < 20 → 0 ≤ c < 20 →
         owner (board_grid s') r c
         = if bool_decide ((r, c) ∈ wrapped <$> placed)
           then Some (current_player s) else owner (board_grid s) r c).
Proof.
  intros Hwf Hrem move placed.
  destruct (apply_move_place s piece_id row_off col_off shape_coords remaining Hwf Hrem)
    as (Hkey & Hindex & _).
  split; [done|]. split; [done|]. intros Hin Hall.
  destruct (wf_state_remaining s Hwf) as (rem' & Hl & Hg & Hrange).
  rewrite Hg in Hrem. injection Hrem as <-.
  destruct (wf_state_made s Hwf) as (made & Hml & Hmg).
  destruct Hwf as (Hgrid & Hp & Hm & Hc & Hr). unfold NUM_PLAYERS in *.
  unfold apply_move, move. rewrite Hg. cbn [mbind result_bind].
  unfold set_remove. rewrite bool_decide_true by done. cbn [mbind result_bind].
  unfold py_setitem. rewrite !py_index_nonneg by lia. cbn [mbind result_bind].
  destruct (mark_all_owner_wrapped row_off col_off (current_player s)
              (elements shape_coords) (board_grid s) Hgrid) as (g' & -> & Hg' & Hown).
  { intros p Hp'. eapply Forall_forall in Hall; [exact Hall|].
    unfold placed, placed_cells. apply list_elem_of_fmap. by exists p. }
  cbn [mbind result_bind]. rewrite Hmg. cbn [mbind result_bind mret result_ret].
  eexists _, made. split; [done|]. split.
  { unfold wf_state. simpl. rewrite !length_insert.
    split_and!; try done; try (apply Z.mod_pos_bound; done).
    apply Forall_insert; [done|]. intros pid [Hpid _]%elem_of_difference. by apply Hrange. }
  simpl. split_and!; done.
Qed.

Lemma apply_move_raises_without_checking_witness :
  let move : Move := (1, 5, 5, {[ (0, 0); (0, 1) ]}) in
  let placed := placed_cells 5 5 {[ (0, 0); (0, 1) ]} in
  let s := BoardState_init in
  let remaining : gset Z := list_to_set (seqZ 0 21) in
  (1 ∉ remaining → apply_move s (Some move) = Raise KeyError) ∧
  (1 ∈ remaining → Exists (λ p, ¬ index_ok p) placed →
     apply_move s (Some move) = Raise IndexError) ∧
  (1 ∈ remaining → Forall index_ok placed →
     ∃ s' made,
       apply_move s (Some move) = Ok s' ∧ wf_state s' ∧
       moves_made s !! Z.to_nat (current_player s) = Some made ∧
       pieces_remaining s'
       = <[Z.to_nat (current_player s) := remaining ∖ {[ 1 ]}]> (pieces_remaining s) ∧
       moves_made s' = <[Z.to_nat (current_player s) := made + 1]> (moves_made s) ∧
       current_player s' = (current_player s + 1) `mod` 4 ∧
       consecutive_passes s' = 0 ∧
       ∀ r c, 0 ≤ r < 20 → 0 ≤ c < 20 →
         owner (board_grid s') r c
         = if bool_decide ((r, c) ∈ wrapped <$> placed)
           then Some (current_player s) else owner (board_grid s) r c).
Proof.
  apply (apply_move_raises_without_checking BoardState_init 1 5 5 {[ (0, 0); (0, 1) ]}
           (list_to_set (seqZ 0 21))).
  - apply wf_state_init.
  - reflexivity.
Defined.

(** A placement whose indices are negative is applied at the far side of
    the board: with offset [(-1, -1)] the single square lands on
    [(19, 19)]. *)
Lemma apply_move_wraps_around :
  on_board (-1) (-1) = false ∧
  ∃ s', apply_move BoardState_init (Some (0, -1, -1, {[ (0, 0) ]})) = Ok s' ∧
        owner (board_grid s') 19 19 = Some 0.
Proof. split; [done|]. eexists. split; [vm_compute; reflexivity|]. vm_compute. reflexivity. Qed.

(** ** The priors in single precision *)

(** With nothing rounded, [Float32.expand_node] is [expand_node]. *)
Lemma expand_node_unrounded np_exp :
  Float32.expand_node np_exp (λ q, q) Qsum (λ q, q) = expand_node np_exp.
Proof. reflexivity. Qed.

Lemma length_filter_split {A} (P R : A → Prop) `{∀ x, Decision (P x)} `{∀ x, Decision (R x)}
    (l : list A) :
  (∀ x, P x → R x → False) →
  length (filter (λ x, P x ∨ R x) l) = (length (filter P l) + length (filter R l))%nat.
Proof.
  intros Hdis. induction l as [|a l IH]; [done|].
  rewrite !filter_cons.
  destruct (decide (P a)) as [Hp|Hp]; destruct (decide (R a)) as [Hr|Hr].
  - destruct (Hdis a Hp Hr).
  - rewrite decide_True by (by left). simpl. lia.
  - rewrite decide_True by (by right). simpl. lia.
  - rewrite decide_False by (by intros [?|?]). done.
Qed.

(** The placements of distinct pieces are no more than the legal moves. *)
Lemma placements_count (moves : list Move) (pids : list Z) :
  NoDup pids →
  (length (pids ≫= (λ pid, filter (λ mv : Move, mv.1.1.1 = pid) moves)) ≤ length moves)%nat.
Proof.
  intros Hnd.
  assert (length (pids ≫= (λ pid, filter (λ mv : Move, mv.1.1.1 = pid) moves))
          = length (filter (λ mv : Move, mv.1.1.1 ∈ pids) moves)) as ->.
  { induction Hnd as [|pid pids Hnin Hnd IH].
    - simpl. symmetry. apply length_zero_iff_nil.
      induction moves as [|mv moves IHm]; [done|].
      rewrite filter_cons, decide_False; [done|]. apply not_elem_of_nil.
    - rewrite bind_cons, length_app, IH.
      rewrite <- (length_filter_split (λ mv : Move, mv.1.1.1 = pid)
                    (λ mv : Move, mv.1.1.1 ∈ pids)).
      2:{ intros mv -> Hin. done. }
      f_equal. apply list_filter_iff. intros mv. by rewrite elem_of_cons. }
  apply length_filter.
Qed.

Lemma has_placement_filter (moves : list Move) pid :
  has_placement moves pid = true ↔ filter (λ mv : Move, mv.1.1.1 = pid) moves ≠ [].
Proof.
  unfold has_placement. rewrite existsb_exists. split.
  - intros (mv & Hin%list_elem_of_In & Hpid%bool_decide_eq_true) Hnil.
    assert (mv ∈ filter (λ mv : Move, mv.1.1.1 = pid) moves) as Hf
      by (by apply list_elem_of_filter).
    rewrite Hnil in Hf. by apply elem_of_nil in Hf.
  - intros Hne. destruct (filter _ moves) as [|mv l] eqn:Hf; [done|].
    assert (mv ∈ filter (λ mv : Move, mv.1.1.1 = pid) moves) as Hin
      by (rewrite Hf; by left).
    apply list_elem_of_filter in Hin as [Hpid Hin]. exists mv.
    split; [by apply list_elem_of_In|]. by apply bool_decide_eq_true.
Qed.

Section rounded_facts.
Variable np_exp : Q → Q.
Variable fl : Q → Q.
Variable np_sum : list Q → Q.
Variable fl_div : Q → Q.
Variables u eta g : Q.
Hypothesis u_nonneg : (0 <= u)%Q.
Hypothesis eta_nonneg : (0 <= eta)%Q.
Hypothesis g_range : (0 <= g)%Q ∧ (g < 1)%Q.
Hypothesis np_exp_nonneg : ∀ x, (0 <= np_exp x)%Q.
Hypothesis fl_rounds : rounds_within u eta fl.
Hypothesis fl_div_rounds : rounds_within u eta fl_div.
Hypothesis np_sum_sums : sums_within g np_sum.

Lemma quotient_nonneg (e s : Q) : (0 <= e)%Q → (0 <= s)%Q → (0 <= e / s)%Q.
Proof.
intros He Hs. destruct (Qeq_dec s 0) as [Hz|Hnz].
- rewrite Hz. unfold Qdiv. change (/ 0)%Q with 0%Q. lra.
- apply Qle_shift_div_l; lra.
Qed.

Lemma rounded_quotients_nonneg (l : list Q) (s : Q) :
nonneg l → (0 <= s)%Q → nonneg ((λ e, fl (e / s))%Q <$> l).
Proof using fl_rounds.
intros Hl Hs. apply Forall_fmap. eapply Forall_impl; [exact Hl|].
intros x Hx. simpl in *. by apply fl_rounds, quotient_nonneg.
Qed.

Lemma rounded_quotients_sum (l : list Q) (s : Q) :
nonneg l → (0 <= s)%Q →
(Qsum ((λ e, fl (e / s))%Q <$> l)
 <= (1 + u) * Qsum ((λ e, e / s)%Q <$> l) + inject_Z (Z.of_nat (length l)) * eta)%Q.
Proof using fl_rounds.
intros Hl Hs. induction Hl as [|x l Hx Hl IH].
{ simpl. rewrite !Qsum_nil. change (inject_Z (Z.of_nat 0)) with 0%Q. lra. }
rewrite !fmap_cons, !Qsum_cons. cbn [length]. rewrite Nat2Z.inj_succ.
unfold Z.succ. rewrite inject_Z_plus.
destruct (fl_rounds (x / s)%Q (quotient_nonneg x s Hx Hs)) as [_ Hfl].
set (a := (x / s)%Q) in *. set (b := Qsum ((λ e, e / s)%Q <$> l)) in *.
set (c := Qsum ((λ e, fl (e / s))%Q <$> l)) in *.
set (k := inject_Z (Z.of_nat (length l))) in *.
change (inject_Z 1) with 1%Q. lra.
Qed.

Lemma shares_sum (l : list Q) (s : Q) :
nonneg l → ((1 - g) * Qsum l <= s)%Q → (Qsum ((λ e, e / s)%Q <$> l) <= 1 / (1 - g))%Q.
Proof using g_range.
intros Hl Hs. rewrite Qsum_scale. pose proof (Qsum_nonneg l Hl) as H0.
destruct g_range as [Hg0 Hg1].
assert (0 < 1 - g)%Q as Hpos by lra.
assert (0 <= 1 / (1 - g))%Q as Hinv by (apply Qle_shift_div_l; lra).
assert (0 <= s)%Q as Hs0.
{ eapply Qle_trans; [|exact Hs]. apply Qmult_le_0_compat; lra. }
destruct (Qeq_dec s 0) as [Hz|Hnz].
- rewrite Hz. unfold Qdiv at 1. change (/ 0)%Q with 0%Q. lra.
- apply Qle_shift_div_r; [lra|].
  setoid_replace (1 / (1 - g) * s)%Q with (s / (1 - g))%Q using relation Qeq
    by (field; lra).
  apply Qle_shift_div_l; [done|]. lra.
Qed.

(** [decode_policy] in single precision returns probabilities that are
  not negative and sum to little more than 1. *)
Lemma decode_policy_rounded_ok (policy_logits : list Q) (legal : gset Z) :
length policy_logits = 22%nat →
(∀ pid, pid ∈ legal → 0 ≤ pid < 21) →
∃ pol, Float32.decode_policy np_exp fl np_sum policy_logits legal 1 = Ok pol ∧
  nonneg (snd <$> pol) ∧ (Qsum (snd <$> pol) <= (1 + u) / (1 - g) + 22 * eta)%Q.
Proof using u_nonneg eta_nonneg g_range np_exp_nonneg fl_rounds np_sum_sums.
intros Hlen Hlegal. unfold Float32.decode_policy.
destruct g_range as [Hg0 Hg1].
assert (0 < 1 - g)%Q as Hpos by lra.
assert (1 <= (1 + u) / (1 - g))%Q as Hone by (apply Qle_shift_div_l; lra).
destruct (mark_legal_ok (replicate (length policy_logits) false) legal)
  as (mask1 & -> & Hm1); [by rewrite length_replicate|done|].
cbn [mbind result_bind].
destruct (py_setitem_ok mask1 21 true) as (k & _ & _ & ->); [lia|].
cbn [mbind result_bind]. case_bool_decide.
{ eexists. split; [done|]. split.
  - repeat constructor. done.
  - simpl. rewrite Qsum_cons, Qsum_nil. lra. }
change (Qltb (1 # 100000000) 1) with true. cbv iota.
set (masked := zip_with _ (<[k := true]> mask1) policy_logits).
assert (length masked = 22%nat) as Hlm.
{ unfold masked. rewrite length_zip_with, length_insert. lia. }
set (scaled := (λ x, fl (x / 1))%Q <$> masked).
assert (length scaled = 22%nat) as Hls by (unfold scaled; by rewrite length_fmap).
assert (∃ top, Qmax_list scaled = Ok top) as (top & ->).
{ destruct scaled; [done|]. simpl. eauto. }
cbn [mbind result_bind mret result_ret].
set (exps := (λ x, np_exp (fl (x - top)))%Q <$> scaled).
assert (nonneg exps) as Hexps.
{ unfold exps. apply Forall_fmap, Forall_forall. intros x _. apply np_exp_nonneg. }
assert (length exps = 22%nat) as Hle by (unfold exps; by rewrite length_fmap).
pose proof (np_sum_sums exps Hle Hexps) as Hs.
assert (0 <= np_sum exps)%Q as Hs0.
{ eapply Qle_trans; [|exact Hs]. apply Qmult_le_0_compat; [lra|by apply Qsum_nonneg]. }
set (probs := (λ e, fl (e / np_sum exps))%Q <$> exps).
assert (length probs = 22%nat) as Hlp by (unfold probs; by rewrite length_fmap).
assert (nonneg probs) as Hprobs by (by apply rounded_quotients_nonneg).
assert (Qsum probs <= (1 + u) / (1 - g) + 22 * eta)%Q as Hsum.
{ pose proof (rounded_quotients_sum exps (np_sum exps) Hexps Hs0) as H1.
  pose proof (shares_sum exps (np_sum exps) Hexps Hs) as H2.
  fold probs in H1. rewrite Hle in H1. change (inject_Z (Z.of_nat 22)) with 22%Q in H1.
  assert ((1 + u) * Qsum ((λ e, e / np_sum exps)%Q <$> exps) <= (1 + u) / (1 - g))%Q as H3.
  { setoid_replace ((1 + u) / (1 - g))%Q with ((1 + u) * (1 / (1 - g)))%Q
      using relation Qeq by (field; lra).
    apply Qmult_le_l; [lra|done]. }
  lra. }
destruct (out_dict_fold probs legal (py_range 21) []) as (out & -> & Hout & Hosum).
{ intros i Hi. unfold py_range in Hi. apply elem_of_seqZ in Hi. lia. }
{ done. }
{ constructor. }
cbn [mbind result_bind].
destruct (py_getitem_lookup probs 21) as (p & Hp & ->); [lia|].
cbn [mbind result_bind mret result_ret].
assert (0 <= p)%Q as Hp0.
{ eapply Forall_forall in Hprobs; [exact Hprobs|]. by eapply list_elem_of_lookup_2. }
eexists. split; [done|]. split; [by apply dict_set_nonneg|].
pose proof (dict_set_sum_le out KPass p Hout) as Hle'.
pose proof (Qsum_at_index probs) as Hall. rewrite Hlp in Hall.
assert (seqZ 0 (Z.of_nat 22) = py_range 21 ++ [21]) as Hsplit by reflexivity.
rewrite Hsplit, fmap_app, Qsum_app, fmap_cons, fmap_nil, Qsum_cons, Qsum_nil in Hall.
assert (at_index probs 21 = p) as Hat by (unfold at_index; by rewrite Hp).
rewrite Hat in Hall. rewrite fmap_nil, Qsum_nil in Hosum. lra.
Qed.

(** X10: [decode_policy] in single precision.  Given 22 logits and a hand
  of piece ids below 21 it returns a dictionary of probabilities none of
  which is negative; they sum to at most [(1 + u) / (1 - g) + 22 * eta],
  which is 1 when nothing is rounded and a little more than 1 in
  float32. *)
Theorem decode_policy_single_precision (policy_logits : list Q) (legal : gset Z) :
length policy_logits = 22%nat →
(∀ pid, pid ∈ legal → 0 ≤ pid < 21) →
∃ pol, Float32.decode_policy np_exp fl np_sum policy_logits legal 1 = Ok pol ∧
  nonneg (snd <$> pol) ∧ (Qsum (snd <$> pol) <= (1 + u) / (1 - g) + 22 * eta)%Q.
Proof using u_nonneg eta_nonneg g_range np_exp_nonneg fl_rounds np_sum_sums.
apply decode_policy_rounded_ok.
Qed.

(** The children of one piece, in single precision: each of its [k]
  placements is given the rounded quotient of the piece's probability
  by [k]. *)
Lemma expand_piece_rounded_grows st x pol legal_moves t0 t pid :
grows t0 x t → wf_state st → nonneg (snd <$> pol) →
Forall (λ mv, check_legal_move st mv = Ok true) legal_moves →
∃ t', Float32.expand_piece fl_div st x pol (moves_by_piece_of legal_moves) t pid = Ok t' ∧
  grows t0 x t' ∧
  (prior_mass t' x <= prior_mass t x +
     (1 + u) * (if has_placement legal_moves pid then decoded pol (KPiece pid) else 0) +
     inject_Z (Z.of_nat (length (filter (λ mv : Move, mv.1.1.1 = pid) legal_moves))) * eta)%Q.
Proof using u_nonneg eta_nonneg fl_div_rounds.
intros Hg Hwf Hpol Hlegal. unfold Float32.expand_piece.
rewrite moves_by_piece_filter.
pose proof (has_placement_filter legal_moves pid) as Hhas.
destruct (filter (λ mv : Move, mv.1.1.1 = pid) legal_moves) as [|mv l] eqn:Hf.
{ exists t. split; [done|]. split; [done|].
  destruct (has_placement legal_moves pid); [by destruct Hhas as [Hhas _]; destruct Hhas|].
  change (inject_Z (Z.of_nat (length (@nil Move)))) with 0%Q. lra. }
assert (has_placement legal_moves pid = true) as -> by (by apply Hhas).
rewrite bool_decide_false by done.
pose proof (dict_get_nonneg pol (KPiece pid) Hpol) as Hp.
fold (decoded pol (KPiece pid)) in *.
set (k := inject_Z (Z.of_nat (length (mv :: l)))).
assert (0 < k)%Q as Hk.
{ unfold k. rewrite <- (Zlt_Qlt 0). simpl. lia. }
assert (0 <= decoded pol (KPiece pid) / k)%Q as Hq by (apply Qle_shift_div_l; lra).
destruct (fl_div_rounds _ Hq) as [Hsplit Hle].
set (split := fl_div (decoded pol (KPiece pid) / k)%Q) in *.
destruct (placements_fold st x pid split (enumerate (mv :: l)) t0 t Hg Hwf Hsplit)
  as (t' & Ht' & Hg' & Hm').
{ change (Forall ((λ mv, check_legal_move st mv = Ok true) ∘ snd) (enumerate (mv :: l))).
  apply Forall_fmap. rewrite enumerate_snd. apply Forall_forall. intros mv' Hin.
  rewrite <- Hf in Hin. apply list_elem_of_filter in Hin as [_ Hin].
  by eapply Forall_forall in Hlegal. }
exists t'. split; [done|]. split; [done|].
rewrite enumerate_length in Hm'. fold k in Hm'.
assert (k * split <= (1 + u) * decoded pol (KPiece pid) + k * eta)%Q as Hks.
{ setoid_replace ((1 + u) * decoded pol (KPiece pid) + k * eta)%Q
    with (k * ((1 + u) * (decoded pol (KPiece pid) / k) + eta))%Q using relation Qeq
    by (field; lra).
  apply Qmult_le_l; [done|done]. }
lra.
Qed.

Lemma pieces_fold_rounded st x pol legal_moves pids t0 t :
grows t0 x t → wf_state st → nonneg (snd <$> pol) →
Forall (λ mv, check_legal_move st mv = Ok true) legal_moves →
∃ t', foldlM (Float32.expand_piece fl_div st x pol (moves_by_piece_of legal_moves)) t pids
      = Ok t' ∧
  grows t0 x t' ∧
  (prior_mass t' x <= prior_mass t x +
     (1 + u) * Qsum (decoded pol <$>
                       (KPiece <$> filter (λ pid, has_placement legal_moves pid = true) pids)) +
     inject_Z (Z.of_nat (length (pids ≫= (λ pid, filter (λ mv : Move, mv.1.1.1 = pid)
                                                   legal_moves)))) * eta)%Q.
Proof using u_nonneg eta_nonneg fl_div_rounds.
intros Hg Hwf Hpol Hlegal. revert t Hg. induction pids as [|pid pids IH]; intros t Hg.
{ exists t. split; [done|]. split; [done|]. simpl. rewrite Qsum_nil.
  change (inject_Z (Z.of_nat 0)) with 0%Q. lra. }
destruct (expand_piece_rounded_grows st x pol legal_moves t0 t pid Hg Hwf Hpol Hlegal)
  as (t1 & H1 & Hg1 & Hm1).
cbn [foldlM]. rewrite H1. cbn [mbind result_bind].
destruct (IH t1 Hg1) as (t' & -> & Hg' & Hm').
exists t'. split; [done|]. split; [done|].
rewrite bind_cons, length_app, Nat2Z.inj_add, inject_Z_plus.
rewrite filter_cons. destruct (has_placement legal_moves pid) eqn:Hhas.
- rewrite decide_True by done. rewrite !fmap_cons, Qsum_cons. lra.
- rewrite decide_False by done. lra.
Qed.

(** C10 (as the code has it): expanding a node that is not terminal, in
  single precision.  The priors stored for the children are the decoded
  probabilities, split among the placements of each piece and rounded;
  what [decode_policy] gave to the pieces of the hand that have no legal
  placement is stored nowhere.  The priors sum, together with that
  dropped share, to no more than a bound that is 1 in exact arithmetic
  ([u], [eta] and [g] all 0) and lies above 1 by the rounding errors
  otherwise: the relative error [u] of the quotients, the absolute error
  [eta] of each of the 22 probabilities and of each placement's share, and
  the share [g] that the sum of the exponentials may lose. *)
Theorem expand_node_prior_mass t x n (model : Model) :
t !! x = Some n → wf_state (state n) → priors n = [] → children n = [] →
is_terminal (state n) = Ok false →
length (model (state n)).1 = 22%nat →
∃ t' n' legal_moves legal_piece_ids piece_policy,
  Float32.expand_node np_exp fl np_sum fl_div t x model = Ok t' ∧
  t' !! x = Some n' ∧
  get_legal_moves (state n) = Ok legal_moves ∧
  py_getitem (pieces_remaining (state n)) (current_player (state n))
    = Ok legal_piece_ids ∧
  Float32.decode_policy np_exp fl np_sum (model (state n)).1 legal_piece_ids 1
    = Ok piece_policy ∧
  (Qsum (snd <$> priors n')
   + (1 + u) * dropped_mass legal_moves legal_piece_ids piece_policy
   <= (1 + u) * ((1 + u) / (1 - g) + 22 * eta)
      + inject_Z (Z.of_nat (length legal_moves)) * eta)%Q.
Proof using u_nonneg eta_nonneg g_range np_exp_nonneg fl_rounds fl_div_rounds np_sum_sums.
intros Hx Hwf Hpri Hkids Hterm Hlen.
destruct (get_legal_moves_total (state n) Hwf) as (legal_moves & Hmoves & Hlegal).
destruct (wf_state_remaining (state n) Hwf) as (rem & _ & Hrem & Hrange).
destruct (model (state n)) as [logits value] eqn:Hmodel. simpl in Hlen.
destruct (decode_policy_rounded_ok logits rem Hlen Hrange) as (pol & Hpol & Hnn & Hsum).
assert (grows t x t) as Hg0.
{ eapply grows_refl; [done|rewrite Hpri; constructor|..];
    unfold child_refs; rewrite Hkids; [constructor|].
  intros c Hc. by apply elem_of_nil in Hc. }
destruct (pieces_fold_rounded (state n) x pol legal_moves (elements rem) t t Hg0 Hwf Hnn Hlegal)
  as (t1 & H1 & Hg1 & Hm1).
pose proof (dict_get_nonneg pol KPass Hnn) as Hpass. fold (decoded pol KPass) in Hpass.
assert (∃ t2, (if Qltb 0 (decoded pol KPass)
               then add_child (state n) x PassKey None (decoded pol KPass) t1
               else mret t1) = Ok t2 ∧ grows t x t2 ∧
              (prior_mass t2 x <= prior_mass t1 x + decoded pol KPass)%Q)
  as (t2 & H2 & Hg2 & Hm2).
{ destruct (Qltb 0 (decoded pol KPass)).
  - by apply add_child_grows.
  - exists t1. split; [done|]. split; [done|]. lra. }
destruct (set_expanded_grows t x t2 Hg2) as (t3 & H3 & Hg3 & Hm3 & (n' & Hn' & _)).
exists t3, n', legal_moves, rem, pol.
split.
{ unfold Float32.expand_node, get_node. rewrite Hx. cbn [mbind result_bind].
  rewrite Hterm. cbn [mbind result_bind]. rewrite Hmodel, Hmoves.
  cbn [mbind result_bind]. rewrite Hrem. cbn [mbind result_bind]. rewrite Hpol.
  cbn [mbind result_bind]. fold (moves_by_piece_of legal_moves). rewrite H1.
  cbn [mbind result_bind]. fold (decoded pol KPass). rewrite H2.
  cbn [mbind result_bind]. done. }
split; [done|]. split; [done|]. split; [done|]. split; [done|].
unfold prior_mass in Hm1, Hm2, Hm3. rewrite Hx in Hm1. rewrite Hn' in Hm3.
rewrite Hpri, fmap_nil, Qsum_nil in Hm1.
pose proof (placements_count legal_moves (elements rem) (NoDup_elements rem)) as Hcount.
apply inj_le in Hcount. rewrite Zle_Qle in Hcount.
set (k := inject_Z (Z.of_nat (length (elements rem ≫= _)))) in *.
set (m := inject_Z (Z.of_nat (length legal_moves))) in *.
assert (k * eta <= m * eta)%Q as Hke by (apply Qmult_le_compat_r; done).
unfold dropped_mass.
set (has := KPiece <$> filter (λ pid, has_placement legal_moves pid = true) (elements rem)) in *.
set (hasnot := KPiece <$> filter (λ pid, has_placement legal_moves pid = false) (elements rem)).
assert (NoDup (has ++ hasnot ++ [KPass])) as Hks.
{ apply NoDup_app. split; [|split].
  - apply (NoDup_fmap_2 _). apply NoDup_filter, NoDup_elements.
  - intros key (pid & -> & Hin)%list_elem_of_fmap
      [(pid' & [= <-] & Hin')%list_elem_of_fmap|Hp]%elem_of_app.
    + apply list_elem_of_filter in Hin as [Hh _].
      apply list_elem_of_filter in Hin' as [Hh' _]. congruence.
    + by apply list_elem_of_singleton in Hp.
  - apply NoDup_app. split; [|split].
    + apply (NoDup_fmap_2 _). apply NoDup_filter, NoDup_elements.
    + intros key (pid & -> & _)%list_elem_of_fmap Hp.
      by apply list_elem_of_singleton in Hp.
    + apply NoDup_singleton. }
pose proof (dict_get_sum_le pol _ Hks Hnn) as Hall.
fold (decoded pol) in Hall.
rewrite !fmap_app, !Qsum_app, fmap_cons, fmap_nil, Qsum_cons, Qsum_nil in Hall.
set (a := Qsum (decoded pol <$> has)) in *.
set (b := Qsum (decoded pol <$> hasnot)) in *.
set (p := decoded pol KPass) in *.
set (B := ((1 + u) / (1 - g) + 22 * eta)%Q) in *.
set (s3 := Qsum (priors n').*2) in *.
assert (0 <= u * p)%Q as Hup by (apply Qmult_le_0_compat; done).
assert ((1 + u) * (a + b + p) <= (1 + u) * B)%Q as HB.
{ apply Qmult_le_l; [lra|]. lra. }
rewrite Hm3. lra.
Qed.
End rounded_facts.

(** *** Rounding to binary32 is such a rounding *)

Lemma round_half_even_le (y : Q) : (inject_Z (round_half_even y) <= y + (1 # 2))%Q.
Proof.
  unfold round_half_even. pose proof (Qfloor_le y) as Hf.
  destruct (y - inject_Z (Qfloor y) ?= 1 # 2)%Q eqn:Hc.
  - apply Qeq_alt in Hc. destruct (Z.even (Qfloor y)); [lra|].
    rewrite inject_Z_plus. change (inject_Z 1) with 1%Q. lra.
  - lra.
  - apply Qgt_alt in Hc. rewrite inject_Z_plus. change (inject_Z 1) with 1%Q. lra.
Qed.

Lemma round_half_even_nonneg (y : Q) : (0 <= y)%Q → 0 ≤ round_half_even y.
Proof.
  intros Hy. apply Qfloor_resp_le in Hy. change (Qfloor 0) with 0 in Hy.
  unfold round_half_even.
  destruct (y - inject_Z (Qfloor y) ?= 1 # 2)%Q; [destruct (Z.even (Qfloor y))|..]; lia.
Qed.

Lemma pow2_pos (e : Z) : (0 < 2 ^ e)%Q.
Proof. by apply Qpower_0_lt. Qed.

Lemma pow2_plus (a b : Z) : (2 ^ (a + b) == 2 ^ a * 2 ^ b)%Q.
Proof. by apply Qpower_plus. Qed.

Lemma ilog2_le (x : Q) : (0 < x)%Q → (2 ^ ilog2 x <= x)%Q.
Proof.
  intros Hx. unfold ilog2.
  set (a := Z.log2 (Qnum x)). set (b := Z.log2 (Z.pos (Qden x))).
  destruct (Qle_bool (2 ^ (a - b)) x) eqn:Hle; [by apply Qle_bool_iff|].
  destruct x as [n d]. cbn [Qnum Qden] in a, b.
  assert (0 < n) as Hn.
  { unfold Qlt in Hx. simpl in Hx. lia. }
  destruct (Z.log2_spec n Hn) as [Hn1 _]. fold a in Hn1.
  destruct (Z.log2_spec (Z.pos d) ltac:(lia)) as [_ Hd2]. fold b in Hd2.
  assert (0 ≤ a) as Ha by apply Z.log2_nonneg.
  assert (0 ≤ b) as Hb by apply Z.log2_nonneg.
  replace (a - b - 1) with (a + - (b + 1)) by lia.
  rewrite pow2_plus, Qpower_opp.
  change 2%Q with (inject_Z 2). rewrite <- !Zpower_Qpower by lia.
  replace (Z.succ b) with (b + 1) in Hd2 by lia.
  assert (0 < inject_Z (2 ^ (b + 1)))%Q as Hpos.
  { rewrite <- (Zlt_Qlt 0). lia. }
  apply Qle_shift_div_r; [done|].
  apply Qle_trans with (inject_Z n); [by rewrite <- Zle_Qle|].
  assert (inject_Z n == (n # d) * inject_Z (Z.pos d))%Q as Heq.
  { unfold Qeq, Qmult, inject_Z. simpl. lia. }
  rewrite Heq. apply Qmult_le_l; [done|]. rewrite <- Zle_Qle. lia.
Qed.

Lemma round_f32_rounds : rounds_within (1 # 2 ^ 24) (1 # 2 ^ 150) round_f32.
Proof.
  assert (0 <= 1 # 2 ^ 24)%Q as Hu by done.
  assert (0 <= 1 # 2 ^ 150)%Q as Heta by done.
  assert ((1 # 2) * 2 ^ (- 149) == 1 # 2 ^ 150)%Q as H149 by reflexivity.
  assert (2 ^ (- 23) == 1 # 2 ^ 23)%Q as H23 by reflexivity.
  assert ((1 # 2 ^ 24) == (1 # 2) * (1 # 2 ^ 23))%Q as H24 by reflexivity.
  set (u := (1 # 2 ^ 24)%Q) in *. set (eta := (1 # 2 ^ 150)%Q) in *.
  set (h := (1 # 2 ^ 23)%Q) in *.
  intros x Hx. unfold round_f32.
  assert (0 <= u * x)%Q as Hux by (by apply Qmult_le_0_compat).
  destruct (Qeq_bool x 0) eqn:Hz.
  { split; lra. }
  assert (0 < x)%Q as Hpos.
  { apply Qle_lt_or_eq in Hx as [?|Heq]; [done|].
    symmetry in Heq. apply Qeq_bool_iff in Heq. congruence. }
  assert (Qabs x = x) as ->.
  { destruct x as [[|n|n] d]; done. }
  set (e := Z.max (ilog2 x - 23) (- 149)).
  pose proof (pow2_pos e) as Hp. rewrite Qred_correct.
  assert (0 <= x / 2 ^ e)%Q as Hq by (apply Qle_shift_div_l; lra).
  split.
  { apply Qmult_le_0_compat; [|lra]. rewrite <- (Zle_Qle 0).
    by apply round_half_even_nonneg. }
  pose proof (round_half_even_le (x / 2 ^ e)) as Hr.
  apply Qle_trans with ((x / 2 ^ e + (1 # 2)) * 2 ^ e)%Q.
  { apply Qmult_le_compat_r; [done|lra]. }
  setoid_replace ((x / 2 ^ e + (1 # 2)) * 2 ^ e)%Q with (x + (1 # 2) * 2 ^ e)%Q
    using relation Qeq by (field; lra).
  assert ((1 # 2) * 2 ^ e <= u * x + eta)%Q as Hle; [|lra].
  unfold e. destruct (Z.max_spec (ilog2 x - 23) (- 149)) as [[_ ->]|[_ ->]].
  - rewrite H149. lra.
  - replace (ilog2 x - 23) with (ilog2 x + - 23) by lia. rewrite pow2_plus, H23.
    pose proof (ilog2_le x Hpos) as Hl.
    assert ((1 # 2) * (2 ^ ilog2 x * h) == u * 2 ^ ilog2 x)%Q as ->.
    { rewrite H24. ring. }
    assert (u * 2 ^ ilog2 x <= u * x)%Q by (apply Qmult_le_l; [reflexivity|done]). lra.
Qed.

Lemma exp_f32_nonneg x : (0 <= exp_f32 x)%Q.
Proof.
  unfold exp_f32. destruct (Qle_bool (- (104)) x); [|done].
  by apply round_f32_rounds, exp_approx_nonneg.
Qed.

Lemma Qsum_sums : sums_within 0 Qsum.
Proof. intros l _ _. lra. Qed.

Lemma wf_two_piece_state : wf_state two_piece_state.
Proof.
  unfold wf_state, wf_grid, two_piece_state, BoardState_init.
  cbn [board_grid pieces_remaining moves_made current_player].
  split_and!; try done.
  - by apply Forall_replicate.
  - assert (∀ pid : Z, pid ∈ (∅ : gset Z) → 0 ≤ pid < 21) as Hempty
      by (intros pid Hpid; by apply elem_of_empty in Hpid).
    apply Forall_cons_2.
    + intros pid Hpid.
      apply elem_of_union in Hpid as [Hpid|Hpid]; apply elem_of_singleton in Hpid; lia.
    + repeat (apply Forall_cons_2; [exact Hempty|]). apply Forall_nil_2.
Qed.

Lemma expand_node_prior_mass_witness :
  ∃ t' n' legal_moves legal_piece_ids piece_policy,
    Float32.expand_node exp_f32 round_f32 Qsum round_f32
      [MCTSNode_new two_piece_state None] 0 uniform_model = Ok t' ∧
    t' !! 0%nat = Some n' ∧
    get_legal_moves two_piece_state = Ok legal_moves ∧
    py_getitem (pieces_remaining two_piece_state) (current_player two_piece_state)
      = Ok legal_piece_ids ∧
    Float32.decode_policy exp_f32 round_f32 Qsum (uniform_model two_piece_state).1
      legal_piece_ids 1 = Ok piece_policy ∧
    (Qsum (snd <$> priors n')
     + (1 + (1 # 2 ^ 24)) * dropped_mass legal_moves legal_piece_ids piece_policy
     <= (1 + (1 # 2 ^ 24)) * ((1 + (1 # 2 ^ 24)) / (1 - 0) + 22 * (1 # 2 ^ 150))
        + inject_Z (Z.of_nat (length legal_moves)) * (1 # 2 ^ 150))%Q.
Proof.
  apply (expand_node_prior_mass exp_f32 round_f32 Qsum round_f32
           (1 # 2 ^ 24) (1 # 2 ^ 150) 0 ltac:(done) ltac:(done) ltac:(done)
           exp_f32_nonneg round_f32_rounds round_f32_rounds Qsum_sums
           [MCTSNode_new two_piece_state None] 0 (MCTSNode_new two_piece_state None)
           uniform_model).
  - reflexivity.
  - apply wf_two_piece_state.
  - reflexivity.
  - reflexivity.
  - reflexivity.
  - reflexivity.
Defined.

(** In [two_piece_state] the single square has one legal placement and the
    domino two.  With equal logits each of the three unmasked entries of the
    softmax is the float32 nearest to 1/3, which is larger than 1/3; the
    four priors stored are that number twice and its half twice, and they
    sum to 1 + 2^-25. *)
Lemma rounded_priors_exceed_one :
  is_terminal two_piece_state = Ok false ∧
  ∃ t' n',
    Float32.expand_node exp_f32 round_f32 sum_f32 round_f32
      [MCTSNode_new two_piece_state None] 0 uniform_model = Ok t' ∧
    t' !! 0%nat = Some n' ∧
    priors n' = [(Place 1 0, 11184811 # 2 ^ 26); (Place 1 1, 11184811 # 2 ^ 26);
                 (Place 0 0, 11184811 # 2 ^ 25); (PassKey, 11184811 # 2 ^ 25)]%Q ∧
    (Qsum (snd <$> priors n') == 1 + (1 # 2 ^ 25))%Q ∧
    (1 < Qsum (snd <$> priors n'))%Q.
Proof.
  split; [reflexivity|]. eexists _, _.
  split; [vm_compute; reflexivity|]. split; [reflexivity|].
  split; [reflexivity|]. split; by vm_compute.
Qed.

Lemma decode_policy_single_precision_witness :
  ∃ pol, Float32.decode_policy exp_f32 round_f32 Qsum (replicate 22 0%Q) {[ 0; 1 ]} 1 = Ok pol ∧
    nonneg (snd <$> pol) ∧
    (Qsum (snd <$> pol) <= (1 + (1 # 2 ^ 24)) / (1 - 0) + 22 * (1 # 2 ^ 150))%Q.
Proof.
  apply (decode_policy_single_precision exp_f32 round_f32 Qsum
           (1 # 2 ^ 24) (1 # 2 ^ 150) 0 ltac:(done) ltac:(done) ltac:(done)
           exp_f32_nonneg round_f32_rounds Qsum_sums (replicate 22 0%Q) {[ 0; 1 ]}).
  - reflexivity.
  - intros pid Hpid.
    apply elem_of_union in Hpid as [Hpid|Hpid]; apply elem_of_singleton in Hpid; lia.
Defined.

(** * Further properties of the code: search, objects, replay buffer,
    encoding, evaluation and self-play *)

(** ** mcts.py: backup *)






(** ** mcts.py: selection *)

Section selection_facts.
Variable math_sqrt : Z → Q.




End selection_facts.

(** ** mcts.py: a search from a finished game *)

Section terminal_root.
Variable np_exp : Q → Q.
Variable math_sqrt : Z → Q.

Lemma simulations_terminal (model : Model) c_puct k r scores sc :
  is_terminal (state r) = Ok true →
  compute_final_scores (state r) = Ok scores →
  py_getitem scores (current_player (state r)) = Ok sc →
  parent r = None → expanded r = false →
  ∃ r', simulations np_exp math_sqrt k [r] 0 model c_puct = Ok [r'] ∧
    state r' = state r ∧ parent r' = None ∧ children r' = children r ∧
    priors r' = priors r ∧ expanded r' = false ∧ last_action_key r' = last_action_key r ∧
    visit_count r' = visit_count r + Z.of_nat k ∧
    (total_value r' == total_value r + inject_Z (Z.of_nat k) * (inject_Z sc / 100))%Q.
Proof.
  revert r. induction k as [|k IH]; intros r Hterm Hscores Hsc Hpar Hexp.
  { exists r. split; [done|]. split_and!; try done; [lia|].
    change (inject_Z (Z.of_nat 0)) with 0%Q. lra. }
  assert (simulate np_exp math_sqrt [r] 0 model c_puct
          = Ok [visit (inject_Z sc / 100) r]) as Hsim.
  { unfold simulate. cbn [length select_loop]. unfold get_node.
    change ([r] !! 0%nat) with (Some r). cbn [mbind result_bind].
    rewrite Hexp. cbn [andb mret result_ret mbind result_bind].
    change ([r] !! 0%nat) with (Some r). cbn [mbind result_bind].
    rewrite Hexp, Hterm. cbn [mret result_ret mbind result_bind].
    unfold evaluate_node, get_node. change ([r] !! 0%nat) with (Some r).
    cbn [mbind result_bind]. rewrite Hterm. cbn [mbind result_bind].
    rewrite Hscores. cbn [mbind result_bind]. rewrite Hsc.
    cbn [mret result_ret mbind result_bind].
    unfold backup_value. cbn [length backup_loop]. unfold get_node.
    change ([r] !! 0%nat) with (Some r). cbn [mbind result_bind]. rewrite Hpar.
    done. }
  cbn [simulations]. rewrite Hsim. cbn [mbind result_bind].
  destruct (IH (visit (inject_Z sc / 100) r)) as (r' & Hrun & Hst & Hp & Hc & Hpr & He & Hk & Hv & Ht);
    try done.
  exists r'. split; [done|]. simpl in *. split_and!; try done; try congruence; [lia|].
  rewrite Ht. rewrite Nat2Z.inj_succ. unfold Z.succ. rewrite inject_Z_plus.
  change (inject_Z 1) with 1%Q. lra.
Qed.

(** X14: a search from a finished game.  When the state of the root is
    terminal, [mcts_search] with [n] simulations never expands the root
    and adds no node: the tree is still the root alone, not expanded and
    without children or priors, visited [n] times.  The network is not
    consulted: this holds for every model. *)
Theorem mcts_search_terminal_root (model : Model) c_puct st n_simulations :
  wf_state st → is_terminal st = Ok true → 0 ≤ n_simulations →
  ∃ scores sc r,
    compute_final_scores st = Ok scores ∧
    py_getitem scores (current_player st) = Ok sc ∧ -89 ≤ sc ≤ 0 ∧
    mcts_search np_exp math_sqrt [MCTSNode_new st None] 0 model n_simulations c_puct
    = Ok [r] ∧
    state r = st ∧ children r = [] ∧ priors r = [] ∧ expanded r = false ∧
    visit_count r = n_simulations.
Proof.
  intros Hwf Hterm Hn.
  destruct (compute_final_scores_ok st Hwf) as (scores & Hscores & Hlen & Hall).
  destruct (py_getitem_lookup scores (current_player st)) as (sc & Hl & Hsc).
  { destruct Hwf as (_ & _ & _ & Hc & _). unfold NUM_PLAYERS in Hc. lia. }
  assert (-89 ≤ sc ≤ 0) as Hrange.
  { eapply Forall_forall in Hall; [apply Hall|]. by eapply list_elem_of_lookup_2. }
  destruct (simulations_terminal model c_puct (Z.to_nat n_simulations)
              (MCTSNode_new st None) scores sc)
    as (r & Hrun & Hst & _ & Hc & Hpr & He & _ & Hv & Ht); try done.
  exists scores, sc, r. unfold mcts_search.
  do 4 (split; [done|]). split; [done|]. split; [done|]. split; [done|].
  split; [done|]. simpl in Hv. lia.
Qed.
End terminal_root.

(** ** States as objects: clone *)

Module HeapMore.
Local Notation value_apply_move := apply_move (only parsing).
Import Heap.
Import HeapFacts.

(** X15: [clone] makes a deep copy.  On a store in which [self] is a state
    object, [clone] ends without an exception and returns a new object that
    holds the same state; its grid, its rows, its list of hands, the hands
    and its list of move counts are all objects created by the call, so it
    shares nothing with [self]; and every object that was in the store is
    still there, unchanged. *)
Theorem clone_is_a_deep_copy h self v :
  holds h self v →
  runs (clone self) h (λ r h',
    ∃ l, r = Ok l ∧ (length h ≤ l)%nat ∧ h `prefix_of` h' ∧
         holds h' l v ∧ holds h' self v ∧ fresh (length h) h' l).
Proof.
  intros Hself. pose proof Hself as (g & p & m & rows & sets & Hat).
  pose proof (clone_holds h self g p m rows sets _ _ _ _ _ Hat) as Hval.
  pose proof (clone_spec h self
                (λ l h', h `prefix_of` h' ∧ fresh (length h) h' l) (λ _, True)
                ltac:(done) ltac:(done)) as Hnew.
  unfold runs, wp in *. destruct (clone self h) as [[l|e] h']; simpl in *.
  - destruct Hval as (l0 & g' & p' & m' & rows' & sets' & [= <-] & Hl & Hpre & Hat').
    destruct Hnew as [_ Hfresh]. exists l. split; [done|]. split; [done|].
    split; [done|]. split; [by exists g', p', m', rows', sets'|]. split; [|done].
    eapply holds_frame; [|done]. intros x o Hx. by eapply prefix_lookup.
  - by destruct Hval as (l0 & g' & p' & m' & rows' & sets' & [=] & _).
Qed.

Lemma clone_is_a_deep_copy_witness :
  runs (clone 27%nat) (BoardState_new []).2 (λ r h',
    ∃ l, r = Ok l ∧ (length (BoardState_new []).2 ≤ l)%nat ∧
         (BoardState_new []).2 `prefix_of` h' ∧
         holds h' l BoardState_init ∧ holds h' 27%nat BoardState_init ∧
         fresh (length (BoardState_new []).2) h' l).
Proof.
  apply (clone_is_a_deep_copy (BoardState_new []).2 27%nat BoardState_init).
  pose proof (BoardState_new_holds []) as H. unfold runs in H.
  destruct H as (l & Hl & _ & H).
  vm_compute in Hl. injection Hl as <-. exact H.
Defined.

End HeapMore.

(** ** replay_buffer.py *)








(** ** policy_wrapper.py: encode_state *)

Lemma py_setitem_nonneg {A} (l : list A) i x :
  0 ≤ i < Z.of_nat (length l) → py_setitem l i x = Ok (<[Z.to_nat i := x]> l).
Proof. intros Hi. unfold py_setitem. by rewrite py_index_nonneg. Qed.

Lemma array3_is_zeros :
  array3_is
    (replicate 5 (replicate (Z.to_nat BOARD_SIZE) (replicate (Z.to_nat BOARD_SIZE) 0%Q)))
    (λ _ _ _, 0%Q).
Proof.
  split; [done|]. split.
  - apply Forall_replicate. split; [by rewrite length_replicate|].
    apply Forall_replicate. by rewrite length_replicate.
  - intros k r c Hk Hr Hc. unfold array3_get.
    rewrite lookup_replicate_2 by lia. cbn [mbind option_bind].
    rewrite lookup_replicate_2 by (unfold BOARD_SIZE in *; lia). cbn [mbind option_bind].
    by rewrite lookup_replicate_2 by (unfold BOARD_SIZE in *; lia).
Qed.

Lemma array3_is_ext a f g :
  array3_is a f →
  (∀ k r c, 0 ≤ k < 5 → 0 ≤ r < BOARD_SIZE → 0 ≤ c < BOARD_SIZE → f k r c = g k r c) →
  array3_is a g.
Proof.
  intros (Hlen & Hshape & Hget) Hext. split; [done|]. split; [done|].
  intros k r c Hk Hr Hc. rewrite Hget by done. f_equal. by apply Hext.
Qed.

Lemma array3_set_is a f k r c x :
  array3_is a f → 0 ≤ k < 5 → 0 ≤ r < BOARD_SIZE → 0 ≤ c < BOARD_SIZE →
  ∃ a', array3_set a k r c x = Ok a' ∧
    array3_is a' (λ k' r' c',
      if bool_decide (k' = k ∧ r' = r ∧ c' = c) then x else f k' r' c').
Proof.
  intros (Hlen & Hshape & Hget) Hk Hr Hc. unfold array3_set.
  destruct (py_getitem_lookup a k) as (plane & Hplane & ->); [lia|].
  cbn [mbind result_bind].
  assert (length plane = Z.to_nat BOARD_SIZE ∧
          Forall (λ row : list Q, length row = Z.to_nat BOARD_SIZE) plane) as [Hpl Hrows].
  { eapply Forall_forall in Hshape; [done|]. by eapply list_elem_of_lookup_2. }
  destruct (py_getitem_lookup plane r) as (row & Hrow & ->); [lia|].
  cbn [mbind result_bind].
  assert (length row = Z.to_nat BOARD_SIZE) as Hrl.
  { eapply Forall_forall in Hrows; [done|]. by eapply list_elem_of_lookup_2. }
  rewrite py_setitem_nonneg by lia. cbn [mbind result_bind].
  rewrite py_setitem_nonneg by lia. cbn [mbind result_bind].
  rewrite py_setitem_nonneg by lia. eexists. split; [done|].
  split; [by rewrite length_insert|]. split.
  - apply Forall_insert; [done|]. split; [by rewrite length_insert|].
    apply Forall_insert; [done|]. by rewrite length_insert.
  - intros k' r' c' Hk' Hr' Hc'. unfold array3_get.
    destruct (decide (k' = k)) as [->|Hnk].
    2:{ rewrite list_lookup_insert_ne by lia. rewrite bool_decide_false by (intros (? & ? & ?); congruence).
        by apply Hget. }
    rewrite list_lookup_insert_eq by lia. cbn [mbind option_bind].
    destruct (decide (r' = r)) as [->|Hnr].
    2:{ rewrite list_lookup_insert_ne by lia. rewrite bool_decide_false by (intros (? & ? & ?); congruence).
        specialize (Hget k r' c' Hk Hr' Hc'). unfold array3_get in Hget.
        by rewrite Hplane in Hget. }
    rewrite list_lookup_insert_eq by lia. cbn [mbind option_bind].
    destruct (decide (c' = c)) as [->|Hnc].
    2:{ rewrite list_lookup_insert_ne by lia. rewrite bool_decide_false by (intros (? & ? & ?); congruence).
        specialize (Hget k r c' Hk Hr Hc'). unfold array3_get in Hget.
        rewrite Hplane in Hget. cbn [mbind option_bind] in Hget.
        by rewrite Hrow in Hget. }
    rewrite list_lookup_insert_eq by lia. by rewrite bool_decide_true.
Qed.

(** A loop whose invariant speaks of the items already gone through. *)
Lemma foldlM_prefix_inv {A B} (P : list A → B → Prop) (f : B → A → result B)
    (l : list A) (b : B) :
  P [] b →
  (∀ pre x b, x ∈ l → P pre b → ∃ b', f b x = Ok b' ∧ P (pre ++ [x]) b') →
  ∃ b', foldlM f b l = Ok b' ∧ P l b'.
Proof.
  intros Hb Hstep.
  assert (∀ pre b, (∀ x, x ∈ l → x ∈ l) → P pre b →
            ∀ l', (∀ x, x ∈ l' → x ∈ l) →
            ∃ b', foldlM f b l' = Ok b' ∧ P (pre ++ l') b') as Hgen.
  { intros pre b0 _ Hpre l'. revert pre b0 Hpre.
    induction l' as [|x l' IH]; intros pre b0 Hpre Hsub.
    { exists b0. by rewrite app_nil_r. }
    destruct (Hstep pre x b0) as (b1 & Hf & H1); [apply Hsub; by left|done|].
    destruct (IH (pre ++ [x]) b1 H1) as (b2 & Hfold & H2).
    { intros y Hy. apply Hsub. by right. }
    exists b2. cbn [foldlM]. rewrite Hf. cbn [mbind result_bind].
    split; [done|]. by rewrite <- app_assoc in H2. }
  destruct (Hgen [] b ltac:(done) Hb l ltac:(done)) as (b' & Hfold & Hb').
  by exists b'.
Qed.

Lemma foldlM_app {A B} (f : B → A → result B) (l1 l2 : list A) (b : B) :
  foldlM f b (l1 ++ l2) = b' ← foldlM f b l1; foldlM f b' l2.
Proof.
  revert b. induction l1 as [|x l1 IH]; intros b; [done|]. cbn [app foldlM].
  destruct (f b x); cbn [mbind result_bind]; [apply IH|done].
Qed.

Lemma foldlM_fmap {A A' B} (g : A → A') (f : B → A' → result B) (l : list A) (b : B) :
  foldlM f b (g <$> l) = foldlM (λ b x, f b (g x)) b l.
Proof.
  revert b. induction l as [|x l IH]; intros b; [done|]. cbn [fmap list_fmap foldlM].
  destruct (f b (g x)); cbn [mbind result_bind]; [apply IH|done].
Qed.

(** Two loops, one inside the other, as one loop over the pairs. *)
Lemma foldlM_nested {B} (f : B → Z → Z → result B) (rs cs : list Z) (b : B) :
  foldlM (λ b r, foldlM (λ b c, f b r c) b cs) b rs
  = foldlM (λ b (p : cell), f b p.1 p.2) b (rs ≫= λ r, (λ c, (r, c)) <$> cs).
Proof.
  revert b. induction rs as [|r rs IH]; intros b; [done|].
  cbn [foldlM]. rewrite bind_cons, foldlM_app, foldlM_fmap. cbn [fst snd].
  destruct (foldlM _ b cs); cbn [mbind result_bind]; [apply IH|done].
Qed.

Lemma elem_of_cells (r c : Z) :
  (r, c) ∈ (py_range BOARD_SIZE ≫= λ r, (λ c, (r, c)) <$> py_range BOARD_SIZE)
  ↔ 0 ≤ r < BOARD_SIZE ∧ 0 ≤ c < BOARD_SIZE.
Proof.
  rewrite list_elem_of_bind. unfold py_range. split.
  - intros (r' & Hin & Hr'). apply list_elem_of_fmap in Hin as (c' & [= -> ->] & Hc').
    apply elem_of_seqZ in Hr', Hc'. lia.
  - intros [Hr Hc]. exists r. split; [|apply elem_of_seqZ; lia].
    apply list_elem_of_fmap. exists c. split; [done|]. apply elem_of_seqZ. lia.
Qed.

Lemma if_bool_decide_ext {A} (P Q : Prop) `{Decision P, Decision Q} (x y : A) :
  (P ↔ Q) → (if bool_decide P then x else y) = (if bool_decide Q then x else y).
Proof. intros HPQ. by rewrite (bool_decide_ext P Q). Qed.

Lemma channels_loop (grid : list (list (option Z))) a0 :
  wf_grid grid → colors_ok grid → array3_is a0 (λ _ _ _, 0%Q) →
  ∃ a,
    foldlM (λ board_channels r,
      foldlM (λ board_channels c,
        occupant ← grid_get grid r c;
        match occupant with
        | Some o => array3_set board_channels o r c 1%Q
        | None => mret board_channels
        end)
      board_channels (py_range BOARD_SIZE))
    a0 (py_range BOARD_SIZE) = Ok a ∧
    array3_is a (λ k r c, if bool_decide (owner grid r c = Some k) then 1%Q else 0%Q).
Proof.
  intros Hwf Hcol H0.
  rewrite (foldlM_nested (λ a r c,
             occupant ← grid_get grid r c;
             match occupant with
             | Some o => array3_set a o r c 1%Q
             | None => mret a
             end)).
  destruct (foldlM_prefix_inv
              (λ (pre : list cell) a,
                 array3_is a (λ k r c,
                   if bool_decide ((r, c) ∈ pre ∧ owner grid r c = Some k)
                   then 1%Q else 0%Q))
              (λ a (p : cell),
                 occupant ← grid_get grid p.1 p.2;
                 match occupant with
                 | Some o => array3_set a o p.1 p.2 1%Q
                 | None => mret a
                 end)
              (py_range BOARD_SIZE ≫= λ r, (λ c, (r, c)) <$> py_range BOARD_SIZE) a0)
    as (a & Hrun & Ha).
  - eapply array3_is_ext; [exact H0|]. intros k r c _ _ _.
    rewrite bool_decide_false; [done|]. intros [Hin _]. by apply elem_of_nil in Hin.
  - intros pre [r0 c0] a [Hr0 Hc0]%elem_of_cells Ha. cbn [fst snd].
    destruct (grid_get_owner grid r0 c0 Hwf) as (v & -> & Hv);
      [by apply on_board_spec|]. cbn [mbind result_bind].
    destruct v as [o|].
    + assert (0 ≤ o < NUM_PLAYERS) as Ho by (by eapply Hcol).
      destruct (array3_set_is a _ o r0 c0 1%Q Ha) as (a' & -> & Ha');
        [unfold NUM_PLAYERS in Ho; lia|done|done|].
      exists a'. split; [done|]. eapply array3_is_ext; [exact Ha'|].
      intros k r c _ _ _. cbv beta.
      destruct (decide (r = r0 ∧ c = c0)) as [[-> ->]|Hne].
      * rewrite Hv. destruct (decide (k = o)) as [->|Hk].
        -- rewrite (bool_decide_true (o = o ∧ _)) by done.
           rewrite bool_decide_true; [done|].
           split; [|done]. apply elem_of_app. right. by left.
        -- rewrite (bool_decide_false (k = o ∧ _)) by (by intros [? _]).
           rewrite (bool_decide_false (_ ∈ pre ∧ _)) by (intros [_ [= ?]]; done).
           rewrite bool_decide_false; [done|]. intros [_ [= ?]]. done.
      * rewrite (bool_decide_false (k = o ∧ _)) by (intros (_ & ? & ?); by apply Hne).
        apply if_bool_decide_ext. rewrite elem_of_app, list_elem_of_singleton.
        split.
        -- intros [Hin Hown]. split; [by left|done].
        -- intros [[Hin|Heq] Hown]; [done|]. injection Heq as -> ->. by destruct Hne.
    + exists a. split; [done|]. eapply array3_is_ext; [exact Ha|].
      intros k r c _ _ _. cbv beta.
      apply if_bool_decide_ext. rewrite elem_of_app, list_elem_of_singleton.
      split.
      * intros [Hin Hown]. split; [by left|done].
      * intros [[Hin|Heq] Hown]; [done|]. injection Heq as -> ->. congruence.
  - exists a. split; [done|]. eapply array3_is_ext; [exact Ha|].
    intros k r c _ Hr Hc. cbv beta. apply if_bool_decide_ext.
    rewrite elem_of_cells. split; [by intros [_ ?]|]. intros Hown. done.
Qed.

Lemma current_player_loop (grid : list (list (option Z))) (cp : Z) a0 f0 :
  wf_grid grid → array3_is a0 f0 →
  (∀ r c, 0 ≤ r < BOARD_SIZE → 0 ≤ c < BOARD_SIZE → f0 4 r c = 0%Q) →
  ∃ a,
    foldlM (λ board_channels r,
      foldlM (λ board_channels c,
        occupant ← grid_get grid r c;
        if bool_decide (occupant = Some cp)
        then array3_set board_channels 4 r c 1%Q
        else mret board_channels)
      board_channels (py_range BOARD_SIZE))
    a0 (py_range BOARD_SIZE) = Ok a ∧
    array3_is a (λ k r c,
      if bool_decide (k = 4)
      then (if bool_decide (owner grid r c = Some cp) then 1%Q else 0%Q)
      else f0 k r c).
Proof.
  intros Hwf H0 Hzero.
  rewrite (foldlM_nested (λ a r c,
             occupant ← grid_get grid r c;
             if bool_decide (occupant = Some cp) then array3_set a 4 r c 1%Q
             else mret a)).
  destruct (foldlM_prefix_inv
              (λ (pre : list cell) a,
                 array3_is a (λ k r c,
                   if bool_decide (k = 4)
                   then (if bool_decide ((r, c) ∈ pre ∧ owner grid r c = Some cp)
                         then 1%Q else 0%Q)
                   else f0 k r c))
              (λ a (p : cell),
                 occupant ← grid_get grid p.1 p.2;
                 if bool_decide (occupant = Some cp) then array3_set a 4 p.1 p.2 1%Q
                 else mret a)
              (py_range BOARD_SIZE ≫= λ r, (λ c, (r, c)) <$> py_range BOARD_SIZE) a0)
    as (a & Hrun & Ha).
  - eapply array3_is_ext; [exact H0|]. intros k r c _ Hr Hc. cbv beta.
    case_bool_decide as Hk; [|done]. subst k.
    rewrite bool_decide_false; [by apply Hzero|].
    intros [Hin _]. by apply elem_of_nil in Hin.
  - intros pre [r0 c0] a [Hr0 Hc0]%elem_of_cells Ha. cbn [fst snd].
    destruct (grid_get_owner grid r0 c0 Hwf) as (v & -> & Hv);
      [by apply on_board_spec|]. cbn [mbind result_bind].
    case_bool_decide as Hcp.
    + subst v.
      destruct (array3_set_is a _ 4 r0 c0 1%Q Ha) as (a' & -> & Ha'); [lia|done|done|].
      exists a'. split; [done|]. eapply array3_is_ext; [exact Ha'|].
      intros k r c _ _ _. cbv beta.
      destruct (decide (k = 4)) as [->|Hk].
      2:{ rewrite (bool_decide_false (k = 4 ∧ _)) by (by intros [? _]).
          by rewrite !(bool_decide_false (k = 4)). }
      rewrite !(bool_decide_true (4 = 4)) by done.
      destruct (decide (r = r0 ∧ c = c0)) as [[-> ->]|Hne].
      * rewrite (bool_decide_true (4 = 4 ∧ _)) by done.
        rewrite bool_decide_true; [done|].
        split; [|done]. apply elem_of_app. right. by left.
      * rewrite (bool_decide_false (4 = 4 ∧ _)) by (intros (_ & ? & ?); by apply Hne).
        apply if_bool_decide_ext. rewrite elem_of_app, list_elem_of_singleton.
        split.
        -- intros [Hin Hown]. split; [by left|done].
        -- intros [[Hin|Heq] Hown]; [done|]. injection Heq as -> ->. by destruct Hne.
    + exists a. split; [done|]. eapply array3_is_ext; [exact Ha|].
      intros k r c _ _ _. cbv beta. case_bool_decide as Hk; [|done].
      apply if_bool_decide_ext. rewrite elem_of_app, list_elem_of_singleton.
      split.
      * intros [Hin Hown]. split; [by left|done].
      * intros [[Hin|Heq] Hown]; [done|]. injection Heq as -> ->. congruence.
  - exists a. split; [done|]. eapply array3_is_ext; [exact Ha|].
    intros k r c _ Hr Hc. cbv beta. case_bool_decide as Hk; [|done].
    apply if_bool_decide_ext.
    rewrite elem_of_cells. split; [by intros [_ ?]|]. intros Hown. done.
Qed.

Lemma piece_vec_loop (hand : gset Z) :
  (∀ pid, pid ∈ hand → 0 ≤ pid < 21) →
  ∃ piece_vec,
    foldlM (λ piece_vec p_id, py_setitem piece_vec p_id 1%Q)
      (replicate 21 0%Q) (elements hand) = Ok piece_vec ∧
    length piece_vec = 21%nat ∧
    ∀ i, 0 ≤ i < 21 →
      piece_vec !! Z.to_nat i = Some (if bool_decide (i ∈ hand) then 1%Q else 0%Q).
Proof.
  intros Hhand.
  destruct (foldlM_prefix_inv
              (λ (pre : list Z) (v : list Q),
                 length v = 21%nat ∧
                 ∀ i, 0 ≤ i < 21 →
                   v !! Z.to_nat i = Some (if bool_decide (i ∈ pre) then 1%Q else 0%Q))
              (λ piece_vec p_id, py_setitem piece_vec p_id 1%Q)
              (elements hand) (replicate 21 0%Q))
    as (v & Hrun & Hlen & Hv).
  - split; [done|]. intros i Hi. rewrite lookup_replicate_2 by lia.
    rewrite bool_decide_false; [done|]. by intros ?%elem_of_nil.
  - intros pre p v Hp%elem_of_elements [Hlen Hv]. specialize (Hhand p Hp).
    rewrite py_setitem_nonneg by lia. eexists. split; [done|].
    split; [by rewrite length_insert|]. intros i Hi.
    destruct (decide (i = p)) as [->|Hne].
    + rewrite list_lookup_insert_eq by lia. rewrite bool_decide_true; [done|].
      apply elem_of_app. right. by left.
    + rewrite list_lookup_insert_ne by lia. rewrite Hv by done. f_equal.
      apply if_bool_decide_ext. rewrite elem_of_app, list_elem_of_singleton.
      split; [by left|]. by intros [?|?].
  - exists v. split; [done|]. split; [done|]. intros i Hi. rewrite Hv by done.
    f_equal. apply if_bool_decide_ext. apply elem_of_elements.
Qed.

Lemma colors_ok_init : colors_ok (board_grid BoardState_init).
Proof.
  intros r c o. unfold owner. cbn [board_grid BoardState_init].
  destruct (replicate _ _ !! Z.to_nat r) as [row|] eqn:Hrow; [|done].
  apply lookup_replicate in Hrow as [-> _]. cbn [mbind option_bind].
  destruct (replicate _ _ !! Z.to_nat c) as [x|] eqn:Hx; [|done].
  apply lookup_replicate in Hx as [-> _]. done.
Qed.

(** X18: what [encode_state] writes.  On a well-formed state whose cells
    are empty or hold one of the four colors, it returns without an
    exception a board tensor of shape [1, 5, 20, 20] and a piece tensor of
    shape [1, 21] with entries 0 and 1 only: the entry of channel [k < 4] at
    a cell is 1 exactly when color [k] occupies the cell, the entry of
    channel 4 is 1 exactly when the player to move occupies it, and entry
    [i] of the piece vector is 1 exactly when piece [i] is in the hand of
    the player to move.  So the board and that hand can be read back from
    the encoding. *)
Theorem encode_state_reads_back s :
  wf_state s → colors_ok (board_grid s) →
  ∃ board_channels piece_vec hand,
    encode_state s = Ok ([board_channels], [piece_vec]) ∧
    pieces_remaining s !! Z.to_nat (current_player s) = Some hand ∧
    array3_is board_channels (λ k r c,
      if bool_decide (owner (board_grid s) r c
                      = Some (if bool_decide (k = 4) then current_player s else k))
      then 1%Q else 0%Q) ∧
    length piece_vec = 21%nat ∧
    ∀ i, 0 ≤ i < 21 →
      piece_vec !! Z.to_nat i = Some (if bool_decide (i ∈ hand) then 1%Q else 0%Q).
Proof.
  intros Hwf Hcol. pose proof Hwf as (Hgrid & _).
  destruct (wf_state_remaining s Hwf) as (hand & Hhand & Hget & Hrange).
  destruct (channels_loop (board_grid s) _ Hgrid Hcol array3_is_zeros) as (a1 & Hrun1 & Ha1).
  destruct (current_player_loop (board_grid s) (current_player s) a1 _ Hgrid Ha1)
    as (a2 & Hrun2 & Ha2).
  { intros r c _ _. cbv beta. rewrite bool_decide_false; [done|].
    intros Hown. apply Hcol in Hown. unfold NUM_PLAYERS in Hown. lia. }
  destruct (piece_vec_loop hand Hrange) as (pv & Hrun3 & Hlen & Hpv).
  exists a2, pv, hand. split.
  { unfold encode_state. cbv zeta. rewrite Hrun1. cbn [mbind result_bind].
    rewrite Hrun2. cbn [mbind result_bind]. rewrite Hget. cbn [mbind result_bind].
    rewrite Hrun3. done. }
  split; [done|]. split; [|done].
  eapply array3_is_ext; [exact Ha2|]. intros k r c _ _ _. cbv beta.
  by case_bool_decide.
Qed.

Lemma encode_state_reads_back_witness :
  ∃ board_channels piece_vec hand,
    encode_state BoardState_init = Ok ([board_channels], [piece_vec]) ∧
    pieces_remaining BoardState_init !! Z.to_nat (current_player BoardState_init)
      = Some hand ∧
    array3_is board_channels (λ k r c,
      if bool_decide (owner (board_grid BoardState_init) r c
                      = Some (if bool_decide (k = 4) then current_player BoardState_init
                              else k))
      then 1%Q else 0%Q) ∧
    length piece_vec = 21%nat ∧
    ∀ i, 0 ≤ i < 21 →
      piece_vec !! Z.to_nat i = Some (if bool_decide (i ∈ hand) then 1%Q else 0%Q).
Proof.
  apply (encode_state_reads_back BoardState_init).
  - apply wf_state_init.
  - apply colors_ok_init.
Defined.

(** ** evaluator.py *)

Lemma link_children_state n base acts : state (link_children n base acts) = state n.
Proof. revert n base. induction acts as [|a acts IH]; intros n base; [done|]. simpl. by rewrite IH. Qed.

Lemma link_children_refs n base acts c :
  c ∈ child_refs (link_children n base acts) →
  c ∈ child_refs n ∨ ∃ j a, acts !! j = Some a ∧ c = (base + j)%nat.
Proof.
  induction acts as [|a acts IH] using rev_ind; [by left|].
  rewrite link_children_snoc. cbv zeta. unfold child_refs at 1. cbn [children].
  intros Hc%dict_set_values_elem_of. destruct Hc as [Hc| ->].
  - destruct (IH Hc) as [?|(j & b & Hj & ->)]; [by left|]. right. exists j, b.
    split; [|done]. by apply lookup_app_l_Some.
  - right. exists (length acts), a. split; [|done].
    by rewrite lookup_app_r, Nat.sub_diag.
Qed.

Lemma expansions_turns s pol legal_moves hand a :
  wf_state s → Forall (λ mv, check_legal_move s mv = Ok true) legal_moves →
  a ∈ expansions s pol legal_moves hand →
  turn_ok s (exp_move a) ∧ apply_move s (exp_move a) = Ok (exp_state a).
Proof.
  intros Hwf Hlegal Ha.
  pose proof (expansions_states s pol legal_moves hand Hwf Hlegal) as Hall.
  eapply Forall_forall in Hall; [|done]. destruct Hall as [Hmove _]. split; [|done].
  unfold expansions in Ha. apply elem_of_app in Ha as [Ha|Ha].
  - apply list_elem_of_bind in Ha as (pid & Ha & _). unfold piece_expansions in Ha.
    cbv zeta in Ha. apply list_elem_of_fmap in Ha as (item & -> & Hitem).
    cbn [exp_move turn_ok].
    assert (item.2 ∈ filter (λ mv : Move, mv.1.1.1 = pid) legal_moves) as Hin.
    { rewrite <- (enumerate_snd (filter _ legal_moves)). by apply list_elem_of_fmap_2. }
    apply list_elem_of_filter in Hin as [_ Hin]. by eapply Forall_forall in Hlegal.
  - unfold pass_expansion in Ha. destruct (Qltb _ _); [|by apply elem_of_nil in Ha].
    apply list_elem_of_singleton in Ha as ->. done.
Qed.

Lemma backup_loop_links fuel t cur v t' :
  backup_loop fuel t cur v = Ok t' →
  length t' = length t ∧
  ∀ i n, t !! i = Some n → ∃ n', t' !! i = Some n' ∧ same_links n n'.
Proof.
  revert t cur. induction fuel as [|fuel IH]; intros t [x|] Hrun; simpl in Hrun;
    try done; try (injection Hrun as <-; split; [done|]; intros i n Hi; by exists n).
  unfold get_node in Hrun. destruct (t !! x) as [nx|] eqn:Hx; [|done].
  cbn [mbind result_bind] in Hrun. apply IH in Hrun as [Hlen Hlinks].
  rewrite length_insert in Hlen. split; [done|]. intros i n Hi.
  destruct (decide (i = x)) as [->|Hne].
  - rewrite Hx in Hi. injection Hi as <-.
    destruct (Hlinks x (visit v nx)) as (n' & Hn' & Hl).
    { apply list_lookup_insert_eq. by eapply lookup_lt_Some. }
    exists n'. split; [done|]. eapply same_links_trans; [|done]. done.
  - apply Hlinks. by rewrite list_lookup_insert_ne.
Qed.

Lemma successors_links t t' :
  length t' = length t →
  (∀ i n, t !! i = Some n → ∃ n', t' !! i = Some n' ∧ same_links n n') →
  successors t → successors t'.
Proof.
  intros Hlen Hlinks Hsucc i n' c Hi Hc.
  destruct (lookup_lt_is_Some_2 t i) as [n Hn].
  { rewrite <- Hlen. by eapply lookup_lt_Some. }
  destruct (Hlinks i n Hn) as (n'' & Hn'' & Hst & _ & Hkids & _).
  rewrite Hi in Hn''. injection Hn'' as <-.
  unfold child_refs in Hc. rewrite Hkids in Hc.
  destruct (Hsucc i n c Hn Hc) as (cn & move & Hcn & Hok & Happly).
  destruct (Hlinks c cn Hcn) as (cn' & Hcn' & Hst' & _).
  exists cn', move. rewrite Hst, Hst'. done.
Qed.

Section evaluator_facts.
Variable np_exp : Q → Q.
Variable math_sqrt : Z → Q.
Hypothesis np_exp_nonneg : ∀ x, (0 <= np_exp x)%Q.
Hypothesis math_sqrt_nonneg : ∀ n, (0 <= math_sqrt n)%Q.
Variable model : Model.
Hypothesis model_logits : ∀ st, length (model st).1 = 22%nat.
Hypothesis model_value : ∀ st, (-1 <= (model st).2)%Q.
Variable c_puct : Q.
Hypothesis c_puct_nonneg : (0 <= c_puct)%Q.

Lemma expand_successors t x nx t1 :
  wf_tree t → successors t → t !! x = Some nx →
  is_terminal (state nx) = Ok false →
  expand_node np_exp t x model = Ok t1 →
  successors t1 ∧ ∀ i n, t !! i = Some n → ∃ n1, t1 !! i = Some n1 ∧ state n1 = state n.
Proof using np_exp_nonneg model_logits.
  intros Hwf Hsucc Hx Hterm Hrun.
  destruct (Hwf x nx Hx) as ([Hwfx _ _ _ _] & _ & Hkids).
  assert (x < length t)%nat as Hlt by (by eapply lookup_lt_Some).
  destruct (get_legal_moves_total (state nx) Hwfx) as (legal_moves & Hmoves & Hlegal).
  destruct (wf_state_remaining (state nx) Hwfx) as (hand & _ & Hhand & Hrange).
  destruct (decode_policy_ok np_exp np_exp_nonneg (model (state nx)).1 hand
              (model_logits _) Hrange) as (pol & Hpol & _).
  rewrite (expand_node_exact np_exp t x nx model legal_moves hand pol) in Hrun by done.
  injection Hrun as <-.
  set (acts := expansions (state nx) pol legal_moves hand).
  set (N := set_expanded (link_children nx (length t) acts)).
  assert (state N = state nx) as HstN by apply link_children_state.
  assert (∀ i, i ≠ x → (i < length t)%nat →
            (<[x := N]> (t ++ (child_node x <$> acts))) !! i = t !! i) as Hold.
  { intros i Hne Hi. rewrite list_lookup_insert_ne by done. by apply lookup_app_l. }
  assert ((<[x := N]> (t ++ (child_node x <$> acts))) !! x = Some N) as HxN.
  { apply list_lookup_insert_eq. rewrite length_app. lia. }
  split.
  - intros i n c Hi Hc. destruct (decide (i = x)) as [->|Hne].
    + rewrite HxN in Hi. injection Hi as <-.
      apply link_children_refs in Hc as [Hc|(j & a & Hj & ->)].
      * destruct (Hsucc x nx c Hx Hc) as (cn & move & Hcn & Hok & Happly).
        destruct (Hkids c Hc) as (Hxc & _).
        exists cn, move. rewrite HstN. split; [|done].
        rewrite Hold; [done|lia|]. by eapply lookup_lt_Some.
      * exists (child_node x a), (exp_move a). rewrite HstN. split.
        { rewrite list_lookup_insert_ne by lia. rewrite lookup_app_r by lia.
          replace (length t + j - length t)%nat with j by lia.
          by rewrite list_lookup_fmap, Hj. }
        apply (expansions_turns (state nx) pol legal_moves hand a); [done|done|].
        by eapply list_elem_of_lookup_2.
    + destruct (decide (i < length t)%nat) as [Hi'|Hi'].
      * rewrite Hold in Hi by done.
        destruct (Hsucc i n c Hi Hc) as (cn & move & Hcn & Hok & Happly).
        destruct (decide (c = x)) as [->|Hcx].
        -- exists N, move. rewrite Hx in Hcn. injection Hcn as <-.
           by rewrite HstN.
        -- exists cn, move. split; [|done]. rewrite Hold; [done|done|].
           by eapply lookup_lt_Some.
      * rewrite list_lookup_insert_ne in Hi by done.
        rewrite lookup_app_r in Hi by lia. rewrite list_lookup_fmap in Hi.
        destruct (acts !! _) as [a|]; [|done]. injection Hi as <-.
        by apply elem_of_nil in Hc.
  - intros i n Hi. destruct (decide (i = x)) as [->|Hne].
    + exists N. rewrite Hx in Hi. injection Hi as <-. done.
    + exists n. split; [|done]. rewrite Hold; [done..|]. by eapply lookup_lt_Some.
Qed.

Lemma simulate_successors t root t' :
  wf_tree t → successors t →
  simulate np_exp math_sqrt t root model c_puct = Ok t' →
  successors t' ∧ ∀ i n, t !! i = Some n → ∃ n', t' !! i = Some n' ∧ state n' = state n.
Proof using np_exp_nonneg model_logits.
  intros Hwf Hsucc Hrun. unfold simulate in Hrun.
  destruct (select_loop _ _ _ _ _) as [x|]; [|done]. cbn [mbind result_bind] in Hrun.
  unfold get_node at 1 in Hrun. destruct (t !! x) as [nx|] eqn:Hx; [|done].
  cbn [mbind result_bind] in Hrun.
  assert (∃ t1,
    (if expanded nx then mret t
     else terminal ← is_terminal (state nx);
          if terminal : bool then mret t else expand_node np_exp t x model) = Ok t1 ∧
    successors t1 ∧
    ∀ i n, t !! i = Some n → ∃ n1, t1 !! i = Some n1 ∧ state n1 = state n)
    as (t1 & Hstep & Hsucc1 & Hst1).
  { destruct (expanded nx).
    { exists t. split; [done|]. split; [done|]. intros i n Hi. by exists n. }
    destruct (is_terminal (state nx)) as [[|]|] eqn:Hterm; [| |done].
    { exists t. split; [done|]. split; [done|]. intros i n Hi. by exists n. }
    cbn [mbind result_bind] in *.
    destruct (expand_node np_exp t x model) as [t1|] eqn:Hexp; [|done].
    exists t1. split; [done|]. by eapply expand_successors. }
  rewrite Hstep in Hrun. cbn [mbind result_bind] in Hrun.
  destruct (evaluate_node t1 x model) as [v|]; [|done].
  cbn [mbind result_bind] in Hrun. unfold backup_value in Hrun.
  apply backup_loop_links in Hrun as [Hlen Hlinks]. split.
  - by eapply successors_links.
  - intros i n Hi. destruct (Hst1 i n Hi) as (n1 & Hn1 & Hs1).
    destruct (Hlinks i n1 Hn1) as (n' & Hn' & Hs' & _). exists n'.
    split; [done|]. congruence.
Qed.

Lemma simulations_successors k t root j :
  searched t root j → successors t →
  ∃ t', simulations np_exp math_sqrt k t root model c_puct = Ok t' ∧
    searched t' root (j + Z.of_nat k) ∧ successors t' ∧
    ∀ i n, t !! i = Some n → ∃ n', t' !! i = Some n' ∧ state n' = state n.
Proof using All.
  revert t j. induction k as [|k IH]; intros t j Hs Hsucc.
  { exists t. split; [done|]. rewrite Z.add_0_r. split; [done|]. split; [done|].
    intros i n Hi. by exists n. }
  destruct (simulate_spec np_exp math_sqrt np_exp_nonneg math_sqrt_nonneg model
              model_logits model_value c_puct c_puct_nonneg t root j Hs)
    as (t1 & Hrun1 & Hs1).
  destruct (simulate_successors t root t1 (proj1 Hs) Hsucc Hrun1) as [Hsucc1 Hst1].
  destruct (IH t1 (j + 1) Hs1 Hsucc1) as (t' & Hrun & Hs' & Hsucc' & Hst').
  exists t'. cbn [simulations]. rewrite Hrun1. cbn [mbind result_bind].
  split; [done|]. split.
  { by replace (j + Z.of_nat (S k)) with (j + 1 + Z.of_nat k) by lia. }
  split; [done|]. intros i n Hi. destruct (Hst1 i n Hi) as (n1 & Hn1 & Hs1').
  destruct (Hst' i n1 Hn1) as (n' & Hn' & Hs''). exists n'. split; [done|]. congruence.
Qed.
End evaluator_facts.

Lemma most_visited_some t (items : list (action_key * nat)) c v a bv' ba' :
  foldlM (most_visited_step t) (Some c, v, a) items ≠ Ok (None, bv', ba').
Proof.
  revert c v a. induction items as [|[ak' c'] items IH]; intros c v a; [done|].
  cbn [foldlM most_visited_step]. destruct (get_node t c'); [|done].
  cbn [mbind result_bind]. case_bool_decide; apply IH.
Qed.

(** The loop ends on one of the children, or on [None] when there is none. *)
Lemma most_visited_fold t (S : nat → Prop) (items : list (action_key * nat)) bc bv ba :
  (∀ c, c ∈ items.*2 → S c ∧ ∃ cn, t !! c = Some cn ∧ 0 ≤ visit_count cn) →
  match bc with None => bv = -1 | Some c => S c end →
  ∃ bc' bv' ba',
    foldlM (most_visited_step t) (bc, bv, ba) items = Ok (bc', bv', ba') ∧
    match bc' with None => items = [] | Some c => S c end.
Proof.
  revert bc bv ba. induction items as [|[ak c] items IH]; intros bc bv ba Hitems Hbest.
  { exists bc, bv, ba. split; [done|]. by destruct bc. }
  destruct (Hitems c) as (Hc & cn & Hcn & Hv); [by left|].
  cbn [foldlM most_visited_step]. unfold get_node. rewrite Hcn. cbn [mbind result_bind].
  assert (∀ c', c' ∈ items.*2 → S c' ∧ ∃ cn, t !! c' = Some cn ∧ 0 ≤ visit_count cn)
    as Hitems' by (intros c' Hc'; apply Hitems; by right).
  case_bool_decide as Hgt; cbn [mbind mret result_bind result_ret].
  - destruct (IH (Some c) (visit_count cn) (Some ak) Hitems' Hc)
      as (bc' & bv' & ba' & Hrun & Hres).
    exists bc', bv', ba'. split; [done|]. destruct bc'; [done|].
    by apply most_visited_some in Hrun.
  - destruct bc as [c0|]; [|lia].
    destruct (IH (Some c0) bv ba Hitems' Hbest) as (bc' & bv' & ba' & Hrun & Hres).
    exists bc', bv', ba'. split; [done|]. destruct bc'; [done|].
    by apply most_visited_some in Hrun.
Qed.

Section evaluator_games.
Variable np_exp : Q → Q.
Variable math_sqrt : Z → Q.
Hypothesis np_exp_nonneg : ∀ x, (0 <= np_exp x)%Q.
Hypothesis math_sqrt_nonneg : ∀ n, (0 <= math_sqrt n)%Q.
Variable model : Model.
Hypothesis model_logits : ∀ st, length (model st).1 = 22%nat.
Hypothesis model_value : ∀ st, (-1 <= (model st).2)%Q.

(** One turn of the evaluation plays a pass or a legal placement. *)
Lemma evaluator_turn_spec st :
  wf_state st → is_terminal st = Ok false →
  ∃ st' move, evaluator_turn np_exp math_sqrt model st = Ok st' ∧
    turn_ok st move ∧ apply_move st move = Ok st'.
Proof using All.
  intros Hwf Hterm. unfold evaluator_turn, mcts_search.
  destruct (simulations_successors np_exp math_sqrt np_exp_nonneg math_sqrt_nonneg
              model model_logits model_value 1 ltac:(done)
              (Z.to_nat 30) [MCTSNode_new st None] 0 0)
    as (t & -> & (Hwft & r & Hr & _) & Hsucc & Hst).
  { by apply searched_fresh. }
  { intros i n c Hi Hc. destruct i; [|done]. injection Hi as <-.
    by apply elem_of_nil in Hc. }
  cbn [mbind result_bind]. unfold get_node. rewrite Hr. cbn [mbind result_bind].
  destruct (Hst 0%nat (MCTSNode_new st None) ltac:(done)) as (r' & Hr' & Hstate).
  rewrite Hr in Hr'. injection Hr' as <-. cbn [state MCTSNode_new] in Hstate.
  destruct (Hwft 0%nat r Hr) as (_ & _ & Hkids).
  destruct (most_visited_fold t (λ c, c ∈ child_refs r) (children r) None (-1) None)
    as (bc & bv & ba & -> & Hres); [|done|].
  { intros c Hc. split; [done|]. destruct (Hkids c Hc) as (_ & cn & Hcn & _).
    exists cn. split; [done|]. destruct (Hwft c cn Hcn) as ([_ Hv _ _ _] & _). done. }
  cbn [mbind result_bind]. destruct bc as [c|].
  - destruct (Hsucc 0%nat r c Hr Hres) as (cn & move & Hcn & Hok & Happly).
    rewrite Hcn. cbn [mbind result_bind].
    exists (state cn), move. rewrite <- Hstate. done.
  - exists (match apply_move st None with Ok s => s | Raise _ => st end), None.
    by rewrite apply_move_pass.
Qed.

(** A game of the evaluation ends, on a terminal state. *)
Lemma evaluator_game_ends fuel st :
  wf_state st → turns_left st ≤ Z.of_nat fuel →
  ∃ final, evaluator_game np_exp math_sqrt fuel model st = Ok final ∧
    wf_state final ∧ is_terminal final = Ok true.
Proof using All.
  revert st. induction fuel as [|fuel IH]; intros st Hwf Hfuel.
  - destruct (is_terminal_spec st (proj1 (proj2 Hwf))) as (b & Hb & _).
    destruct b.
    + exists st. cbn [evaluator_game]. rewrite Hb. done.
    + destruct (evaluator_turn_spec st Hwf Hb) as (st' & move & _ & Hok & Happly).
      destruct (turns_left_step st move st' Hwf Hb Hok Happly) as [_ Hless]. lia.
  - destruct (is_terminal_spec st (proj1 (proj2 Hwf))) as (b & Hb & _).
    cbn [evaluator_game]. rewrite Hb. cbn [mbind result_bind]. destruct b.
    + by exists st.
    + destruct (evaluator_turn_spec st Hwf Hb) as (st' & move & -> & Hok & Happly).
      cbn [mbind result_bind].
      destruct (turns_left_step st move st' Hwf Hb Hok Happly) as [Hwf' Hless].
      apply IH; [done|lia].
Qed.
End evaluator_games.

(** X19: without games there is no average.  With [n_games = 0]
    [evaluate_vs_random] raises [ZeroDivisionError], and with a negative
    number of games it plays none and returns 0 divided by that number;
    the model is not consulted in either case. *)
Theorem evaluate_vs_random_no_games (np_exp : Q → Q) (math_sqrt : Z → Q) fuel
    (model : Model) n_games :
  n_games ≤ 0 →
  evaluate_vs_random np_exp math_sqrt fuel model n_games
  = if bool_decide (n_games = 0) then Failed ZeroDivisionError
    else Done (0 / inject_Z n_games)%Q.
Proof.
  intros Hn. unfold evaluate_vs_random, py_range.
  assert (seqZ 0 n_games = []) as ->.
  { unfold seqZ. by replace (Z.to_nat n_games) with 0%nat by lia. }
  done.
Qed.

Lemma evaluate_vs_random_no_games_witness :
  evaluate_vs_random exp_approx sqrt_approx 340 uniform_model 0
  = if bool_decide (0 = 0) then Failed ZeroDivisionError else Done (0 / inject_Z 0)%Q.
Proof.
  apply (evaluate_vs_random_no_games exp_approx sqrt_approx 340 uniform_model 0). lia.
Defined.

Lemma foldlM_pointwise {A B} (f g : B → A → result B) (l : list A) (b : B) :
  (∀ b x, f b x = g b x) → foldlM f b l = foldlM g b l.
Proof.
  intros Hfg. revert b. induction l as [|x l IH]; intros b; [done|].
  cbn [foldlM]. rewrite Hfg. destruct (g b x); cbn [mbind result_bind]; [apply IH|done].
Qed.

Lemma same_game_total (game : result Z) score (l : list Z) (acc : Q) :
  game = Ok score →
  ∃ total,
    foldlM (λ total_score_sum (_ : Z),
              sc ← game; mret (total_score_sum + inject_Z sc)%Q) acc l = Ok total ∧
    (total == acc + inject_Z (Z.of_nat (length l)) * inject_Z score)%Q.
Proof.
  intros ->. revert acc. induction l as [|x l IH]; intros acc.
  { exists acc. split; [done|]. cbn [length]. change (inject_Z (Z.of_nat 0)) with 0%Q.
    ring. }
  destruct (IH (acc + inject_Z score)%Q) as (total & Hrun & Htotal).
  exists total. split; [exact Hrun|]. rewrite Htotal. cbn [length].
  rewrite Nat2Z.inj_succ. unfold Z.succ. rewrite inject_Z_plus.
  change (inject_Z 1) with 1%Q. ring.
Qed.

(** X20: the evaluation plays one game over and over.  For a model that
    gives 22 logits and a value of at least -1 for every state, and with
    room for 340 turns, every game of [evaluate_vs_random] ends: each turn
    plays a pass or a legal placement.  Nothing in it is random, so the
    games are all the same game, and the average that is returned for a
    positive [n_games] is the final score of color 0 in that game, a
    number from -89 to 0. *)
Theorem evaluate_vs_random_plays_one_game (np_exp : Q → Q) (math_sqrt : Z → Q)
    (model : Model) fuel n_games :
  (∀ x, (0 <= np_exp x)%Q) → (∀ n, (0 <= math_sqrt n)%Q) →
  (∀ st, length (model st).1 = 22%nat) → (∀ st, (-1 <= (model st).2)%Q) →
  (340 ≤ fuel)%nat → 0 < n_games →
  ∃ final final_scores score avg,
    evaluator_game np_exp math_sqrt fuel model BoardState_init = Ok final ∧
    is_terminal final = Ok true ∧
    compute_final_scores final = Ok final_scores ∧
    py_getitem final_scores 0 = Ok score ∧ -89 ≤ score ≤ 0 ∧
    evaluate_vs_random np_exp math_sqrt fuel model n_games = Done avg ∧
    (avg == inject_Z score)%Q.
Proof.
  intros Hexp Hsqrt Hlogits Hvalue Hfuel Hn.
  destruct (evaluator_game_ends np_exp math_sqrt Hexp Hsqrt model Hlogits Hvalue
              fuel BoardState_init wf_state_init) as (final & Hgame & Hwf & Hterm).
  { assert (turns_left BoardState_init = 340) as -> by (by vm_compute). lia. }
  destruct (compute_final_scores_ok final Hwf) as (scores & Hscores & Hlen & Hall).
  destruct (py_getitem_lookup scores 0) as (score & Hl & Hscore); [lia|].
  assert (-89 ≤ score ≤ 0) as Hrange.
  { eapply Forall_forall in Hall; [apply Hall|]. by eapply list_elem_of_lookup_2. }
  destruct (same_game_total
              (st ← evaluator_game np_exp math_sqrt fuel model BoardState_init;
               final_scores ← compute_final_scores st;
               py_getitem final_scores 0)
              score (py_range n_games) 0%Q) as (total & Hrun & Htotal).
  { rewrite Hgame. cbn [mbind result_bind]. rewrite Hscores. done. }
  exists final, scores, score. eexists.
  split; [done|]. split; [done|]. split; [done|]. split; [done|]. split; [done|].
  unfold evaluate_vs_random.
  assert (foldlM (λ total_score_sum (_ : Z),
            st ← evaluator_game np_exp math_sqrt fuel model BoardState_init;
            final_scores ← compute_final_scores st;
            score ← py_getitem final_scores 0;
            mret (total_score_sum + inject_Z score)%Q) 0%Q (py_range n_games)
          = Ok total) as ->.
  { rewrite <- Hrun. apply foldlM_pointwise. intros acc _.
    destruct (evaluator_game _ _ _ _ _) as [st|]; cbn [mbind result_bind]; [|done].
    destruct (compute_final_scores st) as [fs|]; cbn [mbind result_bind]; [|done].
    destruct (py_getitem fs 0); done. }
  cbn [lift_result mbind outcome_bind]. rewrite bool_decide_false by lia.
  split; [done|]. rewrite Htotal. unfold py_range.
  rewrite length_seqZ, Z2Nat.id by lia.
  assert (¬ inject_Z n_games == 0)%Q as Hne.
  { intros Heq. apply (inject_Z_injective n_games 0) in Heq. lia. }
  field. done.
Qed.

Lemma evaluate_vs_random_plays_one_game_witness :
  ∃ final final_scores score avg,
    evaluator_game exp_approx sqrt_approx 340 uniform_model BoardState_init = Ok final ∧
    is_terminal final = Ok true ∧
    compute_final_scores final = Ok final_scores ∧
    py_getitem final_scores 0 = Ok score ∧ -89 ≤ score ≤ 0 ∧
    evaluate_vs_random exp_approx sqrt_approx 340 uniform_model 5 = Done avg ∧
    (avg == inject_Z score)%Q.
Proof.
  apply (evaluate_vs_random_plays_one_game exp_approx sqrt_approx uniform_model 340 5).
  - apply exp_approx_nonneg.
  - apply sqrt_approx_nonneg.
  - intros st. reflexivity.
  - intros st. discriminate.
  - lia.
  - lia.
Defined.

(** ** self_play.py *)

Lemma link_children_items n base acts k c :
  (k, c) ∈ children (link_children n base acts) →
  (k, c) ∈ children n ∨ ∃ j a, acts !! j = Some a ∧ k = exp_key a ∧ c = (base + j)%nat.
Proof.
  induction acts as [|a acts IH] using rev_ind; [by left|].
  rewrite link_children_snoc. cbv zeta. cbn [children].
  intros Hc%dict_set_elem_of. destruct Hc as [Hc|[= -> ->]].
  - destruct (IH Hc) as [?|(j & b & Hj & -> & ->)]; [by left|]. right. exists j, b.
    split; [|done]. by apply lookup_app_l_Some.
  - right. exists (length acts), a. split; [|done].
    by rewrite lookup_app_r, Nat.sub_diag.
Qed.

Lemma link_children_not_nil n base a acts :
  children (link_children n base (a :: acts)) ≠ [].
Proof.
  induction acts as [|b acts IH] using rev_ind.
  - simpl. apply dict_set_not_nil.
  - rewrite app_comm_cons, link_children_snoc. cbv zeta. cbn [children].
    apply dict_set_not_nil.
Qed.

Lemma expansions_piece_keys s pol legal_moves hand a pid idx :
  a ∈ expansions s pol legal_moves hand → exp_key a = Place pid idx → pid ∈ hand.
Proof.
  unfold expansions. intros [Ha|Ha]%elem_of_app Hkey.
  - apply list_elem_of_bind in Ha as (p & Ha & Hp%elem_of_elements).
    assert (exp_key a ∈ exp_key <$> piece_expansions s pol legal_moves p) as Hin
      by (by apply list_elem_of_fmap_2).
    rewrite piece_expansions_keys, Hkey in Hin.
    by apply list_elem_of_fmap in Hin as (i & [= -> _] & _).
  - unfold pass_expansion in Ha. destruct (Qltb _ _); [|by apply elem_of_nil in Ha].
    apply list_elem_of_singleton in Ha as ->. done.
Qed.

(** *** The visit counts as a policy *)

Lemma count_visits_zero t (items : list (action_key * nat)) visits :
  Forall (λ item : action_key * nat,
            ∃ cn, t !! item.2 = Some cn ∧ visit_count cn = 0) items →
  ∃ visits',
    foldlM (count_visits_step t) (visits, 0) items = Ok (visits', 0) ∧
    (items ≠ [] → visits' ≠ []) ∧ (visits ≠ [] → visits' ≠ []) ∧
    ∀ k, k ∈ visits'.*1 → k ∈ visits.*1 ∨ k ∈ (visits_key <$> items.*1).
Proof.
  revert visits. induction items as [|[ak c] items IH]; intros visits Hitems.
  { exists visits. split; [done|]. split; [done|]. split; [done|]. intros k Hk. by left. }
  apply Forall_cons in Hitems as [(cn & Hcn & Hv) Hitems]. simpl in Hcn.
  cbn [foldlM count_visits_step]. unfold get_node. rewrite Hcn.
  cbn [mbind mret result_bind result_ret]. rewrite Hv, !Z.add_0_r.
  destruct (IH (dict_set visits (visits_key ak)
                  (default 0 (dict_get visits (visits_key ak)))) Hitems)
    as (visits' & Hrun & _ & Hne & Hkeys).
  exists visits'. split; [done|]. split; [intros _; apply Hne, dict_set_not_nil|].
  split; [intros _; apply Hne, dict_set_not_nil|].
  intros k Hk. destruct (Hkeys k Hk) as [Hin|Hin].
  - apply list_elem_of_fmap in Hin as ([k' v'] & -> & Hin).
    apply dict_set_elem_of in Hin as [Hin|[= -> _]].
    + left. apply list_elem_of_fmap. by exists (k', v').
    + right. cbn [fmap list_fmap fst]. by left.
  - right. cbn [fmap list_fmap fst]. by right.
Qed.

Lemma policy_loop_zero (visits : list (policy_key * Z)) (pids : list Z) (pi : list Q) :
  foldlO (λ pi pid,
            match dict_get visits (KPiece pid) with
            | Some v => q ← py_div v 0; lift_result (py_setitem pi pid q)
            | None => mret pi
            end) pi pids = Failed ZeroDivisionError ∨
  foldlO (λ pi pid,
            match dict_get visits (KPiece pid) with
            | Some v => q ← py_div v 0; lift_result (py_setitem pi pid q)
            | None => mret pi
            end) pi pids = Done pi ∧
  ∀ pid, pid ∈ pids → dict_get visits (KPiece pid) = None.
Proof.
  induction pids as [|pid pids IH].
  { right. split; [done|]. by intros pid ?%elem_of_nil. }
  cbn [foldlO]. destruct (dict_get visits (KPiece pid)) as [v|] eqn:Hget.
  { left. done. }
  cbn [mbind mret outcome_bind outcome_ret]. destruct IH as [IH|[IH Hnone]]; [by left|].
  right. split; [done|]. intros p [->|Hp]%elem_of_cons; [done|]. by apply Hnone.
Qed.

Lemma dict_get_head {K V} `{EqDecision K} (d : list (K * V)) :
  d ≠ [] → ∃ k v, k ∈ d.*1 ∧ dict_get d k = Some v.
Proof.
  destruct d as [|[k v] d]; [done|]. intros _. exists k, v. split; [by left|].
  simpl. by rewrite decide_True.
Qed.

(** Without a visit there is no distribution. *)
Lemma policy_target_zero (visits : list (policy_key * Z)) :
  visits ≠ [] →
  (∀ pid, KPiece pid ∈ visits.*1 → 0 ≤ pid < 21) →
  policy_target visits 0 = Failed ZeroDivisionError.
Proof.
  intros Hne Hkeys. unfold policy_target.
  destruct (policy_loop_zero visits (py_range 21) (replicate 22 0%Q)) as [->|[-> Hnone]];
    [done|]. cbn [mbind outcome_bind].
  destruct (dict_get_head visits Hne) as ([pid|] & v & Hin & Hget).
  - rewrite Hnone in Hget; [done|]. unfold py_range. apply elem_of_seqZ.
    specialize (Hkeys pid Hin). lia.
  - by rewrite Hget.
Qed.

Lemma visit_policy_zero t root :
  children root ≠ [] →
  Forall (λ item : action_key * nat,
            ∃ cn, t !! item.2 = Some cn ∧ visit_count cn = 0) (children root) →
  (∀ pid idx, Place pid idx ∈ (children root).*1 → 0 ≤ pid < 21) →
  visit_policy t root = Failed ZeroDivisionError.
Proof.
  intros Hne Hzero Hkeys. unfold visit_policy.
  destruct (count_visits_zero t (children root) [] Hzero) as (visits & -> & Hne' & _ & Hin).
  cbn [lift_result mbind outcome_bind]. apply policy_target_zero; [by apply Hne'|].
  intros pid Hpid. destruct (Hin _ Hpid) as [[]%elem_of_nil|Hk].
  apply list_elem_of_fmap in Hk as ([p idx|] & Heq & Hk); [|done].
  injection Heq as ->. by eapply Hkeys.
Qed.

Lemma link_children_parent n base acts : parent (link_children n base acts) = parent n.
Proof.
  revert n base. induction acts as [|a acts IH]; intros n base; [done|]. simpl.
  by rewrite IH.
Qed.

Section one_simulation.
Variable np_exp : Q → Q.
Variable math_sqrt : Z → Q.
Hypothesis np_exp_nonneg : ∀ x, (0 <= np_exp x)%Q.
Variable model : Model.
Hypothesis model_logits : ∀ st, length (model st).1 = 22%nat.

(** A search of one simulation from a new root expands the root and
    visits nothing but the root. *)
Lemma first_simulation st :
  wf_state st → is_terminal st = Ok false →
  ∃ legal_moves hand pol,
    get_legal_moves st = Ok legal_moves ∧
    py_getitem (pieces_remaining st) (current_player st) = Ok hand ∧
    decode_policy np_exp (model st).1 hand 1 = Ok pol ∧
    mcts_search np_exp math_sqrt [MCTSNode_new st None] 0 model 1 1
    = Ok (<[0%nat := visit (model st).2
                       (set_expanded
                          (link_children (MCTSNode_new st None) 1
                             (expansions st pol legal_moves hand)))]>
            ([MCTSNode_new st None]
             ++ (child_node 0 <$> expansions st pol legal_moves hand))).
Proof using np_exp_nonneg model_logits.
  intros Hwf Hterm.
  destruct (get_legal_moves_total st Hwf) as (legal_moves & Hmoves & Hlegal).
  destruct (wf_state_remaining st Hwf) as (hand & _ & Hhand & Hrange).
  destruct (decode_policy_ok np_exp np_exp_nonneg (model st).1 hand
              (model_logits _) Hrange) as (pol & Hpol & _).
  exists legal_moves, hand, pol. split; [done|]. split; [done|]. split; [done|].
  set (r0 := MCTSNode_new st None).
  set (acts := expansions st pol legal_moves hand).
  set (N := set_expanded (link_children r0 1 acts)).
  assert (expand_node np_exp [r0] 0 model = Ok (<[0%nat := N]> ([r0] ++ (child_node 0 <$> acts))))
    as Hexpand by (by apply (expand_node_exact np_exp [r0] 0%nat r0 model legal_moves hand pol)).
  set (t := <[0%nat := N]> ([r0] ++ (child_node 0 <$> acts))) in *.
  assert (t !! 0%nat = Some N) as Ht by done.
  assert (state N = st) as HstN by apply link_children_state.
  assert (parent N = None) as HpN by apply link_children_parent.
  unfold mcts_search. change (Z.to_nat 1) with 1%nat. cbn [simulations].
  unfold simulate. cbn [length select_loop]. unfold get_node.
  change ([r0] !! 0%nat) with (Some r0). cbn [mbind result_bind].
  cbn [r0 MCTSNode_new expanded andb mret result_ret mbind result_bind].
  change ([r0] !! 0%nat) with (Some r0). cbn [mbind result_bind].
  cbn [r0 MCTSNode_new expanded state]. fold r0. rewrite Hterm.
  cbn [mbind result_bind]. rewrite Hexpand. cbn [mbind result_bind].
  unfold evaluate_node, get_node. rewrite Ht. cbn [mbind result_bind].
  rewrite HstN, Hterm. cbn [mbind result_bind].
  destruct (model st) as [logits value] eqn:Hmodel. cbn [mret result_ret mbind result_bind snd].
  unfold backup_value.
  assert (length t = S (length acts)) as ->.
  { unfold t. rewrite length_insert, length_app, length_fmap. done. }
  cbn [backup_loop]. unfold get_node. rewrite Ht. cbn [mbind result_bind].
  rewrite HpN. destruct (length acts); cbn [backup_loop mret result_ret];
    unfold t; by rewrite list_insert_insert_eq.
Qed.
End one_simulation.

(** X21: self-play with one simulation a turn never gets past its first
    turn.  The one simulation expands the root and visits no child, so the
    visits add up to 0 and the policy target divides by 0:
    [run_self_play_game] raises [ZeroDivisionError] for every model that
    gives 22 logits and whatever the random draws are, and with it
    [generate_self_play_data] for one game or more.  One simulation is
    the default of [train_alphablokus]. *)
Theorem self_play_one_simulation (np_exp : Q → Q) (math_sqrt : Z → Q)
    (random_choices : nat → list Q → result Z) (model : Model) fuel :
  (∀ x, (0 <= np_exp x)%Q) → (∀ st, length (model st).1 = 22%nat) → (0 < fuel)%nat →
  (∀ draws, run_self_play_game np_exp math_sqrt random_choices fuel model 1 draws
            = Failed ZeroDivisionError) ∧
  ∀ n_games, 0 < n_games →
    generate_self_play_data np_exp math_sqrt random_choices fuel model n_games 1
    = Failed ZeroDivisionError.
Proof.
  intros Hexp Hlogits Hfuel.
  assert (∀ draws, run_self_play_game np_exp math_sqrt random_choices fuel model 1 draws
                   = Failed ZeroDivisionError) as Hgame.
  { intros draws. unfold run_self_play_game. cbv zeta.
    destruct fuel as [|fuel]; [lia|]. cbn [self_play_loop sp_st].
    assert (is_terminal BoardState_init = Ok false) as Hterm by (by vm_compute).
    rewrite Hterm. cbn [lift_result mbind outcome_bind].
    unfold self_play_turn. cbn [sp_tree sp_root sp_st].
    destruct (first_simulation np_exp math_sqrt Hexp model Hlogits BoardState_init
                wf_state_init Hterm) as (legal_moves & hand & pol & Hmoves & Hhand & Hpol & ->).
    set (acts := expansions BoardState_init pol legal_moves hand).
    set (r0 := MCTSNode_new BoardState_init None).
    set (N := set_expanded (link_children r0 1 acts)).
    set (t := <[0%nat := visit _ N]> _).
    cbn [lift_result mbind outcome_bind].
    assert (t !! 0%nat = Some (visit (model BoardState_init).2 N)) as Ht by done.
    unfold get_node. rewrite Ht. cbn [lift_result mbind outcome_bind].
    rewrite visit_policy_zero; [done|..].
    - cbn [visit children N set_expanded].
      destruct (get_legal_moves_members BoardState_init wf_state_init)
        as (legal' & Hmoves' & Hmem).
      rewrite Hmoves in Hmoves'. injection Hmoves' as <-.
      assert (((0, 0, 0, {[ (0, 0) ]}) : Move) ∈ legal_moves) as Hin.
      { apply Hmem. split; [by vm_compute|].
        exists {[ (0, 0) ]}, [ {[ (0, 0) ]} ]. cbn [fst snd].
        split; [by vm_compute|]. split; [by vm_compute|]. by left. }
      pose proof (expansions_moves BoardState_init pol legal_moves hand Hmoves Hhand)
        as Hacts. fold acts in Hacts.
      destruct acts as [|a acts'] eqn:Hacts'.
      + exfalso. destruct legal_moves as [|m ms].
        * exact (not_elem_of_nil _ Hin).
        * clear -Hacts. rewrite fmap_nil, fmap_cons in Hacts. discriminate Hacts.
      + apply link_children_not_nil.
    - cbn [visit children N set_expanded]. apply Forall_forall. intros [k c] Hkc.
      apply link_children_items in Hkc as [[]%elem_of_nil|(j & a & Hj & -> & ->)].
      exists (child_node 0 a). split; [|done]. cbn [snd]. unfold t.
      rewrite list_lookup_insert_ne by lia. rewrite lookup_app_r by (simpl; lia).
      cbn [length]. replace (1 + j - 1)%nat with j by lia.
      by rewrite list_lookup_fmap, Hj.
    - cbn [visit children N set_expanded]. intros pid idx Hk.
      apply list_elem_of_fmap in Hk as ([k c] & Hk & Hkc). cbn [fst] in Hk. subst k.
      apply link_children_items in Hkc as [[]%elem_of_nil|(j & a & Hj & Hkey & _)].
      destruct (wf_state_remaining BoardState_init wf_state_init)
        as (hand' & _ & Hhand' & Hrange).
      rewrite Hhand in Hhand'. injection Hhand' as <-. apply Hrange.
      eapply (expansions_piece_keys _ _ _ _ a); [|done].
      by eapply list_elem_of_lookup_2. }
  split; [done|]. intros n_games Hn. unfold generate_self_play_data, py_range.
  destruct (seqZ 0 n_games) as [|g gs] eqn:Hseq.
  { apply (f_equal length) in Hseq. rewrite length_seqZ in Hseq. simpl in Hseq. lia. }
  cbn [foldlO]. by rewrite Hgame.
Qed.

Lemma self_play_one_simulation_witness :
  (∀ draws, run_self_play_game exp_approx sqrt_approx (λ _ _, Ok 21) 340 uniform_model 1 draws
            = Failed ZeroDivisionError) ∧
  ∀ n_games, 0 < n_games →
    generate_self_play_data exp_approx sqrt_approx (λ _ _, Ok 21) 340 uniform_model n_games 1
    = Failed ZeroDivisionError.
Proof.
  apply (self_play_one_simulation exp_approx sqrt_approx (λ _ _, Ok 21) uniform_model 340).
  - apply exp_approx_nonneg.
  - intros st. reflexivity.
  - lia.
Defined.


Lemma get_legal_moves_sound_complete_witness :
  ∃ legal_moves, get_legal_moves BoardState_init = Ok legal_moves ∧
    ∀ mv : Move, mv ∈ legal_moves ↔
      check_legal_move BoardState_init mv = Ok true ∧
      ∃ shape os, py_getitem ALL_SHAPES mv.1.1.1 = Ok shape ∧
                  get_all_orientations shape = Ok os ∧ mv.2 ∈ os.
Proof.
  apply (get_legal_moves_sound_complete BoardState_init).
  apply wf_state_init.
Defined.

Lemma apply_move_legal_effect_witness :
  ∃ s' remaining made,
    apply_move BoardState_init (Some (0, 0, 0, {[ (0, 0) ]})) = Ok s' ∧
    wf_state s' ∧
    pieces_remaining BoardState_init !! Z.to_nat (current_player BoardState_init)
      = Some remaining ∧
    0 ∈ remaining ∧
    moves_made BoardState_init !! Z.to_nat (current_player BoardState_init) = Some made ∧
    pieces_remaining s'
    = <[Z.to_nat (current_player BoardState_init) := remaining ∖ {[ 0 ]}]>
        (pieces_remaining BoardState_init) ∧
    moves_made s'
    = <[Z.to_nat (current_player BoardState_init) := made + 1]> (moves_made BoardState_init) ∧
    current_player s' = (current_player BoardState_init + 1) `mod` 4 ∧
    consecutive_passes s' = 0 ∧
    ∀ r c, on_board r c = true →
      owner (board_grid s') r c
      = if bool_decide ((r, c) ∈ placed_cells 0 0 {[ (0, 0) ]})
        then Some (current_player BoardState_init)
        else owner (board_grid BoardState_init) r c.
Proof.
  apply (apply_move_legal_effect BoardState_init 0 0 0 {[ (0, 0) ]}).
  - apply wf_state_init.
  - vm_compute. reflexivity.
Defined.

Lemma turn_makes_progress_witness :
  ∃ s', apply_move BoardState_init (Some (0, 0, 0, {[ (0, 0) ]})) = Ok s' ∧ wf_state s' ∧
    0 ≤ turns_left s' < turns_left BoardState_init.
Proof.
  apply (turn_makes_progress BoardState_init (Some (0, 0, 0, {[ (0, 0) ]}))).
  - apply wf_state_init.
  - vm_compute. reflexivity.
  - vm_compute. reflexivity.
Defined.

Lemma game_length_bound_witness :
  wf_state after_first_move ∧
  Z.of_nat (length [Some ((0, 0, 0, {[ (0, 0) ]})%Z : Move)]) ≤ turns_left BoardState_init ∧
  (BoardState_init = BoardState_init →
   (length [Some ((0, 0, 0, {[ (0, 0) ]})%Z : Move)] ≤ 340)%nat).
Proof.
  apply (game_length_bound BoardState_init [Some ((0, 0, 0, {[ (0, 0) ]})%Z : Move)]
           after_first_move).
  - apply wf_state_init.
  - simpl. lia.
  - eapply played_cons; [| | |apply played_nil].
    + vm_compute. reflexivity.
    + vm_compute. reflexivity.
    + vm_compute. reflexivity.
Defined.

Lemma compute_final_scores_exact_witness :
  ∃ scores, compute_final_scores BoardState_init = Ok scores ∧ length scores = 4%nat ∧
    ∀ color hand, 0 ≤ color < 4 →
      pieces_remaining BoardState_init !! Z.to_nat color = Some hand →
      ∃ score, scores !! Z.to_nat color = Some score ∧
        score = - Zsum (squares_of <$> elements hand) ∧
        -89 ≤ score ≤ 0 ∧ (score = 0 ↔ hand = ∅).
Proof.
  apply (compute_final_scores_exact BoardState_init).
  apply wf_state_init.
Defined.

Lemma decode_policy_distribution_witness :
  ∃ pol, decode_policy exp_approx (replicate 22 0%Q) {[ 0; 5 ]} 1 = Ok pol ∧
    pol.*1 = (KPiece <$> filter (λ i, i ∈ ({[ 0; 5 ]} : gset Z)) (py_range 21)) ++ [KPass] ∧
    Forall (λ p, 0 <= p <= 1)%Q pol.*2 ∧ (Qsum pol.*2 <= 1)%Q ∧
    (({[ 0; 5 ]} : gset Z) = ∅ → pol = [(KPass, 1%Q)]).
Proof.
  apply (decode_policy_distribution exp_approx (replicate 22 0%Q) {[ 0; 5 ]} 1).
  - apply exp_approx_nonneg.
  - reflexivity.
  - intros pid Hpid. apply elem_of_union in Hpid as [Hpid|Hpid];
      apply elem_of_singleton in Hpid; lia.
Defined.

Lemma decode_policy_needs_22_logits_witness :
  decode_policy exp_approx (replicate 21 0%Q) {[ 0; 5 ]} 1 = Raise IndexError.
Proof.
  apply (decode_policy_needs_22_logits exp_approx (replicate 21 0%Q) {[ 0; 5 ]} 1).
  simpl. lia.
Defined.

Lemma expand_node_children_witness :
  ∃ legal_moves hand pol t' n',
    get_legal_moves two_piece_state = Ok legal_moves ∧
    py_getitem (pieces_remaining two_piece_state) (current_player two_piece_state) = Ok hand ∧
    decode_policy exp_approx (uniform_model two_piece_state).1 hand 1 = Ok pol ∧
    expand_node exp_approx [MCTSNode_new two_piece_state None] 0 uniform_model = Ok t' ∧
    let acts := expansions two_piece_state pol legal_moves hand in
    t' = <[0%nat := n']> ([MCTSNode_new two_piece_state None] ++ (child_node 0 <$> acts)) ∧
    n' = {| state := two_piece_state; parent := None;
            children := zip (exp_key <$> acts) (seq 1 (length acts));
            visit_count := 0; total_value := 0%Q;
            priors := zip (exp_key <$> acts) (exp_prior <$> acts);
            expanded := true; last_action_key := None |} ∧
    NoDup (exp_key <$> acts) ∧
    exp_move <$> acts
    = (Some <$> legal_moves) ++ (if Qltb 0 (decoded pol KPass) then [None] else []) ∧
    Forall (λ a, apply_move two_piece_state (exp_move a) = Ok (exp_state a)) acts.
Proof.
  apply (expand_node_children exp_approx [MCTSNode_new two_piece_state None] 0
           (MCTSNode_new two_piece_state None) uniform_model).
  - apply exp_approx_nonneg.
  - reflexivity.
  - apply wf_two_piece_state.
  - reflexivity.
  - reflexivity.
  - reflexivity.
  - reflexivity.
Defined.




Lemma wf_four_passes_state : wf_state four_passes_state.
Proof.
  unfold wf_state, wf_grid, four_passes_state, BoardState_init.
  cbn [board_grid pieces_remaining moves_made current_player].
  split_and!; try done.
  - by apply Forall_replicate.
  - apply Forall_replicate. intros pid Hpid.
    apply elem_of_list_to_set, elem_of_seqZ in Hpid. lia.
Qed.

Lemma mcts_search_terminal_root_witness :
  ∃ scores sc r,
    compute_final_scores four_passes_state = Ok scores ∧
    py_getitem scores (current_player four_passes_state) = Ok sc ∧ -89 ≤ sc ≤ 0 ∧
    mcts_search exp_approx sqrt_approx [MCTSNode_new four_passes_state None] 0
      uniform_model 3 1 = Ok [r] ∧
    state r = four_passes_state ∧ children r = [] ∧ priors r = [] ∧ expanded r = false ∧
    visit_count r = 3.
Proof.
  apply (mcts_search_terminal_root exp_approx sqrt_approx uniform_model 1
           four_passes_state 3).
  - apply wf_four_passes_state.
  - reflexivity.
  - lia.
Defined.
